(** * zkfs-symbols: wire codec and compression pipeline

    A shallow embedding of the TypeScript sources
    (src/codec/*.ts, src/compress/*.ts) together with the properties the
    specification states about them.

    Conventions of the embedding.
    - A JavaScript [number] that holds an integer is a [Z].  Double
      arithmetic on integers is exact below 2^53, and the sources take care
      to stay there ([Math.floor(value / 128)] instead of a shift); the
      places where they rely on the 32-bit conversions of the bitwise
      operators are written out with [to_int32] / [to_uint32].  The only
      numbers of 2^53 and more the code can compute are the values
      [decode_varint] reads from eight bytes, which the source rounds; no
      property below depends on such a value.
    - A [Uint8Array] is a [list Z] of values in [0, 256).
    - A function that may [throw] returns a [result]; a loop the source may
      never leave returns [Err Diverges]. *)

From Stdlib Require Import ZArith List Lia Bool Arith QArith Permutation.
Import ListNotations.
Local Open Scope Z_scope.

(* ===================================================================== *)
(** * Errors and the error monad *)
(* ===================================================================== *)

(** One constructor per [throw] site kind of the sources. *)
Inductive error : Type :=
| Negative            (* varint.ts: "varint must be non-negative" *)
| TooLarge            (* varint.ts: "varint too large" *)
| Truncated           (* varint.ts: "varint: unexpected end of buffer" *)
| TooShort            (* constants.ts: "envelope too short" *)
| BadMagic            (* constants.ts: "invalid magic bytes" *)
| BadVersion          (* constants.ts: "unsupported version" *)
| BadCrc              (* constants.ts: "CRC32 checksum mismatch" *)
| BadTag              (* "expected ... tag", "unexpected node tag" *)
| Malformed           (* constants.ts: "unknown role byte" *)
| UncodedSymbol       (* symbol-tree.ts: "symbol ... has no code" *)
| BadCode             (* symbol-tree.ts: "invalid huffman code" *)
| LengthMismatch      (* symbol-tree.ts: "decoded ... bytes, expected ..." *)
| BadLengths          (* symbol-tree.ts: "... must have 256 entries" *)
| TooManyStrings      (* dictionary.ts: "too many strings" *)
| BadMethod           (* pipeline.ts: "unknown compression method" *)
| MissingCollaborator (* pipeline.ts: "... not provided" *)
| OutOfBounds         (* RangeError of TypedArray.prototype.set *)
| TypeError           (* property access on undefined *)
| Diverges            (* the source does not return *)
| OutOfFuel.          (* artefact of the embedding, shown unreachable *)

Inductive result (A : Type) : Type :=
| OK (a : A)
| Err (e : error).
Arguments OK {A} a.
Arguments Err {A} e.

Definition bind {A B : Type} (r : result A) (k : A -> result B) : result B :=
  match r with
  | OK a => k a
  | Err e => Err e
  end.

Notation "x <- c ;; k" := (bind c (fun x => k))
  (at level 61, c at next level, right associativity).
Notation "' ( x , y ) <- c ;; k" := (bind c (fun p => let '(x, y) := p in k))
  (at level 61, x name, y name, c at next level, right associativity).

(* ===================================================================== *)
(** * JavaScript integer conversions and bitwise operators *)
(* ===================================================================== *)

Definition bytes : Type := list Z.

(** ToUint32 and ToInt32 of ECMAScript on integers. *)
Definition to_uint32 (x : Z) : Z := x mod 2^32.
Definition to_int32 (x : Z) : Z :=
  let u := x mod 2^32 in if u <? 2^31 then u else u - 2^32.

(** [a & b], [a | b], [a ^ b]: both operands go through ToInt32; the result
    of the bitwise operation on two int32 values is again an int32. *)
Definition js_and (a b : Z) : Z := Z.land (to_int32 a) (to_int32 b).
Definition js_or (a b : Z) : Z := Z.lor (to_int32 a) (to_int32 b).
Definition js_xor (a b : Z) : Z := Z.lxor (to_int32 a) (to_int32 b).
(** [a << n], [a >> n], [a >>> n]: the shift count is taken modulo 32. *)
Definition js_shl (a n : Z) : Z := to_int32 (Z.shiftl (to_int32 a) (to_uint32 n mod 32)).
Definition js_shr (a n : Z) : Z := Z.shiftr (to_int32 a) (to_uint32 n mod 32).
Definition js_ushr (a n : Z) : Z := Z.shiftr (to_uint32 a) (to_uint32 n mod 32).

(** Storing a number into a [Uint8Array] keeps its low eight bits. *)
Definition to_uint8 (x : Z) : Z := x mod 256.

(** [arr.slice(a, b)] / [arr.subarray(a, b)] for [0 <= a <= b]: both clamp to
    the array's length and never throw. *)
Definition slice (buf : bytes) (a b : nat) : bytes :=
  firstn (b - a) (skipn a buf).

(** [new Uint8Array(n)]. *)
Definition zeros (n : nat) : bytes := repeat 0 n.

(** [buf.set(src, offset)]: copies [src] into [buf] at [offset]; a
    [RangeError] when [src] does not fit. *)
Definition set (buf src : bytes) (offset : nat) : result bytes :=
  if (length src + offset <=? length buf)%nat
  then OK (firstn offset buf ++ src ++ skipn (offset + length src) buf)
  else Err OutOfBounds.

(* ===================================================================== *)
(** * codec/varint.ts *)
(* ===================================================================== *)

(** The body of the [do ... while (value > 0)] loop of [encode_varint].
    Each turn divides [value] by 128, so [fuel] bounds the turns. *)
Fixpoint encode_varint_loop (fuel : nat) (value : Z) : result bytes :=
  match fuel with
  | O => Err OutOfFuel
  | S fuel' =>
      let byte := js_and value 0x7f in
      let value := value / 128 in
      if 0 <? value
      then rest <- encode_varint_loop fuel' value ;; OK (js_or byte 0x80 :: rest)
      else OK [byte]
  end.

(** Fuel that always suffices: one turn per bit of [value], plus one. *)
Definition varint_fuel (value : Z) : nat := S (Z.to_nat (Z.log2 value)).

Definition encode_varint (value : Z) : result bytes :=
  if value <? 0 then Err Negative
  else encode_varint_loop (varint_fuel value) value.

(** The [while (pos < buf.length)] loop of [decode_varint]; [rest] is the
    part of the buffer from [pos] on and [read] is [pos - offset]. *)
Fixpoint decode_varint_loop (rest : bytes) (value shift : Z) (read : nat)
  : result (Z * nat) :=
  match rest with
  | [] => Err Truncated
  | byte :: rest' =>
      let value := value + js_and byte 0x7f * 2 ^ shift in
      let read := S read in
      if js_and byte 0x80 =? 0 then OK (value, read)
      else
        let shift := shift + 7 in
        if 49 <? shift then Err TooLarge
        else decode_varint_loop rest' value shift read
  end.

Definition decode_varint (buf : bytes) (offset : nat) : result (Z * nat) :=
  decode_varint_loop (skipn offset buf) 0 0 0%nat.

(* ===================================================================== *)
(** * codec/crc32.ts *)
(* ===================================================================== *)

(** One turn of the inner loop that fills [TABLE]:
    [crc = crc & 1 ? (crc >>> 1) ^ 0xedb88320 : crc >>> 1]. *)
Definition table_step (crc : Z) : Z :=
  if js_and crc 1 =? 0 then js_ushr crc 1
  else js_xor (js_ushr crc 1) 0xedb88320.

(** [TABLE[i] = crc >>> 0] after eight turns started from [i]. *)
Definition table_entry (i : Z) : Z := js_ushr (Nat.iter 8 table_step i) 0.

Definition TABLE : list Z :=
  Eval vm_compute in map (fun i => table_entry (Z.of_nat i)) (seq 0 256).

Definition crc32_step (crc byte : Z) : Z :=
  js_xor (nth (Z.to_nat (js_and (js_xor crc byte) 0xff)) TABLE 0) (js_ushr crc 8).

Definition crc32 (data : bytes) : Z :=
  js_ushr (js_xor (fold_left crc32_step data 0xffffffff) 0xffffffff) 0.

Definition crc32_bytes (data : bytes) : bytes :=
  let c := crc32 data in
  [ js_and (js_ushr c 24) 0xff; js_and (js_ushr c 16) 0xff;
    js_and (js_ushr c 8) 0xff; js_and c 0xff ].

(** [DataView.getUint32(0)] on a four-byte view: big-endian. *)
Definition get_uint32 (view : bytes) : Z :=
  fold_left (fun acc b => acc * 256 + b) view 0.

Definition verify_crc32 (buf : bytes) : bool :=
  if (length buf <? 4)%nat then false
  else
    let payload := slice buf 0 (length buf - 4) in
    let expected := crc32 payload in
    get_uint32 (slice buf (length buf - 4) (length buf)) =? expected.

(* ===================================================================== *)
(** * codec/constants.ts *)
(* ===================================================================== *)

Definition MAGIC : bytes := [0x5a; 0x4b].
Definition VERSION : Z := 0x01.

Definition TAG_FILE_NODE : Z := 0x01.
Definition TAG_DIR_NODE : Z := 0x02.
Definition TAG_GROUP : Z := 0x03.
Definition TAG_SMT : Z := 0x04.
Definition TAG_COMPRESSED_BLOB : Z := 0x10.

Definition HASH_SIZE : nat := 32.
Definition NONCE_SIZE : nat := 24.
Definition TIMESTAMP_SIZE : nat := 6.

(** A [number] that may be [NaN]: reading past the end of a typed array
    gives [undefined], and arithmetic on it gives [NaN]. *)
Inductive number : Type :=
| Num (z : Z)
| NaN.

(** The [for (i = 5; i >= 0; i--)] loop of [encode_timestamp]: the bytes it
    writes, in the order it writes them (last position first). *)
Fixpoint encode_timestamp_loop (n : nat) (val : Z) : bytes :=
  match n with
  | O => []
  | S n' => to_uint8 (js_and val 0xff) :: encode_timestamp_loop n' (val / 256)
  end.

(** [NaN & 0xff] is [0] and [Math.floor(NaN / 256)] is [NaN]. *)
Definition encode_timestamp (ts : number) : bytes :=
  match ts with
  | Num ts => rev (encode_timestamp_loop TIMESTAMP_SIZE ts)
  | NaN => zeros TIMESTAMP_SIZE
  end.

Definition decode_timestamp (buf : bytes) (offset : nat) : number :=
  fold_left
    (fun val i =>
       match val, nth_error buf (offset + i) with
       | Num v, Some b => Num (v * 256 + b)
       | _, _ => NaN
       end)
    (seq 0 TIMESTAMP_SIZE) (Num 0).

Definition ENVELOPE_HEADER_SIZE : nat := 4.
Definition ENVELOPE_FOOTER_SIZE : nat := 4.

(** [write_envelope] allocates [4 + payload.length + 4] bytes, writes the
    four header bytes, copies the payload behind them, and copies the CRC
    of these [4 + payload.length] bytes behind the payload: the buffer is
    the concatenation of the three parts, and no [set] can be out of
    range. *)
Definition write_envelope (tag : Z) (payload : bytes) : bytes :=
  let crc_input := [nth 0 MAGIC 0; nth 1 MAGIC 0; VERSION; to_uint8 tag] ++ payload in
  crc_input ++ crc32_bytes crc_input.

Definition read_envelope (buf : bytes) : result (Z * bytes) :=
  if (length buf <? ENVELOPE_HEADER_SIZE + ENVELOPE_FOOTER_SIZE)%nat then Err TooShort
  else if negb (nth 0 buf 0 =? nth 0 MAGIC 0) || negb (nth 1 buf 0 =? nth 1 MAGIC 0)
  then Err BadMagic
  else if negb (nth 2 buf 0 =? VERSION) then Err BadVersion
  else if negb (verify_crc32 buf) then Err BadCrc
  else
    let tag := nth 3 buf 0 in
    let payload := slice buf ENVELOPE_HEADER_SIZE (length buf - ENVELOPE_FOOTER_SIZE) in
    OK (tag, payload).

Definition has_magic (buf : bytes) : bool :=
  (2 <=? length buf)%nat && (nth 0 buf 0 =? nth 0 MAGIC 0) && (nth 1 buf 0 =? nth 1 MAGIC 0).

(* ===================================================================== *)
(** * types.ts *)
(* ===================================================================== *)

Record ChunkRef : Type := {
  index : Z;
  hash : bytes;
  blob_address : bytes;
  nonce : bytes
}.

Record FileNode : Type := {
  content_hash : bytes;
  size : Z;
  file_created : number;
  file_modified : number;
  chunks : list ChunkRef
}.

(** [group_id : Hash | null]. *)
Record DirNode : Type := {
  smt_root : bytes;
  group_id : option bytes;
  dir_created : number;
  dir_modified : number
}.

(** [type Node = FileNode | DirNode], discriminated by the [type] field. *)
Inductive Node : Type :=
| File (node : FileNode)
| Dir (node : DirNode).

(* ===================================================================== *)
(** * codec/chunk-ref.ts *)
(* ===================================================================== *)

Definition encode_chunk_ref (ref : ChunkRef) : result bytes :=
  index_bytes <- encode_varint (index ref) ;;
  let total := (length index_bytes + HASH_SIZE + HASH_SIZE + NONCE_SIZE)%nat in
  let buf := zeros total in
  let offset := 0%nat in
  buf <- set buf index_bytes offset ;;
  let offset := (offset + length index_bytes)%nat in
  buf <- set buf (hash ref) offset ;;
  let offset := (offset + HASH_SIZE)%nat in
  buf <- set buf (blob_address ref) offset ;;
  let offset := (offset + HASH_SIZE)%nat in
  buf <- set buf (nonce ref) offset ;;
  OK buf.

Definition decode_chunk_ref (buf : bytes) (offset : nat) : result (ChunkRef * nat) :=
  let start := offset in
  '(index, index_len) <- decode_varint buf offset ;;
  let offset := (offset + index_len)%nat in
  let hash := slice buf offset (offset + HASH_SIZE) in
  let offset := (offset + HASH_SIZE)%nat in
  let blob_address := slice buf offset (offset + HASH_SIZE) in
  let offset := (offset + HASH_SIZE)%nat in
  let nonce := slice buf offset (offset + NONCE_SIZE) in
  let offset := (offset + NONCE_SIZE)%nat in
  OK ({| index := index; hash := hash; blob_address := blob_address; nonce := nonce |},
      (offset - start)%nat).

(* ===================================================================== *)
(** * codec/file-node.ts *)
(* ===================================================================== *)

(** [for (const chunk of node.chunks) chunk_bufs.push(encode_chunk_ref(chunk))]. *)
Fixpoint encode_chunk_refs (cs : list ChunkRef) : result (list bytes) :=
  match cs with
  | [] => OK []
  | c :: cs' =>
      b <- encode_chunk_ref c ;;
      bs <- encode_chunk_refs cs' ;;
      OK (b :: bs)
  end.

(** [for (const b of chunk_bufs) { payload.set(b, offset); offset += b.length }]. *)
Fixpoint set_all (payload : bytes) (bufs : list bytes) (offset : nat) : result bytes :=
  match bufs with
  | [] => OK payload
  | b :: bufs' =>
      payload <- set payload b offset ;;
      set_all payload bufs' (offset + length b)
  end.

Definition encode_file_node_payload (node : FileNode) : result bytes :=
  size_bytes <- encode_varint (size node) ;;
  chunk_count_bytes <- encode_varint (Z.of_nat (length (chunks node))) ;;
  chunk_bufs <- encode_chunk_refs (chunks node) ;;
  let chunks_total := length (concat chunk_bufs) in
  let payload_len :=
    (HASH_SIZE + TIMESTAMP_SIZE + TIMESTAMP_SIZE + length size_bytes
     + length chunk_count_bytes + chunks_total)%nat in
  let payload := zeros payload_len in
  let offset := 0%nat in
  payload <- set payload (content_hash node) offset ;;
  let offset := (offset + HASH_SIZE)%nat in
  payload <- set payload (encode_timestamp (file_created node)) offset ;;
  let offset := (offset + TIMESTAMP_SIZE)%nat in
  payload <- set payload (encode_timestamp (file_modified node)) offset ;;
  let offset := (offset + TIMESTAMP_SIZE)%nat in
  payload <- set payload size_bytes offset ;;
  let offset := (offset + length size_bytes)%nat in
  payload <- set payload chunk_count_bytes offset ;;
  let offset := (offset + length chunk_count_bytes)%nat in
  set_all payload chunk_bufs offset.

Definition encode_file_node (node : FileNode) : result bytes :=
  payload <- encode_file_node_payload node ;;
  OK (write_envelope TAG_FILE_NODE payload).

(** The [for (let i = 0; i < chunk_count; i++)] loop of
    [decode_file_node_payload], [n] turns of it. *)
Fixpoint decode_chunk_refs (n : nat) (payload : bytes) (offset : nat)
  : result (list ChunkRef) :=
  match n with
  | O => OK []
  | S n' =>
      '(chunk, bytes_read) <- decode_chunk_ref payload offset ;;
      rest <- decode_chunk_refs n' payload (offset + bytes_read) ;;
      OK (chunk :: rest)
  end.

Definition decode_file_node_payload (payload : bytes) : result FileNode :=
  let offset := 0%nat in
  let content_hash := slice payload offset (offset + HASH_SIZE) in
  let offset := (offset + HASH_SIZE)%nat in
  let created := decode_timestamp payload offset in
  let offset := (offset + TIMESTAMP_SIZE)%nat in
  let modified := decode_timestamp payload offset in
  let offset := (offset + TIMESTAMP_SIZE)%nat in
  '(size, size_len) <- decode_varint payload offset ;;
  let offset := (offset + size_len)%nat in
  '(chunk_count, cc_len) <- decode_varint payload offset ;;
  let offset := (offset + cc_len)%nat in
  chunks <- decode_chunk_refs (Z.to_nat chunk_count) payload offset ;;
  OK {| content_hash := content_hash; size := size; file_created := created;
        file_modified := modified; chunks := chunks |}.

Definition decode_file_node (buf : bytes) : result FileNode :=
  '(tag, payload) <- read_envelope buf ;;
  if negb (tag =? TAG_FILE_NODE) then Err BadTag
  else decode_file_node_payload payload.

(* ===================================================================== *)
(** * codec/dir-node.ts *)
(* ===================================================================== *)

(** [buf[i] = v] on a typed array: ignored when [i] is out of range. *)
Definition store (buf : bytes) (i : nat) (v : Z) : bytes :=
  if (i <? length buf)%nat then firstn i buf ++ to_uint8 v :: skipn (S i) buf
  else buf.

Definition encode_dir_node_payload (node : DirNode) : result bytes :=
  let has_group := match group_id node with Some _ => true | None => false end in
  let payload_len :=
    (HASH_SIZE + 1 + (if has_group then HASH_SIZE else 0)
     + TIMESTAMP_SIZE + TIMESTAMP_SIZE)%nat in
  let payload := zeros payload_len in
  let offset := 0%nat in
  payload <- set payload (smt_root node) offset ;;
  let offset := (offset + HASH_SIZE)%nat in
  let payload := store payload offset (if has_group then 0x01 else 0x00) in
  let offset := S offset in
  '(payload, offset) <-
     match group_id node with
     | Some g =>
         payload <- set payload g offset ;;
         OK (payload, (offset + HASH_SIZE)%nat)
     | None => OK (payload, offset)
     end ;;
  payload <- set payload (encode_timestamp (dir_created node)) offset ;;
  let offset := (offset + TIMESTAMP_SIZE)%nat in
  payload <- set payload (encode_timestamp (dir_modified node)) offset ;;
  OK payload.

Definition encode_dir_node (node : DirNode) : result bytes :=
  payload <- encode_dir_node_payload node ;;
  OK (write_envelope TAG_DIR_NODE payload).

(** [decode_dir_node_payload] has no [throw] of its own and calls nothing
    that throws. *)
Definition decode_dir_node_payload (payload : bytes) : DirNode :=
  let offset := 0%nat in
  let smt_root := slice payload offset (offset + HASH_SIZE) in
  let offset := (offset + HASH_SIZE)%nat in
  let has_group :=
    match nth_error payload offset with
    | Some b => b =? 0x01
    | None => false
    end in
  let offset := S offset in
  let '(group_id, offset) :=
    if has_group
    then (Some (slice payload offset (offset + HASH_SIZE)), (offset + HASH_SIZE)%nat)
    else (None, offset) in
  let created := decode_timestamp payload offset in
  let offset := (offset + TIMESTAMP_SIZE)%nat in
  let modified := decode_timestamp payload offset in
  {| smt_root := smt_root; group_id := group_id;
     dir_created := created; dir_modified := modified |}.

Definition decode_dir_node (buf : bytes) : result DirNode :=
  '(tag, payload) <- read_envelope buf ;;
  if negb (tag =? TAG_DIR_NODE) then Err BadTag
  else OK (decode_dir_node_payload payload).

(* ===================================================================== *)
(** * codec/node.ts *)
(* ===================================================================== *)

Definition encode_node (node : Node) : result bytes :=
  match node with
  | File node => encode_file_node node
  | Dir node => encode_dir_node node
  end.

(** The binary branch of [decode_node], taken when [has_magic buf]; the
    legacy JSON branch parses text produced by an external system and is
    left out: [None] stands for "not a binary envelope". *)
Definition decode_node (buf : bytes) : option (result Node) :=
  if has_magic buf then
    Some ('(tag, payload) <- read_envelope buf ;;
          if tag =? TAG_FILE_NODE then
            node <- decode_file_node_payload payload ;; OK (File node)
          else if tag =? TAG_DIR_NODE then
            OK (Dir (decode_dir_node_payload payload))
          else Err BadTag)
  else None.

(* ===================================================================== *)
(** * codec/constants.ts: roles *)
(* ===================================================================== *)

(** [type Role = "read" | "write" | "admin"]. *)
Inductive Role : Type :=
| role_read
| role_write
| role_admin.

Definition ROLE_READ : Z := 0x00.
Definition ROLE_WRITE : Z := 0x01.
Definition ROLE_ADMIN : Z := 0x02.

Definition encode_role (role : Role) : Z :=
  match role with
  | role_read => ROLE_READ
  | role_write => ROLE_WRITE
  | role_admin => ROLE_ADMIN
  end.

(** [decode_role] is called on [payload[offset]], which is [undefined] past
    the end of the payload; the [default] branch then fails to build its
    message. *)
Definition decode_role (byte : option Z) : result Role :=
  match byte with
  | Some 0x00 => OK role_read
  | Some 0x01 => OK role_write
  | Some 0x02 => OK role_admin
  | Some _ => Err Malformed
  | None => Err TypeError
  end.

(* ===================================================================== *)
(** * codec/group.ts *)
(* ===================================================================== *)

Record GroupMember : Type := {
  pubkey : bytes;
  encrypted_dek : bytes;
  role : Role
}.

(** [interface Group { id; members }]. *)
Record Group : Type := {
  id_ : bytes;
  members : list GroupMember
}.

(** The body of [for (const m of group.members)] in [encode_group]: the
    buffer of one member. *)
Definition encode_member (m : GroupMember) : result bytes :=
  dek_len_bytes <- encode_varint (Z.of_nat (length (encrypted_dek m))) ;;
  let member_len :=
    (HASH_SIZE + length dek_len_bytes + length (encrypted_dek m) + 1)%nat in
  let mbuf := zeros member_len in
  let off := 0%nat in
  mbuf <- set mbuf (pubkey m) off ;;
  let off := (off + HASH_SIZE)%nat in
  mbuf <- set mbuf dek_len_bytes off ;;
  let off := (off + length dek_len_bytes)%nat in
  mbuf <- set mbuf (encrypted_dek m) off ;;
  let off := (off + length (encrypted_dek m))%nat in
  OK (store mbuf off (encode_role (role m))).

Fixpoint encode_members (ms : list GroupMember) : result (list bytes) :=
  match ms with
  | [] => OK []
  | m :: ms' =>
      b <- encode_member m ;;
      bs <- encode_members ms' ;;
      OK (b :: bs)
  end.

Definition encode_group_payload (group : Group) : result bytes :=
  member_count_bytes <- encode_varint (Z.of_nat (length (members group))) ;;
  member_bufs <- encode_members (members group) ;;
  let members_total := length (concat member_bufs) in
  let payload_len := (HASH_SIZE + length member_count_bytes + members_total)%nat in
  let payload := zeros payload_len in
  let offset := 0%nat in
  payload <- set payload (id_ group) offset ;;
  let offset := (offset + HASH_SIZE)%nat in
  payload <- set payload member_count_bytes offset ;;
  let offset := (offset + length member_count_bytes)%nat in
  set_all payload member_bufs offset.

Definition encode_group (group : Group) : result bytes :=
  payload <- encode_group_payload group ;;
  OK (write_envelope TAG_GROUP payload).

(** The [for (let i = 0; i < member_count; i++)] loop of
    [decode_group_payload], [n] turns of it. *)
Fixpoint decode_members (n : nat) (payload : bytes) (offset : nat)
  : result (list GroupMember) :=
  match n with
  | O => OK []
  | S n' =>
      let pubkey := slice payload offset (offset + HASH_SIZE) in
      let offset := (offset + HASH_SIZE)%nat in
      '(dek_len, dl_len) <- decode_varint payload offset ;;
      let offset := (offset + dl_len)%nat in
      let encrypted_dek := slice payload offset (offset + Z.to_nat dek_len) in
      let offset := (offset + Z.to_nat dek_len)%nat in
      role <- decode_role (nth_error payload offset) ;;
      let offset := S offset in
      rest <- decode_members n' payload offset ;;
      OK ({| pubkey := pubkey; encrypted_dek := encrypted_dek; role := role |} :: rest)
  end.

Definition decode_group_payload (payload : bytes) : result Group :=
  let offset := 0%nat in
  let id := slice payload offset (offset + HASH_SIZE) in
  let offset := (offset + HASH_SIZE)%nat in
  '(member_count, mc_len) <- decode_varint payload offset ;;
  let offset := (offset + mc_len)%nat in
  members <- decode_members (Z.to_nat member_count) payload offset ;;
  OK {| id_ := id; members := members |}.

Definition decode_group (buf : bytes) : result Group :=
  '(tag, payload) <- read_envelope buf ;;
  if negb (tag =? TAG_GROUP) then Err BadTag
  else decode_group_payload payload.

(* ===================================================================== *)
(** * codec/smt.ts *)
(* ===================================================================== *)

(** [path_bits: boolean[]]. *)
Record SMTEntry : Type := {
  path_bits : list bool;
  value : bytes
}.

Record SMTData : Type := {
  root : bytes;
  entries : list SMTEntry
}.

(** [for (let i = 0; i < bits.length; i++)] of [pack_bits], from bit [i] on:
    [if (bits[i]) buf[Math.floor(i / 8)] |= 0x80 >> (i % 8)]. *)
Fixpoint pack_bits_loop (bits : list bool) (i : nat) (buf : bytes) : bytes :=
  match bits with
  | [] => buf
  | b :: bits' =>
      let buf :=
        if b
        then store buf (i / 8)
                   (js_or (nth (i / 8) buf 0) (js_shr 0x80 (Z.of_nat (i mod 8))))
        else buf in
      pack_bits_loop bits' (S i) buf
  end.

Definition pack_bits (bits : list bool) : bytes :=
  let byte_count := ((length bits + 7) / 8)%nat in
  pack_bits_loop bits 0 (zeros byte_count).

(** [unpack_bits]; a byte read past the end of the buffer is [undefined],
    which [>>] turns into 0. *)
Definition unpack_bits (buf : bytes) (offset bit_count : nat) : list bool :=
  map (fun i =>
         let byte_idx := (i / 8)%nat in
         let bit_idx := (7 - i mod 8)%nat in
         js_and (js_shr (nth (offset + byte_idx) buf 0) (Z.of_nat bit_idx)) 1 =? 1)
      (seq 0 bit_count).

Definition encode_entry (entry : SMTEntry) : result bytes :=
  bit_len_bytes <- encode_varint (Z.of_nat (length (path_bits entry))) ;;
  let packed := pack_bits (path_bits entry) in
  let entry_len := (length bit_len_bytes + length packed + HASH_SIZE)%nat in
  let ebuf := zeros entry_len in
  let off := 0%nat in
  ebuf <- set ebuf bit_len_bytes off ;;
  let off := (off + length bit_len_bytes)%nat in
  ebuf <- set ebuf packed off ;;
  let off := (off + length packed)%nat in
  set ebuf (value entry) off.

Fixpoint encode_entries (es : list SMTEntry) : result (list bytes) :=
  match es with
  | [] => OK []
  | e :: es' =>
      b <- encode_entry e ;;
      bs <- encode_entries es' ;;
      OK (b :: bs)
  end.

Definition encode_smt_payload (smt : SMTData) : result bytes :=
  entry_count_bytes <- encode_varint (Z.of_nat (length (entries smt))) ;;
  entry_bufs <- encode_entries (entries smt) ;;
  let entries_total := length (concat entry_bufs) in
  let payload_len := (HASH_SIZE + length entry_count_bytes + entries_total)%nat in
  let payload := zeros payload_len in
  let offset := 0%nat in
  payload <- set payload (root smt) offset ;;
  let offset := (offset + HASH_SIZE)%nat in
  payload <- set payload entry_count_bytes offset ;;
  let offset := (offset + length entry_count_bytes)%nat in
  set_all payload entry_bufs offset.

Definition encode_smt (smt : SMTData) : result bytes :=
  payload <- encode_smt_payload smt ;;
  OK (write_envelope TAG_SMT payload).

(** The [for (let i = 0; i < entry_count; i++)] loop of
    [decode_smt_payload], [n] turns of it. *)
Fixpoint decode_entries (n : nat) (payload : bytes) (offset : nat)
  : result (list SMTEntry) :=
  match n with
  | O => OK []
  | S n' =>
      '(bit_len, bl_len) <- decode_varint payload offset ;;
      let offset := (offset + bl_len)%nat in
      let packed_bytes := Z.to_nat ((bit_len + 7) / 8) in
      let path_bits := unpack_bits payload offset (Z.to_nat bit_len) in
      let offset := (offset + packed_bytes)%nat in
      let value := slice payload offset (offset + HASH_SIZE) in
      let offset := (offset + HASH_SIZE)%nat in
      rest <- decode_entries n' payload offset ;;
      OK ({| path_bits := path_bits; value := value |} :: rest)
  end.

Definition decode_smt_payload (payload : bytes) : result SMTData :=
  let offset := 0%nat in
  let root := slice payload offset (offset + HASH_SIZE) in
  let offset := (offset + HASH_SIZE)%nat in
  '(entry_count, ec_len) <- decode_varint payload offset ;;
  let offset := (offset + ec_len)%nat in
  entries <- decode_entries (Z.to_nat entry_count) payload offset ;;
  OK {| root := root; entries := entries |}.

Definition decode_smt (buf : bytes) : result SMTData :=
  '(tag, payload) <- read_envelope buf ;;
  if negb (tag =? TAG_SMT) then Err BadTag
  else decode_smt_payload payload.

(* ===================================================================== *)
(** * Sorting as [Array.prototype.sort] does *)
(* ===================================================================== *)

(** [Array.prototype.sort] is stable; [cmp a b] is the comparator's result.
    Inserting each element, in order, behind the elements that do not
    compare greater gives the same array. *)
Section Sort.
Context {A : Type} (cmp : A -> A -> Z).

Fixpoint insert_sorted (x : A) (l : list A) : list A :=
  match l with
  | [] => [x]
  | y :: l' => if cmp y x <=? 0 then y :: insert_sorted x l' else x :: l
  end.

Definition sort (l : list A) : list A :=
  fold_left (fun acc x => insert_sorted x acc) l [].
End Sort.

(* ===================================================================== *)
(** * compress/symbol-tree.ts *)
(* ===================================================================== *)

Module SymbolTree.

(** The tree is its table of 256 code lengths; the encode and decode
    tables are caches computed from it. *)
Record t : Type := { lengths : list Z }.

(** [constructor]. *)
Definition make (lengths : list Z) : result t :=
  if negb (length lengths =? 256)%nat then Err BadLengths
  else OK {| lengths := lengths |}.

(** [interface TreeNode { left?; right?; symbol? }]. *)
Inductive TreeNode : Type :=
| Leaf (symbol : Z)
| Branch (left right : TreeNode).

(** [interface QNode { freq; tree }]. *)
Record QNode : Type := { freq : Z; tree : TreeNode }.

(** The [active] array: the symbols of non-zero frequency, in order. *)
Definition active_symbols (frequencies : list Z) : list (Z * Z) :=
  filter (fun a => 0 <? snd a)
         (combine (map Z.of_nat (seq 0 256)) frequencies).

(** One turn of [while (q.length > 1)] in [build_tree]: the two items at
    the front are merged, and the parent is put behind every item whose
    frequency is not greater. *)
Definition merge_step (q : list QNode) : list QNode :=
  match q with
  | l :: r :: rest =>
      let parent := {| freq := freq l + freq r;
                       tree := Branch (tree l) (tree r) |} in
      insert_sorted (fun a b => freq a - freq b) parent rest
  | _ => q
  end.

(** Each turn shortens the queue by one, so [length q] turns are enough. *)
Fixpoint merge_loop (fuel : nat) (q : list QNode) : list QNode :=
  match fuel with
  | O => q
  | S fuel' =>
      match q with
      | _ :: _ :: _ => merge_loop fuel' (merge_step q)
      | _ => q
      end
  end.

(** [walk]: every leaf gets [Math.min(depth, 15)]. *)
Fixpoint walk (node : TreeNode) (depth : Z) (lengths : list Z) : list Z :=
  match node with
  | Leaf symbol => store lengths (Z.to_nat symbol) (Z.min depth 15)
  | Branch l r => walk r (depth + 1) (walk l (depth + 1) lengths)
  end.

(** [build_tree]; its parameter [items] is not used by the source. *)
Definition build_tree (active : list (Z * Z)) (lengths : list Z) : list Z :=
  let q := map (fun a => {| freq := snd a; tree := Leaf (fst a) |}) active in
  let q := sort (fun a b => freq a - freq b) q in
  let q := merge_loop (length q) q in
  match q with
  | root :: _ => walk (tree root) 0 lengths
  | [] => lengths
  end.

(** [kraft += 1 / (1 << lengths[i])] over the symbols of non-zero length.
    Every term is a multiple of [2^-31] and there are at most 256 of them,
    so the double arithmetic of the source is exact and [Q] models it. *)
Definition kraft_term (len : Z) : Q := / inject_Z (js_shl 1 len).

Definition kraft_sum (lengths : list Z) : Q :=
  fold_left (fun kraft len => if 0 <? len then (kraft + kraft_term len)%Q else kraft)
            lengths 0%Q.

(** The first [for] of [clamp_lengths]: the clamped table and [overflow]. *)
Definition clamp_pass (lengths : list Z) (max_len : Z) : list Z * bool :=
  (map (fun len => if max_len <? len then to_uint8 max_len else len) lengths,
   existsb (fun len => max_len <? len) lengths).

(** [for (let i = 0; i < 256 && kraft > 1; i++)]: lengthen codes while the
    sum exceeds one. *)
Fixpoint compensate (lengths : list Z) (max_len : Z) (kraft : Q) : list Z :=
  match lengths with
  | [] => []
  | len :: rest =>
      if Qle_bool kraft 1 then lengths
      else if (0 <? len) && (len <? max_len) then
        let kraft := (kraft - kraft_term len)%Q in
        let len := to_uint8 (len + 1) in
        let kraft := (kraft + kraft_term len)%Q in
        len :: compensate rest max_len kraft
      else len :: compensate rest max_len kraft
  end.

(** [while (overflow)]: after one turn nothing exceeds [max_len], so the
    second turn leaves through [break]. *)
Fixpoint clamp_lengths_loop (fuel : nat) (lengths : list Z) (max_len : Z) : list Z :=
  match fuel with
  | O => lengths
  | S fuel' =>
      let '(lengths, overflow) := clamp_pass lengths max_len in
      if negb overflow then lengths
      else
        let kraft := kraft_sum lengths in
        let lengths :=
          if Qle_bool kraft 1 then lengths
          else compensate lengths max_len kraft in
        clamp_lengths_loop fuel' lengths max_len
  end.

Definition clamp_lengths (lengths : list Z) (max_len : Z) : list Z :=
  clamp_lengths_loop 2 lengths max_len.

(** [from_frequencies].  The first Huffman loop of the source, over
    [nodes], computes a value that nothing reads and is left out. *)
Definition from_frequencies (frequencies : list Z) : result t :=
  if negb (length frequencies =? 256)%nat then Err BadLengths
  else
    let active := active_symbols frequencies in
    let lengths := zeros 256 in
    match active with
    | [] => make lengths
    | [a] => make (store lengths (Z.to_nat (fst a)) 1)
    | _ =>
        let lengths := build_tree active lengths in
        let lengths := clamp_lengths lengths 15 in
        make lengths
    end.

(** An entry of the encode table: [{ code, length }]. *)
Definition entry : Type := (Z * Z)%type.

(** The loop [for (const s of symbols)] of [build_encode_table];
    [s] is a pair (symbol, length). *)
Fixpoint assign_codes (symbols : list (Z * Z)) (code prev_len : Z)
         (table : list entry) : list entry :=
  match symbols with
  | [] => table
  | s :: rest =>
      let code :=
        if 0 <? prev_len then js_shl (code + 1) (snd s - prev_len) else code in
      let i := Z.to_nat (fst s) in
      let table := firstn i table ++ (code, snd s) :: skipn (S i) table in
      assign_codes rest code (snd s) table
  end.

Definition build_encode_table (tr : t) : list entry :=
  let table := repeat (0, 0) 256 in
  let symbols :=
    filter (fun s => 0 <? snd s)
           (combine (map Z.of_nat (seq 0 256)) (lengths tr)) in
  let symbols :=
    sort (fun a b => if snd a - snd b =? 0 then fst a - fst b else snd a - snd b)
         symbols in
  assign_codes symbols 0 0 table.

(** The decode [Map], as the list of its [set] calls, latest first: a
    lookup returns the latest entry set under the key. *)
Definition build_decode_table (tr : t) : list (Z * (Z * Z)) :=
  let encode := build_encode_table tr in
  fold_left
    (fun decode ie =>
       let '(i, (code, len)) := ie in
       if 0 <? len then (js_or (js_shl len 16) code, (i, len)) :: decode
       else decode)
    (combine (map Z.of_nat (seq 0 256)) encode) [].

Definition map_get (key : Z) (m : list (Z * (Z * Z))) : option (Z * Z) :=
  option_map snd (find (fun kv => fst kv =? key) m).

(** The bits of a code, most significant first:
    [for (b = length - 1; b >= 0; b--) (code >> b) & 1]. *)
Definition code_bits (code len : Z) : list bool :=
  map (fun b => negb (js_and (js_shr code (Z.of_nat b)) 1 =? 0))
      (rev (seq 0 (Z.to_nat len))).

(** Bits packed into bytes, bit 7 first; the last byte is padded with
    zeros.  This is what the [|=] of the second pass of [encode] builds in
    a zeroed array of [Math.ceil(total_bits / 8)] bytes. *)
Fixpoint pack_byte (bs : list bool) (weight acc : Z) : Z :=
  match bs with
  | [] => acc
  | b :: bs' => pack_byte bs' (weight / 2) (if b then acc + weight else acc)
  end.

Fixpoint pack_bits (fuel : nat) (bs : list bool) : bytes :=
  match fuel with
  | O => []
  | S fuel' =>
      match bs with
      | [] => []
      | _ => pack_byte (firstn 8 bs) 0x80 0 :: pack_bits fuel' (skipn 8 bs)
      end
  end.

(** The first pass of [encode]: the entries of the bytes of [data], or
    the error for a byte without code. *)
Fixpoint lookup_all (table : list entry) (data : bytes) : result (list entry) :=
  match data with
  | [] => OK []
  | b :: data' =>
      let e := nth (Z.to_nat b) table (0, 0) in
      if snd e =? 0 then Err UncodedSymbol
      else es <- lookup_all table data' ;; OK (e :: es)
  end.

(** [encode]: the packed bits and [bit_count]. *)
Definition encode (tr : t) (data : bytes) : result (bytes * Z) :=
  let table := build_encode_table tr in
  es <- lookup_all table data ;;
  let total_bits := fold_left (fun n e => n + snd e) es 0 in
  let stream := concat (map (fun e => code_bits (fst e) (snd e)) es) in
  OK (pack_bits (length stream) stream, total_bits).

(** What the inner [for] of [decode] leaves: a decoded symbol, or the
    value of [length] when no entry was found. *)
Inductive scan_result : Type :=
| Found (symbol length_ : Z)
| Stopped (length_ : Z).

(** [for (len = 1; len <= max_len && bit_pos + len <= bit_count; len++)];
    reading [bits] past its end gives [undefined], which [>>] turns
    into 0. *)
Fixpoint scan (fuel : nat) (decode_map : list (Z * (Z * Z))) (bits : bytes)
         (bit_count max_len bit_pos len code length_ : Z) : scan_result :=
  match fuel with
  | O => Stopped length_
  | S fuel' =>
      if (len <=? max_len) && (bit_pos + len <=? bit_count) then
        let byte_idx := (bit_pos + len - 1) / 8 in
        let bit_idx := 7 - (bit_pos + len - 1) mod 8 in
        let code :=
          js_or (js_shl code 1)
                (js_and (js_shr (nth (Z.to_nat byte_idx) bits 0) bit_idx) 1) in
        let length_ := len in
        let key := js_or (js_shl length_ 16) code in
        match map_get key decode_map with
        | Some (symbol, _) => Found symbol length_
        | None =>
            scan fuel' decode_map bits bit_count max_len bit_pos (len + 1)
                 code length_
        end
      else Stopped length_
  end.

(** [while (bit_pos < bit_count && out_pos < expected_length)], with
    [remaining = expected_length - out_pos]; [output] is built in
    reverse.  A turn that finds nothing to scan (an empty tree) changes
    nothing, and the source loops for ever: [Diverges]. *)
Fixpoint decode_loop (remaining : nat) (decode_map : list (Z * (Z * Z)))
         (bits : bytes) (bit_count max_len bit_pos : Z) (output : bytes)
  : result bytes :=
  match remaining with
  | O => OK (rev output)
  | S remaining' =>
      if bit_pos <? bit_count then
        match scan (Z.to_nat max_len) decode_map bits bit_count max_len
                   bit_pos 1 0 0 with
        | Found symbol length_ =>
            decode_loop remaining' decode_map bits bit_count max_len
                        (bit_pos + length_) (to_uint8 symbol :: output)
        | Stopped length_ =>
            if 0 <? length_ then Err BadCode else Err Diverges
        end
      else Err LengthMismatch
  end.

Definition decode (tr : t) (bits : bytes) (bit_count expected_length : Z)
  : result bytes :=
  let decode_map := build_decode_table tr in
  let max_len := fold_left Z.max (lengths tr) 0 in
  decode_loop (Z.to_nat expected_length) decode_map bits bit_count max_len 0 [].

Definition serialize (tr : t) : bytes := lengths tr.

Definition deserialize (data : bytes) : result t :=
  if (length data <? 256)%nat then Err BadLengths
  else make (slice data 0 256).

End SymbolTree.

(* ===================================================================== *)
(** * compress/dictionary.ts *)
(* ===================================================================== *)

Module Dictionary.

Definition ESCAPE_BYTE : Z := 0x00.
Definition MAX_STRINGS : nat := 255.

Record t : Type := {
  strings : list bytes;
  tree : SymbolTree.t
}.

(** [constructor]. *)
Definition make (strings : list bytes) (tree : SymbolTree.t) : result t :=
  if (MAX_STRINGS <? length strings)%nat then Err TooManyStrings
  else OK {| strings := strings; tree := tree |}.

(** [data[i + j] === str[j]] for every [j], given that [str] fits:
    [str] is a prefix of the data from [i] on. *)
Fixpoint starts_with (rest str : bytes) : bool :=
  match str, rest with
  | [], _ => true
  | _ :: _, [] => false
  | c :: str', b :: rest' => (b =? c) && starts_with rest' str'
  end.

(** [for (let s = 0; s < strings.length; s++)]: the first string that
    matches at the current position, with its index. *)
Fixpoint first_match (rest : bytes) (strings : list bytes) (s : Z)
  : option (Z * bytes) :=
  match strings with
  | [] => None
  | str :: strings' =>
      if starts_with rest str then Some (s, str)
      else first_match rest strings' (s + 1)
  end.

(** [outer: while (i < data.length)], with [rest] the data from [i] on.
    A match advances by the length of the string; an empty string would
    match without advancing, and the source would not return. *)
Fixpoint apply_substitution_loop (fuel : nat) (rest : bytes) (strings : list bytes)
  : result bytes :=
  match rest with
  | [] => OK []
  | b :: rest' =>
      match fuel with
      | O => Err Diverges
      | S fuel' =>
          match first_match rest strings 0 with
          | Some (s, str) =>
              out <- apply_substitution_loop fuel' (skipn (length str) rest) strings ;;
              OK (ESCAPE_BYTE :: to_uint8 (s + 1) :: out)
          | None =>
              out <- apply_substitution_loop fuel' rest' strings ;;
              if b =? ESCAPE_BYTE then OK (ESCAPE_BYTE :: 0x00 :: out)
              else OK (b :: out)
          end
      end
  end.

Definition apply_substitution (data : bytes) (strings : list bytes) : result bytes :=
  apply_substitution_loop (length data) data strings.

(** [reverse_substitution]; [strings[idx - 1]] may be [undefined], whose
    [length] cannot be read. *)
Fixpoint reverse_substitution (data : bytes) (strings : list bytes) : result bytes :=
  match data with
  | [] => OK []
  | b :: rest =>
      if b =? ESCAPE_BYTE then
        match rest with
        | idx :: rest' =>
            if idx =? 0x00 then
              out <- reverse_substitution rest' strings ;; OK (0x00 :: out)
            else
              match nth_error strings (Z.to_nat (idx - 1)) with
              | Some str =>
                  out <- reverse_substitution rest' strings ;; OK (str ++ out)
              | None => Err TypeError
              end
        | [] => OK [b]
        end
      else out <- reverse_substitution rest strings ;; OK (b :: out)
  end.

(** An entry of [ngram_counts], a [Map] in insertion order: the key is
    the byte string itself. *)
Definition ngram : Type := (bytes * Z)%type.

Fixpoint count_ngram (slice : bytes) (counts : list ngram) : list ngram :=
  match counts with
  | [] => [(slice, 1)]
  | (bs, count) :: counts' =>
      if list_eq_dec Z.eq_dec bs slice then (bs, count + 1) :: counts'
      else (bs, count) :: count_ngram slice counts'
  end.

(** [for (let i = 0; i <= sample.length - gram_size; i++)]. *)
Definition count_windows (sample : bytes) (gram_size : nat) (counts : list ngram)
  : list ngram :=
  if (length sample <? gram_size)%nat then counts
  else
    fold_left (fun counts i => count_ngram (slice sample i (i + gram_size)) counts)
              (seq 0 (length sample - gram_size + 1)) counts.

Definition count_sample (counts : list ngram) (sample : bytes) : list ngram :=
  fold_left (fun counts gram_size => count_windows sample gram_size counts)
            [4; 8; 16; 32]%nat counts.

(** [frequencies[part[i]]++] on a [Uint32Array]. *)
Definition count_byte (frequencies : list Z) (b : Z) : list Z :=
  let i := Z.to_nat b in
  match nth_error frequencies i with
  | Some f => firstn i frequencies ++ to_uint32 (f + 1) :: skipn (S i) frequencies
  | None => frequencies
  end.

Fixpoint apply_all (samples : list bytes) (strings : list bytes) : result (list bytes) :=
  match samples with
  | [] => OK []
  | sample :: samples' =>
      part <- apply_substitution sample strings ;;
      parts <- apply_all samples' strings ;;
      OK (part :: parts)
  end.

Definition train (samples : list bytes) : result t :=
  match samples with
  | [] =>
      tree <- SymbolTree.from_frequencies (repeat 0 256) ;;
      make [] tree
  | _ =>
      let ngram_counts := fold_left count_sample samples [] in
      let candidates :=
        firstn MAX_STRINGS
          (sort (fun a b => snd b * Z.of_nat (length (fst b))
                            - snd a * Z.of_nat (length (fst a)))
                (filter (fun c => 2 <=? snd c) ngram_counts)) in
      let strings := map fst candidates in
      substituted_parts <- apply_all samples strings ;;
      let frequencies :=
        fold_left (fun fr part => fold_left count_byte part fr)
                  substituted_parts (repeat 0 256) in
      tree <- SymbolTree.from_frequencies frequencies ;;
      make strings tree
  end.

Definition compress (d : t) (data : bytes) : result bytes :=
  substituted <- apply_substitution data (strings d) ;;
  '(bits, bit_count) <- SymbolTree.encode (tree d) substituted ;;
  sub_len_bytes <- encode_varint (Z.of_nat (length substituted)) ;;
  bit_count_bytes <- encode_varint bit_count ;;
  OK (sub_len_bytes ++ bit_count_bytes ++ bits).

(** The second parameter, [_original_size], is not read. *)
Definition decompress (d : t) (compressed : bytes) (_original_size : Z)
  : result bytes :=
  let offset := 0%nat in
  '(sub_len, sl_len) <- decode_varint compressed offset ;;
  let offset := (offset + sl_len)%nat in
  '(bit_count, bc_len) <- decode_varint compressed offset ;;
  let offset := (offset + bc_len)%nat in
  let bits := skipn offset compressed in
  substituted <- SymbolTree.decode (tree d) bits bit_count sub_len ;;
  reverse_substitution substituted (strings d).

(** [for (const s of this.strings)] in [serialize]: one part per string,
    its length as a varint and its bytes. *)
Definition serialize_string (s : bytes) : result bytes :=
  len_bytes <- encode_varint (Z.of_nat (length s)) ;;
  let part := zeros (length len_bytes + length s) in
  part <- set part len_bytes 0 ;;
  set part s (length len_bytes).

Fixpoint serialize_strings (strings : list bytes) : result (list bytes) :=
  match strings with
  | [] => OK []
  | s :: strings' =>
      part <- serialize_string s ;;
      parts <- serialize_strings strings' ;;
      OK (part :: parts)
  end.

Definition serialize (d : t) : result bytes :=
  let tree_data := SymbolTree.serialize (tree d) in
  count_bytes <- encode_varint (Z.of_nat (length (strings d))) ;;
  string_parts <- serialize_strings (strings d) ;;
  let strings_total := length (concat string_parts) in
  let result := zeros (1 + 256 + length count_bytes + strings_total) in
  let off := 0%nat in
  let result := store result off 0x01 in
  let off := S off in
  result <- set result tree_data off ;;
  let off := (off + 256)%nat in
  result <- set result count_bytes off ;;
  let off := (off + length count_bytes)%nat in
  set_all result string_parts off.

(** The [for (let i = 0; i < string_count; i++)] loop of [deserialize]. *)
Fixpoint deserialize_strings (n : nat) (data : bytes) (offset : nat)
  : result (list bytes) :=
  match n with
  | O => OK []
  | S n' =>
      '(len, l_len) <- decode_varint data offset ;;
      let offset := (offset + l_len)%nat in
      let s := slice data offset (offset + Z.to_nat len) in
      let offset := (offset + Z.to_nat len)%nat in
      rest <- deserialize_strings n' data offset ;;
      OK (s :: rest)
  end.

Definition deserialize (data : bytes) : result t :=
  let offset := 0%nat in
  let version := nth_error data offset in
  let offset := S offset in
  match version with
  | Some 0x01 =>
      tree <- SymbolTree.deserialize (slice data offset (offset + 256)) ;;
      let offset := (offset + 256)%nat in
      '(string_count, sc_len) <- decode_varint data offset ;;
      let offset := (offset + sc_len)%nat in
      strings <- deserialize_strings (Z.to_nat string_count) data offset ;;
      make strings tree
  | _ => Err BadVersion
  end.

End Dictionary.

(* ===================================================================== *)
(** * compress/content-detector.ts *)
(* ===================================================================== *)

Module ContentType.
Definition UNKNOWN : Z := 0x00.
Definition TEXT_UTF8 : Z := 0x01.
Definition JSON : Z := 0x02.
Definition BINARY : Z := 0x03.
End ContentType.

(** The text scan: [printable] counts the bytes seen before the first
    [0x00]; [has_null] tells whether there is one. *)
Fixpoint count_printable (sample : bytes) (printable : Z) : Z * bool :=
  match sample with
  | [] => (printable, false)
  | b :: rest =>
      if b =? 0x00 then (printable, true)
      else if ((0x20 <=? b) && (b <=? 0x7e)) || (b =? 0x09) || (b =? 0x0a)
              || (b =? 0x0d) || (0x80 <=? b)
           then count_printable rest (printable + 1)
           else count_printable rest printable
  end.

(** [printable / sample_len > 0.9] compares a quotient of two integers up
    to 512 with nine tenths; the doubles decide it as the integers do. *)
Definition detect_content_type (data : bytes) : Z :=
  match data with
  | [] => ContentType.BINARY
  | first :: _ =>
      if ((first =? 0x7b) || (first =? 0x5b))
         && forallb (fun b => negb (b =? 0x00)) (firstn (Nat.min (length data) 64) data)
      then ContentType.JSON
      else
        let sample_len := Nat.min (length data) 512 in
        let '(printable, has_null) := count_printable (firstn sample_len data) 0 in
        if negb has_null && (9 * Z.of_nat sample_len <? 10 * printable)
        then ContentType.TEXT_UTF8
        else ContentType.BINARY
  end.

(* ===================================================================== *)
(** * compress/pipeline.ts *)
(* ===================================================================== *)

Definition METHOD_NONE : Z := 0x00.
Definition METHOD_DEFLATE : Z := 0x01.
Definition METHOD_DICTIONARY : Z := 0x02.
Definition METHOD_DICT_DEFLATE : Z := 0x03.

(** The injected functions may throw: they return a [result]. *)
Definition CompressorFn : Type := bytes -> result bytes.
Definition DecompressorFn : Type := bytes -> Z -> result bytes.

Record PipelineOptions : Type := {
  dictionary : option Dictionary.t;
  fallback_compress : option CompressorFn;
  fallback_decompress : option DecompressorFn
}.

(** An exception can be caught; a computation that does not return
    cannot. *)
Definition uncatchable (e : error) : bool :=
  match e with
  | Diverges | OutOfFuel => true
  | _ => false
  end.

(** [try { body } catch { }]: [body] is the value of the variables after
    the block, [unchanged] their value when the block is left by an
    exception. *)
Definition try_catch {A : Type} (body : result A) (unchanged : A) : result A :=
  match body with
  | OK a => OK a
  | Err e => if uncatchable e then Err e else OK unchanged
  end.

(** The first [try] block of [compress_blob]: the dictionary trial. *)
Definition try_dictionary (plaintext : bytes) (content_type : Z)
           (dictionary : option Dictionary.t) (best : bytes * Z)
  : result (bytes * Z) :=
  match dictionary with
  | Some d =>
      if (content_type =? ContentType.TEXT_UTF8) || (content_type =? ContentType.JSON)
      then
        try_catch
          (dict_compressed <- Dictionary.compress d plaintext ;;
           OK (if (length dict_compressed <? length (fst best))%nat
               then (dict_compressed, METHOD_DICTIONARY)
               else best))
          best
      else OK best
  | None => OK best
  end.

(** The second [try] block: the external compressor on the dictionary
    output, then on the plaintext.  An exception leaves the block with what
    was adopted before it. *)
Definition try_fallback (plaintext : bytes) (dictionary : option Dictionary.t)
           (fallback_compress : option CompressorFn) (best : bytes * Z)
  : result (bytes * Z) :=
  match fallback_compress with
  | Some fc =>
      let after_first :=
        if (snd best =? METHOD_DICTIONARY)
           && match dictionary with Some _ => true | None => false end
        then
          dict_deflate <- fc (fst best) ;;
          OK (if (length dict_deflate <? length (fst best))%nat
              then (dict_deflate, METHOD_DICT_DEFLATE)
              else best)
        else OK best in
      match after_first with
      | OK best' =>
          try_catch
            (deflated <- fc plaintext ;;
             OK (if (length deflated <? length (fst best'))%nat
                 then (deflated, METHOD_DEFLATE)
                 else best'))
            best'
      | Err e => try_catch (Err e) best
      end
  | None => OK best
  end.

(** The negotiation: [(best_data, best_method)] after both trials and the
    final comparison with the plaintext. *)
Definition negotiate (plaintext : bytes) (content_type : Z) (opts : PipelineOptions)
  : result (bytes * Z) :=
  let best := (plaintext, METHOD_NONE) in
  best <- try_dictionary plaintext content_type (dictionary opts) best ;;
  best <- try_fallback plaintext (dictionary opts) (fallback_compress opts) best ;;
  if (length plaintext <=? length (fst best))%nat then OK (plaintext, METHOD_NONE)
  else OK best.

(** The payload of the envelope:
    [method(1) + content_type(1) + original_size + compressed_len + data]. *)
Definition compress_blob_payload (plaintext : bytes) (opts : PipelineOptions)
  : result bytes :=
  let content_type := detect_content_type plaintext in
  '(best_data, best_method) <- negotiate plaintext content_type opts ;;
  orig_size_bytes <- encode_varint (Z.of_nat (length plaintext)) ;;
  comp_len_bytes <- encode_varint (Z.of_nat (length best_data)) ;;
  OK ([to_uint8 best_method; to_uint8 content_type]
        ++ orig_size_bytes ++ comp_len_bytes ++ best_data).

Definition compress_blob (plaintext : bytes) (opts : PipelineOptions) : result bytes :=
  payload <- compress_blob_payload plaintext opts ;;
  OK (write_envelope TAG_COMPRESSED_BLOB payload).

(** [payload.slice(offset, offset + n)] for a length [n] read from the
    wire: at most what the payload holds. *)
Definition take (n : Z) (l : bytes) : bytes :=
  firstn (Z.to_nat (Z.min n (Z.of_nat (length l)))) l.

Definition decompress_blob (compressed : bytes) (opts : PipelineOptions)
  : result bytes :=
  '(tag, payload) <- read_envelope compressed ;;
  if negb (tag =? TAG_COMPRESSED_BLOB) then Err BadTag
  else
    let offset := 0%nat in
    let method := nth_error payload offset in
    let offset := S offset in
    let _content_type := nth_error payload offset in
    let offset := S offset in
    '(original_size, os_len) <- decode_varint payload offset ;;
    let offset := (offset + os_len)%nat in
    '(compressed_len, cl_len) <- decode_varint payload offset ;;
    let offset := (offset + cl_len)%nat in
    let data := take compressed_len (skipn offset payload) in
    match method with
    | Some 0x00 => OK data
    | Some 0x01 =>
        match fallback_decompress opts with
        | None => Err MissingCollaborator
        | Some fd => fd data original_size
        end
    | Some 0x02 =>
        match dictionary opts with
        | None => Err MissingCollaborator
        | Some d => Dictionary.decompress d data original_size
        end
    | Some 0x03 =>
        match fallback_decompress opts, dictionary opts with
        | None, _ => Err MissingCollaborator
        | _, None => Err MissingCollaborator
        | Some fd, Some d =>
            inflated <- fd data 0 ;;
            Dictionary.decompress d inflated original_size
        end
    | Some _ => Err BadMethod
    | None => Err TypeError
    end.

(* ===================================================================== *)
(** * Vocabulary of the properties *)
(* ===================================================================== *)

(** The high bit of a byte, as [decode_varint] tests it. *)
Definition continuation (b : Z) : bool := negb (js_and b 0x80 =? 0).

(** The value of a big-endian byte string. *)
Definition be_value (bs : bytes) : Z := fold_left (fun acc b => acc * 256 + b) bs 0.

(** What a timestamp becomes through [encode_timestamp] and
    [decode_timestamp]: its low 48 bits ([NaN] is written as zeros). *)
Definition wrap48 (ts : number) : number :=
  match ts with
  | Num t => Num (t mod 2 ^ 48)
  | NaN => Num 0
  end.

(** Hashes of a directory node have their fixed size. *)
Definition wf_dir_node (node : DirNode) : Prop :=
  length (smt_root node) = HASH_SIZE /\
  match group_id node with
  | Some g => length g = HASH_SIZE
  | None => True
  end.

(** The payload [encode_dir_node] writes for a well-sized node. *)
Definition dir_node_layout (node : DirNode) : bytes :=
  smt_root node
  ++ match group_id node with
     | Some g => [0x01] ++ g
     | None => [0x00]
     end
  ++ encode_timestamp (dir_created node)
  ++ encode_timestamp (dir_modified node).

Definition wrap_dir_node (node : DirNode) : DirNode :=
  {| smt_root := smt_root node;
     group_id := group_id node;
     dir_created := wrap48 (dir_created node);
     dir_modified := wrap48 (dir_modified node) |}.

(** Values the data model allows: fixed-size hashes and nonces, integers in
    the exact range of a [number]. *)
Definition wf_chunk_ref (c : ChunkRef) : Prop :=
  0 <= index c < 2 ^ 53 /\
  length (hash c) = HASH_SIZE /\
  length (blob_address c) = HASH_SIZE /\
  length (nonce c) = NONCE_SIZE.

Definition wf_file_node (node : FileNode) : Prop :=
  length (content_hash node) = HASH_SIZE /\
  0 <= size node < 2 ^ 53 /\
  Z.of_nat (length (chunks node)) < 2 ^ 53 /\
  Forall wf_chunk_ref (chunks node).

(** [b] is the serialization of [c]: its index as a varint, then the three
    fixed-width fields. *)
Definition chunk_ref_bytes (c : ChunkRef) (b : bytes) : Prop :=
  exists ib,
    encode_varint (index c) = OK ib /\
    b = ib ++ hash c ++ blob_address c ++ nonce c.

(** The payload [encode_file_node] writes for a well-formed node, given
    the serializations of its size, chunk count and chunk refs. *)
Definition file_node_layout (node : FileNode) (size_bytes count_bytes : bytes)
           (bufs : list bytes) : bytes :=
  content_hash node
  ++ encode_timestamp (file_created node)
  ++ encode_timestamp (file_modified node)
  ++ size_bytes ++ count_bytes ++ concat bufs.

Definition wrap_file_node (node : FileNode) : FileNode :=
  {| content_hash := content_hash node;
     size := size node;
     file_created := wrap48 (file_created node);
     file_modified := wrap48 (file_modified node);
     chunks := chunks node |}.

(** The file node of the specification's scenario: one chunk ref, every
    hash and nonce zero, size 1024. *)
Definition sample_file_node : FileNode :=
  {| content_hash := zeros 32; size := 1024;
     file_created := Num 1700000000000; file_modified := Num 1700000000000;
     chunks := [ {| index := 0; hash := zeros 32; blob_address := zeros 32;
                    nonce := zeros 24 |} ] |}.

Definition wf_node (node : Node) : Prop :=
  match node with
  | File node => wf_file_node node
  | Dir node => wf_dir_node node
  end.

Definition wrap_node (node : Node) : Node :=
  match node with
  | File node => File (wrap_file_node node)
  | Dir node => Dir (wrap_dir_node node)
  end.

Definition created (node : Node) : number :=
  match node with
  | File node => file_created node
  | Dir node => dir_created node
  end.

Definition modified (node : Node) : number :=
  match node with
  | File node => file_modified node
  | Dir node => dir_modified node
  end.

(** A code length as the data model allows it. *)
Definition code_length_ok (len : Z) : Prop := 0 <= len <= 15.

(** Seventeen symbols, ['a'] to ['q'], with the Fibonacci numbers as
    frequencies: the Huffman tree is a comb of depth 16. *)
Definition skewed_counts : list nat :=
  [1597; 987; 610; 377; 233; 144; 89; 55; 34; 21; 13; 8; 5; 3; 2; 1; 1]%nat.

Definition skewed_frequencies : list Z :=
  zeros 97 ++ map Z.of_nat skewed_counts ++ zeros 142.

(** 4180 samples of one byte each: 1597 times ["a"], 987 times ["b"], and
    so on down to one ["p"] and one ["q"].  No sample is long enough for a
    window, so training keeps no substitution string, and the byte
    frequencies of the corpus are [skewed_frequencies]. *)
Definition skewed_samples : list bytes :=
  concat (map (fun p => repeat [fst p] (snd p))
              (combine (map Z.of_nat (seq 97 17)) skewed_counts)).

Definition no_options : PipelineOptions :=
  {| dictionary := None; fallback_compress := None; fallback_decompress := None |}.

(** The content types for which the dictionary is tried. *)
Definition text_or_json (content_type : Z) : bool :=
  (content_type =? ContentType.TEXT_UTF8) || (content_type =? ContentType.JSON).

(** The dictionary trial ran, succeeded and was adopted: its output is
    strictly shorter than the plaintext. *)
Definition adopted_dictionary_output (plaintext : bytes) (opts : PipelineOptions)
           (dict_out : bytes) : Prop :=
  exists d,
    dictionary opts = Some d /\
    text_or_json (detect_content_type plaintext) = true /\
    Dictionary.compress d plaintext = OK dict_out /\
    (length dict_out < length plaintext)%nat.

(** The outputs of the trials the negotiation runs: the dictionary on the
    plaintext (for text and JSON); the external compressor on the
    dictionary's output, when that output was adopted; the external
    compressor on the plaintext, unless the call before it threw. *)
Inductive trial (plaintext : bytes) (opts : PipelineOptions) : bytes -> Prop :=
| trial_dictionary d out :
    dictionary opts = Some d ->
    text_or_json (detect_content_type plaintext) = true ->
    Dictionary.compress d plaintext = OK out ->
    trial plaintext opts out
| trial_dictionary_external fc dict_out out :
    fallback_compress opts = Some fc ->
    adopted_dictionary_output plaintext opts dict_out ->
    fc dict_out = OK out ->
    trial plaintext opts out
| trial_external fc out :
    fallback_compress opts = Some fc ->
    (forall dict_out, adopted_dictionary_output plaintext opts dict_out ->
                      exists o, fc dict_out = OK o) ->
    fc plaintext = OK out ->
    trial plaintext opts out.

Definition is_method (m : Z) : Prop :=
  m = METHOD_DEFLATE \/ m = METHOD_DICTIONARY \/ m = METHOD_DICT_DEFLATE.

(** An envelope of method [0x00] that records an original size of 5 and
    stores no byte. *)
Definition empty_blob_of_size_5 : bytes :=
  write_envelope TAG_COMPRESSED_BLOB [METHOD_NONE; ContentType.BINARY; 5; 0].

(** A value a [Uint8Array] can hold. *)
Definition is_byte (b : Z) : Prop := 0 <= b < 256.

(** The four header bytes [write_envelope] writes. *)
Definition envelope_header (tag : Z) : bytes := [0x5a; 0x4b; VERSION; tag].

(** Values [encode_group] is meant for: 32-byte identifiers and keys; the
    bounds on the lengths hold of every JavaScript array. *)
Definition wf_member (m : GroupMember) : Prop :=
  length (pubkey m) = HASH_SIZE /\
  Z.of_nat (length (encrypted_dek m)) < 2 ^ 53.

Definition wf_group (group : Group) : Prop :=
  length (id_ group) = HASH_SIZE /\
  Z.of_nat (length (members group)) < 2 ^ 53 /\
  Forall wf_member (members group).

(** [b] is the serialization of [m]: the key, the length of the wrapped
    key as a varint, the wrapped key, the role byte. *)
Definition member_bytes (m : GroupMember) (b : bytes) : Prop :=
  exists dl,
    encode_varint (Z.of_nat (length (encrypted_dek m))) = OK dl /\
    b = pubkey m ++ dl ++ encrypted_dek m ++ [encode_role (role m)].

(** Values [encode_smt] is meant for. *)
Definition wf_entry (e : SMTEntry) : Prop :=
  length (value e) = HASH_SIZE /\
  Z.of_nat (length (path_bits e)) < 2 ^ 53.

Definition wf_smt (smt : SMTData) : Prop :=
  length (root smt) = HASH_SIZE /\
  Z.of_nat (length (entries smt)) < 2 ^ 53 /\
  Forall wf_entry (entries smt).

(** [b] is the serialization of [e]: the number of path bits as a varint,
    the packed bits, the value. *)
Definition entry_bytes (e : SMTEntry) (b : bytes) : Prop :=
  exists bl,
    encode_varint (Z.of_nat (length (path_bits e))) = OK bl /\
    b = bl ++ pack_bits (path_bits e) ++ value e.

(** Bit [p] of a buffer, most significant bit of each byte first. *)
Definition bit_at (buf : bytes) (p : nat) : bool :=
  Z.testbit (nth (p / 8) buf 0) (Z.of_nat (7 - p mod 8)).

(** A dictionary the constructors build: 256 code lengths and at most 255
    strings; the bound on the length of a string holds of every
    [Uint8Array]. *)
Definition wf_dictionary (d : Dictionary.t) : Prop :=
  length (SymbolTree.lengths (Dictionary.tree d)) = 256%nat /\
  (length (Dictionary.strings d) <= Dictionary.MAX_STRINGS)%nat /\
  Forall (fun s => Z.of_nat (length s) < 2 ^ 53) (Dictionary.strings d).

(** [part] is the serialization of the string [s]: its length as a
    varint, then its bytes. *)
Definition string_bytes (s part : bytes) : Prop :=
  exists lb, encode_varint (Z.of_nat (length s)) = OK lb /\ part = lb ++ s.

(** A compressor and its decompressor, for the examples: the compressor
    takes inputs that start with two bytes 7 and replaces these by one
    byte 8; it throws on every other input. *)
Definition strip_sevens : CompressorFn :=
  fun x =>
    if Dictionary.starts_with x [7; 7] then OK (8 :: skipn 2 x) else Err Malformed.

Definition restore_sevens : DecompressorFn :=
  fun y _ =>
    match y with
    | _ :: r => OK (7 :: 7 :: r)
    | [] => Err Malformed
    end.

Definition sevens_options : PipelineOptions :=
  {| dictionary := None;
     fallback_compress := Some strip_sevens;
     fallback_decompress := Some restore_sevens |}.

(** The symbols at the leaves of a tree, left to right, and those of the
    trees of a queue. *)
Fixpoint tree_leaves (node : SymbolTree.TreeNode) : list Z :=
  match node with
  | SymbolTree.Leaf symbol => [symbol]
  | SymbolTree.Branch l r => tree_leaves l ++ tree_leaves r
  end.

Definition queue_leaves (q : list SymbolTree.QNode) : list Z :=
  flat_map (fun n => tree_leaves (SymbolTree.tree n)) q.

(** The order of the canonical code: by length, then by symbol; and the
    symbols that have a code, in this order, as [build_encode_table]
    lists them. *)
Definition length_order (a b : Z * Z) : Z :=
  if snd a - snd b =? 0 then fst a - fst b else snd a - snd b.

Definition coded_symbols (lengths : list Z) : list (Z * Z) :=
  sort length_order
       (filter (fun s => 0 <? snd s)
               (combine (map Z.of_nat (seq 0 256)) lengths)).

(** The codes [assign_codes] gives to a list of symbols, in order:
    (symbol, (code, length)). *)
Fixpoint canonical_codes (symbols : list (Z * Z)) (code prev_len : Z)
  : list (Z * (Z * Z)) :=
  match symbols with
  | [] => []
  | s :: rest =>
      let code :=
        if 0 <? prev_len then js_shl (code + 1) (snd s - prev_len) else code in
      (fst s, (code, snd s)) :: canonical_codes rest code (snd s)
  end.

(** Kraft's sum in units of [2^-15]: a code of length [len] weighs
    [2^(15 - len)], and the inequality reads [kraft_weight <= 2^15]. *)
Definition kraft_weight (lengths : list Z) : Z :=
  fold_right (fun len acc => if 0 <? len then 2 ^ (15 - len) + acc else acc)
             0 lengths.

Definition code_weight (symbols : list (Z * Z)) : Z :=
  fold_right (fun s acc => 2 ^ (15 - snd s) + acc) 0 symbols.

(** The 15-bit words that start with a code: from [code_lo] up to, not
    including, [code_hi]. *)
Definition code_lo (e : Z * (Z * Z)) : Z := fst (snd e) * 2 ^ (15 - snd (snd e)).
Definition code_hi (e : Z * (Z * Z)) : Z := (fst (snd e) + 1) * 2 ^ (15 - snd (snd e)).

(** The key of the decode [Map]. *)
Definition decode_key (len code : Z) : Z := js_or (js_shl len 16) code.

(** The code book of a table of lengths: the symbols that have a code,
    each with its code and its length. *)
Definition code_book (lengths : list Z) : list (Z * (Z * Z)) :=
  canonical_codes (coded_symbols lengths) 0 0.

(** The height of a tree, and the weight of one code length in Kraft's
    sum, in units of [2^-15]. *)
Fixpoint tree_height (node : SymbolTree.TreeNode) : nat :=
  match node with
  | SymbolTree.Leaf _ => 0%nat
  | SymbolTree.Branch l r => S (Nat.max (tree_height l) (tree_height r))
  end.

Definition length_weight (len : Z) : Z := if 0 <? len then 2 ^ (15 - len) else 0.

(* ===================================================================== *)
(** * Properties: result monad and bit-level facts *)
(* ===================================================================== *)

Lemma bind_inv {A B : Type} (r : result A) (k : A -> result B) (b : B) :
  bind r k = OK b -> exists a, r = OK a /\ k a = OK b.
Proof. destruct r as [a|e]; simpl; intros H; [eauto | discriminate]. Qed.

(** A boolean property checked on [0 .. n-1] holds on that range. *)
Lemma forall_range (P : Z -> bool) (n : nat) :
  forallb P (map Z.of_nat (seq 0 n)) = true ->
  forall b, 0 <= b < Z.of_nat n -> P b = true.
Proof.
  intros H b Hb.
  rewrite forallb_forall in H. apply H.
  apply in_map_iff. exists (Z.to_nat b). split; [lia |].
  apply in_seq. lia.
Qed.

Lemma to_int32_mod_pow2 (x : Z) (k : Z) :
  0 <= k <= 32 -> to_int32 x mod 2 ^ k = x mod 2 ^ k.
Proof.
  intros Hk. unfold to_int32.
  assert (Hd : 2 ^ 32 = 2 ^ k * 2 ^ (32 - k)).
  { rewrite <- Z.pow_add_r by lia. f_equal. lia. }
  assert (Hpos : 0 < 2 ^ k) by (apply Z.pow_pos_nonneg; lia).
  assert (Hmm : (x mod 2 ^ 32) mod 2 ^ k = x mod 2 ^ k).
  { rewrite Hd. rewrite Z.rem_mul_r by lia.
    rewrite (Z.mul_comm (2 ^ k)), Z.mod_add by lia.
    apply Z.mod_mod. lia. }
  destruct (x mod 2 ^ 32 <? 2 ^ 31); [exact Hmm |].
  rewrite <- Hmm.
  replace (x mod 2 ^ 32 - 2 ^ 32) with (x mod 2 ^ 32 + (- 2 ^ (32 - k)) * 2 ^ k)
    by (rewrite Hd at 3; ring).
  apply Z.mod_add. lia.
Qed.

(** Masking with [0x7f] or [0xff] keeps the low bits, whatever the size of
    the left operand: this is why [value & 0x7f] is safe on large numbers. *)
Lemma js_and_0x7f (x : Z) : js_and x 0x7f = x mod 128.
Proof.
  unfold js_and. change (to_int32 127) with (Z.ones 7).
  rewrite Z.land_ones by lia. apply (to_int32_mod_pow2 x 7). lia.
Qed.

Lemma js_and_0xff (x : Z) : js_and x 0xff = x mod 256.
Proof.
  unfold js_and. change (to_int32 255) with (Z.ones 8).
  rewrite Z.land_ones by lia. apply (to_int32_mod_pow2 x 8). lia.
Qed.

Lemma low7_facts (b : Z) :
  0 <= b < 128 ->
  continuation b = false /\ js_and b 0x7f = b /\
  continuation (js_or b 0x80) = true /\ js_and (js_or b 0x80) 0x7f = b.
Proof.
  intros Hb.
  pose proof (forall_range
    (fun b => negb (continuation b) && (js_and b 0x7f =? b)
              && continuation (js_or b 0x80)
              && (js_and (js_or b 0x80) 0x7f =? b)) 128) as H.
  specialize (H eq_refl b Hb).
  repeat (apply andb_true_iff in H; destruct H as [H ?]).
  rewrite negb_true_iff in H. repeat split; try assumption; lia.
Qed.

(* ===================================================================== *)
(** * Properties: codec/varint.ts *)
(* ===================================================================== *)

Example encode_varint_300 : encode_varint 300 = OK [0xAC; 0x02].
Proof. reflexivity. Qed.

Example decode_varint_300 : decode_varint [0xAC; 0x02; 0xFF] 0 = OK (300, 2%nat).
Proof. reflexivity. Qed.

Example decode_varint_empty : decode_varint [] 0 = Err Truncated.
Proof. reflexivity. Qed.

Lemma decode_varint_loop_cons (b : Z) (rest : bytes) (value shift : Z) (read : nat) :
  decode_varint_loop (b :: rest) value shift read
  = if js_and b 0x80 =? 0 then OK (value + js_and b 0x7f * 2 ^ shift, S read)
    else if 49 <? shift + 7 then Err TooLarge
         else decode_varint_loop rest (value + js_and b 0x7f * 2 ^ shift)
                                 (shift + 7) (S read).
Proof. reflexivity. Qed.

(** The encoder's loop returns when the fuel covers the groups of [n]. *)
Lemma encode_varint_loop_total (fuel : nat) :
  forall n : Z,
    0 <= n < 128 ^ Z.of_nat fuel -> (1 <= fuel)%nat ->
    exists bs, encode_varint_loop fuel n = OK bs /\ (1 <= length bs)%nat.
Proof.
  induction fuel as [|fuel IH]; intros n Hn Hf; [lia |].
  simpl encode_varint_loop.
  destruct (Z.ltb_spec 0 (n / 128)) as [Hpos | Hzero].
  - assert (Hfuel : n / 128 < 128 ^ Z.of_nat fuel).
    { apply Z.div_lt_upper_bound; [lia |].
      replace (Z.of_nat (S fuel)) with (1 + Z.of_nat fuel) in Hn by lia.
      rewrite Z.pow_add_r in Hn by lia. lia. }
    assert (Hf' : (1 <= fuel)%nat).
    { destruct fuel; [simpl in Hfuel; lia | lia]. }
    destruct (IH (n / 128)) as (bs & Henc & Hlen); try lia.
    rewrite Henc. simpl. eexists. split; [reflexivity | simpl; lia].
  - eexists. split; [reflexivity | simpl; lia].
Qed.

(** Decoding what the encoder's loop wrote, at any position of the decoder's
    loop: [k] bounds the number of seven-bit groups of [n], [j] counts the
    groups already consumed. *)
Lemma varint_loops (fuel : nat) :
  forall (k j : nat) (n value : Z) (read : nat) (bs tail : bytes),
    encode_varint_loop fuel n = OK bs ->
    0 <= n < 128 ^ Z.of_nat k -> (1 <= k)%nat -> (j + k <= 8)%nat ->
    (length bs <= k)%nat /\
    decode_varint_loop (bs ++ tail) value (7 * Z.of_nat j) read
    = OK (value + n * 2 ^ (7 * Z.of_nat j), (read + length bs)%nat).
Proof.
  induction fuel as [|fuel IH]; intros k j n value read bs tail Henc Hk Hk1 Hj;
    [discriminate |].
  simpl encode_varint_loop in Henc. rewrite js_and_0x7f in Henc.
  assert (Hb : 0 <= n mod 128 < 128) by (apply Z.mod_pos_bound; lia).
  destruct (low7_facts _ Hb) as (Ht & Hlow & Hc & Hclow).
  assert (Hdm : n = 128 * (n / 128) + n mod 128) by (apply Z.div_mod; lia).
  destruct (Z.ltb_spec 0 (n / 128)) as [Hpos | Hzero].
  - (* a continuation byte, then the rest *)
    apply bind_inv in Henc. destruct Henc as (rest & Hrest & Hbs).
    injection Hbs as <-.
    assert (Hk2 : (2 <= k)%nat).
    { destruct k as [|[|k]]; [lia | simpl in Hk; lia | lia]. }
    assert (Hk' : n / 128 < 128 ^ Z.of_nat (k - 1)).
    { apply Z.div_lt_upper_bound; [lia |].
      replace (Z.of_nat k) with (1 + Z.of_nat (k - 1)) in Hk by lia.
      rewrite Z.pow_add_r in Hk by lia. lia. }
    destruct (IH (k - 1)%nat (S j) (n / 128)
                 (value + n mod 128 * 2 ^ (7 * Z.of_nat j)) (S read) rest tail)
      as (Hlen & Hdec); try lia; try assumption.
    split; [simpl; lia |].
    rewrite <- app_comm_cons, decode_varint_loop_cons.
    unfold continuation in Hc. apply negb_true_iff in Hc. rewrite Hc, Hclow.
    destruct (Z.ltb_spec 49 (7 * Z.of_nat j + 7)); [lia |].
    replace (7 * Z.of_nat j + 7) with (7 * Z.of_nat (S j)) by lia.
    rewrite Hdec. f_equal. f_equal.
    + replace (7 * Z.of_nat (S j)) with (7 + 7 * Z.of_nat j) by lia.
      rewrite Z.pow_add_r by lia. change (2 ^ 7) with 128.
      rewrite Hdm at 3. ring.
    + simpl. lia.
  - (* the terminator byte *)
    injection Henc as <-.
    assert (Hsmall : n / 128 = 0).
    { assert (0 <= n / 128) by (apply Z.div_pos; lia). lia. }
    split; [simpl; lia |].
    rewrite <- app_comm_cons, decode_varint_loop_cons.
    unfold continuation in Ht. apply negb_false_iff in Ht. rewrite Ht, Hlow.
    f_equal. f_equal; [| simpl; lia].
    rewrite Hdm at 2. rewrite Hsmall. ring.
Qed.

Lemma varint_fuel_enough (n : Z) :
  0 <= n -> n < 128 ^ Z.of_nat (varint_fuel n).
Proof.
  intros Hn. unfold varint_fuel.
  destruct (Z.eq_dec n 0) as [-> | Hnz]; [reflexivity |].
  assert (Hlog : n < 2 ^ Z.succ (Z.log2 n)) by (apply Z.log2_spec; lia).
  assert (Hl0 : 0 <= Z.log2 n) by apply Z.log2_nonneg.
  rewrite Nat2Z.inj_succ, Z2Nat.id by lia.
  eapply Z.lt_le_trans; [exact Hlog |].
  apply Z.pow_le_mono_l. lia.
Qed.

(** [encode_varint] returns on every non-negative number. *)
Lemma encode_varint_total (n : Z) :
  0 <= n -> exists bs, encode_varint n = OK bs /\ (1 <= length bs)%nat.
Proof.
  intros Hn. unfold encode_varint.
  destruct (Z.ltb_spec n 0); [lia |].
  apply encode_varint_loop_total.
  - split; [lia | apply varint_fuel_enough; lia].
  - unfold varint_fuel; lia.
Qed.

(** What [encode_varint] wrote decodes back wherever it sits in a buffer,
    as long as the number fits eight seven-bit groups. *)
Lemma decode_varint_at (n : Z) (bs pre post : bytes) :
  encode_varint n = OK bs -> n < 2 ^ 56 ->
  decode_varint (pre ++ bs ++ post) (length pre) = OK (n, length bs).
Proof.
  intros Henc Hn. unfold encode_varint in Henc.
  destruct (Z.ltb_spec n 0); [discriminate |].
  unfold decode_varint. rewrite skipn_app, skipn_all, Nat.sub_diag. simpl.
  destruct (varint_loops _ 8 0 n 0 0%nat bs post Henc) as (_ & Hdec).
  - change (128 ^ Z.of_nat 8) with (2 ^ 56). lia.
  - lia.
  - lia.
  - simpl in Hdec. rewrite Hdec. f_equal. f_equal. lia.
Qed.

Lemma encode_varint_length (n : Z) (bs : bytes) :
  encode_varint n = OK bs -> (1 <= length bs)%nat.
Proof.
  intros Henc.
  destruct (Z.ltb_spec n 0) as [Hneg | Hpos].
  - unfold encode_varint in Henc.
    destruct (Z.ltb_spec n 0); [discriminate | lia].
  - destruct (encode_varint_total n Hpos) as (bs' & Henc' & Hlen).
    congruence.
Qed.

(** C5.  For every [n] with [0 <= n <= 2^48], [encode_varint n] returns a
    byte sequence, and [decode_varint] of it at offset 0 returns the pair
    [(n, L)] where [L] is the length of that byte sequence. *)
Theorem varint_roundtrip (n : Z) :
  0 <= n <= 2 ^ 48 ->
  exists bs,
    encode_varint n = OK bs /\
    decode_varint bs 0 = OK (n, length bs).
Proof.
  intros Hn.
  destruct (encode_varint_total n) as (bs & Henc & _); [lia |].
  exists bs. split; [exact Henc |].
  pose proof (decode_varint_at n bs [] [] Henc) as Hdec.
  simpl in Hdec. rewrite app_nil_r in Hdec. apply Hdec. lia.
Qed.

Lemma varint_roundtrip_witness :
  0 <= 2 ^ 48 <= 2 ^ 48 /\
  exists bs,
    encode_varint (2 ^ 48) = OK bs /\
    decode_varint bs 0 = OK (2 ^ 48, length bs).
Proof. split; [lia | apply (varint_roundtrip (2 ^ 48)); lia]. Defined.

(** ** How [decode_varint] fails *)

Lemma decode_varint_loop_truncated (rest : bytes) :
  forall (j : nat) (value : Z) (read : nat),
    Forall (fun b => continuation b = true) rest ->
    (length rest + j <= 7)%nat ->
    decode_varint_loop rest value (7 * Z.of_nat j) read = Err Truncated.
Proof.
  induction rest as [|b rest IH]; intros j value read Hall Hlen; [reflexivity |].
  inversion Hall as [|? ? Hb Hrest]; subst.
  rewrite decode_varint_loop_cons.
  unfold continuation in Hb. apply negb_true_iff in Hb. rewrite Hb.
  simpl length in Hlen.
  destruct (Z.ltb_spec 49 (7 * Z.of_nat j + 7)); [lia |].
  replace (7 * Z.of_nat j + 7) with (7 * Z.of_nat (S j)) by lia.
  apply IH; [assumption | lia].
Qed.

Lemma decode_varint_loop_too_large (rest : bytes) :
  forall (j : nat) (value : Z) (read : nat),
    (j <= 7)%nat -> (8 - j <= length rest)%nat ->
    Forall (fun b => continuation b = true) (firstn (8 - j) rest) ->
    decode_varint_loop rest value (7 * Z.of_nat j) read = Err TooLarge.
Proof.
  induction rest as [|b rest IH]; intros j value read Hj Hlen Hall.
  - simpl length in Hlen. lia.
  - replace (8 - j)%nat with (S (7 - j)) in Hall by lia.
    rewrite firstn_cons in Hall.
    inversion Hall as [|? ? Hb Hrest]; subst.
    rewrite decode_varint_loop_cons.
    unfold continuation in Hb. apply negb_true_iff in Hb. rewrite Hb.
    destruct (Z.ltb_spec 49 (7 * Z.of_nat j + 7)); [reflexivity |].
    replace (7 * Z.of_nat j + 7) with (7 * Z.of_nat (S j)) by lia.
    simpl length in Hlen.
    apply IH; [lia | lia |].
    replace (8 - S j)%nat with (7 - j)%nat by lia. assumption.
Qed.

Lemma decode_varint_loop_terminated (conts : bytes) :
  forall (j : nat) (t : Z) (tail : bytes) (value : Z) (read : nat),
    Forall (fun b => continuation b = true) conts ->
    (length conts + j <= 7)%nat -> continuation t = false ->
    exists v,
      decode_varint_loop (conts ++ t :: tail) value (7 * Z.of_nat j) read
      = OK (v, S (read + length conts)).
Proof.
  induction conts as [|b conts IH]; intros j t tail value read Hall Hlen Ht.
  - simpl app. rewrite decode_varint_loop_cons.
    unfold continuation in Ht. apply negb_false_iff in Ht. rewrite Ht.
    eexists. simpl. rewrite Nat.add_0_r. reflexivity.
  - inversion Hall as [|? ? Hb Hrest]; subst.
    rewrite <- app_comm_cons, decode_varint_loop_cons.
    unfold continuation in Hb. apply negb_true_iff in Hb. rewrite Hb.
    simpl length in Hlen.
    destruct (Z.ltb_spec 49 (7 * Z.of_nat j + 7)); [lia |].
    replace (7 * Z.of_nat j + 7) with (7 * Z.of_nat (S j)) by lia.
    destruct (IH (S j) t tail (value + js_and b 127 * 2 ^ (7 * Z.of_nat j)) (S read))
      as (v & Hv); [assumption | lia | assumption |].
    exists v. rewrite Hv. simpl. f_equal. f_equal. lia.
Qed.

(** C6, as the code has it.  With [rest] the bytes of the buffer from
    [offset] on: [decode_varint] fails with [Truncated] when [rest] holds at
    most seven bytes, all with the high bit set (the empty rest included);
    it fails with [TooLarge] as soon as the first eight bytes of [rest] all
    have the high bit set; and it succeeds, reading [k + 1] bytes, whenever
    a byte with the high bit clear follows [k <= 7] bytes with the high bit
    set, that is for every varint of up to 56 payload bits. *)
Theorem decode_varint_failures (buf : bytes) (offset : nat) :
  (Forall (fun b => continuation b = true) (skipn offset buf) ->
   (length (skipn offset buf) <= 7)%nat ->
   decode_varint buf offset = Err Truncated) /\
  ((8 <= length (skipn offset buf))%nat ->
   Forall (fun b => continuation b = true) (firstn 8 (skipn offset buf)) ->
   decode_varint buf offset = Err TooLarge) /\
  (forall (k : nat) (t : Z),
     (k <= 7)%nat ->
     Forall (fun b => continuation b = true) (firstn k (skipn offset buf)) ->
     nth_error (skipn offset buf) k = Some t -> continuation t = false ->
     exists v, decode_varint buf offset = OK (v, S k)).
Proof.
  unfold decode_varint. set (rest := skipn offset buf). repeat split.
  - intros Hall Hlen.
    apply (decode_varint_loop_truncated rest 0); [assumption | lia].
  - intros Hlen Hall.
    apply (decode_varint_loop_too_large rest 0); [lia | simpl; lia | assumption].
  - intros k t Hk Hall Hnth Ht.
    destruct (nth_error_split rest k Hnth) as (l1 & l2 & Hrest & Hl1).
    assert (Hfirst : firstn k rest = l1).
    { rewrite Hrest, <- Hl1, firstn_app, Nat.sub_diag, firstn_all. simpl.
      apply app_nil_r. }
    rewrite Hfirst in Hall.
    destruct (decode_varint_loop_terminated l1 0 t l2 0 0%nat Hall) as (v & Hv);
      [lia | assumption |].
    exists v. rewrite Hrest. simpl in Hv. rewrite Hv. rewrite Hl1. reflexivity.
Qed.

Lemma decode_varint_failures_witness :
  decode_varint [0x80; 0x80] 0 = Err Truncated /\
  decode_varint (repeat 0x80 9) 0 = Err TooLarge /\
  exists v, decode_varint [0xff; 0xff; 0xff; 0xff; 0xff; 0xff; 0xff; 0x7f] 0
            = OK (v, 8%nat).
Proof.
  split; [| split].
  - destruct (decode_varint_failures [0x80; 0x80] 0) as (H & _ & _).
    apply H; [repeat constructor | simpl; lia].
  - destruct (decode_varint_failures (repeat 0x80 9) 0) as (_ & H & _).
    apply H; [simpl; lia | repeat constructor].
  - destruct (decode_varint_failures
                [0xff; 0xff; 0xff; 0xff; 0xff; 0xff; 0xff; 0x7f] 0) as (_ & _ & H).
    apply (H 7%nat 0x7f); [lia | repeat constructor | reflexivity | reflexivity].
Defined.

(** C6, as the specification words it, fails twice.  Eight bytes carry 56
    payload bits and decode: here to [2^49], a value of 50 bits.  And a
    buffer of eight bytes that ends before any terminator is reported as
    [TooLarge], not as [Truncated]. *)
Lemma decode_varint_beyond_49_bits :
  decode_varint [0x80; 0x80; 0x80; 0x80; 0x80; 0x80; 0x80; 0x01] 0
  = OK (2 ^ 49, 8%nat) /\
  49 < Z.log2 (2 ^ 49) + 1 /\
  Forall (fun b => continuation b = true) (repeat 0x80 8) /\
  decode_varint (repeat 0x80 8) 0 = Err TooLarge.
Proof.
  split; [reflexivity |]. split; [reflexivity |].
  split; [repeat constructor | reflexivity].
Qed.

(* ===================================================================== *)
(** * Properties: buffers *)
(* ===================================================================== *)

Lemma zeros_length (n : nat) : length (zeros n) = n.
Proof. apply repeat_length. Qed.

Lemma zeros_app (n m : nat) : zeros (n + m) = zeros n ++ zeros m.
Proof. apply repeat_app. Qed.

Lemma slice_app_mid (pre mid post : bytes) :
  slice (pre ++ mid ++ post) (length pre) (length pre + length mid) = mid.
Proof.
  unfold slice. rewrite skipn_app, skipn_all, Nat.sub_diag. simpl.
  replace (length pre + length mid - length pre)%nat with (length mid) by lia.
  rewrite firstn_app, Nat.sub_diag, firstn_all. simpl. apply app_nil_r.
Qed.

Lemma slice_app_mid_eq (pre mid post : bytes) (a b : nat) :
  a = length pre -> b = (length pre + length mid)%nat ->
  slice (pre ++ mid ++ post) a b = mid.
Proof. intros -> ->. apply slice_app_mid. Qed.

Lemma nth_error_mid (pre mid post : bytes) (i : nat) :
  (i < length mid)%nat ->
  nth_error (pre ++ mid ++ post) (length pre + i) = nth_error mid i.
Proof.
  intros Hi. rewrite nth_error_app2 by lia.
  replace (length pre + i - length pre)%nat with i by lia.
  apply nth_error_app1. exact Hi.
Qed.

(** Filling a fresh buffer left to right: a [set] at the end of what has
    been written so far replaces as many zeros by the source. *)
Lemma set_fill (pre src : bytes) (m : nat) :
  set (pre ++ zeros (length src + m)) src (length pre)
  = OK ((pre ++ src) ++ zeros m).
Proof.
  unfold set. rewrite length_app, zeros_length.
  destruct (Nat.leb_spec (length src + length pre)
                         (length pre + (length src + m))); [| lia].
  rewrite firstn_app, Nat.sub_diag, firstn_all. simpl. rewrite app_nil_r.
  rewrite skipn_app, (skipn_all2 pre) by lia. simpl.
  replace (length pre + length src - length pre)%nat with (length src) by lia.
  rewrite zeros_app, skipn_app, zeros_length, Nat.sub_diag, skipn_all2
    by (rewrite zeros_length; lia).
  simpl. rewrite <- app_assoc. reflexivity.
Qed.

(* ===================================================================== *)
(** * Properties: timestamps (codec/constants.ts) *)
(* ===================================================================== *)

Lemma be_value_snoc (bs : bytes) (b : Z) : be_value (bs ++ [b]) = be_value bs * 256 + b.
Proof. unfold be_value. rewrite fold_left_app. reflexivity. Qed.

Lemma encode_timestamp_loop_length (n : nat) :
  forall val, length (encode_timestamp_loop n val) = n.
Proof. induction n as [|n IH]; intros val; simpl; [| rewrite IH]; reflexivity. Qed.

Lemma encode_timestamp_loop_value (n : nat) :
  forall val, be_value (rev (encode_timestamp_loop n val)) = val mod 256 ^ Z.of_nat n.
Proof.
  induction n as [|n IH]; intros val.
  - simpl. rewrite Z.mod_1_r. reflexivity.
  - simpl encode_timestamp_loop. simpl rev.
    rewrite be_value_snoc, IH.
    rewrite js_and_0xff. unfold to_uint8. rewrite Z.mod_mod by lia.
    rewrite Nat2Z.inj_succ, Z.pow_succ_r by lia.
    rewrite Z.rem_mul_r by lia. ring.
Qed.

Lemma encode_timestamp_length (ts : number) : length (encode_timestamp ts) = 6%nat.
Proof.
  destruct ts; simpl.
  - reflexivity.
  - reflexivity.
Qed.

Lemma decode_timestamp_at (pre bs post : bytes) :
  length bs = 6%nat ->
  decode_timestamp (pre ++ bs ++ post) (length pre) = Num (be_value bs).
Proof.
  intros Hlen.
  unfold decode_timestamp, TIMESTAMP_SIZE. simpl seq. cbn [fold_left].
  rewrite !nth_error_mid by lia.
  destruct bs as [|b0 [|b1 [|b2 [|b3 [|b4 [|b5 [|]]]]]]]; try discriminate.
  reflexivity.
Qed.

(** What [encode_timestamp] writes decodes to the timestamp modulo [2^48]. *)
Lemma timestamp_roundtrip (t : Z) (pre post : bytes) :
  decode_timestamp (pre ++ encode_timestamp (Num t) ++ post) (length pre)
  = Num (t mod 2 ^ 48).
Proof.
  rewrite decode_timestamp_at by apply encode_timestamp_length.
  unfold encode_timestamp. rewrite encode_timestamp_loop_value. reflexivity.
Qed.

(* ===================================================================== *)
(** * Properties: CRC-32 and the envelope *)
(* ===================================================================== *)

Example crc32_check_value :
  crc32 [0x31; 0x32; 0x33; 0x34; 0x35; 0x36; 0x37; 0x38; 0x39] = 0xCBF43926.
Proof. vm_compute. reflexivity. Qed.

Lemma js_ushr_0 (x : Z) : js_ushr x 0 = x mod 2 ^ 32.
Proof. unfold js_ushr, to_uint32. apply Z.shiftr_0_r. Qed.

Lemma crc32_range (data : bytes) : 0 <= crc32 data < 2 ^ 32.
Proof. unfold crc32. rewrite js_ushr_0. apply Z.mod_pos_bound. lia. Qed.

Lemma js_ushr_small (c k : Z) :
  0 <= c < 2 ^ 32 -> 0 <= k < 32 -> js_ushr c k = c / 2 ^ k.
Proof.
  intros Hc Hk. unfold js_ushr, to_uint32.
  rewrite (Z.mod_small c) by lia.
  rewrite (Z.mod_small k) by lia. rewrite (Z.mod_small k) by lia.
  apply Z.shiftr_div_pow2. lia.
Qed.

Lemma get_uint32_crc32_bytes (data : bytes) :
  get_uint32 (crc32_bytes data) = crc32 data.
Proof.
  unfold crc32_bytes. pose proof (crc32_range data) as Hc.
  set (c := crc32 data) in *.
  rewrite !js_and_0xff, !js_ushr_small by lia.
  unfold get_uint32. simpl fold_left.
  change (2 ^ 24) with 16777216. change (2 ^ 16) with 65536.
  change (2 ^ 8) with 256. change (2 ^ 32) with 4294967296 in Hc.
  Z.div_mod_to_equations. lia.
Qed.

Lemma crc32_bytes_length (data : bytes) : length (crc32_bytes data) = 4%nat.
Proof. reflexivity. Qed.

Lemma verify_crc32_appended (data : bytes) :
  verify_crc32 (data ++ crc32_bytes data) = true.
Proof.
  unfold verify_crc32. rewrite length_app, crc32_bytes_length.
  destruct (Nat.ltb_spec (length data + 4) 4); [lia |].
  replace (length data + 4 - 4)%nat with (length data) by lia.
  pose proof (slice_app_mid [] data (crc32_bytes data)) as Hs1.
  simpl in Hs1. rewrite Hs1.
  pose proof (slice_app_mid data (crc32_bytes data) []) as Hs2.
  rewrite app_nil_r, crc32_bytes_length in Hs2. rewrite Hs2.
  rewrite get_uint32_crc32_bytes. apply Z.eqb_refl.
Qed.

(** Reading back what [write_envelope] wrote gives the tag byte and the
    payload. *)
Lemma read_write_envelope (tag : Z) (payload : bytes) :
  read_envelope (write_envelope tag payload) = OK (to_uint8 tag, payload).
Proof.
  unfold read_envelope, write_envelope.
  set (crc_input := [nth 0 MAGIC 0; nth 1 MAGIC 0; VERSION; to_uint8 tag] ++ payload).
  rewrite verify_crc32_appended.
  assert (Hlen : length (crc_input ++ crc32_bytes crc_input)
                 = (4 + length payload + 4)%nat).
  { rewrite length_app, crc32_bytes_length. reflexivity. }
  rewrite Hlen.
  destruct (Nat.ltb_spec (4 + length payload + 4)
                         (ENVELOPE_HEADER_SIZE + ENVELOPE_FOOTER_SIZE));
    [unfold ENVELOPE_HEADER_SIZE, ENVELOPE_FOOTER_SIZE in *; lia |].
  assert (Hbuf : crc_input ++ crc32_bytes crc_input
                 = [0x5a; 0x4b; VERSION; to_uint8 tag]
                     ++ payload ++ crc32_bytes crc_input).
  { unfold crc_input. rewrite <- app_assoc. reflexivity. }
  rewrite Hbuf. cbn [nth app MAGIC]. rewrite !Z.eqb_refl. cbn [negb orb].
  f_equal. f_equal.
  change (90 :: 75 :: VERSION :: to_uint8 tag :: payload ++ crc32_bytes crc_input)
    with ([0x5a; 0x4b; VERSION; to_uint8 tag] ++ payload ++ crc32_bytes crc_input).
  apply slice_app_mid_eq.
  - reflexivity.
  - unfold ENVELOPE_FOOTER_SIZE. simpl length. lia.
Qed.

Lemma has_magic_write_envelope (tag : Z) (payload : bytes) :
  has_magic (write_envelope tag payload) = true.
Proof. reflexivity. Qed.

(* ===================================================================== *)
(** * Properties: reading and writing at an offset *)
(* ===================================================================== *)

(** The lemmas of this section take the buffer as [pre ++ mid ++ post] up to
    an equation, so that they apply whatever way the appends are nested. *)

Lemma set_fill_eq (buf pre src : bytes) (off m : nat) :
  buf = pre ++ zeros (length src + m) -> off = length pre ->
  set buf src off = OK ((pre ++ src) ++ zeros m).
Proof. intros -> ->. apply set_fill. Qed.

Lemma store_fill_eq (buf pre : bytes) (off m : nat) (v : Z) :
  buf = pre ++ zeros (S m) -> off = length pre ->
  store buf off v = (pre ++ [to_uint8 v]) ++ zeros m.
Proof.
  intros -> ->. unfold store. rewrite length_app, zeros_length.
  destruct (Nat.ltb_spec (length pre) (length pre + S m)); [| lia].
  rewrite firstn_app, Nat.sub_diag, firstn_all. simpl firstn. rewrite app_nil_r.
  rewrite skipn_app, skipn_all2 by lia.
  replace (S (length pre) - length pre)%nat with 1%nat by lia.
  simpl. rewrite <- app_assoc. reflexivity.
Qed.

Lemma slice_eq (buf pre mid post : bytes) (a b : nat) :
  buf = pre ++ mid ++ post -> a = length pre -> b = (a + length mid)%nat ->
  slice buf a b = mid.
Proof. intros -> -> ->. apply slice_app_mid. Qed.

Lemma nth_error_eq (buf pre post : bytes) (x : Z) (i : nat) :
  buf = pre ++ [x] ++ post -> i = length pre -> nth_error buf i = Some x.
Proof.
  intros -> ->. rewrite nth_error_app2 by lia. rewrite Nat.sub_diag. reflexivity.
Qed.

Lemma decode_timestamp_eq (buf pre post : bytes) (ts : number) (off : nat) :
  buf = pre ++ encode_timestamp ts ++ post -> off = length pre ->
  decode_timestamp buf off = wrap48 ts.
Proof.
  intros -> ->. destruct ts as [t|].
  - apply timestamp_roundtrip.
  - rewrite decode_timestamp_at by reflexivity. reflexivity.
Qed.

Lemma decode_varint_eq (buf pre bs post : bytes) (n : Z) (off : nat) :
  buf = pre ++ bs ++ post -> off = length pre ->
  encode_varint n = OK bs -> n < 2 ^ 56 ->
  decode_varint buf off = OK (n, length bs).
Proof. intros -> -> Henc Hn. apply decode_varint_at; assumption. Qed.

Lemma set_first_eq (src : bytes) (n off m : nat) :
  n = (length src + m)%nat -> off = 0%nat ->
  set (zeros n) src off = OK (src ++ zeros m).
Proof. intros -> ->. apply (set_fill [] src m). Qed.

(** Side conditions on lengths. *)
Ltac len :=
  repeat rewrite length_app; rewrite ?zeros_length, ?encode_timestamp_length;
  unfold HASH_SIZE, NONCE_SIZE, TIMESTAMP_SIZE in *; cbn [length]; lia.

(** The next [set] of an encoder: it writes [src] after what is written and
    leaves [m] zeros. *)
Ltac fill_first src m :=
  rewrite (set_first_eq src _ _ m) by len; cbn [bind].

Ltac fill src m :=
  erewrite (set_fill_eq _ _ src _ m);
  [ cbn [bind]
  | apply (f_equal2 (@app Z)); [reflexivity | apply (f_equal zeros); len]
  | len ].

(* ===================================================================== *)
(** * Properties: codec/dir-node.ts *)
(* ===================================================================== *)

Lemma encode_dir_node_payload_layout (node : DirNode) :
  wf_dir_node node ->
  encode_dir_node_payload node = OK (dir_node_layout node).
Proof.
  intros (Hroot & Hgroup).
  unfold encode_dir_node_payload, dir_node_layout.
  pose proof (encode_timestamp_length (dir_created node)) as Hc.
  pose proof (encode_timestamp_length (dir_modified node)) as Hm.
  destruct (group_id node) as [g|].
  - fill_first (smt_root node) (1 + 32 + 6 + 6)%nat.
    erewrite (store_fill_eq _ (smt_root node) _ (32 + 6 + 6)); [| reflexivity | len].
    fill g (6 + 6)%nat.
    fill (encode_timestamp (dir_created node)) 6%nat.
    fill (encode_timestamp (dir_modified node)) 0%nat.
    f_equal. cbn [zeros repeat]. rewrite app_nil_r.
    repeat rewrite <- app_assoc. reflexivity.
  - fill_first (smt_root node) (1 + 6 + 6)%nat.
    erewrite (store_fill_eq _ (smt_root node) _ (6 + 6)); [| reflexivity | len].
    cbn [bind].
    fill (encode_timestamp (dir_created node)) 6%nat.
    fill (encode_timestamp (dir_modified node)) 0%nat.
    f_equal. cbn [zeros repeat]. rewrite app_nil_r.
    repeat rewrite <- app_assoc. reflexivity.
Qed.

Lemma decode_dir_node_payload_layout (node : DirNode) :
  wf_dir_node node ->
  decode_dir_node_payload (dir_node_layout node) = wrap_dir_node node.
Proof.
  intros (Hroot & Hgroup).
  unfold decode_dir_node_payload, dir_node_layout, wrap_dir_node.
  set (tc := encode_timestamp (dir_created node)).
  set (tm := encode_timestamp (dir_modified node)).
  assert (Htc : length tc = 6%nat) by apply encode_timestamp_length.
  assert (Htm : length tm = 6%nat) by apply encode_timestamp_length.
  unfold HASH_SIZE, TIMESTAMP_SIZE in *. cbn [Nat.add].
  destruct (group_id node) as [g|].
  - set (buf := smt_root node ++ ([1] ++ g) ++ tc ++ tm).
    rewrite (slice_eq buf [] (smt_root node) (([1] ++ g) ++ tc ++ tm) 0 32)
      by first [reflexivity | len].
    rewrite (nth_error_eq buf (smt_root node) (g ++ tc ++ tm) 1 32)
      by first [unfold buf; repeat rewrite <- app_assoc; reflexivity | len].
    cbn [Z.eqb Pos.eqb Nat.add].
    rewrite (slice_eq buf (smt_root node ++ [1]) g (tc ++ tm) 33 65)
      by first [unfold buf; repeat rewrite <- app_assoc; reflexivity | len].
    rewrite (decode_timestamp_eq buf (smt_root node ++ [1] ++ g) tm (dir_created node) 65)
      by first [unfold buf; repeat rewrite <- app_assoc; reflexivity | len].
    rewrite (decode_timestamp_eq buf (smt_root node ++ [1] ++ g ++ tc) []
               (dir_modified node) 71)
      by first [unfold buf; repeat rewrite <- app_assoc; rewrite app_nil_r; reflexivity
               | len].
    reflexivity.
  - set (buf := smt_root node ++ [0] ++ tc ++ tm).
    rewrite (slice_eq buf [] (smt_root node) ([0] ++ tc ++ tm) 0 32)
      by first [reflexivity | len].
    rewrite (nth_error_eq buf (smt_root node) (tc ++ tm) 0 32)
      by first [reflexivity | len].
    cbn [Z.eqb Nat.add].
    rewrite (decode_timestamp_eq buf (smt_root node ++ [0]) tm (dir_created node) 33)
      by first [unfold buf; repeat rewrite <- app_assoc; reflexivity | len].
    rewrite (decode_timestamp_eq buf (smt_root node ++ [0] ++ tc) []
               (dir_modified node) 39)
      by first [unfold buf; repeat rewrite <- app_assoc; rewrite app_nil_r; reflexivity
               | len].
    reflexivity.
Qed.

Example dir_node_inherit_size :
  option_map (@length Z)
    (match encode_dir_node
             {| smt_root := zeros 32; group_id := None;
                dir_created := Num 1700000000000;
                dir_modified := Num 1700000000000 |} with
     | OK b => Some b | Err _ => None end) = Some 53%nat.
Proof. vm_compute. reflexivity. Qed.

Example dir_node_with_group_size :
  option_map (@length Z)
    (match encode_dir_node
             {| smt_root := zeros 32; group_id := Some (zeros 32);
                dir_created := Num 1700000000000;
                dir_modified := Num 1700000000000 |} with
     | OK b => Some b | Err _ => None end) = Some 85%nat.
Proof. vm_compute. reflexivity. Qed.

(** C7, as the code has it.  [decode_dir_node_payload] compares the
    has-group byte with [0x01] and nothing else: [0x01] means a group id
    follows, every other value (missing byte included) means none does.
    No value of the byte makes the decoders fail: an envelope around any
    payload is decoded, by the tag-strict decoder and by the dispatcher. *)
Theorem has_group_byte_lenient (payload : bytes) :
  decode_dir_node (write_envelope TAG_DIR_NODE payload)
  = OK (decode_dir_node_payload payload) /\
  decode_node (write_envelope TAG_DIR_NODE payload)
  = Some (OK (Dir (decode_dir_node_payload payload))) /\
  (nth_error payload 32 = Some 0x01 ->
   group_id (decode_dir_node_payload payload) = Some (slice payload 33 65)) /\
  (nth_error payload 32 <> Some 0x01 ->
   group_id (decode_dir_node_payload payload) = None).
Proof.
  split; [| split; [| split]].
  - unfold decode_dir_node. rewrite read_write_envelope. reflexivity.
  - unfold decode_node. rewrite has_magic_write_envelope, read_write_envelope.
    reflexivity.
  - intros Hb. unfold decode_dir_node_payload, HASH_SIZE. cbn [Nat.add].
    rewrite Hb. reflexivity.
  - intros Hb. unfold decode_dir_node_payload, HASH_SIZE. cbn [Nat.add].
    destruct (nth_error payload 32) as [b|]; [| reflexivity].
    destruct (Z.eqb_spec b 1) as [-> | Hne]; [congruence | reflexivity].
Qed.

Lemma has_group_byte_lenient_witness :
  group_id (decode_dir_node_payload (zeros 32 ++ [0x01] ++ zeros 44))
  = Some (zeros 32) /\
  group_id (decode_dir_node_payload (zeros 32 ++ [0xff] ++ zeros 12)) = None.
Proof.
  split.
  - destruct (has_group_byte_lenient (zeros 32 ++ [0x01] ++ zeros 44))
      as (_ & _ & H & _).
    apply H. reflexivity.
  - destruct (has_group_byte_lenient (zeros 32 ++ [0xff] ++ zeros 12))
      as (_ & _ & _ & H).
    apply H. discriminate.
Defined.

(** C7, as the specification words it, fails: a has-group byte of [0x02]
    is decoded as an absent group id, not rejected. *)
Lemma has_group_byte_0x02_accepted :
  decode_dir_node (write_envelope TAG_DIR_NODE (zeros 32 ++ [0x02] ++ zeros 12))
  = OK {| smt_root := zeros 32; group_id := None;
          dir_created := Num 0; dir_modified := Num 0 |}.
Proof. vm_compute. reflexivity. Qed.

(* ===================================================================== *)
(** * Properties: varints in a truncated buffer *)
(* ===================================================================== *)

Lemma Forall_firstn {A : Type} (P : A -> Prop) (k : nat) :
  forall l : list A, Forall P l -> Forall P (firstn k l).
Proof.
  induction k as [|k IH]; intros l Hl; [constructor |].
  destruct Hl as [|x l Hx Hl]; [constructor |].
  simpl. constructor; [assumption | apply IH; assumption].
Qed.

(** Every byte the encoder writes but the last has its high bit set. *)
Lemma encode_varint_loop_shape (fuel : nat) :
  forall (n : Z) (bs : bytes),
    encode_varint_loop fuel n = OK bs ->
    exists init last,
      bs = init ++ [last] /\ Forall (fun b => continuation b = true) init.
Proof.
  induction fuel as [|fuel IH]; intros n bs Henc; [discriminate |].
  simpl encode_varint_loop in Henc. rewrite js_and_0x7f in Henc.
  assert (Hb : 0 <= n mod 128 < 128) by (apply Z.mod_pos_bound; lia).
  destruct (low7_facts _ Hb) as (_ & _ & Hc & _).
  destruct (0 <? n / 128).
  - apply bind_inv in Henc. destruct Henc as (rest & Hrest & Hbs).
    injection Hbs as <-.
    destruct (IH _ _ Hrest) as (init & last & -> & Hinit).
    exists (js_or (n mod 128) 128 :: init), last. split; [reflexivity |].
    constructor; assumption.
  - injection Henc as <-. exists [], (n mod 128). split; [reflexivity | constructor].
Qed.

Lemma encode_varint_shape (n : Z) (bs : bytes) :
  encode_varint n = OK bs -> n < 2 ^ 56 ->
  (1 <= length bs <= 8)%nat /\
  forall k, (k < length bs)%nat ->
            Forall (fun b => continuation b = true) (firstn k bs).
Proof.
  intros Henc Hn.
  pose proof (encode_varint_length n bs Henc) as Hlen1.
  unfold encode_varint in Henc.
  destruct (Z.ltb_spec n 0); [discriminate |].
  destruct (varint_loops _ 8 0 n 0 0%nat bs [] Henc) as (Hlen & _);
    [change (128 ^ Z.of_nat 8) with (2 ^ 56); lia | lia | lia |].
  split; [lia |].
  intros k Hk.
  destruct (encode_varint_loop_shape _ _ _ Henc) as (init & last & -> & Hinit).
  rewrite length_app in Hk. simpl in Hk.
  rewrite firstn_app.
  replace (k - length init)%nat with 0%nat by lia. simpl. rewrite app_nil_r.
  apply Forall_firstn. assumption.
Qed.

(** A varint read from a prefix of the buffer: the same result when the
    prefix holds all its bytes, [Truncated] otherwise. *)
Lemma decode_varint_prefix (buf pre bs post : bytes) (n : Z) (off L : nat) :
  buf = pre ++ bs ++ post -> off = length pre ->
  encode_varint n = OK bs -> n < 2 ^ 56 ->
  decode_varint (firstn L buf) off
  = if (L <? off + length bs)%nat then Err Truncated else OK (n, length bs).
Proof.
  intros -> -> Henc Hn.
  destruct (encode_varint_shape n bs Henc Hn) as (Hlen & Hconts).
  destruct (Nat.ltb_spec L (length pre + length bs)) as [Hshort | Hlong].
  - unfold decode_varint.
    assert (Hskip : skipn (length pre) (firstn L (pre ++ bs ++ post))
                    = firstn (L - length pre) bs).
    { rewrite skipn_firstn_comm, skipn_app, skipn_all, Nat.sub_diag. simpl.
      rewrite firstn_app.
      replace (L - length pre - length bs)%nat with 0%nat by lia.
      simpl. apply app_nil_r. }
    rewrite Hskip.
    apply (decode_varint_loop_truncated _ 0).
    + apply Hconts. lia.
    + rewrite length_firstn. lia.
  - assert (Hbuf : firstn L (pre ++ bs ++ post)
                   = pre ++ bs ++ firstn (L - length pre - length bs) post).
    { rewrite firstn_app. rewrite firstn_all2 by lia. f_equal.
      rewrite firstn_app. rewrite firstn_all2 by lia. reflexivity. }
    rewrite Hbuf. apply decode_varint_at; assumption.
Qed.

(* ===================================================================== *)
(** * Properties: codec/chunk-ref.ts and codec/file-node.ts *)
(* ===================================================================== *)

Lemma encode_chunk_ref_layout (c : ChunkRef) :
  wf_chunk_ref c ->
  exists b, encode_chunk_ref c = OK b /\ chunk_ref_bytes c b.
Proof.
  intros (Hidx & Hh & Hb & Hn).
  destruct (encode_varint_total (index c)) as (ib & Henc & Hlen); [lia |].
  exists (ib ++ hash c ++ blob_address c ++ nonce c).
  split; [| exists ib; split; [assumption | reflexivity]].
  unfold encode_chunk_ref. rewrite Henc. cbn [bind].
  fill_first ib (32 + 32 + 24)%nat.
  fill (hash c) (32 + 24)%nat.
  fill (blob_address c) 24%nat.
  fill (nonce c) 0%nat.
  f_equal. cbn [zeros repeat]. rewrite app_nil_r.
  repeat rewrite <- app_assoc. reflexivity.
Qed.

Lemma encode_chunk_refs_layout (cs : list ChunkRef) :
  Forall wf_chunk_ref cs ->
  exists bufs, encode_chunk_refs cs = OK bufs /\ Forall2 chunk_ref_bytes cs bufs.
Proof.
  induction 1 as [|c cs Hc Hcs (bufs & Henc & Hall)].
  - exists []. split; [reflexivity | constructor].
  - destruct (encode_chunk_ref_layout c Hc) as (b & Hb & Hcb).
    exists (b :: bufs). simpl. rewrite Hb, Henc. simpl.
    split; [reflexivity | constructor; assumption].
Qed.

Lemma chunk_ref_bytes_length (c : ChunkRef) (b : bytes) :
  wf_chunk_ref c -> chunk_ref_bytes c b ->
  exists ib, encode_varint (index c) = OK ib /\
             b = ib ++ hash c ++ blob_address c ++ nonce c /\
             length b = (length ib + 88)%nat /\ (1 <= length ib)%nat.
Proof.
  intros (Hidx & Hh & Hb & Hn) (ib & Henc & ->).
  exists ib. repeat split; try assumption.
  - len.
  - eapply encode_varint_length; eassumption.
Qed.

Lemma set_all_fill (bufs : list bytes) :
  forall (pre : bytes) (m : nat),
    set_all (pre ++ zeros (length (concat bufs) + m)) bufs (length pre)
    = OK ((pre ++ concat bufs) ++ zeros m).
Proof.
  induction bufs as [|b bufs IH]; intros pre m.
  - simpl. rewrite app_nil_r. reflexivity.
  - simpl set_all. simpl concat.
    rewrite (set_fill_eq _ pre b _ (length (concat bufs) + m))
      by first [f_equal; f_equal; rewrite length_app; lia | reflexivity].
    cbn [bind].
    replace (length pre + length b)%nat with (length (pre ++ b))
      by (rewrite length_app; reflexivity).
    rewrite IH. rewrite <- !app_assoc. reflexivity.
Qed.

(** The payload [encode_file_node] writes for a well-formed node. *)
Lemma encode_file_node_payload_layout (node : FileNode) :
  wf_file_node node ->
  exists size_bytes count_bytes bufs,
    encode_varint (size node) = OK size_bytes /\
    encode_varint (Z.of_nat (length (chunks node))) = OK count_bytes /\
    Forall2 chunk_ref_bytes (chunks node) bufs /\
    encode_file_node_payload node
    = OK (file_node_layout node size_bytes count_bytes bufs).
Proof.
  intros (Hh & Hsize & Hcount & Hchunks).
  destruct (encode_varint_total (size node)) as (sb & Hsb & _); [lia |].
  destruct (encode_varint_total (Z.of_nat (length (chunks node))))
    as (cb & Hcb & _); [lia |].
  destruct (encode_chunk_refs_layout _ Hchunks) as (bufs & Hbufs & Hall).
  exists sb, cb, bufs. repeat split; try assumption.
  unfold encode_file_node_payload, file_node_layout.
  rewrite Hsb, Hcb, Hbufs. cbn [bind].
  pose proof (encode_timestamp_length (file_created node)) as Hc.
  pose proof (encode_timestamp_length (file_modified node)) as Hm.
  fill_first (content_hash node)
    (6 + 6 + length sb + length cb + length (concat bufs))%nat.
  fill (encode_timestamp (file_created node))
    (6 + length sb + length cb + length (concat bufs))%nat.
  fill (encode_timestamp (file_modified node))
    (length sb + length cb + length (concat bufs))%nat.
  fill sb (length cb + length (concat bufs))%nat.
  fill cb (length (concat bufs) + 0)%nat.
  replace (0 + HASH_SIZE + TIMESTAMP_SIZE + TIMESTAMP_SIZE + length sb + length cb)%nat
    with (length ((((content_hash node ++ encode_timestamp (file_created node))
                      ++ encode_timestamp (file_modified node)) ++ sb) ++ cb))
    by len.
  rewrite set_all_fill. f_equal. cbn [zeros repeat]. rewrite app_nil_r.
  repeat rewrite <- app_assoc. reflexivity.
Qed.

Lemma decode_chunk_ref_eq (buf pre b post : bytes) (c : ChunkRef) (off : nat) :
  wf_chunk_ref c -> chunk_ref_bytes c b ->
  buf = pre ++ b ++ post -> off = length pre ->
  decode_chunk_ref buf off = OK (c, length b).
Proof.
  intros Hwf Hcb Hbuf ->.
  destruct (chunk_ref_bytes_length c b Hwf Hcb) as (ib & Henc & -> & Hlen & _).
  destruct Hwf as (Hidx & Hh & Hb & Hn).
  unfold decode_chunk_ref.
  rewrite (decode_varint_eq buf pre ib
             (hash c ++ blob_address c ++ nonce c ++ post) (index c))
    by first [assumption | reflexivity | lia
             | rewrite Hbuf; repeat rewrite <- app_assoc; reflexivity].
  cbn [bind]. unfold HASH_SIZE, NONCE_SIZE in *.
  rewrite (slice_eq buf (pre ++ ib) (hash c) (blob_address c ++ nonce c ++ post)
             (length pre + length ib) (length pre + length ib + 32))
    by first [rewrite Hbuf; repeat rewrite <- app_assoc; reflexivity | len].
  rewrite (slice_eq buf (pre ++ ib ++ hash c) (blob_address c) (nonce c ++ post)
             (length pre + length ib + 32) (length pre + length ib + 32 + 32))
    by first [rewrite Hbuf; repeat rewrite <- app_assoc; reflexivity | len].
  rewrite (slice_eq buf (pre ++ ib ++ hash c ++ blob_address c) (nonce c) post
             (length pre + length ib + 32 + 32) (length pre + length ib + 32 + 32 + 24))
    by first [rewrite Hbuf; repeat rewrite <- app_assoc; reflexivity | len].
  f_equal. f_equal; [destruct c; reflexivity | lia].
Qed.

(** In a prefix of the buffer a chunk ref is [Truncated] only when its
    index is cut; the slices after it never fail. *)
Lemma decode_chunk_ref_prefix (buf pre ib post : bytes) (n : Z) (off L : nat) :
  buf = pre ++ ib ++ post -> off = length pre ->
  encode_varint n = OK ib -> n < 2 ^ 56 ->
  ((L < off + length ib)%nat ->
   decode_chunk_ref (firstn L buf) off = Err Truncated) /\
  ((off + length ib <= L)%nat ->
   exists c, decode_chunk_ref (firstn L buf) off = OK (c, (length ib + 88)%nat)).
Proof.
  intros Hbuf Hoff Henc Hn. unfold decode_chunk_ref.
  rewrite (decode_varint_prefix buf pre ib post n off L Hbuf Hoff Henc Hn).
  split; intros HL.
  - destruct (Nat.ltb_spec L (off + length ib)); [reflexivity | lia].
  - destruct (Nat.ltb_spec L (off + length ib)); [lia |].
    cbn [bind]. eexists. f_equal. f_equal.
    unfold HASH_SIZE, NONCE_SIZE. lia.
Qed.

Lemma decode_chunk_refs_eq (cs : list ChunkRef) (bufs : list bytes) :
  Forall2 chunk_ref_bytes cs bufs -> Forall wf_chunk_ref cs ->
  forall pre post,
    decode_chunk_refs (length cs) (pre ++ concat bufs ++ post) (length pre) = OK cs.
Proof.
  induction 1 as [|c b cs bufs Hcb Hall IH]; intros Hwf pre post; [reflexivity |].
  inversion Hwf as [|? ? Hc Hcs]; subst.
  simpl length. simpl decode_chunk_refs. simpl concat.
  rewrite (decode_chunk_ref_eq _ pre b (concat bufs ++ post) c)
    by first [assumption | reflexivity | rewrite <- app_assoc; reflexivity].
  cbn [bind].
  replace (pre ++ (b ++ concat bufs) ++ post) with ((pre ++ b) ++ concat bufs ++ post)
    by (repeat rewrite <- app_assoc; reflexivity).
  replace (length pre + length b)%nat with (length (pre ++ b))
    by (rewrite length_app; reflexivity).
  rewrite IH by assumption. reflexivity.
Qed.

Lemma decode_chunk_refs_prefix (cs : list ChunkRef) (bufs : list bytes) :
  Forall2 chunk_ref_bytes cs bufs -> Forall wf_chunk_ref cs -> cs <> [] ->
  forall pre post L,
    (L + 88 < length pre + length (concat bufs))%nat ->
    decode_chunk_refs (length cs) (firstn L (pre ++ concat bufs ++ post)) (length pre)
    = Err Truncated.
Proof.
  induction 1 as [|c b cs bufs Hcb Hall IH]; intros Hwf Hne pre post L HL;
    [congruence |].
  inversion Hwf as [|? ? Hc Hcs]; subst.
  destruct (chunk_ref_bytes_length c b Hc Hcb) as (ib & Henc & Hb & Hlen & _).
  simpl length. simpl decode_chunk_refs. simpl concat in *.
  rewrite length_app in HL.
  destruct (decode_chunk_ref_prefix (pre ++ (b ++ concat bufs) ++ post) pre ib
              (hash c ++ blob_address c ++ nonce c ++ concat bufs ++ post)
              (index c) (length pre) L) as (Hcut & Hkeep);
    try assumption; try reflexivity.
  { rewrite Hb. repeat rewrite <- app_assoc. reflexivity. }
  { destruct Hc as (Hidx & _). lia. }
  destruct (Nat.lt_ge_cases L (length pre + length ib)) as [Hshort | Hlong].
  - rewrite Hcut by assumption. reflexivity.
  - destruct (Hkeep Hlong) as (c' & Hc'). rewrite Hc'. cbn [bind].
    destruct cs as [|c2 cs].
    + inversion Hall; subst. simpl in HL. lia.
    + replace (pre ++ (b ++ concat bufs) ++ post)
        with ((pre ++ b) ++ concat bufs ++ post)
        by (repeat rewrite <- app_assoc; reflexivity).
      replace (length pre + (length ib + 88))%nat with (length (pre ++ b))
        by (rewrite length_app; lia).
      rewrite IH; [reflexivity | assumption | discriminate |].
      rewrite length_app. lia.
Qed.

Lemma decode_chunk_refs_at (cs : list ChunkRef) (bufs : list bytes)
      (buf pre post : bytes) (off : nat) :
  Forall2 chunk_ref_bytes cs bufs -> Forall wf_chunk_ref cs ->
  buf = pre ++ concat bufs ++ post -> off = length pre ->
  decode_chunk_refs (length cs) buf off = OK cs.
Proof. intros Hb Hwf -> ->. apply decode_chunk_refs_eq; assumption. Qed.

Lemma decode_chunk_refs_prefix_at (cs : list ChunkRef) (bufs : list bytes)
      (buf pre post : bytes) (off L : nat) :
  Forall2 chunk_ref_bytes cs bufs -> Forall wf_chunk_ref cs -> cs <> [] ->
  buf = pre ++ concat bufs ++ post -> off = length pre ->
  (L + 88 < off + length (concat bufs))%nat ->
  decode_chunk_refs (length cs) (firstn L buf) off = Err Truncated.
Proof. intros Hb Hwf Hne -> -> HL. apply decode_chunk_refs_prefix; assumption. Qed.

Section FileNodePayload.

Variable node : FileNode.
Variables size_bytes count_bytes : bytes.
Variable bufs : list bytes.

Hypothesis Hwf : wf_file_node node.
Hypothesis Hsize : encode_varint (size node) = OK size_bytes.
Hypothesis Hcount : encode_varint (Z.of_nat (length (chunks node))) = OK count_bytes.
Hypothesis Hbufs : Forall2 chunk_ref_bytes (chunks node) bufs.

Lemma decode_file_node_payload_layout :
  decode_file_node_payload (file_node_layout node size_bytes count_bytes bufs)
  = OK (wrap_file_node node).
Proof.
  unfold file_node_layout.
  set (tc := encode_timestamp (file_created node)).
  set (tm := encode_timestamp (file_modified node)).
  set (payload := content_hash node ++ tc ++ tm ++ size_bytes ++ count_bytes
                    ++ concat bufs).
  destruct Hwf as (Hh & Hsz & Hcnt & Hchunks).
  assert (Htc : length tc = 6%nat) by apply encode_timestamp_length.
  assert (Htm : length tm = 6%nat) by apply encode_timestamp_length.
  unfold decode_file_node_payload, HASH_SIZE, TIMESTAMP_SIZE in *.
  change (0 + 32 + 6 + 6)%nat with 44%nat.
  change (0 + 32 + 6)%nat with 38%nat.
  change (0 + 32)%nat with 32%nat.
  rewrite (decode_varint_eq payload (content_hash node ++ tc ++ tm) size_bytes
             (count_bytes ++ concat bufs) (size node) 44)
    by first [assumption | lia | len
             | unfold payload; repeat rewrite <- app_assoc; reflexivity].
  cbn [bind].
  rewrite (decode_varint_eq payload (content_hash node ++ tc ++ tm ++ size_bytes)
             count_bytes (concat bufs) (Z.of_nat (length (chunks node)))
             (44 + length size_bytes))
    by first [assumption | lia | len
             | unfold payload; repeat rewrite <- app_assoc; reflexivity].
  cbn [bind]. rewrite Nat2Z.id.
  assert (Hshape : payload
                   = (content_hash node ++ tc ++ tm ++ size_bytes ++ count_bytes)
                       ++ concat bufs ++ []).
  { unfold payload. rewrite app_nil_r. repeat rewrite <- app_assoc. reflexivity. }
  rewrite (decode_chunk_refs_at (chunks node) bufs payload
             (content_hash node ++ tc ++ tm ++ size_bytes ++ count_bytes) [])
    by first [assumption | len].
  cbn [bind].
  rewrite (slice_eq payload [] (content_hash node)
             (tc ++ tm ++ size_bytes ++ count_bytes ++ concat bufs) 0 32)
    by first [reflexivity | len].
  rewrite (decode_timestamp_eq payload (content_hash node)
             (tm ++ size_bytes ++ count_bytes ++ concat bufs) (file_created node) 32)
    by first [reflexivity | len].
  rewrite (decode_timestamp_eq payload (content_hash node ++ tc)
             (size_bytes ++ count_bytes ++ concat bufs) (file_modified node) 38)
    by first [unfold payload; repeat rewrite <- app_assoc; reflexivity | len].
  reflexivity.
Qed.

(** A prefix that ends before the last varint of the payload ends (the
    chunk count, or the index of the last chunk ref) is [Truncated]. *)
Lemma decode_file_node_payload_prefix (L : nat) :
  (L + match chunks node with [] => 0 | _ => 88 end
   < length (file_node_layout node size_bytes count_bytes bufs))%nat ->
  decode_file_node_payload
    (firstn L (file_node_layout node size_bytes count_bytes bufs))
  = Err Truncated.
Proof.
  unfold file_node_layout.
  set (tc := encode_timestamp (file_created node)).
  set (tm := encode_timestamp (file_modified node)).
  set (payload := content_hash node ++ tc ++ tm ++ size_bytes ++ count_bytes
                    ++ concat bufs).
  intros HL.
  destruct Hwf as (Hh & Hsz & Hcnt & Hchunks).
  assert (Htc : length tc = 6%nat) by apply encode_timestamp_length.
  assert (Htm : length tm = 6%nat) by apply encode_timestamp_length.
  unfold decode_file_node_payload, HASH_SIZE, TIMESTAMP_SIZE in *.
  change (0 + 32 + 6 + 6)%nat with 44%nat.
  change (0 + 32 + 6)%nat with 38%nat.
  change (0 + 32)%nat with 32%nat.
  rewrite (decode_varint_prefix payload (content_hash node ++ tc ++ tm) size_bytes
             (count_bytes ++ concat bufs) (size node) 44 L)
    by first [assumption | lia | len
             | unfold payload; repeat rewrite <- app_assoc; reflexivity].
  destruct (Nat.ltb_spec L (44 + length size_bytes)); [reflexivity |].
  cbn [bind].
  rewrite (decode_varint_prefix payload (content_hash node ++ tc ++ tm ++ size_bytes)
             count_bytes (concat bufs) (Z.of_nat (length (chunks node)))
             (44 + length size_bytes) L)
    by first [assumption | lia | len
             | unfold payload; repeat rewrite <- app_assoc; reflexivity].
  destruct (Nat.ltb_spec L (44 + length size_bytes + length count_bytes));
    [reflexivity |].
  cbn [bind]. rewrite Nat2Z.id.
  assert (Hshape : payload
                   = (content_hash node ++ tc ++ tm ++ size_bytes ++ count_bytes)
                       ++ concat bufs ++ []).
  { unfold payload. rewrite app_nil_r. repeat rewrite <- app_assoc. reflexivity. }
  assert (Hlen : length payload
                 = (44 + length size_bytes + length count_bytes
                    + length (concat bufs))%nat).
  { unfold payload. len. }
  destruct (chunks node) as [|c cs] eqn:Hcs.
  - inversion Hbufs; subst. simpl in Hlen. lia.
  - rewrite (decode_chunk_refs_prefix_at (c :: cs) bufs payload
               (content_hash node ++ tc ++ tm ++ size_bytes ++ count_bytes) []);
      first [reflexivity | assumption | discriminate | len].
Qed.

End FileNodePayload.

(** C8, as the code has it.  Decoding the payload of a well-formed file
    node returns its chunk refs in the order they were written.  Decoding
    a prefix of that payload fails with [Truncated] whenever the prefix
    ends before the last varint of the payload does: before the end of the
    chunk count when the node has no chunk ref, before the end of the index
    of the last chunk ref otherwise. *)
Theorem decode_file_node_payload_order_truncation (node : FileNode) (payload : bytes) :
  wf_file_node node ->
  encode_file_node_payload node = OK payload ->
  (exists node',
      decode_file_node_payload payload = OK node' /\ chunks node' = chunks node) /\
  (forall L : nat,
      (L + match chunks node with [] => 0 | _ => 88 end < length payload)%nat ->
      decode_file_node_payload (firstn L payload) = Err Truncated).
Proof.
  intros Hwf Henc.
  destruct (encode_file_node_payload_layout node Hwf)
    as (sb & cb & bufs & Hsb & Hcb & Hbufs & Hlayout).
  rewrite Hlayout in Henc. injection Henc as <-.
  split.
  - exists (wrap_file_node node). split; [| reflexivity].
    apply decode_file_node_payload_layout; assumption.
  - intros L HL. apply decode_file_node_payload_prefix; assumption.
Qed.

Example sample_file_node_size :
  match encode_file_node sample_file_node with
  | OK buf => length buf
  | Err _ => 0%nat
  end = 144%nat.
Proof. vm_compute. reflexivity. Qed.

Lemma decode_file_node_payload_order_truncation_witness :
  exists payload,
    encode_file_node_payload sample_file_node = OK payload /\
    (exists node',
        decode_file_node_payload payload = OK node' /\
        chunks node' = chunks sample_file_node) /\
    (forall L : nat,
        (L + 88 < length payload)%nat ->
        decode_file_node_payload (firstn L payload) = Err Truncated).
Proof.
  eexists. split; [reflexivity |].
  apply (decode_file_node_payload_order_truncation sample_file_node).
  - unfold wf_file_node, sample_file_node; simpl.
    repeat split; try reflexivity; try lia.
    repeat constructor; simpl; lia.
  - reflexivity.
Defined.

(** C8, as the specification words it, fails: the payload of the sample
    node is 136 bytes long; its prefix of 135 bytes, which only cuts the
    nonce of the chunk ref, is decoded into a file node whose chunk ref has
    a nonce of 23 bytes. *)
Lemma short_file_node_payload_accepted :
  exists payload,
    encode_file_node_payload sample_file_node = OK payload /\
    length payload = 136%nat /\
    decode_file_node_payload (firstn 135 payload)
    = OK {| content_hash := zeros 32; size := 1024;
            file_created := Num 1700000000000;
            file_modified := Num 1700000000000;
            chunks := [ {| index := 0; hash := zeros 32;
                           blob_address := zeros 32; nonce := zeros 23 |} ] |}.
Proof.
  eexists. split; [reflexivity |]. split; vm_compute; reflexivity.
Qed.

(* ===================================================================== *)
(** * Properties: codec/node.ts *)
(* ===================================================================== *)

Lemma node_roundtrip (node : Node) :
  wf_node node ->
  exists buf,
    encode_node node = OK buf /\
    decode_node buf = Some (OK (wrap_node node)).
Proof.
  destruct node as [f | d]; simpl; intros Hwf.
  - destruct (encode_file_node_payload_layout f Hwf)
      as (sb & cb & bufs & Hsb & Hcb & Hbufs & Hlayout).
    unfold encode_file_node. rewrite Hlayout. cbn [bind].
    eexists. split; [reflexivity |].
    unfold decode_node. rewrite has_magic_write_envelope, read_write_envelope.
    cbn [bind]. change (to_uint8 TAG_FILE_NODE =? TAG_FILE_NODE) with true.
    cbv iota.
    rewrite (decode_file_node_payload_layout f sb cb bufs) by assumption.
    reflexivity.
  - unfold encode_dir_node.
    rewrite (encode_dir_node_payload_layout d Hwf). cbn [bind].
    eexists. split; [reflexivity |].
    unfold decode_node. rewrite has_magic_write_envelope, read_write_envelope.
    cbn [bind]. change (to_uint8 TAG_DIR_NODE =? TAG_FILE_NODE) with false.
    change (to_uint8 TAG_DIR_NODE =? TAG_DIR_NODE) with true.
    cbv iota.
    rewrite (decode_dir_node_payload_layout d Hwf). reflexivity.
Qed.

(** C10.  [encode_node] succeeds on every well-formed node, whatever its
    timestamps; decoding the result gives back the node with each timestamp
    [t] replaced by [t mod 2^48]: a timestamp of [2^48] or more loses its
    high bits, a timestamp in [0, 2^48) comes back unchanged. *)
Theorem timestamp_48_bits (node : Node) (tc tm : Z) :
  wf_node node -> created node = Num tc -> modified node = Num tm ->
  exists buf node',
    encode_node node = OK buf /\
    decode_node buf = Some (OK node') /\
    created node' = Num (tc mod 2 ^ 48) /\
    modified node' = Num (tm mod 2 ^ 48) /\
    (0 <= tc < 2 ^ 48 -> created node' = Num tc) /\
    (0 <= tm < 2 ^ 48 -> modified node' = Num tm) /\
    (0 <= tc < 2 ^ 48 -> 0 <= tm < 2 ^ 48 -> node' = node).
Proof.
  intros Hwf Hc Hm.
  destruct (node_roundtrip node Hwf) as (buf & Henc & Hdec).
  exists buf, (wrap_node node). split; [assumption |]. split; [assumption |].
  assert (Hc' : created (wrap_node node) = Num (tc mod 2 ^ 48)).
  { destruct node; simpl in *; rewrite Hc; reflexivity. }
  assert (Hm' : modified (wrap_node node) = Num (tm mod 2 ^ 48)).
  { destruct node; simpl in *; rewrite Hm; reflexivity. }
  split; [assumption |]. split; [assumption |].
  split; [| split].
  - intros Ht. rewrite Hc', Z.mod_small by lia. reflexivity.
  - intros Ht. rewrite Hm', Z.mod_small by lia. reflexivity.
  - intros Htc Htm.
    destruct node as [f | d]; simpl in *.
    + destruct f; unfold wrap_file_node; simpl in *. subst.
      simpl. rewrite !Z.mod_small by lia. reflexivity.
    + destruct d; unfold wrap_dir_node; simpl in *. subst.
      simpl. rewrite !Z.mod_small by lia. reflexivity.
Qed.

Lemma timestamp_48_bits_witness :
  exists buf node',
    encode_node (Dir {| smt_root := zeros 32; group_id := None;
                        dir_created := Num (2 ^ 48 + 5);
                        dir_modified := Num 1700000000000 |}) = OK buf /\
    decode_node buf = Some (OK node') /\
    created node' = Num 5 /\ modified node' = Num 1700000000000.
Proof.
  destruct (timestamp_48_bits
              (Dir {| smt_root := zeros 32; group_id := None;
                      dir_created := Num (2 ^ 48 + 5);
                      dir_modified := Num 1700000000000 |})
              (2 ^ 48 + 5) 1700000000000)
    as (buf & node' & Henc & Hdec & Hc & Hm & _).
  - split; [reflexivity | exact I].
  - reflexivity.
  - reflexivity.
  - exists buf, node'. repeat split; assumption.
Defined.

(* ===================================================================== *)
(** * Properties: compress/symbol-tree.ts *)
(* ===================================================================== *)

Example uniform_frequencies_lengths :
  match SymbolTree.from_frequencies (repeat 100 256) with
  | OK tr => SymbolTree.lengths tr
  | Err _ => []
  end = repeat 8 256.
Proof. vm_compute. reflexivity. Qed.

Example single_symbol_length :
  match SymbolTree.from_frequencies (zeros 42 ++ [100] ++ zeros 213) with
  | OK tr => SymbolTree.lengths tr
  | Err _ => []
  end = zeros 42 ++ [1] ++ zeros 213.
Proof. vm_compute. reflexivity. Qed.

Example empty_tree_encodes_nothing :
  (tr <- SymbolTree.from_frequencies (zeros 256) ;; SymbolTree.encode tr [65])
  = Err UncodedSymbol.
Proof. vm_compute. reflexivity. Qed.

(** "hello world hello world" through a tree built from its own bytes. *)
Example symbol_tree_roundtrip_text :
  let text := [104; 101; 108; 108; 111; 32; 119; 111; 114; 108; 100; 32;
               104; 101; 108; 108; 111; 32; 119; 111; 114; 108; 100] in
  (tr <- SymbolTree.from_frequencies
           (fold_left Dictionary.count_byte text (zeros 256)) ;;
   '(bits, bit_count) <- SymbolTree.encode tr text ;;
   SymbolTree.decode tr bits bit_count (Z.of_nat (length text)))
  = OK text.
Proof. vm_compute. reflexivity. Qed.

Lemma store_length (buf : bytes) (i : nat) (v : Z) :
  length (store buf i v) = length buf.
Proof.
  unfold store. destruct (Nat.ltb_spec i (length buf)); [| reflexivity].
  rewrite length_app, length_firstn. cbn [length]. rewrite length_skipn. lia.
Qed.

Lemma store_Forall (P : Z -> Prop) (buf : bytes) (i : nat) (v : Z) :
  Forall P buf -> P (to_uint8 v) -> Forall P (store buf i v).
Proof.
  intros Hbuf Hv. unfold store.
  destruct (i <? length buf)%nat; [| assumption].
  apply Forall_app. split.
  - apply Forall_firstn. assumption.
  - constructor; [assumption |].
    rewrite <- (firstn_skipn (S i) buf) in Hbuf.
    apply Forall_app in Hbuf. apply Hbuf.
Qed.

Lemma walk_lengths (node : SymbolTree.TreeNode) :
  forall (depth : Z) (lengths : list Z),
    0 <= depth -> Forall code_length_ok lengths ->
    Forall code_length_ok (SymbolTree.walk node depth lengths) /\
    length (SymbolTree.walk node depth lengths) = length lengths.
Proof.
  induction node as [symbol | l IHl r IHr]; intros depth lengths Hd Hl; simpl.
  - split; [| apply store_length].
    apply store_Forall; [assumption |].
    unfold to_uint8, code_length_ok.
    rewrite Z.mod_small by lia. lia.
  - destruct (IHl (depth + 1) lengths) as (Hl1 & Hlen1); [lia | assumption |].
    destruct (IHr (depth + 1) (SymbolTree.walk l (depth + 1) lengths))
      as (Hl2 & Hlen2); [lia | assumption |].
    split; [assumption | congruence].
Qed.

(** On a table whose entries are all at most [max_len], [clamp_lengths]
    leaves through its [break] at once: the compensation is not reached. *)
Lemma clamp_lengths_idle (lengths : list Z) (max_len : Z) :
  Forall (fun len => len <= max_len) lengths ->
  SymbolTree.clamp_lengths lengths max_len = lengths.
Proof.
  intros Hall. unfold SymbolTree.clamp_lengths. simpl.
  assert (Hex : existsb (fun len => max_len <? len) lengths = false).
  { induction Hall as [|len ls Hlen Hls IH]; [reflexivity |].
    simpl. rewrite IH. destruct (Z.ltb_spec max_len len); [lia | reflexivity]. }
  rewrite Hex. simpl.
  induction Hall as [|len ls Hlen Hls IH]; [reflexivity |].
  simpl in *. destruct (Z.ltb_spec max_len len); [lia |].
  simpl in Hex. f_equal. apply IH. assumption.
Qed.

Lemma zeros_code_lengths (n : nat) : Forall code_length_ok (zeros n).
Proof.
  apply Forall_forall. intros x Hx. apply repeat_spec in Hx. subst.
  unfold code_length_ok. lia.
Qed.

(** The half of C1 that holds: [from_frequencies] returns a tree on every
    table of 256 frequencies, and no code length of it exceeds 15. *)
Lemma from_frequencies_max_length (frequencies : list Z) :
  length frequencies = 256%nat ->
  exists tr,
    SymbolTree.from_frequencies frequencies = OK tr /\
    length (SymbolTree.lengths tr) = 256%nat /\
    Forall code_length_ok (SymbolTree.lengths tr).
Proof.
  intros Hlen. unfold SymbolTree.from_frequencies.
  rewrite Hlen. simpl negb. cbv iota.
  assert (Hmake : forall ls, length ls = 256%nat -> Forall code_length_ok ls ->
            exists tr, SymbolTree.make ls = OK tr /\
                       length (SymbolTree.lengths tr) = 256%nat /\
                       Forall code_length_ok (SymbolTree.lengths tr)).
  { intros ls Hls Hok. unfold SymbolTree.make. rewrite Hls. simpl.
    eexists. split; [reflexivity |]. split; assumption. }
  destruct (SymbolTree.active_symbols frequencies) as [|a [|a' active]].
  - apply Hmake; [apply zeros_length | apply zeros_code_lengths].
  - apply Hmake; [rewrite store_length; apply zeros_length |].
    apply store_Forall; [apply zeros_code_lengths |].
    unfold code_length_ok, to_uint8. change (1 mod 256) with 1. lia.
  - set (act := a :: a' :: active).
    assert (Hbt : Forall code_length_ok (SymbolTree.build_tree act (zeros 256)) /\
                  length (SymbolTree.build_tree act (zeros 256)) = 256%nat).
    { unfold SymbolTree.build_tree.
      destruct (SymbolTree.merge_loop _ _) as [|root q].
      - split; [apply zeros_code_lengths | apply zeros_length].
      - destruct (walk_lengths (SymbolTree.tree root) 0 (zeros 256))
          as (Hok & Hl); [lia | apply zeros_code_lengths |].
        split; [assumption | rewrite Hl; apply zeros_length]. }
    destruct Hbt as (Hok & Hl).
    rewrite clamp_lengths_idle.
    + apply Hmake; assumption.
    + eapply Forall_impl; [| exact Hok]. unfold code_length_ok. intros; lia.
Qed.

(** C1 fails on the code.  On [skewed_frequencies], a table of 256
    frequencies, [from_frequencies] returns code lengths 1, 2, ..., 14, 15,
    15, 15 for ['a'] to ['q']: none exceeds 15, but the sum of [2^-length]
    is [1 + 2^-15].  [walk] has already cut the depths at 15, so
    [clamp_lengths] finds nothing to clamp and leaves before the step that
    would restore Kraft's inequality. *)
Theorem from_frequencies_kraft_violation :
  exists tr,
    SymbolTree.from_frequencies skewed_frequencies = OK tr /\
    length skewed_frequencies = 256%nat /\
    SymbolTree.lengths tr
    = zeros 97 ++ [1; 2; 3; 4; 5; 6; 7; 8; 9; 10; 11; 12; 13; 14; 15; 15; 15]
        ++ zeros 142 /\
    (SymbolTree.kraft_sum (SymbolTree.lengths tr) == 32769 # 32768)%Q /\
    ~ (SymbolTree.kraft_sum (SymbolTree.lengths tr) <= 1)%Q.
Proof.
  eexists. split; [vm_compute; reflexivity |].
  split; [reflexivity |]. split; [reflexivity |].
  split; vm_compute; [reflexivity | intros H; apply H; reflexivity].
Qed.

(* ===================================================================== *)
(** * Properties: compress/dictionary.ts *)
(* ===================================================================== *)

(** C2 fails on the code.  The dictionary trained on [skewed_samples]
    compresses the sample ["q"] without error, to fifteen zero bits: ['q']
    is the third symbol of length 15, its canonical code is [2^15], and
    only the low fifteen bits are written.  Decompression reads the first
    of these bits as the one-bit code of ['a'] and returns ["a"].  The
    defect is the one [skewed_frequencies] shows in [from_frequencies]: the
    code lengths of the tree break Kraft's inequality. *)
Theorem trained_dictionary_roundtrip_violation :
  exists d c,
    Dictionary.train skewed_samples = OK d /\
    In [113] skewed_samples /\
    Dictionary.strings d = [] /\
    Dictionary.compress d [113] = OK c /\
    c = [1; 15; 0; 0] /\
    Dictionary.decompress d c 1 = OK [97].
Proof.
  eexists. eexists. split; [vm_compute; reflexivity |].
  split.
  { apply (nth_error_In skewed_samples 4179). vm_compute. reflexivity. }
  split; [reflexivity |].
  split; [vm_compute; reflexivity |].
  split; [reflexivity |].
  vm_compute. reflexivity.
Qed.

(* ===================================================================== *)
(** * Properties: the fuel of the loops is enough *)
(* ===================================================================== *)

Lemma insert_sorted_length {A : Type} (cmp : A -> A -> Z) (x : A) (l : list A) :
  length (insert_sorted cmp x l) = S (length l).
Proof.
  induction l as [|y l IH]; [reflexivity |].
  simpl. destruct (cmp y x <=? 0); simpl; [rewrite IH |]; reflexivity.
Qed.

(** [merge_loop] stops on a queue of at most one item: it has run the
    [while (q.length > 1)] of the source to its end. *)
Lemma merge_loop_done (fuel : nat) :
  forall q, (length q <= S fuel)%nat ->
            (length (SymbolTree.merge_loop fuel q) <= 1)%nat.
Proof.
  induction fuel as [|fuel IH]; intros q Hq; simpl.
  - exact Hq.
  - destruct q as [|l [|r rest]]; simpl; try lia.
    apply IH. simpl. rewrite insert_sorted_length. simpl in Hq. lia.
Qed.

Lemma compensate_bound (max_len : Z) (lengths : list Z) :
  forall kraft,
    Forall (fun len => len <= max_len) lengths ->
    Forall (fun len => len <= max_len) (SymbolTree.compensate lengths max_len kraft).
Proof.
  induction lengths as [|len rest IH]; intros kraft Hall; [constructor |].
  inversion Hall as [|? ? Hlen Hrest]; subst. simpl.
  destruct (Qle_bool kraft 1); [assumption |].
  destruct (Z.ltb_spec 0 len) as [Hpos |]; simpl.
  - destruct (Z.ltb_spec len max_len) as [Hlt |].
    + constructor; [| apply IH; assumption].
      unfold to_uint8.
      assert (0 <= (len + 1) mod 256 <= len + 1); [| lia].
      split; [apply Z.mod_pos_bound; lia | apply Z.mod_le; lia].
    + constructor; [assumption | apply IH; assumption].
  - constructor; [assumption | apply IH; assumption].
Qed.

(** Two turns of the [while (overflow)] of [clamp_lengths] are all the
    source can make: more fuel changes nothing. *)
Lemma clamp_lengths_fuel (lengths : list Z) (max_len : Z) (extra : nat) :
  0 <= max_len ->
  SymbolTree.clamp_lengths_loop (2 + extra) lengths max_len
  = SymbolTree.clamp_lengths lengths max_len.
Proof.
  intros Hmax. unfold SymbolTree.clamp_lengths.
  change (2 + extra)%nat with (S (S extra)).
  cbn [SymbolTree.clamp_lengths_loop].
  destruct (SymbolTree.clamp_pass lengths max_len) as (clamped, overflow) eqn:Hpass.
  destruct overflow; [| reflexivity]. cbn [negb].
  set (l1 := if Qle_bool _ 1 then clamped else _).
  assert (Hclamped : Forall (fun len => len <= max_len) clamped).
  { unfold SymbolTree.clamp_pass in Hpass. injection Hpass as <- _.
    apply Forall_forall. intros x Hx. apply in_map_iff in Hx.
    destruct Hx as (len & <- & _).
    destruct (Z.ltb_spec max_len len); [| lia].
    unfold to_uint8.
    assert (max_len mod 256 <= max_len) by (apply Z.mod_le; lia). lia. }
  assert (Hl1 : Forall (fun len => len <= max_len) l1).
  { unfold l1. destruct (Qle_bool _ 1); [assumption |].
    apply compensate_bound. assumption. }
  assert (Hidle : SymbolTree.clamp_pass l1 max_len = (l1, false)).
  { unfold SymbolTree.clamp_pass. f_equal.
    - clear -Hl1. induction Hl1 as [|len ls Hlen Hls IH]; [reflexivity |].
      simpl. rewrite IH. destruct (Z.ltb_spec max_len len); [lia | reflexivity].
    - clear -Hl1. induction Hl1 as [|len ls Hlen Hls IH]; [reflexivity |].
      simpl. rewrite IH. destruct (Z.ltb_spec max_len len); [lia | reflexivity]. }
  rewrite Hidle. reflexivity.
Qed.

(** [apply_substitution] returns as long as no substitution string is
    empty, which holds for the strings [train] keeps (windows of 4 to 32
    bytes). *)
Lemma first_match_nonempty (rest : bytes) (strings : list bytes) :
  forall s i str,
    Forall (fun str => str <> []) strings ->
    Dictionary.first_match rest strings s = Some (i, str) ->
    str <> [] /\ (length str <= length rest)%nat.
Proof.
  induction strings as [|str0 strings IH]; intros s i str Hall Hm; [discriminate |].
  inversion Hall as [|? ? Hne Hrest]; subst. simpl in Hm.
  destruct (Dictionary.starts_with rest str0) eqn:Hsw.
  - injection Hm as <- <-. split; [assumption |].
    clear -Hsw. revert rest Hsw.
    induction str0 as [|c str0 IH]; intros rest Hsw; [simpl; lia |].
    destruct rest as [|b rest]; [discriminate |].
    simpl in Hsw. apply andb_true_iff in Hsw. destruct Hsw as (_ & Hsw).
    simpl. apply IH in Hsw. lia.
  - eapply IH; eassumption.
Qed.

Lemma apply_substitution_loop_returns (strings : list bytes) (fuel : nat) :
  Forall (fun str => str <> []) strings ->
  forall rest, (length rest <= fuel)%nat ->
               exists out, Dictionary.apply_substitution_loop fuel rest strings = OK out.
Proof.
  intros Hall. induction fuel as [|fuel IH]; intros rest Hlen.
  - destruct rest; [eexists; reflexivity | simpl in Hlen; lia].
  - destruct rest as [|b rest']; [eexists; reflexivity |].
    cbn [Dictionary.apply_substitution_loop].
    destruct (Dictionary.first_match (b :: rest') strings 0) as [(s, str)|] eqn:Hm.
    + destruct (first_match_nonempty _ _ _ _ _ Hall Hm) as (Hne & Hfit).
      destruct (IH (skipn (length str) (b :: rest'))) as (out & Hout).
      { rewrite length_skipn. destruct str; [congruence |]. simpl in *. lia. }
      rewrite Hout. eexists. reflexivity.
    + destruct (IH rest') as (out & Hout); [simpl in Hlen; lia |].
      rewrite Hout. cbn [bind]. destruct (b =? Dictionary.ESCAPE_BYTE); eexists; reflexivity.
Qed.

Lemma apply_substitution_returns (data : bytes) (strings : list bytes) :
  Forall (fun str => str <> []) strings ->
  exists out, Dictionary.apply_substitution data strings = OK out.
Proof.
  intros Hall. apply apply_substitution_loop_returns; [assumption | lia].
Qed.

(** ** The strings [train] keeps are windows of the samples *)

Lemma insert_sorted_Forall {A : Type} (cmp : A -> A -> Z) (P : A -> Prop)
      (x : A) (l : list A) :
  P x -> Forall P l -> Forall P (insert_sorted cmp x l).
Proof.
  intros Hx Hl. induction Hl as [|y l Hy Hl IH]; simpl.
  - constructor; [assumption | constructor].
  - destruct (cmp y x <=? 0); constructor; try assumption.
    constructor; assumption.
Qed.

Lemma sort_Forall {A : Type} (cmp : A -> A -> Z) (P : A -> Prop) (l : list A) :
  Forall P l -> Forall P (sort cmp l).
Proof.
  unfold sort. intros Hl.
  assert (Hgen : forall acc, Forall P acc ->
            Forall P (fold_left (fun acc x => insert_sorted cmp x acc) l acc)).
  { induction Hl as [|x l Hx Hl IH]; intros acc Hacc; simpl; [assumption |].
    apply IH. apply insert_sorted_Forall; assumption. }
  apply Hgen. constructor.
Qed.

Lemma count_ngram_nonempty (slice : bytes) (counts : list Dictionary.ngram) :
  slice <> [] ->
  Forall (fun c => fst c <> []) counts ->
  Forall (fun c => fst c <> []) (Dictionary.count_ngram slice counts).
Proof.
  intros Hs Hc. induction Hc as [|(bs, count) counts Hbs Hc IH]; simpl.
  - constructor; [assumption | constructor].
  - destruct (list_eq_dec Z.eq_dec bs slice); constructor; assumption.
Qed.

Lemma count_windows_nonempty (sample : bytes) (gram_size : nat)
      (counts : list Dictionary.ngram) :
  (0 < gram_size)%nat ->
  Forall (fun c => fst c <> []) counts ->
  Forall (fun c => fst c <> []) (Dictionary.count_windows sample gram_size counts).
Proof.
  intros Hg Hc. unfold Dictionary.count_windows.
  destruct (Nat.ltb_spec (length sample) gram_size) as [| Hfit]; [assumption |].
  assert (Hgen : forall idxs counts,
            Forall (fun i => i + gram_size <= length sample)%nat idxs ->
            Forall (fun c => fst c <> []) counts ->
            Forall (fun c => fst c <> [])
              (fold_left (fun counts i =>
                            Dictionary.count_ngram (slice sample i (i + gram_size)) counts)
                         idxs counts)).
  { induction idxs as [|i idxs IH]; intros cs His Hcs; simpl; [assumption |].
    inversion His as [|? ? Hi His']; subst.
    apply IH; [assumption |].
    apply count_ngram_nonempty; [| assumption].
    intros Hnil. apply (f_equal (@length Z)) in Hnil.
    unfold slice in Hnil. rewrite length_firstn, length_skipn in Hnil.
    simpl in Hnil. lia. }
  apply Hgen; [| assumption].
  apply Forall_forall. intros i Hi. apply in_seq in Hi. lia.
Qed.

Lemma train_strings_nonempty (samples : list bytes) (d : Dictionary.t) :
  Dictionary.train samples = OK d ->
  Forall (fun str => str <> []) (Dictionary.strings d).
Proof.
  unfold Dictionary.train. destruct samples as [|s0 samples'].
  - intros H. apply bind_inv in H. destruct H as (tr & _ & H).
    unfold Dictionary.make in H. simpl in H. injection H as <-. constructor.
  - set (samples := s0 :: samples').
    set (counts := fold_left Dictionary.count_sample samples []).
    assert (Hcounts : Forall (fun c => fst c <> []) counts).
    { unfold counts.
      assert (Hgen : forall ss acc, Forall (fun c => fst c <> []) acc ->
                Forall (fun c => fst c <> [])
                       (fold_left Dictionary.count_sample ss acc)).
      { induction ss as [|s ss IH]; intros acc Hacc; simpl; [assumption |].
        apply IH. unfold Dictionary.count_sample. simpl.
        repeat (apply count_windows_nonempty; [lia |]). assumption. }
      apply Hgen. constructor. }
    set (strings := map fst _).
    assert (Hstrings : Forall (fun str => str <> []) strings).
    { unfold strings. apply Forall_map. apply Forall_firstn. apply sort_Forall.
      apply Forall_forall. intros c Hc. apply filter_In in Hc.
      rewrite Forall_forall in Hcounts. apply Hcounts. apply Hc. }
    intros H. apply bind_inv in H. destruct H as (parts & _ & H).
    apply bind_inv in H. destruct H as (tr & _ & H).
    unfold Dictionary.make in H.
    destruct (_ <? _)%nat; [discriminate |]. injection H as <-. exact Hstrings.
Qed.

(* ===================================================================== *)
(** * Properties: compress/pipeline.ts *)
(* ===================================================================== *)

Example pipeline_roundtrip_hello :
  (blob <- compress_blob [104; 101; 108; 108; 111; 32; 119; 111; 114; 108; 100]
                         no_options ;;
   decompress_blob blob no_options)
  = OK [104; 101; 108; 108; 111; 32; 119; 111; 114; 108; 100].
Proof. vm_compute. reflexivity. Qed.

(** C3 fails on the code.  With the dictionary trained on [skewed_samples]
    as the only option, the text ["qaaaaaaaa"] is classified as UTF-8 text
    and stored by method [0x02] in five bytes; [decompress_blob] with the
    same options returns ["aaaaaaaaa"].  The defect is again the one
    [skewed_frequencies] shows in [from_frequencies]. *)
Theorem pipeline_roundtrip_violation :
  exists d blob,
    Dictionary.train skewed_samples = OK d /\
    let opts := {| dictionary := Some d; fallback_compress := None;
                   fallback_decompress := None |} in
    compress_blob [113; 97; 97; 97; 97; 97; 97; 97; 97] opts = OK blob /\
    nth_error blob 4 = Some METHOD_DICTIONARY /\
    decompress_blob blob opts = OK [97; 97; 97; 97; 97; 97; 97; 97; 97].
Proof.
  eexists. eexists. split; [vm_compute; reflexivity |].
  split; [vm_compute; reflexivity |].
  split; vm_compute; reflexivity.
Qed.

(** ** The negotiation of [compress_blob] *)

Lemma try_catch_cases {A : Type} (body : result A) (unchanged a : A) :
  try_catch body unchanged = OK a ->
  body = OK a \/ ((exists e, body = Err e) /\ a = unchanged).
Proof.
  unfold try_catch. destruct body as [a'|e].
  - intros H. left. exact H.
  - destruct (uncatchable e); [discriminate |].
    intros H. injection H as <-. right. split; [eexists |]; reflexivity.
Qed.

Lemma try_dictionary_cases (plaintext : bytes) (opts : PipelineOptions)
      (best : bytes * Z) :
  try_dictionary plaintext (detect_content_type plaintext) (dictionary opts)
                 (plaintext, METHOD_NONE) = OK best ->
  (best = (plaintext, METHOD_NONE) /\
   forall dict_out, ~ adopted_dictionary_output plaintext opts dict_out) \/
  exists dict_out,
    adopted_dictionary_output plaintext opts dict_out /\
    best = (dict_out, METHOD_DICTIONARY).
Proof.
  unfold try_dictionary, adopted_dictionary_output.
  destruct (dictionary opts) as [d|] eqn:Hd.
  2: { intros H; injection H as <-; left. split; [reflexivity |].
       intros o (d & Hd' & _). discriminate. }
  fold (text_or_json (detect_content_type plaintext)).
  destruct (text_or_json (detect_content_type plaintext)) eqn:Hct.
  2: { intros H; injection H as <-; left. split; [reflexivity |].
       intros o (d' & _ & Hct' & _). discriminate. }
  intros H. apply try_catch_cases in H.
  destruct H as [H | ((e & He) & ->)].
  - apply bind_inv in H. destruct H as (out & Hc & H).
    cbn [fst] in H.
    destruct (Nat.ltb_spec (length out) (length plaintext)); injection H as <-.
    + right. exists out. split; [| reflexivity].
      exists d. repeat split; assumption.
    + left. split; [reflexivity |].
      intros o (d' & Hd' & _ & Hc' & Hlt).
      injection Hd' as <-. rewrite Hc in Hc'. injection Hc' as <-. lia.
  - left. split; [reflexivity |].
    intros o (d' & Hd' & _ & Hc' & _). injection Hd' as <-.
    rewrite Hc' in He. discriminate.
Qed.

Lemma adopted_dictionary_output_unique (plaintext : bytes) (opts : PipelineOptions)
      (o1 o2 : bytes) :
  adopted_dictionary_output plaintext opts o1 ->
  adopted_dictionary_output plaintext opts o2 -> o1 = o2.
Proof.
  intros (d1 & Hd1 & _ & Hc1 & _) (d2 & Hd2 & _ & Hc2 & _).
  rewrite Hd1 in Hd2. injection Hd2 as <-. congruence.
Qed.

Lemma try_fallback_cases (plaintext : bytes) (opts : PipelineOptions)
      (best best' : bytes * Z) :
  ((best = (plaintext, METHOD_NONE) /\
    forall dict_out, ~ adopted_dictionary_output plaintext opts dict_out) \/
   exists dict_out,
     adopted_dictionary_output plaintext opts dict_out /\
     best = (dict_out, METHOD_DICTIONARY)) ->
  try_fallback plaintext (dictionary opts) (fallback_compress opts) best = OK best' ->
  best' = (plaintext, METHOD_NONE) \/
  (is_method (snd best') /\ trial plaintext opts (fst best')).
Proof.
  intros Hbest. unfold try_fallback.
  assert (Hkeep : best = (plaintext, METHOD_NONE) \/
                  (is_method (snd best) /\ trial plaintext opts (fst best))).
  { destruct Hbest as [(-> & _) | (out & (d & Hd & Hct & Hc & Hlt) & ->)];
      [left; reflexivity | right].
    split; [right; left; reflexivity | eapply trial_dictionary; eassumption]. }
  destruct (fallback_compress opts) as [fc|] eqn:Hfc;
    [| intros H; injection H as <-; exact Hkeep].
  (* the compressor applied to the dictionary output *)
  set (after_first := if (snd best =? METHOD_DICTIONARY) && _ then _ else _).
  assert (Hfirst : (exists e, after_first = Err e) \/
            exists best1, after_first = OK best1 /\
              (forall dict_out, adopted_dictionary_output plaintext opts dict_out ->
                                exists o, fc dict_out = OK o) /\
              (best1 = (plaintext, METHOD_NONE) \/
               (is_method (snd best1) /\ trial plaintext opts (fst best1)))).
  { unfold after_first.
    destruct Hbest as [(-> & Hnone) | (out & Hadopt & ->)].
    - right. exists (plaintext, METHOD_NONE). split; [reflexivity |].
      split; [| left; reflexivity].
      intros dict_out Ha. destruct (Hnone dict_out Ha).
    - pose proof Hadopt as (d & Hd & Hct & Hc & Hlt).
      rewrite Hd. cbn [fst snd]. change (METHOD_DICTIONARY =? METHOD_DICTIONARY) with true.
      cbn [andb bind].
      destruct (fc out) as [dd|e] eqn:Hdd; [| left; eexists; reflexivity].
      right. eexists. split; [reflexivity |]. split.
      + intros dict_out Ha.
        rewrite (adopted_dictionary_output_unique _ _ _ _ Ha Hadopt).
        exists dd. exact Hdd.
      + right. destruct (length dd <? length out)%nat; cbn [fst snd].
        * split; [right; right; reflexivity |].
          eapply trial_dictionary_external; eassumption.
        * split; [right; left; reflexivity | eapply trial_dictionary; eassumption]. }
  destruct Hfirst as [(e & ->) | (best1 & -> & Hran & Hbest1)].
  - intros H. apply try_catch_cases in H.
    destruct H as [H | (_ & ->)]; [discriminate | exact Hkeep].
  - intros H. apply try_catch_cases in H.
    destruct H as [H | (_ & ->)]; [| exact Hbest1].
    apply bind_inv in H. destruct H as (deflated & Hdf & H).
    destruct (length deflated <? length (fst best1))%nat;
      injection H as <-; [| exact Hbest1].
    right. cbn [fst snd]. split; [left; reflexivity |].
    eapply trial_external; eassumption.
Qed.

Lemma negotiate_cases (plaintext : bytes) (opts : PipelineOptions) (best : bytes * Z) :
  negotiate plaintext (detect_content_type plaintext) opts = OK best ->
  best = (plaintext, METHOD_NONE) \/
  (is_method (snd best) /\ trial plaintext opts (fst best) /\
   (length (fst best) < length plaintext)%nat).
Proof.
  unfold negotiate. intros H.
  apply bind_inv in H. destruct H as (best1 & H1 & H).
  apply bind_inv in H. destruct H as (best2 & H2 & H).
  pose proof (try_fallback_cases plaintext opts best1 best2
                (try_dictionary_cases plaintext opts best1 H1) H2) as Hc.
  destruct (Nat.leb_spec (length plaintext) (length (fst best2))) as [Hge | Hlt];
    injection H as <-; [left; reflexivity |].
  destruct Hc as [Heq | (Hm & Ht)].
  - rewrite Heq in Hlt. simpl in Hlt. lia.
  - right. repeat split; assumption.
Qed.

Lemma detect_content_type_byte (data : bytes) :
  to_uint8 (detect_content_type data) = detect_content_type data.
Proof.
  unfold detect_content_type. destruct data as [|first rest]; [reflexivity |].
  destruct (_ && _); [reflexivity |].
  destruct (count_printable _ _) as (printable, has_null).
  destruct (_ && _); reflexivity.
Qed.

(** ** [compress_blob] returns *)

Lemma encode_varint_error (n : Z) (e : error) :
  encode_varint n = Err e -> e = Negative.
Proof.
  intros H. destruct (Z.ltb_spec n 0) as [Hneg | Hpos].
  - unfold encode_varint in H. destruct (Z.ltb_spec n 0); [congruence | lia].
  - destruct (encode_varint_total n Hpos) as (bs & Hbs & _). congruence.
Qed.

Lemma lookup_all_error (table : list SymbolTree.entry) (data : bytes) (e : error) :
  SymbolTree.lookup_all table data = Err e -> e = UncodedSymbol.
Proof.
  induction data as [|b data IH]; [discriminate |].
  simpl. destruct (snd (nth (Z.to_nat b) table (0, 0)) =? 0); [congruence |].
  destruct (SymbolTree.lookup_all table data) as [es|e']; [discriminate |].
  simpl. intros H. injection H as <-. apply IH. reflexivity.
Qed.

(** Whatever stops [Dictionary.compress] is an exception, as long as no
    substitution string is empty. *)
Lemma dictionary_compress_catchable (d : Dictionary.t) (data : bytes) (e : error) :
  Forall (fun str => str <> []) (Dictionary.strings d) ->
  Dictionary.compress d data = Err e -> uncatchable e = false.
Proof.
  intros Hne. unfold Dictionary.compress.
  destruct (apply_substitution_returns data _ Hne) as (sub & ->). cbn [bind].
  unfold SymbolTree.encode.
  destruct (SymbolTree.lookup_all _ sub) as [es|e'] eqn:Hl.
  - cbn [bind].
    destruct (encode_varint (Z.of_nat (length sub))) as [sb|e1] eqn:H1.
    + cbn [bind].
      destruct (encode_varint (fold_left _ _ _)) as [bb|e2] eqn:H2; [discriminate |].
      cbn [bind]. intros H. injection H as <-.
      apply encode_varint_error in H2. subst. reflexivity.
    + cbn [bind]. intros H. injection H as <-.
      apply encode_varint_error in H1. subst. reflexivity.
  - cbn [bind]. intros H. injection H as <-.
    apply lookup_all_error in Hl. subst. reflexivity.
Qed.

Lemma try_catch_returns {A : Type} (body : result A) (unchanged : A) :
  (forall e, body = Err e -> uncatchable e = false) ->
  exists a, try_catch body unchanged = OK a.
Proof.
  intros H. unfold try_catch. destruct body as [a|e]; [eexists; reflexivity |].
  rewrite (H e eq_refl). eexists. reflexivity.
Qed.

(** [compress_blob] returns an envelope whenever its collaborators return
    or throw: a dictionary without empty substitution string (every trained
    dictionary), an external compressor that does not run for ever. *)
Lemma compress_blob_returns (plaintext : bytes) (opts : PipelineOptions) :
  (forall d, dictionary opts = Some d ->
             Forall (fun str => str <> []) (Dictionary.strings d)) ->
  (forall fc x e, fallback_compress opts = Some fc -> fc x = Err e ->
                  uncatchable e = false) ->
  exists blob, compress_blob plaintext opts = OK blob.
Proof.
  intros Hd Hfc.
  assert (Hneg : exists best,
             negotiate plaintext (detect_content_type plaintext) opts = OK best).
  { unfold negotiate.
    assert (H1 : exists best1,
               try_dictionary plaintext (detect_content_type plaintext)
                              (dictionary opts) (plaintext, METHOD_NONE) = OK best1).
    { unfold try_dictionary. destruct (dictionary opts) as [d|] eqn:Hdict;
        [| eexists; reflexivity].
      destruct (_ || _); [| eexists; reflexivity].
      apply try_catch_returns. intros e He.
      destruct (Dictionary.compress d plaintext) as [out|e'] eqn:Hc; [discriminate |].
      injection He as <-.
      eapply dictionary_compress_catchable; [apply Hd; reflexivity | exact Hc]. }
    destruct H1 as (best1 & ->). cbn [bind].
    assert (H2 : exists best2,
               try_fallback plaintext (dictionary opts) (fallback_compress opts) best1
               = OK best2).
    { unfold try_fallback. destruct (fallback_compress opts) as [fc|] eqn:Hf;
        [| eexists; reflexivity].
      destruct (if (snd best1 =? METHOD_DICTIONARY) && _ then _ else _)
        as [best'|e] eqn:Hfirst.
      - apply try_catch_returns. intros e He.
        destruct (fc plaintext) as [out|e'] eqn:Hc; [discriminate |].
        injection He as <-. eapply Hfc; [reflexivity | exact Hc].
      - apply try_catch_returns. intros e' He'. injection He' as <-.
        destruct ((snd best1 =? METHOD_DICTIONARY) && _); [| discriminate].
        destruct (fc (fst best1)) as [out|e'] eqn:Hc; [discriminate |].
        injection Hfirst as <-. eapply Hfc; [reflexivity | exact Hc]. }
    destruct H2 as (best2 & ->). cbn [bind].
    destruct (_ <=? _)%nat; eexists; reflexivity. }
  destruct Hneg as ((best_data, best_method) & Hn).
  unfold compress_blob, compress_blob_payload. rewrite Hn. cbn [bind].
  destruct (encode_varint_total (Z.of_nat (length plaintext))) as (ob & -> & _); [lia |].
  destruct (encode_varint_total (Z.of_nat (length best_data))) as (cb & -> & _); [lia |].
  cbn [bind]. eexists. reflexivity.
Qed.

(** C4.  A payload [compress_blob] wraps is
    [method, content_type, original_size, compressed_len, data] with
    [original_size] the length of the plaintext and [compressed_len] the
    length of [data].  When the method byte is not [0x00], [data] is
    strictly shorter than the plaintext and is the output of a trial the
    negotiation ran; when it is [0x00], [data] is the plaintext; and it is
    [0x00] whenever no trial produced an output strictly shorter than the
    plaintext. *)
Theorem compress_blob_never_grows (plaintext : bytes) (opts : PipelineOptions)
        (blob : bytes) :
  compress_blob plaintext opts = OK blob ->
  exists method data orig_size_bytes comp_len_bytes,
    encode_varint (Z.of_nat (length plaintext)) = OK orig_size_bytes /\
    encode_varint (Z.of_nat (length data)) = OK comp_len_bytes /\
    blob = write_envelope TAG_COMPRESSED_BLOB
             ([method; detect_content_type plaintext]
                ++ orig_size_bytes ++ comp_len_bytes ++ data) /\
    (method <> METHOD_NONE ->
     (length data < length plaintext)%nat /\ trial plaintext opts data) /\
    (method = METHOD_NONE -> data = plaintext) /\
    ((forall out, trial plaintext opts out -> (length plaintext <= length out)%nat) ->
     method = METHOD_NONE /\ data = plaintext).
Proof.
  unfold compress_blob, compress_blob_payload. intros H.
  apply bind_inv in H. destruct H as (payload & H & Hblob).
  injection Hblob as <-.
  apply bind_inv in H. destruct H as ((best_data, best_method) & Hneg & H).
  apply bind_inv in H. destruct H as (ob & Hob & H).
  apply bind_inv in H. destruct H as (cb & Hcb & H).
  injection H as <-.
  pose proof (negotiate_cases plaintext opts _ Hneg) as Hn.
  cbn [fst snd] in Hn.
  exists best_method, best_data, ob, cb.
  rewrite detect_content_type_byte.
  assert (Hbyte : to_uint8 best_method = best_method).
  { destruct Hn as [Heq | ([-> | [-> | ->]] & _)]; [| reflexivity ..].
    injection Heq as _ ->. reflexivity. }
  rewrite Hbyte.
  split; [assumption |]. split; [assumption |]. split; [reflexivity |].
  destruct Hn as [Heq | (Hm & Ht & Hlt)].
  - injection Heq as -> ->.
    split; [intros Hne; congruence |]. repeat split; reflexivity.
  - assert (Hnz : best_method <> METHOD_NONE).
    { destruct Hm as [-> | [-> | ->]]; discriminate. }
    split; [intros _; split; assumption |].
    split; [congruence |].
    intros Hno. specialize (Hno _ Ht). lia.
Qed.

Lemma compress_blob_never_grows_witness :
  exists blob method data orig_size_bytes comp_len_bytes,
    compress_blob [104; 101; 108; 108; 111] no_options = OK blob /\
    blob = write_envelope TAG_COMPRESSED_BLOB
             ([method; detect_content_type [104; 101; 108; 108; 111]]
                ++ orig_size_bytes ++ comp_len_bytes ++ data) /\
    method = METHOD_NONE /\ data = [104; 101; 108; 108; 111].
Proof.
  eexists.
  destruct (compress_blob_never_grows [104; 101; 108; 108; 111] no_options _ eq_refl)
    as (method & data & ob & cb & _ & _ & Hp & _ & _ & Hno).
  exists method, data, ob, cb. split; [reflexivity |]. split; [exact Hp |].
  apply Hno. intros out Ht.
  destruct Ht as [d out Hd _ _ | fc dict_out out Hfc _ _ | fc out Hfc _ _];
    discriminate.
Defined.

(** ** What [decompress_blob] returns *)

Lemma take_length (n : Z) (l : bytes) :
  length (take n l) = Z.to_nat (Z.min n (Z.of_nat (length l))).
Proof. unfold take. rewrite length_firstn. lia. Qed.

(** [_original_size] plays no part in [Dictionary.decompress]. *)
Lemma dictionary_decompress_ignores_size (d : Dictionary.t) (data : bytes) (n m : Z) :
  Dictionary.decompress d data n = Dictionary.decompress d data m.
Proof. reflexivity. Qed.

(** C9, as the code has it.  [decompress_blob] reads [original_size] and
    hands it to the injected decompressor of method [0x01]; it compares it
    with nothing.  For an accepted envelope of method [0x00] it returns the
    [compressed_len] bytes stored after the two varints (fewer when the
    payload is shorter), whatever [original_size] records; for method
    [0x02] it returns what [Dictionary.decompress], which does not read the
    size, makes of these bytes; for methods [0x01] and [0x03] it returns
    what the injected decompressor, respectively the dictionary after it,
    returns. *)
Theorem decompress_blob_size_unchecked
        (buf payload : bytes) (opts : PipelineOptions)
        (original_size compressed_len : Z) (os_len cl_len : nat) :
  read_envelope buf = OK (TAG_COMPRESSED_BLOB, payload) ->
  decode_varint payload 2 = OK (original_size, os_len) ->
  decode_varint payload (2 + os_len) = OK (compressed_len, cl_len) ->
  (nth_error payload 0 = Some METHOD_NONE ->
   decompress_blob buf opts
   = OK (take compressed_len (skipn (2 + os_len + cl_len) payload)) /\
   length (take compressed_len (skipn (2 + os_len + cl_len) payload))
   = Z.to_nat (Z.min compressed_len
                     (Z.of_nat (length payload - (2 + os_len + cl_len))))) /\
  (forall d,
      nth_error payload 0 = Some METHOD_DICTIONARY -> dictionary opts = Some d ->
      decompress_blob buf opts
      = Dictionary.decompress d
          (take compressed_len (skipn (2 + os_len + cl_len) payload)) 0) /\
  (forall fd,
      nth_error payload 0 = Some METHOD_DEFLATE -> fallback_decompress opts = Some fd ->
      decompress_blob buf opts
      = fd (take compressed_len (skipn (2 + os_len + cl_len) payload)) original_size) /\
  (forall fd d,
      nth_error payload 0 = Some METHOD_DICT_DEFLATE ->
      fallback_decompress opts = Some fd -> dictionary opts = Some d ->
      decompress_blob buf opts
      = (inflated <- fd (take compressed_len (skipn (2 + os_len + cl_len) payload)) 0 ;;
         Dictionary.decompress d inflated 0)).
Proof.
  intros Henv Hos Hcl.
  assert (Hrun : decompress_blob buf opts
                 = let data := take compressed_len (skipn (2 + os_len + cl_len) payload) in
                   match nth_error payload 0 with
                   | Some 0x00 => OK data
                   | Some 0x01 =>
                       match fallback_decompress opts with
                       | None => Err MissingCollaborator
                       | Some fd => fd data original_size
                       end
                   | Some 0x02 =>
                       match dictionary opts with
                       | None => Err MissingCollaborator
                       | Some d => Dictionary.decompress d data original_size
                       end
                   | Some 0x03 =>
                       match fallback_decompress opts, dictionary opts with
                       | None, _ => Err MissingCollaborator
                       | _, None => Err MissingCollaborator
                       | Some fd, Some d =>
                           inflated <- fd data 0 ;;
                           Dictionary.decompress d inflated original_size
                       end
                   | Some _ => Err BadMethod
                   | None => Err TypeError
                   end).
  { unfold decompress_blob. rewrite Henv. cbn [bind].
    change (TAG_COMPRESSED_BLOB =? TAG_COMPRESSED_BLOB) with true. cbn [negb].
    cbv iota. rewrite Hos. cbn [bind]. rewrite Hcl. cbn [bind]. reflexivity. }
  rewrite Hrun. cbv zeta.
  split; [| split; [| split]].
  - intros ->. split; [reflexivity |].
    rewrite take_length, length_skipn. reflexivity.
  - intros d -> ->. reflexivity.
  - intros fd -> ->. reflexivity.
  - intros fd d -> -> ->. reflexivity.
Qed.

Lemma decompress_blob_size_unchecked_witness :
  decompress_blob empty_blob_of_size_5 no_options
  = OK (take 0 (skipn 4 [METHOD_NONE; ContentType.BINARY; 5; 0])) /\
  length (take 0 (skipn 4 [METHOD_NONE; ContentType.BINARY; 5; 0]))
  = Z.to_nat (Z.min 0 (Z.of_nat (4 - 4))).
Proof.
  destruct (decompress_blob_size_unchecked
              empty_blob_of_size_5 [METHOD_NONE; ContentType.BINARY; 5; 0]
              no_options 5 0 1 1) as (H & _).
  - apply read_write_envelope.
  - reflexivity.
  - reflexivity.
  - apply H. reflexivity.
Defined.

(** C9, as the specification words it, fails: the envelope is accepted
    (magic, version, CRC, tag [0x10], method [0x00]), its payload records
    an original size of 5, and [decompress_blob] returns the empty byte
    sequence instead of failing. *)
Lemma decompress_blob_length_mismatch_accepted :
  read_envelope empty_blob_of_size_5
  = OK (TAG_COMPRESSED_BLOB, [METHOD_NONE; ContentType.BINARY; 5; 0]) /\
  decode_varint [METHOD_NONE; ContentType.BINARY; 5; 0] 2 = OK (5, 1%nat) /\
  decompress_blob empty_blob_of_size_5 no_options = OK [].
Proof.
  split; [apply read_write_envelope |]. split; [reflexivity |].
  vm_compute. reflexivity.
Qed.

(* ===================================================================== *)
(** * More properties: the envelope *)
(* ===================================================================== *)

Lemma get_uint32_bytes_inj (t : bytes) (c : Z) :
  length t = 4%nat -> Forall is_byte t -> 0 <= c < 2 ^ 32 ->
  get_uint32 t = c ->
  t = [c / 2 ^ 24 mod 256; c / 2 ^ 16 mod 256; c / 2 ^ 8 mod 256; c mod 256].
Proof.
  intros Hlen Hb Hc Hget.
  destruct t as [|t0 [|t1 [|t2 [|t3 [|]]]]]; try discriminate.
  inversion Hb as [|? ? H0 Hb1]; subst. inversion Hb1 as [|? ? H1 Hb2]; subst.
  inversion Hb2 as [|? ? H2 Hb3]; subst. inversion Hb3 as [|? ? H3 _]; subst.
  unfold is_byte in *. unfold get_uint32 in *. simpl fold_left in *.
  change (2 ^ 24) with 16777216. change (2 ^ 16) with 65536.
  change (2 ^ 8) with 256. change (2 ^ 32) with 4294967296 in Hc.
  repeat f_equal; Z.div_mod_to_equations; lia.
Qed.

Lemma crc32_bytes_spec (data : bytes) :
  crc32_bytes data
  = [crc32 data / 2 ^ 24 mod 256; crc32 data / 2 ^ 16 mod 256;
     crc32 data / 2 ^ 8 mod 256; crc32 data mod 256].
Proof.
  unfold crc32_bytes. pose proof (crc32_range data) as Hc.
  rewrite !js_and_0xff, !js_ushr_small by lia. reflexivity.
Qed.

(** The checksum test accepts a trailer of four bytes only if it is the
    one [crc32_bytes] computes. *)
Lemma verify_crc32_trailer (data trailer : bytes) :
  length trailer = 4%nat -> Forall is_byte trailer ->
  verify_crc32 (data ++ trailer) = true -> trailer = crc32_bytes data.
Proof.
  intros Hlen Hb Hv. unfold verify_crc32 in Hv.
  rewrite length_app, Hlen in Hv.
  destruct (Nat.ltb_spec (length data + 4) 4); [discriminate |].
  replace (length data + 4 - 4)%nat with (length data) in Hv by lia.
  pose proof (slice_app_mid [] data trailer) as Hs1. simpl in Hs1.
  rewrite Hs1 in Hv.
  pose proof (slice_app_mid data trailer []) as Hs2.
  rewrite app_nil_r, Hlen in Hs2. rewrite Hs2 in Hv.
  apply Z.eqb_eq in Hv. rewrite crc32_bytes_spec.
  apply get_uint32_bytes_inj; try assumption. apply crc32_range.
Qed.

Lemma firstn_4_nth (buf : bytes) :
  (4 <= length buf)%nat ->
  firstn 4 buf = [nth 0 buf 0; nth 1 buf 0; nth 2 buf 0; nth 3 buf 0].
Proof.
  intros H. destruct buf as [|b0 [|b1 [|b2 [|b3 rest]]]]; simpl in H; try lia.
  reflexivity.
Qed.

(** Inversion of [read_envelope], for buffers of bytes. *)
Lemma read_envelope_inv (buf payload : bytes) (tag : Z) :
  Forall is_byte buf ->
  read_envelope buf = OK (tag, payload) ->
  buf = (envelope_header tag ++ payload)
          ++ crc32_bytes (envelope_header tag ++ payload).
Proof.
  intros Hb Hread. unfold read_envelope in Hread.
  unfold ENVELOPE_HEADER_SIZE, ENVELOPE_FOOTER_SIZE in Hread.
  destruct (Nat.ltb_spec (length buf) (4 + 4)) as [| Hlen]; [discriminate |].
  destruct (Z.eqb_spec (nth 0 buf 0) (nth 0 MAGIC 0)) as [H0 |]; [| discriminate].
  destruct (Z.eqb_spec (nth 1 buf 0) (nth 1 MAGIC 0)) as [H1 |]; [| discriminate].
  cbn [negb orb] in Hread.
  destruct (Z.eqb_spec (nth 2 buf 0) VERSION) as [H2 |]; [| discriminate].
  cbn [negb] in Hread.
  destruct (verify_crc32 buf) eqn:Hv; [| discriminate].
  cbn [negb] in Hread. injection Hread as Htag Hpayload.
  set (n := length buf) in *.
  assert (Hsplit : buf = (firstn 4 buf ++ payload) ++ skipn (n - 4) buf).
  { rewrite <- Hpayload. unfold slice.
    rewrite <- (firstn_skipn (n - 4) buf) at 1. f_equal.
    rewrite <- (firstn_skipn 4 (firstn (n - 4) buf)).
    rewrite firstn_firstn. replace (Nat.min 4 (n - 4)) with 4%nat by lia.
    f_equal. rewrite skipn_firstn_comm. reflexivity. }
  assert (Htrailer : skipn (n - 4) buf = crc32_bytes (firstn 4 buf ++ payload)).
  { apply verify_crc32_trailer.
    - rewrite length_skipn. lia.
    - rewrite <- (firstn_skipn (n - 4) buf) in Hb. apply Forall_app in Hb. apply Hb.
    - rewrite <- Hsplit. exact Hv. }
  rewrite Hsplit at 1. rewrite Htrailer.
  rewrite (firstn_4_nth buf) by lia. rewrite H0, H1, H2, Htag. reflexivity.
Qed.

(** X1.  An accepted envelope is a written one: whatever [read_envelope]
    accepts, among buffers of bytes, is what [write_envelope] writes for
    the tag and payload it returns. *)
Theorem read_envelope_accepts_written_only (buf payload : bytes) (tag : Z) :
  Forall is_byte buf ->
  read_envelope buf = OK (tag, payload) ->
  buf = write_envelope tag payload.
Proof.
  intros Hb Hread. pose proof (read_envelope_inv _ _ _ Hb Hread) as Hinv.
  assert (Htag : is_byte tag).
  { rewrite Hinv in Hb. apply Forall_app in Hb. destruct Hb as (Hb & _).
    apply Forall_app in Hb. destruct Hb as (Hb & _).
    unfold envelope_header in Hb. rewrite Forall_forall in Hb.
    apply Hb. simpl. tauto. }
  unfold write_envelope, to_uint8. rewrite (Z.mod_small tag) by exact Htag.
  exact Hinv.
Qed.

Lemma read_envelope_accepts_written_only_witness :
  [90; 75; 1; 2; 7; 7; 7; 60; 85; 103; 242] = write_envelope 2 [7; 7; 7].
Proof.
  apply (read_envelope_accepts_written_only
           [90; 75; 1; 2; 7; 7; 7; 60; 85; 103; 242] [7; 7; 7] 2).
  - unfold is_byte. repeat constructor; lia.
  - vm_compute. reflexivity.
Defined.

(* ===================================================================== *)
(** * More properties: what the CRC detects *)
(* ===================================================================== *)

Lemma mod_pow2_lxor (a b k : Z) :
  0 <= k -> Z.lxor a b mod 2 ^ k = Z.lxor (a mod 2 ^ k) (b mod 2 ^ k).
Proof.
  intros Hk. rewrite <- !Z.land_ones by assumption.
  apply Z.bits_inj'. intros n Hn.
  rewrite Z.land_spec, !Z.lxor_spec, !Z.land_spec.
  destruct (Z.testbit a n), (Z.testbit b n), (Z.testbit (Z.ones k) n); reflexivity.
Qed.

Lemma to_uint32_js_xor (a b : Z) :
  to_uint32 (js_xor a b) = Z.lxor (to_uint32 a) (to_uint32 b).
Proof.
  unfold js_xor, to_uint32. rewrite mod_pow2_lxor by lia.
  rewrite !(to_int32_mod_pow2 _ 32) by lia. reflexivity.
Qed.

Lemma low_byte_js_xor (a b : Z) :
  js_xor a b mod 256 = Z.lxor (a mod 256) (b mod 256).
Proof.
  unfold js_xor. change 256 with (2 ^ 8). rewrite mod_pow2_lxor by lia.
  rewrite !(to_int32_mod_pow2 _ 8) by lia. reflexivity.
Qed.

Lemma lxor_cancel_r (a b c : Z) : Z.lxor a c = Z.lxor b c -> a = b.
Proof.
  intros H. apply (f_equal (fun x => Z.lxor x c)) in H.
  rewrite !Z.lxor_assoc, Z.lxor_nilpotent, !Z.lxor_0_r in H. exact H.
Qed.

Lemma lxor_cancel_l (a b c : Z) : Z.lxor c a = Z.lxor c b -> a = b.
Proof. rewrite !(Z.lxor_comm c). apply lxor_cancel_r. Qed.

Lemma TABLE_range (i : nat) : 0 <= nth i TABLE 0 < 2 ^ 32.
Proof.
  destruct (Nat.lt_ge_cases i 256) as [Hi | Hi].
  - assert (H : forallb (fun t => (0 <=? t) && (t <? 2 ^ 32)) TABLE = true)
      by (vm_compute; reflexivity).
    rewrite forallb_forall in H.
    assert (Hin : In (nth i TABLE 0) TABLE) by (apply nth_In; exact Hi).
    specialize (H _ Hin). apply andb_true_iff in H. lia.
  - rewrite nth_overflow by exact Hi. lia.
Qed.

Lemma TABLE_length : length TABLE = 256%nat.
Proof. reflexivity. Qed.

(** The top bytes of the 256 table entries are pairwise distinct. *)
Lemma TABLE_top_bytes (i j : Z) :
  0 <= i < 256 -> 0 <= j < 256 ->
  nth (Z.to_nat i) TABLE 0 / 2 ^ 24 = nth (Z.to_nat j) TABLE 0 / 2 ^ 24 ->
  i = j.
Proof.
  intros Hi Hj Heq.
  pose proof (forall_range
    (fun i => forallb
       (fun j => implb (nth (Z.to_nat i) TABLE 0 / 2 ^ 24
                        =? nth (Z.to_nat j) TABLE 0 / 2 ^ 24) (i =? j))
       (map Z.of_nat (seq 0 256))) 256) as H.
  specialize (H ltac:(vm_compute; reflexivity) i Hi).
  pose proof (forall_range _ 256 H j Hj) as Hij. cbv beta in Hij.
  rewrite Heq, Z.eqb_refl in Hij. cbn [implb] in Hij. lia.
Qed.

(** One step of [crc32], on the unsigned view of the state. *)
Lemma crc32_step_uint32 (crc byte : Z) :
  to_uint32 (crc32_step crc byte)
  = Z.lxor (nth (Z.to_nat (Z.lxor (to_uint32 crc mod 256) (byte mod 256))) TABLE 0)
           (to_uint32 crc / 256).
Proof.
  unfold crc32_step. rewrite to_uint32_js_xor.
  rewrite js_and_0xff, low_byte_js_xor.
  assert (Hlow : crc mod 256 = to_uint32 crc mod 256).
  { unfold to_uint32. change 256 with (2 ^ 8) at 2. change (2 ^ 32) with (2 ^ 8 * 2 ^ 24).
    rewrite Z.rem_mul_r by lia. rewrite (Z.mul_comm (2 ^ 8)), Z.mod_add by lia.
    rewrite Z.mod_mod by lia. reflexivity. }
  rewrite Hlow. f_equal.
  - unfold to_uint32 at 1. apply Z.mod_small. apply TABLE_range.
  - unfold js_ushr. change (to_uint32 8 mod 32) with 8.
    rewrite Z.shiftr_div_pow2 by lia. change (2 ^ 8) with 256.
    unfold to_uint32 at 1. apply Z.mod_small.
    assert (0 <= to_uint32 crc < 2 ^ 32) by (apply Z.mod_pos_bound; lia).
    split; [apply Z.div_pos; lia |].
    apply Z.div_lt_upper_bound; lia.
Qed.

Lemma lxor_low_byte_range (x y : Z) :
  0 <= Z.lxor (x mod 256) (y mod 256) < 256.
Proof.
  rewrite <- low_byte_js_xor. apply Z.mod_pos_bound. lia.
Qed.

(** A step determines the table entry it used. *)
Lemma crc32_step_index (u u' i i' : Z) :
  0 <= u < 2 ^ 32 -> 0 <= u' < 2 ^ 32 -> 0 <= i < 256 -> 0 <= i' < 256 ->
  Z.lxor (nth (Z.to_nat i) TABLE 0) (u / 256)
  = Z.lxor (nth (Z.to_nat i') TABLE 0) (u' / 256) ->
  i = i' /\ u / 256 = u' / 256.
Proof.
  intros Hu Hu' Hi Hi' Heq.
  assert (Htop : forall v, 0 <= v < 2 ^ 32 -> Z.shiftr (v / 256) 24 = 0).
  { intros v Hv. rewrite Z.shiftr_div_pow2 by lia.
    apply Z.div_small. split; [apply Z.div_pos; lia |].
    apply Z.div_lt_upper_bound; lia. }
  assert (Hii : i = i').
  { apply TABLE_top_bytes; try assumption.
    apply (f_equal (fun x => Z.shiftr x 24)) in Heq.
    rewrite !Z.shiftr_lxor, !Htop, !Z.lxor_0_r in Heq by assumption.
    rewrite !Z.shiftr_div_pow2 in Heq by lia. exact Heq. }
  split; [exact Hii |]. subst i'. eapply lxor_cancel_l. exact Heq.
Qed.

Lemma crc32_step_state_inj (s s' byte : Z) :
  to_uint32 (crc32_step s byte) = to_uint32 (crc32_step s' byte) ->
  to_uint32 s = to_uint32 s'.
Proof.
  rewrite !crc32_step_uint32. intros Heq.
  assert (Hu : 0 <= to_uint32 s < 2 ^ 32) by (apply Z.mod_pos_bound; lia).
  assert (Hu' : 0 <= to_uint32 s' < 2 ^ 32) by (apply Z.mod_pos_bound; lia).
  destruct (crc32_step_index _ _ _ _ Hu Hu' (lxor_low_byte_range _ _)
                             (lxor_low_byte_range _ _) Heq) as (Hi & Hhigh).
  apply lxor_cancel_r in Hi.
  rewrite (Z.div_mod (to_uint32 s) 256), (Z.div_mod (to_uint32 s') 256) by lia.
  rewrite Hi, Hhigh. reflexivity.
Qed.

Lemma crc32_step_byte_inj (s s' byte byte' : Z) :
  to_uint32 s = to_uint32 s' ->
  to_uint32 (crc32_step s byte) = to_uint32 (crc32_step s' byte') ->
  byte mod 256 = byte' mod 256.
Proof.
  intros Hs. rewrite !crc32_step_uint32, Hs. intros Heq.
  assert (Hu' : 0 <= to_uint32 s' < 2 ^ 32) by (apply Z.mod_pos_bound; lia).
  destruct (crc32_step_index _ _ _ _ Hu' Hu' (lxor_low_byte_range _ _)
                             (lxor_low_byte_range _ _) Heq) as (Hi & _).
  eapply lxor_cancel_l. exact Hi.
Qed.

Lemma crc32_fold_state_inj (data : bytes) :
  forall s s',
    to_uint32 (fold_left crc32_step data s) = to_uint32 (fold_left crc32_step data s') ->
    to_uint32 s = to_uint32 s'.
Proof.
  induction data as [|b data IH]; intros s s' H; [exact H |].
  simpl in H. apply IH in H. eapply crc32_step_state_inj. exact H.
Qed.

Lemma crc32_step_congr (s s' byte : Z) :
  to_uint32 s = to_uint32 s' ->
  to_uint32 (crc32_step s byte) = to_uint32 (crc32_step s' byte).
Proof. intros H. rewrite !crc32_step_uint32, H. reflexivity. Qed.

Lemma crc32_fold_congr (data : bytes) :
  forall s s',
    to_uint32 s = to_uint32 s' ->
    to_uint32 (fold_left crc32_step data s) = to_uint32 (fold_left crc32_step data s').
Proof.
  induction data as [|b data IH]; intros s s' H; [exact H |].
  simpl. apply IH. apply crc32_step_congr. exact H.
Qed.

(** Two byte strings that differ in one byte have different checksums. *)
Lemma crc32_one_byte (pre post : bytes) (b b' : Z) :
  b mod 256 <> b' mod 256 ->
  crc32 (pre ++ b :: post) <> crc32 (pre ++ b' :: post).
Proof.
  intros Hb Heq. unfold crc32 in Heq. rewrite !js_ushr_0 in Heq.
  fold (to_uint32 (js_xor (fold_left crc32_step (pre ++ b :: post) 4294967295)
                          4294967295)) in Heq.
  fold (to_uint32 (js_xor (fold_left crc32_step (pre ++ b' :: post) 4294967295)
                          4294967295)) in Heq.
  rewrite !to_uint32_js_xor in Heq. apply lxor_cancel_r in Heq.
  rewrite !fold_left_app in Heq. simpl fold_left in Heq.
  apply crc32_fold_state_inj in Heq.
  apply Hb. eapply crc32_step_byte_inj; [| exact Heq]. reflexivity.
Qed.

Lemma store_app_l (l1 l2 : bytes) (i : nat) (v : Z) :
  (i < length l1)%nat -> store (l1 ++ l2) i v = store l1 i v ++ l2.
Proof.
  intros Hi. unfold store. rewrite length_app.
  destruct (Nat.ltb_spec i (length l1 + length l2)); [| lia].
  destruct (Nat.ltb_spec i (length l1)); [| lia].
  rewrite firstn_app, skipn_app.
  replace (i - length l1)%nat with 0%nat by lia.
  replace (S i - length l1)%nat with 0%nat by lia.
  simpl. rewrite app_nil_r, <- app_assoc. reflexivity.
Qed.

Lemma store_app_r (l1 l2 : bytes) (i : nat) (v : Z) :
  (length l1 <= i)%nat -> store (l1 ++ l2) i v = l1 ++ store l2 (i - length l1) v.
Proof.
  intros Hi. unfold store. rewrite length_app.
  destruct (Nat.ltb_spec i (length l1 + length l2));
    destruct (Nat.ltb_spec (i - length l1) (length l2)); try lia; [| reflexivity].
  rewrite firstn_app, skipn_app.
  rewrite firstn_all2, skipn_all2 by lia.
  replace (S i - length l1)%nat with (S (i - length l1)) by lia.
  simpl. rewrite <- app_assoc. reflexivity.
Qed.

Lemma store_split (l : bytes) (i : nat) (v : Z) :
  (i < length l)%nat ->
  l = firstn i l ++ nth i l 0 :: skipn (S i) l /\
  store l i v = firstn i l ++ to_uint8 v :: skipn (S i) l.
Proof.
  intros Hi. split.
  - rewrite <- (firstn_skipn i l) at 1. f_equal.
    revert i Hi. induction l as [|x l IH]; intros i Hi; [simpl in Hi; lia |].
    destruct i; [reflexivity |]. simpl. apply IH. simpl in Hi. lia.
  - unfold store. destruct (Nat.ltb_spec i (length l)); [reflexivity | lia].
Qed.

Lemma store_changes (l : bytes) (i : nat) (b : Z) :
  (i < length l)%nat -> is_byte b -> b <> nth i l 0 -> store l i b <> l.
Proof.
  intros Hi Hb Hne Heq.
  destruct (store_split l i b Hi) as (Hl & Hs).
  rewrite Hs in Heq. rewrite Hl in Heq at 3.
  apply app_inv_head in Heq. injection Heq as Heq.
  unfold to_uint8, is_byte in *. rewrite Z.mod_small in Heq by lia. congruence.
Qed.

Lemma crc32_bytes_are_bytes (data : bytes) : Forall is_byte (crc32_bytes data).
Proof.
  rewrite crc32_bytes_spec. unfold is_byte.
  repeat constructor; apply Z.mod_pos_bound; lia.
Qed.

Lemma crc32_bytes_inj (x y : bytes) :
  crc32_bytes x = crc32_bytes y -> crc32 x = crc32 y.
Proof.
  intros H. rewrite <- (get_uint32_crc32_bytes x), <- (get_uint32_crc32_bytes y).
  rewrite H. reflexivity.
Qed.

Lemma app_eq_length_inv {A} (a b c d : list A) :
  length a = length c -> a ++ b = c ++ d -> a = c /\ b = d.
Proof.
  revert c. induction a as [|x a IH]; intros [|y c] Hlen Heq;
    try discriminate; [split; [reflexivity | exact Heq] |].
  injection Hlen as Hlen. injection Heq as -> Heq.
  destruct (IH c Hlen Heq) as (-> & ->). split; reflexivity.
Qed.

(** X2.  Any single corrupted byte is detected: a written envelope in which one
    byte, of the header, the payload or the checksum, has been replaced by
    a different byte is rejected by [read_envelope]. *)
Theorem envelope_corruption_detected (tag : Z) (payload : bytes) (i : nat) (b : Z) :
  is_byte tag -> Forall is_byte payload -> is_byte b ->
  (i < length (write_envelope tag payload))%nat ->
  b <> nth i (write_envelope tag payload) 0 ->
  exists e, read_envelope (store (write_envelope tag payload) i b) = Err e.
Proof.
  intros Htag Hpayload Hb Hi Hne.
  assert (Henv : write_envelope tag payload
                 = (envelope_header tag ++ payload)
                     ++ crc32_bytes (envelope_header tag ++ payload)).
  { unfold write_envelope, envelope_header, to_uint8.
    rewrite (Z.mod_small tag) by exact Htag. reflexivity. }
  rewrite Henv in *.
  set (X := envelope_header tag ++ payload) in *.
  assert (HX : Forall is_byte X).
  { unfold X, envelope_header. apply Forall_app. split; [| assumption].
    unfold is_byte, VERSION. repeat constructor; try lia; apply Htag. }
  assert (Hall : Forall is_byte (store (X ++ crc32_bytes X) i b)).
  { apply store_Forall.
    - apply Forall_app. split; [assumption | apply crc32_bytes_are_bytes].
    - unfold to_uint8, is_byte in *. rewrite Z.mod_small; lia. }
  destruct (read_envelope (store (X ++ crc32_bytes X) i b))
    as [(tag', payload')|e] eqn:Hread; [exfalso | eexists; reflexivity].
  apply read_envelope_inv in Hread; [| assumption].
  set (X' := envelope_header tag' ++ payload') in *.
  assert (Hlen : length X' = length X).
  { apply (f_equal (@length Z)) in Hread.
    rewrite store_length, !length_app, !crc32_bytes_length in Hread. lia. }
  destruct (Nat.lt_ge_cases i (length X)) as [Hin | Hout].
  - (* the header or the payload is corrupted *)
    rewrite store_app_l in Hread by assumption.
    assert (Hparts : store X i b = X' /\ crc32_bytes X = crc32_bytes X').
    { apply app_eq_length_inv; [rewrite store_length; lia | exact Hread]. }
    destruct Hparts as (HX' & Hcrc). apply crc32_bytes_inj in Hcrc.
    destruct (store_split X i b Hin) as (Hsplit & Hstore).
    rewrite <- HX', Hstore in Hcrc. rewrite Hsplit in Hcrc at 1.
    revert Hcrc. apply crc32_one_byte.
    assert (Hx : is_byte (nth i X 0)).
    { rewrite Forall_forall in HX. apply HX. apply nth_In. assumption. }
    rewrite app_nth1 in Hne by assumption.
    unfold to_uint8, is_byte in *. rewrite Z.mod_mod by lia.
    rewrite !Z.mod_small by lia. congruence.
  - (* the checksum is corrupted *)
    rewrite store_app_r in Hread by assumption.
    assert (Hparts : X = X' /\ store (crc32_bytes X) (i - length X) b = crc32_bytes X').
    { apply app_eq_length_inv; [lia | exact Hread]. }
    destruct Hparts as (HX' & Hcrc). rewrite <- HX' in Hcrc.
    revert Hcrc. apply store_changes.
    + rewrite length_app in Hi. lia.
    + assumption.
    + rewrite app_nth2 in Hne by assumption. exact Hne.
Qed.

Lemma envelope_corruption_detected_witness :
  exists e, read_envelope (store (write_envelope 2 [7; 7; 7]) 5%nat 8) = Err e.
Proof.
  apply (envelope_corruption_detected 2 [7; 7; 7] 5%nat 8).
  - unfold is_byte. lia.
  - unfold is_byte. repeat constructor; lia.
  - unfold is_byte. lia.
  - vm_compute. lia.
  - vm_compute. discriminate.
Defined.

(* ===================================================================== *)
(** * More properties: codec/group.ts *)
(* ===================================================================== *)

Lemma role_roundtrip (r : Role) :
  decode_role (Some (to_uint8 (encode_role r))) = OK r.
Proof. destruct r; reflexivity. Qed.

Lemma encode_member_layout (m : GroupMember) :
  wf_member m ->
  exists b, encode_member m = OK b /\ member_bytes m b.
Proof.
  intros (Hpk & Hdek).
  destruct (encode_varint_total (Z.of_nat (length (encrypted_dek m))))
    as (dl & Henc & _); [lia |].
  exists (pubkey m ++ dl ++ encrypted_dek m ++ [encode_role (role m)]).
  split; [| exists dl; split; [assumption | reflexivity]].
  unfold encode_member. rewrite Henc. cbn [bind].
  fill_first (pubkey m) (length dl + length (encrypted_dek m) + 1)%nat.
  fill dl (length (encrypted_dek m) + 1)%nat.
  fill (encrypted_dek m) 1%nat.
  erewrite (store_fill_eq _ ((pubkey m ++ dl) ++ encrypted_dek m) _ 0);
    [| reflexivity | len].
  f_equal. cbn [zeros repeat]. rewrite app_nil_r.
  replace (to_uint8 (encode_role (role m))) with (encode_role (role m))
    by (destruct (role m); reflexivity).
  repeat rewrite <- app_assoc. reflexivity.
Qed.

Lemma encode_members_layout (ms : list GroupMember) :
  Forall wf_member ms ->
  exists bufs, encode_members ms = OK bufs /\ Forall2 member_bytes ms bufs.
Proof.
  induction 1 as [|m ms Hm Hms (bufs & Henc & Hall)].
  - exists []. split; [reflexivity | constructor].
  - destruct (encode_member_layout m Hm) as (b & Hb & Hmb).
    exists (b :: bufs). simpl. rewrite Hb, Henc. simpl.
    split; [reflexivity | constructor; assumption].
Qed.

Lemma decode_members_eq (ms : list GroupMember) (bufs : list bytes) :
  Forall2 member_bytes ms bufs -> Forall wf_member ms ->
  forall pre post,
    decode_members (length ms) (pre ++ concat bufs ++ post) (length pre) = OK ms.
Proof.
  induction 1 as [|m b ms bufs Hmb Hall IH]; intros Hwf pre post; [reflexivity |].
  inversion Hwf as [|? ? Hm Hms]; subst.
  destruct Hmb as (dl & Henc & ->). destruct Hm as (Hpk & Hdek).
  simpl length. simpl concat. cbn [decode_members].
  set (dek := encrypted_dek m) in *.
  set (r := encode_role (role m)).
  set (buf := pre ++ ((pubkey m ++ dl ++ dek ++ [r]) ++ concat bufs) ++ post).
  unfold HASH_SIZE in *.
  rewrite (decode_varint_eq buf (pre ++ pubkey m) dl
             (dek ++ [r] ++ concat bufs ++ post) (Z.of_nat (length dek)))
    by first [assumption | lia | len
             | unfold buf; repeat rewrite <- app_assoc; reflexivity].
  cbn [bind]. rewrite Nat2Z.id.
  rewrite (nth_error_eq buf (pre ++ pubkey m ++ dl ++ dek) (concat bufs ++ post) r)
    by first [len | unfold buf; repeat rewrite <- app_assoc; reflexivity].
  replace (decode_role (Some r)) with (OK (role m))
    by (unfold r; destruct (role m); reflexivity).
  cbn [bind].
  rewrite (slice_eq buf pre (pubkey m) (dl ++ dek ++ [r] ++ concat bufs ++ post))
    by first [reflexivity | len
             | unfold buf; repeat rewrite <- app_assoc; reflexivity].
  rewrite (slice_eq buf (pre ++ pubkey m ++ dl) dek ([r] ++ concat bufs ++ post))
    by first [len | unfold buf; repeat rewrite <- app_assoc; reflexivity].
  replace buf with ((pre ++ pubkey m ++ dl ++ dek ++ [r]) ++ concat bufs ++ post)
    by (unfold buf; repeat rewrite <- app_assoc; reflexivity).
  replace (S (length pre + 32 + length dl + length dek))
    with (length (pre ++ pubkey m ++ dl ++ dek ++ [r])) by len.
  rewrite IH by assumption. cbn [bind].
  destruct m; reflexivity.
Qed.

Lemma encode_group_payload_layout (group : Group) :
  wf_group group ->
  exists count_bytes bufs,
    encode_varint (Z.of_nat (length (members group))) = OK count_bytes /\
    Forall2 member_bytes (members group) bufs /\
    encode_group_payload group = OK (id_ group ++ count_bytes ++ concat bufs).
Proof.
  intros (Hid & Hcount & Hms).
  destruct (encode_varint_total (Z.of_nat (length (members group))))
    as (cb & Hcb & _); [lia |].
  destruct (encode_members_layout _ Hms) as (bufs & Hbufs & Hall).
  exists cb, bufs. repeat split; try assumption.
  unfold encode_group_payload. rewrite Hcb, Hbufs. cbn [bind].
  fill_first (id_ group) (length cb + length (concat bufs))%nat.
  fill cb (length (concat bufs) + 0)%nat.
  replace (0 + HASH_SIZE + length cb)%nat with (length (id_ group ++ cb)) by len.
  rewrite set_all_fill. f_equal. cbn [zeros repeat]. rewrite app_nil_r.
  repeat rewrite <- app_assoc. reflexivity.
Qed.

(** X3.  [decode_group] inverts [encode_group]: a group with a 32-byte id and
    32-byte member keys is encoded, and decoding the buffer gives back the
    group, every member with its key, wrapped key and role, in order. *)
Theorem group_roundtrip (group : Group) :
  wf_group group ->
  exists buf, encode_group group = OK buf /\ decode_group buf = OK group.
Proof.
  intros Hwf.
  destruct (encode_group_payload_layout group Hwf) as (cb & bufs & Hcb & Hall & Hpayload).
  destruct Hwf as (Hid & Hcount & Hms).
  unfold encode_group. rewrite Hpayload. cbn [bind].
  eexists. split; [reflexivity |].
  unfold decode_group. rewrite read_write_envelope. cbn [bind].
  change (to_uint8 TAG_GROUP =? TAG_GROUP) with true. cbn [negb].
  unfold decode_group_payload. unfold HASH_SIZE in *.
  set (payload := id_ group ++ cb ++ concat bufs).
  rewrite (decode_varint_eq payload (id_ group) cb (concat bufs)
             (Z.of_nat (length (members group))))
    by first [assumption | lia | len | reflexivity].
  cbn [bind]. rewrite Nat2Z.id.
  replace payload with ((id_ group ++ cb) ++ concat bufs ++ [])
    by (unfold payload; rewrite app_nil_r, <- app_assoc; reflexivity).
  replace (0 + 32 + length cb)%nat with (length (id_ group ++ cb)) by len.
  rewrite (decode_members_eq _ bufs) by assumption. cbn [bind].
  rewrite (slice_eq _ [] (id_ group) (cb ++ concat bufs ++ []))
    by first [len | repeat rewrite <- app_assoc; reflexivity].
  destruct group; reflexivity.
Qed.

Lemma group_roundtrip_witness :
  exists buf,
    encode_group
      {| id_ := zeros 32;
         members := [ {| pubkey := zeros 32; encrypted_dek := [1; 2; 3];
                         role := role_admin |} ] |} = OK buf /\
    decode_group buf
    = OK {| id_ := zeros 32;
            members := [ {| pubkey := zeros 32; encrypted_dek := [1; 2; 3];
                            role := role_admin |} ] |}.
Proof.
  apply group_roundtrip.
  split; [reflexivity |]. split; [reflexivity |].
  constructor; [| constructor]. split; reflexivity.
Defined.

(* ===================================================================== *)
(** * More properties: codec/smt.ts *)
(* ===================================================================== *)

Lemma byte_bit_read (v : Z) (k : nat) :
  is_byte v -> (k < 8)%nat ->
  (js_and (js_shr v (Z.of_nat k)) 1 =? 1) = Z.testbit v (Z.of_nat k).
Proof.
  intros Hv Hk.
  pose proof (forall_range
    (fun v => forallb (fun k => Bool.eqb (js_and (js_shr v k) 1 =? 1) (Z.testbit v k))
                      (map Z.of_nat (seq 0 8))) 256) as H.
  specialize (H eq_refl v Hv). rewrite forallb_forall in H.
  apply Bool.eqb_prop. apply H. apply in_map. apply in_seq. lia.
Qed.

Lemma byte_bit_set (v : Z) (k j : nat) :
  is_byte v -> (k < 8)%nat -> (j < 8)%nat ->
  is_byte (to_uint8 (js_or v (js_shr 0x80 (Z.of_nat k)))) /\
  Z.testbit (to_uint8 (js_or v (js_shr 0x80 (Z.of_nat k)))) (Z.of_nat j)
  = Z.testbit v (Z.of_nat j) || (j =? 7 - k)%nat.
Proof.
  intros Hv Hk Hj.
  pose proof (forall_range
    (fun v =>
       forallb (fun k =>
         let w := to_uint8 (js_or v (js_shr 0x80 (Z.of_nat k))) in
         (0 <=? w) && (w <? 256) &&
         forallb (fun j => Bool.eqb (Z.testbit w (Z.of_nat j))
                                    (Z.testbit v (Z.of_nat j) || (j =? 7 - k)%nat))
                 (seq 0 8))
         (seq 0 8)) 256) as H.
  specialize (H eq_refl v Hv). rewrite forallb_forall in H.
  specialize (H k). cbv zeta in H.
  rewrite !andb_true_iff, forallb_forall in H.
  destruct H as ((Hlo & Hhi) & Hbits); [apply in_seq; lia |].
  split; [unfold is_byte; lia |].
  apply Bool.eqb_prop. apply Hbits. apply in_seq. lia.
Qed.

Lemma nth_store (buf : bytes) (i j : nat) (v : Z) :
  (i < length buf)%nat ->
  nth j (store buf i v) 0 = if (j =? i)%nat then to_uint8 v else nth j buf 0.
Proof.
  intros Hi. destruct (store_split buf i v Hi) as (Hbuf & ->).
  destruct (Nat.eqb_spec j i) as [-> | Hne].
  - rewrite app_nth2 by (rewrite length_firstn; lia).
    rewrite length_firstn. replace (i - Nat.min i (length buf))%nat with 0%nat by lia.
    reflexivity.
  - rewrite Hbuf at 3.
    assert (Hl : length (firstn i buf) = i) by (rewrite length_firstn; lia).
    destruct (Nat.lt_ge_cases j i).
    + rewrite !app_nth1 by lia. reflexivity.
    + rewrite !app_nth2 by lia. rewrite Hl.
      destruct (j - i)%nat eqn:E; [lia | reflexivity].
Qed.

Lemma Forall_nth_byte (buf : bytes) (i : nat) :
  Forall is_byte buf -> is_byte (nth i buf 0).
Proof.
  intros H. destruct (Nat.lt_ge_cases i (length buf)).
  - rewrite Forall_forall in H. apply H. apply nth_In. assumption.
  - rewrite nth_overflow by assumption. unfold is_byte. lia.
Qed.

(** One turn of the loop of [pack_bits] sets bit [i] and no other. *)
Lemma bit_at_store (buf : bytes) (i p : nat) :
  Forall is_byte buf -> (i / 8 < length buf)%nat ->
  bit_at (store buf (i / 8)
                (js_or (nth (i / 8) buf 0) (js_shr 0x80 (Z.of_nat (i mod 8))))) p
  = bit_at buf p || (p =? i)%nat.
Proof.
  intros Hb Hi. unfold bit_at. rewrite nth_store by assumption.
  pose proof (Nat.div_mod_eq p 8) as Hp. pose proof (Nat.div_mod_eq i 8) as Hi8.
  pose proof (Nat.mod_upper_bound p 8) as Hpm.
  pose proof (Nat.mod_upper_bound i 8) as Him.
  destruct (Nat.eqb_spec (p / 8) (i / 8)) as [Heq | Hne].
  - destruct (byte_bit_set (nth (i / 8) buf 0) (i mod 8) (7 - p mod 8))
      as (_ & Hbit); [apply Forall_nth_byte; assumption | lia | lia |].
    rewrite Hbit, Heq. f_equal.
    destruct (Nat.eqb_spec (7 - p mod 8) (7 - i mod 8));
      destruct (Nat.eqb_spec p i); try reflexivity; lia.
  - destruct (Nat.eqb_spec p i) as [-> | _]; [congruence |].
    rewrite orb_false_r. reflexivity.
Qed.

Lemma pack_bits_loop_spec (bits : list bool) :
  forall (i : nat) (buf : bytes),
    Forall is_byte buf -> (i + length bits <= 8 * length buf)%nat ->
    length (pack_bits_loop bits i buf) = length buf /\
    Forall is_byte (pack_bits_loop bits i buf) /\
    forall p,
      bit_at (pack_bits_loop bits i buf) p
      = bit_at buf p
        || ((i <=? p)%nat && (p <? i + length bits)%nat && nth (p - i) bits false).
Proof.
  induction bits as [|b bits IH]; intros i buf Hb Hlen.
  - simpl. repeat split; try assumption.
    intros p. destruct (p - i)%nat; rewrite andb_false_r, orb_false_r; reflexivity.
  - cbn [pack_bits_loop]. simpl length in Hlen.
    assert (Hi : (i / 8 < length buf)%nat).
    { apply Nat.Div0.div_lt_upper_bound. lia. }
    set (buf' := if b
                 then store buf (i / 8)
                        (js_or (nth (i / 8) buf 0) (js_shr 0x80 (Z.of_nat (i mod 8))))
                 else buf).
    assert (Hlen' : length buf' = length buf).
    { unfold buf'. destruct b; [apply store_length | reflexivity]. }
    assert (Hb' : Forall is_byte buf').
    { unfold buf'. destruct b; [| assumption].
      apply store_Forall; [assumption |].
      pose proof (Nat.mod_upper_bound i 8).
      destruct (byte_bit_set (nth (i / 8) buf 0) (i mod 8) 0) as (Hw & _);
        [apply Forall_nth_byte; assumption | lia | lia | exact Hw]. }
    assert (Hbit : forall p, bit_at buf' p = bit_at buf p || (b && (p =? i)%nat)).
    { intros p. unfold buf'. destruct b.
      - apply bit_at_store; assumption.
      - rewrite orb_false_r. reflexivity. }
    destruct (IH (S i) buf' Hb') as (Hl & Hf & Hbits); [lia |].
    repeat split; [lia | assumption |].
    intros p. rewrite Hbits, Hbit. simpl length.
    destruct (Nat.eqb_spec p i) as [-> | Hne].
    + destruct (Nat.leb_spec (S i) i); [lia |].
      destruct (Nat.leb_spec i i); [| lia].
      destruct (Nat.ltb_spec i (i + S (length bits))); [| lia].
      rewrite Nat.sub_diag. simpl. rewrite andb_true_r, orb_false_r. reflexivity.
    + rewrite andb_false_r, orb_false_r. f_equal.
      replace (S i + length bits)%nat with (i + S (length bits))%nat by lia.
      destruct (Nat.leb_spec (S i) p); destruct (Nat.leb_spec i p);
        try lia; try reflexivity.
      destruct (p <? i + S (length bits))%nat; [| reflexivity].
      simpl andb. replace (p - i)%nat with (S (p - S i)) by lia. reflexivity.
Qed.

Lemma bit_at_zeros (n p : nat) : bit_at (zeros n) p = false.
Proof.
  unfold bit_at, zeros.
  replace (nth (p / 8) (repeat 0 n) 0) with 0; [apply Z.testbit_0_l |].
  destruct (Nat.lt_ge_cases (p / 8) n).
  - symmetry. apply nth_repeat_lt. assumption.
  - symmetry. apply nth_overflow. rewrite repeat_length. assumption.
Qed.

Lemma pack_bits_spec (bits : list bool) :
  length (pack_bits bits) = ((length bits + 7) / 8)%nat /\
  Forall is_byte (pack_bits bits) /\
  forall p, (p < length bits)%nat -> bit_at (pack_bits bits) p = nth p bits false.
Proof.
  unfold pack_bits.
  pose proof (Nat.div_mod_eq (length bits + 7) 8) as Hd.
  pose proof (Nat.mod_upper_bound (length bits + 7) 8) as Hm.
  destruct (pack_bits_loop_spec bits 0 (zeros ((length bits + 7) / 8)))
    as (Hl & Hf & Hbits).
  - apply Forall_forall. intros x Hx. apply repeat_spec in Hx. subst.
    unfold is_byte. lia.
  - rewrite zeros_length. lia.
  - rewrite zeros_length in Hl. repeat split; try assumption.
    intros p Hp. rewrite Hbits, bit_at_zeros. simpl.
    destruct (Nat.ltb_spec p (length bits)); [| lia].
    rewrite Nat.sub_0_r. reflexivity.
Qed.

Lemma map_nth_seq {A : Type} (d : A) (l : list A) :
  map (fun p => nth p l d) (seq 0 (length l)) = l.
Proof.
  induction l as [|x l IH]; [reflexivity |].
  simpl. f_equal. rewrite <- seq_shift, map_map. exact IH.
Qed.

(** [unpack_bits] reads back what [pack_bits] wrote, wherever the packed
    bytes lie in the buffer. *)
Lemma unpack_pack_bits (pre post : bytes) (bits : list bool) :
  unpack_bits (pre ++ pack_bits bits ++ post) (length pre) (length bits) = bits.
Proof.
  destruct (pack_bits_spec bits) as (Hl & Hf & Hbits).
  rewrite <- (map_nth_seq false bits) at 3.
  unfold unpack_bits. apply map_ext_in. intros p Hp. apply in_seq in Hp.
  pose proof (Nat.div_mod_eq (length bits + 7) 8) as Hd.
  pose proof (Nat.mod_upper_bound (length bits + 7) 8) as Hm.
  assert (Hidx : (p / 8 < length (pack_bits bits))%nat).
  { apply Nat.Div0.div_lt_upper_bound. lia. }
  rewrite app_nth2 by lia.
  replace (length pre + p / 8 - length pre)%nat with (p / 8)%nat by lia.
  rewrite app_nth1 by assumption.
  pose proof (Nat.mod_upper_bound p 8).
  rewrite byte_bit_read by (try apply Forall_nth_byte; try assumption; lia).
  rewrite <- Hbits by lia. reflexivity.
Qed.

Lemma unpack_bits_eq (buf pre post : bytes) (bits : list bool) (off n : nat) :
  buf = pre ++ pack_bits bits ++ post -> off = length pre -> n = length bits ->
  unpack_bits buf off n = bits.
Proof. intros -> -> ->. apply unpack_pack_bits. Qed.

Lemma packed_bytes_length (bits : list bool) :
  Z.to_nat ((Z.of_nat (length bits) + 7) / 8) = length (pack_bits bits).
Proof.
  destruct (pack_bits_spec bits) as (-> & _).
  rewrite <- (Nat2Z.id ((length bits + 7) / 8)). f_equal.
  rewrite Nat2Z.inj_div, Nat2Z.inj_add. reflexivity.
Qed.

Lemma encode_entry_layout (e : SMTEntry) :
  wf_entry e ->
  exists b, encode_entry e = OK b /\ entry_bytes e b.
Proof.
  intros (Hv & Hbits).
  destruct (encode_varint_total (Z.of_nat (length (path_bits e))))
    as (bl & Henc & _); [lia |].
  exists (bl ++ pack_bits (path_bits e) ++ value e).
  split; [| exists bl; split; [assumption | reflexivity]].
  unfold encode_entry. rewrite Henc. cbn [bind].
  fill_first bl (length (pack_bits (path_bits e)) + 32)%nat.
  fill (pack_bits (path_bits e)) 32%nat.
  fill (value e) 0%nat.
  f_equal. cbn [zeros repeat]. rewrite app_nil_r.
  repeat rewrite <- app_assoc. reflexivity.
Qed.

Lemma encode_entries_layout (es : list SMTEntry) :
  Forall wf_entry es ->
  exists bufs, encode_entries es = OK bufs /\ Forall2 entry_bytes es bufs.
Proof.
  induction 1 as [|e es He Hes (bufs & Henc & Hall)].
  - exists []. split; [reflexivity | constructor].
  - destruct (encode_entry_layout e He) as (b & Hb & Heb).
    exists (b :: bufs). simpl. rewrite Hb, Henc. simpl.
    split; [reflexivity | constructor; assumption].
Qed.

Lemma decode_entries_eq (es : list SMTEntry) (bufs : list bytes) :
  Forall2 entry_bytes es bufs -> Forall wf_entry es ->
  forall pre post,
    decode_entries (length es) (pre ++ concat bufs ++ post) (length pre) = OK es.
Proof.
  induction 1 as [|e b es bufs Heb Hall IH]; intros Hwf pre post; [reflexivity |].
  inversion Hwf as [|? ? He Hes]; subst.
  destruct Heb as (bl & Henc & ->). destruct He as (Hv & Hbits).
  simpl length. simpl concat. cbn [decode_entries].
  set (bits := path_bits e) in *.
  set (buf := pre ++ ((bl ++ pack_bits bits ++ value e) ++ concat bufs) ++ post).
  unfold HASH_SIZE in *.
  rewrite (decode_varint_eq buf pre bl
             (pack_bits bits ++ value e ++ concat bufs ++ post)
             (Z.of_nat (length bits)))
    by first [assumption | lia | reflexivity
             | unfold buf; repeat rewrite <- app_assoc; reflexivity].
  cbn [bind]. rewrite Nat2Z.id, packed_bytes_length.
  rewrite (unpack_bits_eq buf (pre ++ bl) (value e ++ concat bufs ++ post) bits)
    by first [len | unfold buf; repeat rewrite <- app_assoc; reflexivity].
  rewrite (slice_eq buf (pre ++ bl ++ pack_bits bits) (value e) (concat bufs ++ post))
    by first [len | unfold buf; repeat rewrite <- app_assoc; reflexivity].
  replace buf with ((pre ++ bl ++ pack_bits bits ++ value e) ++ concat bufs ++ post)
    by (unfold buf; repeat rewrite <- app_assoc; reflexivity).
  replace (length pre + length bl + length (pack_bits bits) + 32)%nat
    with (length (pre ++ bl ++ pack_bits bits ++ value e)) by len.
  rewrite IH by assumption. cbn [bind].
  destruct e; reflexivity.
Qed.

Lemma encode_smt_payload_layout (smt : SMTData) :
  wf_smt smt ->
  exists count_bytes bufs,
    encode_varint (Z.of_nat (length (entries smt))) = OK count_bytes /\
    Forall2 entry_bytes (entries smt) bufs /\
    encode_smt_payload smt = OK (root smt ++ count_bytes ++ concat bufs).
Proof.
  intros (Hroot & Hcount & Hes).
  destruct (encode_varint_total (Z.of_nat (length (entries smt))))
    as (cb & Hcb & _); [lia |].
  destruct (encode_entries_layout _ Hes) as (bufs & Hbufs & Hall).
  exists cb, bufs. repeat split; try assumption.
  unfold encode_smt_payload. rewrite Hcb, Hbufs. cbn [bind].
  fill_first (root smt) (length cb + length (concat bufs))%nat.
  fill cb (length (concat bufs) + 0)%nat.
  replace (0 + HASH_SIZE + length cb)%nat with (length (root smt ++ cb)) by len.
  rewrite set_all_fill. f_equal. cbn [zeros repeat]. rewrite app_nil_r.
  repeat rewrite <- app_assoc. reflexivity.
Qed.

(** X4.  [decode_smt] inverts [encode_smt]: a tree with a 32-byte root and
    32-byte values is encoded, and decoding the buffer gives back the
    tree, every entry with its path, bit for bit whatever the number of
    bits, and its value. *)
Theorem smt_roundtrip (smt : SMTData) :
  wf_smt smt ->
  exists buf, encode_smt smt = OK buf /\ decode_smt buf = OK smt.
Proof.
  intros Hwf.
  destruct (encode_smt_payload_layout smt Hwf) as (cb & bufs & Hcb & Hall & Hpayload).
  destruct Hwf as (Hroot & Hcount & Hes).
  unfold encode_smt. rewrite Hpayload. cbn [bind].
  eexists. split; [reflexivity |].
  unfold decode_smt. rewrite read_write_envelope. cbn [bind].
  change (to_uint8 TAG_SMT =? TAG_SMT) with true. cbn [negb].
  unfold decode_smt_payload. unfold HASH_SIZE in *.
  set (payload := root smt ++ cb ++ concat bufs).
  rewrite (decode_varint_eq payload (root smt) cb (concat bufs)
             (Z.of_nat (length (entries smt))))
    by first [assumption | lia | len | reflexivity].
  cbn [bind]. rewrite Nat2Z.id.
  replace payload with ((root smt ++ cb) ++ concat bufs ++ [])
    by (unfold payload; rewrite app_nil_r, <- app_assoc; reflexivity).
  replace (0 + 32 + length cb)%nat with (length (root smt ++ cb)) by len.
  rewrite (decode_entries_eq _ bufs) by assumption. cbn [bind].
  rewrite (slice_eq _ [] (root smt) (cb ++ concat bufs ++ []))
    by first [len | repeat rewrite <- app_assoc; reflexivity].
  destruct smt; reflexivity.
Qed.

Lemma smt_roundtrip_witness :
  exists buf,
    encode_smt
      {| root := zeros 32;
         entries := [ {| path_bits := [true; false; true; true; false;
                                       false; true; false; true; true];
                         value := zeros 32 |} ] |} = OK buf /\
    decode_smt buf
    = OK {| root := zeros 32;
            entries := [ {| path_bits := [true; false; true; true; false;
                                          false; true; false; true; true];
                            value := zeros 32 |} ] |}.
Proof.
  apply smt_roundtrip.
  split; [reflexivity |]. split; [reflexivity |].
  constructor; [| constructor]. split; reflexivity.
Defined.

(* ===================================================================== *)
(** * More properties: compress/dictionary.ts, the substitution *)
(* ===================================================================== *)

Lemma starts_with_split (str : bytes) :
  forall rest, Dictionary.starts_with rest str = true ->
               rest = str ++ skipn (length str) rest.
Proof.
  induction str as [|c str IH]; intros rest H; [reflexivity |].
  destruct rest as [|b rest]; [discriminate |].
  simpl in H. apply andb_true_iff in H. destruct H as (Hb & Hrest).
  apply Z.eqb_eq in Hb. subst. simpl. f_equal. apply IH. assumption.
Qed.

Lemma first_match_index (rest : bytes) (strings : list bytes) :
  forall s0 s str,
    Dictionary.first_match rest strings s0 = Some (s, str) ->
    s0 <= s < s0 + Z.of_nat (length strings) /\
    nth_error strings (Z.to_nat (s - s0)) = Some str /\
    Dictionary.starts_with rest str = true.
Proof.
  induction strings as [|str0 strings IH]; intros s0 s str Hm; [discriminate |].
  simpl in Hm. destruct (Dictionary.starts_with rest str0) eqn:Hsw.
  - injection Hm as <- <-. rewrite Z.sub_diag. simpl length.
    repeat split; try assumption; lia.
  - apply IH in Hm. destruct Hm as (Hs & Hnth & Hstr). simpl length.
    repeat split; try assumption; try lia.
    replace (Z.to_nat (s - s0)) with (S (Z.to_nat (s - (s0 + 1)))) by lia.
    exact Hnth.
Qed.

Lemma substitution_loop_roundtrip (strings : list bytes) (fuel : nat) :
  (length strings <= 255)%nat ->
  Forall (fun str => str <> []) strings ->
  forall rest,
    (length rest <= fuel)%nat ->
    exists sub,
      Dictionary.apply_substitution_loop fuel rest strings = OK sub /\
      Dictionary.reverse_substitution sub strings = OK rest.
Proof.
  intros Hmax Hall. induction fuel as [|fuel IH]; intros rest Hlen.
  - destruct rest; [exists []; split; reflexivity | simpl in Hlen; lia].
  - destruct rest as [|b rest']; [exists []; split; reflexivity |].
    cbn [Dictionary.apply_substitution_loop].
    destruct (Dictionary.first_match (b :: rest') strings 0) as [(s, str)|] eqn:Hm.
    + destruct (first_match_nonempty _ _ _ _ _ Hall Hm) as (Hne & Hfit).
      destruct (first_match_index _ _ _ _ _ Hm) as (Hs & Hnth & Hsw).
      destruct (IH (skipn (length str) (b :: rest'))) as (out & Hout & Hrev).
      { rewrite length_skipn. destruct str; [congruence |]. simpl in *. lia. }
      rewrite Hout. cbn [bind]. eexists. split; [reflexivity |].
      cbn [Dictionary.reverse_substitution].
      change (Dictionary.ESCAPE_BYTE =? Dictionary.ESCAPE_BYTE) with true.
      cbv iota.
      assert (Hidx : to_uint8 (s + 1) = s + 1).
      { unfold to_uint8. apply Z.mod_small. lia. }
      rewrite Hidx.
      destruct (Z.eqb_spec (s + 1) 0); [lia |].
      replace (s + 1 - 1) with (s - 0) by lia. rewrite Hnth, Hrev. cbn [bind].
      f_equal. symmetry. apply starts_with_split. assumption.
    + destruct (IH rest') as (out & Hout & Hrev); [simpl in Hlen; lia |].
      rewrite Hout. cbn [bind].
      destruct (Z.eqb_spec b Dictionary.ESCAPE_BYTE) as [-> | Hb].
      * eexists. split; [reflexivity |].
        cbn [Dictionary.reverse_substitution].
        change (Dictionary.ESCAPE_BYTE =? Dictionary.ESCAPE_BYTE) with true.
        cbv iota. change (0 =? 0) with true. cbv iota.
        rewrite Hrev. reflexivity.
      * eexists. split; [reflexivity |].
        cbn [Dictionary.reverse_substitution].
        destruct (Z.eqb_spec b Dictionary.ESCAPE_BYTE); [contradiction |].
        rewrite Hrev. reflexivity.
Qed.

(** X5.  The substitution is reversible: with at most 255 strings, none of
    them empty, [apply_substitution] returns on every input, and
    [reverse_substitution] gives the input back from its output,
    zero bytes and matched strings included. *)
Theorem substitution_roundtrip (data : bytes) (strings : list bytes) :
  (length strings <= 255)%nat ->
  Forall (fun str => str <> []) strings ->
  exists sub,
    Dictionary.apply_substitution data strings = OK sub /\
    Dictionary.reverse_substitution sub strings = OK data.
Proof.
  intros Hmax Hall. apply substitution_loop_roundtrip; [assumption .. | lia].
Qed.

Lemma substitution_roundtrip_witness :
  exists sub,
    Dictionary.apply_substitution [97; 98; 0; 97; 98; 99] [[97; 98]; [99]] = OK sub /\
    Dictionary.reverse_substitution sub [[97; 98]; [99]] = OK [97; 98; 0; 97; 98; 99].
Proof.
  apply substitution_roundtrip.
  - simpl. lia.
  - repeat constructor; discriminate.
Defined.

(* ===================================================================== *)
(** * More properties: compress/dictionary.ts, serialization *)
(* ===================================================================== *)

Lemma serialize_string_layout (s : bytes) :
  Z.of_nat (length s) < 2 ^ 53 ->
  exists part, Dictionary.serialize_string s = OK part /\ string_bytes s part.
Proof.
  intros Hs.
  destruct (encode_varint_total (Z.of_nat (length s))) as (lb & Henc & _); [lia |].
  exists (lb ++ s). split; [| exists lb; split; [assumption | reflexivity]].
  unfold Dictionary.serialize_string. rewrite Henc. cbn [bind].
  fill_first lb (length s).
  fill s 0%nat.
  cbn [zeros repeat]. rewrite app_nil_r. reflexivity.
Qed.

Lemma serialize_strings_layout (strings : list bytes) :
  Forall (fun s => Z.of_nat (length s) < 2 ^ 53) strings ->
  exists parts,
    Dictionary.serialize_strings strings = OK parts /\
    Forall2 string_bytes strings parts.
Proof.
  induction 1 as [|s strings Hs Hstrings (parts & Henc & Hall)].
  - exists []. split; [reflexivity | constructor].
  - destruct (serialize_string_layout s Hs) as (part & Hpart & Hsb).
    exists (part :: parts). simpl. rewrite Hpart, Henc. simpl.
    split; [reflexivity | constructor; assumption].
Qed.

Lemma deserialize_strings_eq (strings : list bytes) (parts : list bytes) :
  Forall2 string_bytes strings parts ->
  Forall (fun s => Z.of_nat (length s) < 2 ^ 53) strings ->
  forall pre post,
    Dictionary.deserialize_strings (length strings) (pre ++ concat parts ++ post)
                                   (length pre)
    = OK strings.
Proof.
  induction 1 as [|s part strings parts Hsb Hall IH]; intros Hwf pre post;
    [reflexivity |].
  inversion Hwf as [|? ? Hs Hstrings]; subst.
  destruct Hsb as (lb & Henc & ->).
  simpl length. simpl concat. cbn [Dictionary.deserialize_strings].
  set (buf := pre ++ ((lb ++ s) ++ concat parts) ++ post).
  rewrite (decode_varint_eq buf pre lb (s ++ concat parts ++ post)
             (Z.of_nat (length s)))
    by first [assumption | lia | reflexivity
             | unfold buf; repeat rewrite <- app_assoc; reflexivity].
  cbn [bind]. rewrite Nat2Z.id.
  rewrite (slice_eq buf (pre ++ lb) s (concat parts ++ post))
    by first [len | unfold buf; repeat rewrite <- app_assoc; reflexivity].
  replace buf with ((pre ++ lb ++ s) ++ concat parts ++ post)
    by (unfold buf; repeat rewrite <- app_assoc; reflexivity).
  replace (length pre + length lb + length s)%nat
    with (length (pre ++ lb ++ s)) by len.
  rewrite IH by assumption. reflexivity.
Qed.

Lemma deserialize_strings_at (strings : list bytes) (parts : list bytes)
      (buf pre post : bytes) (off : nat) :
  Forall2 string_bytes strings parts ->
  Forall (fun s => Z.of_nat (length s) < 2 ^ 53) strings ->
  buf = pre ++ concat parts ++ post -> off = length pre ->
  Dictionary.deserialize_strings (length strings) buf off = OK strings.
Proof. intros Hall Hwf -> ->. apply deserialize_strings_eq; assumption. Qed.

Lemma dictionary_serialize_layout (d : Dictionary.t) :
  wf_dictionary d ->
  exists count_bytes parts,
    encode_varint (Z.of_nat (length (Dictionary.strings d))) = OK count_bytes /\
    Forall2 string_bytes (Dictionary.strings d) parts /\
    Dictionary.serialize d
    = OK ([1] ++ SymbolTree.lengths (Dictionary.tree d) ++ count_bytes
              ++ concat parts).
Proof.
  intros (Htree & Hmax & Hstrings).
  destruct (encode_varint_total (Z.of_nat (length (Dictionary.strings d))))
    as (cb & Hcb & _); [unfold Dictionary.MAX_STRINGS in Hmax; lia |].
  destruct (serialize_strings_layout _ Hstrings) as (parts & Hparts & Hall).
  exists cb, parts. repeat split; try assumption.
  unfold Dictionary.serialize, SymbolTree.serialize. rewrite Hcb, Hparts. cbn [bind].
  set (ls := SymbolTree.lengths (Dictionary.tree d)) in *.
  erewrite (store_fill_eq _ [] _ (256 + length cb + length (concat parts)));
    [| reflexivity | reflexivity].
  change (to_uint8 1) with 1.
  fill ls (length cb + length (concat parts))%nat.
  fill cb (length (concat parts) + 0)%nat.
  replace (1 + 256 + length cb)%nat with (length ((([] ++ [1]) ++ ls) ++ cb)) by len.
  rewrite set_all_fill. f_equal. cbn [zeros repeat]. rewrite app_nil_r.
  repeat rewrite <- app_assoc. reflexivity.
Qed.

(** X6.  [Dictionary.deserialize] inverts [serialize]: a dictionary of 256 code
    lengths and at most 255 strings is serialized, and deserializing the
    bytes gives back the same code lengths and the same strings in the
    same order. *)
Theorem dictionary_serialize_roundtrip (d : Dictionary.t) :
  wf_dictionary d ->
  exists buf,
    Dictionary.serialize d = OK buf /\ Dictionary.deserialize buf = OK d.
Proof.
  intros Hwf.
  destruct (dictionary_serialize_layout d Hwf) as (cb & parts & Hcb & Hall & Hser).
  destruct Hwf as (Htree & Hmax & Hstrings).
  rewrite Hser. eexists. split; [reflexivity |].
  set (ls := SymbolTree.lengths (Dictionary.tree d)) in *.
  set (buf := [1] ++ ls ++ cb ++ concat parts).
  unfold Dictionary.deserialize. cbn [nth_error buf app].
  fold buf.
  rewrite (slice_eq buf [1] ls (cb ++ concat parts)) by first [reflexivity | len].
  unfold SymbolTree.deserialize. rewrite Htree. cbn [Nat.ltb Nat.leb].
  replace (slice ls 0 256) with ls
    by (unfold slice; rewrite skipn_O, Nat.sub_0_r, <- Htree; symmetry; apply firstn_all).
  unfold SymbolTree.make. rewrite Htree. cbn [Nat.eqb negb bind].
  rewrite (decode_varint_eq buf ([1] ++ ls) cb (concat parts)
             (Z.of_nat (length (Dictionary.strings d))))
    by first [assumption | len | unfold Dictionary.MAX_STRINGS in Hmax; lia
             | unfold buf; repeat rewrite <- app_assoc; reflexivity].
  cbn [bind]. rewrite Nat2Z.id.
  rewrite (deserialize_strings_at _ parts buf (([1] ++ ls) ++ cb) [])
    by first [assumption | len
             | unfold buf; rewrite app_nil_r; repeat rewrite <- app_assoc; reflexivity].
  cbn [bind].
  unfold Dictionary.make.
  destruct (Nat.ltb_spec Dictionary.MAX_STRINGS (length (Dictionary.strings d)));
    [lia |].
  destruct d as [strs [lens]]; reflexivity.
Qed.

Lemma dictionary_serialize_roundtrip_witness :
  exists buf,
    Dictionary.serialize
      {| Dictionary.strings := [[97; 98; 99; 100]];
         Dictionary.tree := {| SymbolTree.lengths := zeros 256 |} |} = OK buf /\
    Dictionary.deserialize buf
    = OK {| Dictionary.strings := [[97; 98; 99; 100]];
            Dictionary.tree := {| SymbolTree.lengths := zeros 256 |} |}.
Proof.
  apply dictionary_serialize_roundtrip.
  split; [reflexivity |]. split; [unfold Dictionary.MAX_STRINGS; simpl; lia |].
  constructor; [reflexivity | constructor].
Defined.

(* ===================================================================== *)
(** * More properties: compress/pipeline.ts *)
(* ===================================================================== *)

(** What the negotiation adopts, method by method. *)
Lemma try_dictionary_methods (plaintext : bytes) (content_type : Z)
      (dict : option Dictionary.t) (best : bytes * Z) :
  try_dictionary plaintext content_type dict (plaintext, METHOD_NONE) = OK best ->
  best = (plaintext, METHOD_NONE) \/
  exists d out,
    dict = Some d /\ Dictionary.compress d plaintext = OK out /\
    best = (out, METHOD_DICTIONARY).
Proof.
  unfold try_dictionary. destruct dict as [d|]; [| intros H; left; congruence].
  destruct (_ || _); [| intros H; left; congruence].
  intros H. apply try_catch_cases in H. destruct H as [H | (_ & ->)]; [| left; reflexivity].
  apply bind_inv in H. destruct H as (out & Hc & H). cbn [fst] in H.
  destruct (length out <? length plaintext)%nat; injection H as <-.
  - right. exists d, out. repeat split; assumption.
  - left. reflexivity.
Qed.

Lemma try_fallback_methods (plaintext : bytes) (dict : option Dictionary.t)
      (fco : option CompressorFn) (best best' : bytes * Z) :
  try_fallback plaintext dict fco best = OK best' ->
  best' = best \/
  exists fc,
    fco = Some fc /\
    ((snd best = METHOD_DICTIONARY /\
      fc (fst best) = OK (fst best') /\ snd best' = METHOD_DICT_DEFLATE) \/
     (fc plaintext = OK (fst best') /\ snd best' = METHOD_DEFLATE)).
Proof.
  unfold try_fallback. destruct fco as [fc|]; [| intros H; left; congruence].
  set (after_first := if (snd best =? METHOD_DICTIONARY) && _ then _ else _).
  assert (Hfirst :
            (exists e, after_first = Err e) \/ after_first = OK best \/
            exists y, snd best = METHOD_DICTIONARY /\ fc (fst best) = OK y /\
                      after_first = OK (y, METHOD_DICT_DEFLATE)).
  { unfold after_first.
    destruct (Z.eqb_spec (snd best) METHOD_DICTIONARY) as [Hm |];
      [| right; left; reflexivity].
    destruct dict; [| right; left; reflexivity]. cbn [andb].
    destruct (fc (fst best)) as [y|e] eqn:Hfc; [| left; eexists; reflexivity].
    cbn [bind]. destruct (length y <? length (fst best))%nat.
    - right; right. exists y. repeat split; assumption.
    - right; left. reflexivity. }
  destruct Hfirst as [(e & ->) | [-> | (y & Hm & Hfc & ->)]].
  - intros H. apply try_catch_cases in H. destruct H as [H | (_ & ->)];
      [discriminate | left; reflexivity].
  - intros H. apply try_catch_cases in H. destruct H as [H | (_ & ->)];
      [| left; reflexivity].
    apply bind_inv in H. destruct H as (z & Hz & H).
    destruct (length z <? length (fst best))%nat; injection H as <-.
    + right. exists fc. split; [reflexivity |]. right. split; [exact Hz | reflexivity].
    + left. reflexivity.
  - intros H. apply try_catch_cases in H.
    assert (Hdd : exists fc0, Some fc = Some fc0 /\
              ((snd best = METHOD_DICTIONARY /\
                fc0 (fst best) = OK (fst (y, METHOD_DICT_DEFLATE)) /\
                snd (y, METHOD_DICT_DEFLATE) = METHOD_DICT_DEFLATE) \/
               (fc0 plaintext = OK (fst (y, METHOD_DICT_DEFLATE)) /\
                snd (y, METHOD_DICT_DEFLATE) = METHOD_DEFLATE))).
    { exists fc. split; [reflexivity |]. left. repeat split; assumption. }
    destruct H as [H | (_ & ->)]; [| right; exact Hdd].
    apply bind_inv in H. destruct H as (z & Hz & H). cbn [fst] in H.
    destruct (length z <? length y)%nat; injection H as <-; [| right; exact Hdd].
    right. exists fc. split; [reflexivity |]. right. split; [exact Hz | reflexivity].
Qed.

Lemma negotiate_methods (plaintext : bytes) (content_type : Z)
      (opts : PipelineOptions) (data : bytes) (method : Z) :
  negotiate plaintext content_type opts = OK (data, method) ->
  (method = METHOD_NONE /\ data = plaintext) \/
  ((length data < length plaintext)%nat /\
   ((method = METHOD_DICTIONARY /\
     exists d, dictionary opts = Some d /\
               Dictionary.compress d plaintext = OK data) \/
    (method = METHOD_DICT_DEFLATE /\
     exists d fc out,
       dictionary opts = Some d /\ fallback_compress opts = Some fc /\
       Dictionary.compress d plaintext = OK out /\ fc out = OK data) \/
    (method = METHOD_DEFLATE /\
     exists fc, fallback_compress opts = Some fc /\ fc plaintext = OK data))).
Proof.
  unfold negotiate. intros H.
  apply bind_inv in H. destruct H as (best1 & H1 & H).
  apply bind_inv in H. destruct H as (best2 & H2 & H).
  destruct (Nat.leb_spec (length plaintext) (length (fst best2))) as [| Hlt];
    [injection H as <- <-; left; split; reflexivity | injection H as ->].
  cbn [fst snd] in *.
  apply try_dictionary_methods in H1. apply try_fallback_methods in H2.
  destruct H2 as [<- | (fc & Hfc & [(Hm & Hy & Hm2) | (Hy & Hm2)])].
  - destruct H1 as [H1 | (d & out & Hd & Hc & H1)]; injection H1 as -> ->.
    + lia.
    + right. split; [exact Hlt |]. left. split; [reflexivity |].
      exists d. split; assumption.
  - destruct H1 as [-> | (d & out & Hd & Hc & ->)]; [discriminate Hm |].
    cbn [fst snd] in *.
    right. split; [exact Hlt |]. right; left. split; [exact Hm2 |].
    exists d, fc, out. repeat split; assumption.
  - right. split; [exact Hlt |]. right; right. split; [exact Hm2 |].
    exists fc. split; assumption.
Qed.

Lemma take_all (l : bytes) : take (Z.of_nat (length l)) l = l.
Proof.
  unfold take. rewrite Z.min_id, Nat2Z.id. apply firstn_all.
Qed.

(** What [decompress_blob] reads in a blob [compress_blob] wrote. *)
Lemma decompress_blob_written (opts : PipelineOptions) (method content_type : Z)
      (size : Z) (ob cb data : bytes) :
  is_byte method ->
  encode_varint size = OK ob -> size < 2 ^ 56 ->
  encode_varint (Z.of_nat (length data)) = OK cb ->
  Z.of_nat (length data) < 2 ^ 56 ->
  decompress_blob
    (write_envelope TAG_COMPRESSED_BLOB
       (method :: content_type :: ob ++ cb ++ data)) opts
  = match method with
    | 0x00 => OK data
    | 0x01 =>
        match fallback_decompress opts with
        | None => Err MissingCollaborator
        | Some fd => fd data size
        end
    | 0x02 =>
        match dictionary opts with
        | None => Err MissingCollaborator
        | Some d => Dictionary.decompress d data size
        end
    | 0x03 =>
        match fallback_decompress opts, dictionary opts with
        | None, _ => Err MissingCollaborator
        | _, None => Err MissingCollaborator
        | Some fd, Some d =>
            inflated <- fd data 0 ;;
            Dictionary.decompress d inflated size
        end
    | _ => Err BadMethod
    end.
Proof.
  intros Hm Hob Hsize Hcb Hlen.
  change (method :: content_type :: ob ++ cb ++ data)
    with ([method; content_type] ++ ob ++ cb ++ data).
  unfold decompress_blob. rewrite read_write_envelope. cbn [bind].
  change (to_uint8 TAG_COMPRESSED_BLOB =? TAG_COMPRESSED_BLOB) with true.
  cbn [negb].
  set (payload := [method; content_type] ++ ob ++ cb ++ data).
  rewrite (decode_varint_eq payload [method; content_type] ob (cb ++ data) size)
    by first [assumption | reflexivity].
  cbn [bind].
  rewrite (decode_varint_eq payload ([method; content_type] ++ ob) cb data
             (Z.of_nat (length data)))
    by first [assumption | len
             | unfold payload; rewrite <- ?app_assoc, ?app_nil_r; reflexivity].
  cbn [bind].
  replace (skipn (2 + length ob + length cb) payload) with data.
  2: { unfold payload.
       replace ([method; content_type] ++ ob ++ cb ++ data)
         with ((([method; content_type] ++ ob) ++ cb) ++ data)
         by (repeat rewrite <- app_assoc; reflexivity).
       rewrite skipn_app, skipn_all2 by len.
       replace (2 + length ob + length cb
                - length (([method; content_type] ++ ob) ++ cb))%nat
         with 0%nat by len.
       reflexivity. }
  rewrite take_all. reflexivity.
Qed.

(** X7.  The pipeline inverts itself as far as its collaborators do: when the
    dictionary, if there is one, decompresses what it compressed of the
    plaintext, and the injected decompressor, which must come with the
    injected compressor, undoes it, [decompress_blob] returns the
    plaintext from every blob [compress_blob] returns for it, whichever
    method the negotiation adopted.  With no option the plaintext is
    stored and read back. *)
Theorem pipeline_roundtrip_modulo_collaborators
        (plaintext : bytes) (opts : PipelineOptions) (blob : bytes) :
  Z.of_nat (length plaintext) < 2 ^ 53 ->
  (forall d out n,
      dictionary opts = Some d -> Dictionary.compress d plaintext = OK out ->
      Dictionary.decompress d out n = OK plaintext) ->
  (forall fc,
      fallback_compress opts = Some fc ->
      exists fd, fallback_decompress opts = Some fd /\
                 forall x y n, fc x = OK y -> fd y n = OK x) ->
  compress_blob plaintext opts = OK blob ->
  decompress_blob blob opts = OK plaintext.
Proof.
  intros Hsize Hdict Hfb H.
  unfold compress_blob, compress_blob_payload in H.
  apply bind_inv in H. destruct H as (payload & H & Hblob). injection Hblob as <-.
  apply bind_inv in H. destruct H as ((data, method) & Hneg & H).
  apply bind_inv in H. destruct H as (ob & Hob & H).
  apply bind_inv in H. destruct H as (cb & Hcb & H). injection H as <-.
  apply negotiate_methods in Hneg.
  assert (Hdata : (length data <= length plaintext)%nat).
  { destruct Hneg as [(_ & ->) | (Hlt & _)]; lia. }
  assert (Hmethod : is_byte (to_uint8 method) /\ to_uint8 method = method).
  { destruct Hneg as [(-> & _) | (_ & [(-> & _) | [(-> & _) | (-> & _)]])];
      split; try reflexivity; unfold is_byte; vm_compute; split; congruence. }
  destruct Hmethod as (Hbyte & Hm8).
  rewrite (decompress_blob_written opts (to_uint8 method) _
             (Z.of_nat (length plaintext)) ob cb data)
    by first [assumption | lia].
  rewrite Hm8.
  destruct Hneg as [(-> & ->) | (_ & [(-> & d & Hd & Hc)
                                     | [(-> & d & fc & out & Hd & Hfc & Hc & Hy)
                                       | (-> & fc & Hfc & Hy)]])].
  - reflexivity.
  - change METHOD_DICTIONARY with 2. cbv iota. rewrite Hd.
    eapply Hdict; eassumption.
  - change METHOD_DICT_DEFLATE with 3. cbv iota.
    destruct (Hfb fc Hfc) as (fd & -> & Hinv). rewrite Hd.
    rewrite (Hinv _ _ 0 Hy). cbn [bind]. eapply Hdict; eassumption.
  - change METHOD_DEFLATE with 1. cbv iota.
    destruct (Hfb fc Hfc) as (fd & -> & Hinv). apply Hinv. exact Hy.
Qed.

Lemma pipeline_roundtrip_modulo_collaborators_witness :
  decompress_blob [90; 75; 1; 16; 1; 3; 5; 4; 8; 1; 2; 3; 44; 180; 159; 118]
                  sevens_options
  = OK [7; 7; 1; 2; 3].
Proof.
  apply (pipeline_roundtrip_modulo_collaborators [7; 7; 1; 2; 3] sevens_options).
  - reflexivity.
  - intros d out n Hd. discriminate Hd.
  - intros fc Hfc. injection Hfc as <-. exists restore_sevens.
    split; [reflexivity |]. intros x y n Hy. unfold strip_sevens in Hy.
    destruct (Dictionary.starts_with x [7; 7]) eqn:Hsw; [| discriminate].
    injection Hy as <-. apply starts_with_split in Hsw.
    unfold restore_sevens. rewrite Hsw at 2. reflexivity.
  - vm_compute. reflexivity.
Defined.

(* ===================================================================== *)
(** * More properties: the decoders and the tag of the envelope *)
(* ===================================================================== *)

(** X8.  An envelope is decoded by the decoder of its tag only: each decoder
    rejects with [BadTag] the envelopes written under every other tag,
    whatever their payload. *)
Theorem decoders_reject_other_tags (tag : Z) (payload : bytes) :
  is_byte tag ->
  (tag <> TAG_FILE_NODE -> decode_file_node (write_envelope tag payload) = Err BadTag) /\
  (tag <> TAG_DIR_NODE -> decode_dir_node (write_envelope tag payload) = Err BadTag) /\
  (tag <> TAG_GROUP -> decode_group (write_envelope tag payload) = Err BadTag) /\
  (tag <> TAG_SMT -> decode_smt (write_envelope tag payload) = Err BadTag) /\
  (tag <> TAG_COMPRESSED_BLOB ->
   forall opts, decompress_blob (write_envelope tag payload) opts = Err BadTag) /\
  (tag <> TAG_FILE_NODE -> tag <> TAG_DIR_NODE ->
   decode_node (write_envelope tag payload) = Some (Err BadTag)).
Proof.
  intros Htag.
  assert (H8 : to_uint8 tag = tag) by (apply Z.mod_small; exact Htag).
  unfold decode_file_node, decode_dir_node, decode_group, decode_smt,
    decompress_blob, decode_node.
  rewrite has_magic_write_envelope, read_write_envelope, H8. cbn [bind].
  repeat split; intros Hne; try intros Hne2.
  - destruct (Z.eqb_spec tag TAG_FILE_NODE); [contradiction | reflexivity].
  - destruct (Z.eqb_spec tag TAG_DIR_NODE); [contradiction | reflexivity].
  - destruct (Z.eqb_spec tag TAG_GROUP); [contradiction | reflexivity].
  - destruct (Z.eqb_spec tag TAG_SMT); [contradiction | reflexivity].
  - destruct (Z.eqb_spec tag TAG_COMPRESSED_BLOB); [contradiction | reflexivity].
  - destruct (Z.eqb_spec tag TAG_FILE_NODE); [contradiction |].
    destruct (Z.eqb_spec tag TAG_DIR_NODE); [contradiction | reflexivity].
Qed.

Lemma decoders_reject_other_tags_witness :
  decode_file_node (write_envelope TAG_GROUP [1; 2; 3]) = Err BadTag /\
  decode_smt (write_envelope TAG_GROUP [1; 2; 3]) = Err BadTag /\
  decode_node (write_envelope TAG_GROUP [1; 2; 3]) = Some (Err BadTag).
Proof.
  destruct (decoders_reject_other_tags TAG_GROUP [1; 2; 3])
    as (Hfile & _ & _ & Hsmt & _ & Hnode).
  - unfold is_byte, TAG_GROUP. lia.
  - split; [apply Hfile; discriminate |].
    split; [apply Hsmt; discriminate | apply Hnode; discriminate].
Defined.

(* ===================================================================== *)
(** * More properties: the size of an encoded directory node *)
(* ===================================================================== *)

Lemma set_length (buf src out : bytes) (off : nat) :
  set buf src off = OK out -> length out = length buf.
Proof.
  unfold set.
  destruct (Nat.leb_spec (length src + off) (length buf)) as [Hfit |]; [| discriminate].
  intros H. injection H as <-.
  rewrite !length_app, length_firstn, length_skipn. lia.
Qed.

Lemma write_envelope_length (tag : Z) (payload : bytes) :
  length (write_envelope tag payload) = (8 + length payload)%nat.
Proof.
  unfold write_envelope. rewrite length_app, crc32_bytes_length, length_app.
  simpl. lia.
Qed.

(** X9.  An encoded directory node has a fixed size: 53 bytes without a group,
    85 bytes with one, whatever the lengths of the root and of the group
    id [encode_dir_node] is given, whenever it returns. *)
Theorem encode_dir_node_size (node : DirNode) (buf : bytes) :
  encode_dir_node node = OK buf ->
  length buf = match group_id node with Some _ => 85%nat | None => 53%nat end.
Proof.
  unfold encode_dir_node, encode_dir_node_payload. intros H.
  apply bind_inv in H. destruct H as (payload & H & Hbuf). injection Hbuf as <-.
  rewrite write_envelope_length.
  apply bind_inv in H. destruct H as (p1 & H1 & H).
  apply set_length in H1. rewrite zeros_length in H1.
  apply bind_inv in H. destruct H as ((p2, off) & H2 & Hrest).
  apply bind_inv in Hrest. destruct Hrest as (p3 & H3 & Hrest).
  apply bind_inv in Hrest. destruct Hrest as (p4 & H4 & Hrest).
  injection Hrest as <-.
  apply set_length in H3, H4.
  assert (Hp2 : length p2 = length p1).
  { destruct (group_id node).
    - apply bind_inv in H2. destruct H2 as (p & Hp & Heq). injection Heq as <- _.
      apply set_length in Hp. rewrite Hp. apply store_length.
    - injection H2 as <- _. apply store_length. }
  rewrite H4, H3, Hp2, H1. unfold HASH_SIZE, TIMESTAMP_SIZE.
  destruct (group_id node); reflexivity.
Qed.

Lemma encode_dir_node_size_witness :
  length (write_envelope TAG_DIR_NODE
            (zeros 32 ++ [0] ++ encode_timestamp (Num 5) ++ encode_timestamp (Num 6)))
  = 53%nat.
Proof.
  apply (encode_dir_node_size
           {| smt_root := zeros 32; group_id := None;
              dir_created := Num 5; dir_modified := Num 6 |}).
  vm_compute. reflexivity.
Defined.

(* ===================================================================== *)
(** * More properties: compress/symbol-tree.ts, [from_frequencies] *)
(* ===================================================================== *)

(** ** The queue keeps its leaves *)

Lemma insert_sorted_In {A : Type} (cmp : A -> A -> Z) (x y : A) (l : list A) :
  In y (insert_sorted cmp x l) <-> y = x \/ In y l.
Proof.
  induction l as [|z l IH]; simpl; [intuition congruence |].
  destruct (cmp z x <=? 0); simpl; rewrite ?IH; intuition congruence.
Qed.

Lemma sort_In {A : Type} (cmp : A -> A -> Z) (y : A) (l : list A) :
  In y (sort cmp l) <-> In y l.
Proof.
  unfold sort.
  assert (Hgen : forall acc,
            In y (fold_left (fun acc x => insert_sorted cmp x acc) l acc)
            <-> In y l \/ In y acc).
  { induction l as [|x l IH]; intros acc; simpl; [tauto |].
    rewrite IH, insert_sorted_In. intuition congruence. }
  rewrite Hgen. simpl. tauto.
Qed.

Lemma sort_length {A : Type} (cmp : A -> A -> Z) (l : list A) :
  length (sort cmp l) = length l.
Proof.
  unfold sort.
  assert (Hgen : forall acc,
            length (fold_left (fun acc x => insert_sorted cmp x acc) l acc)
            = (length l + length acc)%nat).
  { induction l as [|x l IH]; intros acc; simpl; [reflexivity |].
    rewrite IH, insert_sorted_length. lia. }
  rewrite Hgen. simpl. lia.
Qed.

Lemma queue_leaves_In (s : Z) (q : list SymbolTree.QNode) :
  In s (queue_leaves q) <-> exists n, In n q /\ In s (tree_leaves (SymbolTree.tree n)).
Proof. unfold queue_leaves. apply in_flat_map. Qed.

Lemma merge_step_leaves (s : Z) (q : list SymbolTree.QNode) :
  In s (queue_leaves (SymbolTree.merge_step q)) <-> In s (queue_leaves q).
Proof.
  destruct q as [|l [|r rest]]; [tauto | tauto |].
  unfold SymbolTree.merge_step. rewrite !queue_leaves_In. split.
  - intros (n & Hn & Hs). apply insert_sorted_In in Hn. destruct Hn as [-> | Hn].
    + simpl in Hs. apply in_app_iff in Hs. destruct Hs as [Hs | Hs].
      * exists l. split; [left; reflexivity | assumption].
      * exists r. split; [right; left; reflexivity | assumption].
    + exists n. split; [right; right; assumption | assumption].
  - intros (n & [<- | [<- | Hn]] & Hs).
    + eexists. split; [apply insert_sorted_In; left; reflexivity |].
      simpl. apply in_app_iff. left. assumption.
    + eexists. split; [apply insert_sorted_In; left; reflexivity |].
      simpl. apply in_app_iff. right. assumption.
    + exists n. split; [apply insert_sorted_In; right; assumption | assumption].
Qed.

Lemma merge_loop_leaves (s : Z) (fuel : nat) :
  forall q, In s (queue_leaves (SymbolTree.merge_loop fuel q)) <-> In s (queue_leaves q).
Proof.
  induction fuel as [|fuel IH]; intros q; [reflexivity |].
  destruct q as [|l [|r rest]]; [reflexivity | reflexivity |].
  cbn [SymbolTree.merge_loop]. rewrite IH. apply merge_step_leaves.
Qed.

(** After at least one merge the queue ends on a single tree, and that
    tree is a branch. *)
Lemma merge_loop_root (fuel : nat) :
  forall q, (2 <= length q <= S fuel)%nat ->
            exists f l r,
              SymbolTree.merge_loop fuel q
              = [ {| SymbolTree.freq := f; SymbolTree.tree := SymbolTree.Branch l r |} ].
Proof.
  induction fuel as [|fuel IH]; intros q Hq; [lia |].
  destruct q as [|a [|b rest]]; simpl in Hq; try lia.
  cbn [SymbolTree.merge_loop].
  destruct rest as [|c rest].
  - simpl. destruct fuel; eexists; eexists; eexists; reflexivity.
  - apply IH. unfold SymbolTree.merge_step. rewrite insert_sorted_length.
    simpl in *. lia.
Qed.

(** ** [walk] writes a length between 1 and 15 at every leaf *)

Lemma walk_nth (node : SymbolTree.TreeNode) :
  forall (depth : Z) (lengths : list Z) (i : nat),
    1 <= depth -> Forall code_length_ok lengths ->
    (~ In i (map Z.to_nat (tree_leaves node)) ->
     nth i (SymbolTree.walk node depth lengths) 0 = nth i lengths 0) /\
    (In i (map Z.to_nat (tree_leaves node)) -> (i < length lengths)%nat ->
     1 <= nth i (SymbolTree.walk node depth lengths) 0 <= 15).
Proof.
  induction node as [symbol | l IHl r IHr]; intros depth lengths i Hd Hok.
  - simpl. split.
    + intros Hni.
      destruct (Nat.lt_ge_cases (Z.to_nat symbol) (length lengths)) as [Hin | Hout].
      2: { unfold store. destruct (Nat.ltb_spec (Z.to_nat symbol) (length lengths));
           [lia | reflexivity]. }
      rewrite nth_store by assumption.
      destruct (Nat.eqb_spec i (Z.to_nat symbol)); [| reflexivity].
      exfalso. apply Hni. left. congruence.
    + intros [<- | []] Hi. rewrite nth_store by assumption.
      rewrite Nat.eqb_refl. unfold to_uint8. rewrite Z.mod_small by lia. lia.
  - simpl. rewrite map_app.
    destruct (walk_lengths l (depth + 1) lengths) as (Hok1 & Hlen1);
      [lia | assumption |].
    destruct (IHl (depth + 1) lengths i) as (Hl_out & Hl_in); [lia | assumption |].
    destruct (IHr (depth + 1) (SymbolTree.walk l (depth + 1) lengths) i)
      as (Hr_out & Hr_in); [lia | assumption |].
    split.
    + intros Hni. rewrite Hr_out, Hl_out; [reflexivity | |];
        intros Hin; apply Hni; apply in_app_iff; [left | right]; assumption.
    + intros Hin Hi.
      destruct (in_dec Nat.eq_dec i (map Z.to_nat (tree_leaves r))) as [Hr | Hr].
      * apply Hr_in; [assumption | rewrite Hlen1; assumption].
      * rewrite Hr_out by assumption. apply in_app_iff in Hin.
        destruct Hin as [Hin | Hin]; [| contradiction].
        apply Hl_in; assumption.
Qed.

Lemma walk_root_nth (l r : SymbolTree.TreeNode) (lengths : list Z) (i : nat) :
  Forall code_length_ok lengths ->
  (~ In i (map Z.to_nat (tree_leaves (SymbolTree.Branch l r))) ->
   nth i (SymbolTree.walk (SymbolTree.Branch l r) 0 lengths) 0 = nth i lengths 0) /\
  (In i (map Z.to_nat (tree_leaves (SymbolTree.Branch l r))) ->
   (i < length lengths)%nat ->
   1 <= nth i (SymbolTree.walk (SymbolTree.Branch l r) 0 lengths) 0 <= 15).
Proof.
  intros Hok. simpl. rewrite map_app.
  destruct (walk_lengths l 1 lengths) as (Hok1 & Hlen1); [lia | assumption |].
  destruct (walk_nth l 1 lengths i) as (Hl_out & Hl_in); [lia | assumption |].
  destruct (walk_nth r 1 (SymbolTree.walk l 1 lengths) i)
    as (Hr_out & Hr_in); [lia | assumption |].
  split.
  - intros Hni. rewrite Hr_out, Hl_out; [reflexivity | |];
      intros Hin; apply Hni; apply in_app_iff; [left | right]; assumption.
  - intros Hin Hi.
    destruct (in_dec Nat.eq_dec i (map Z.to_nat (tree_leaves r))) as [Hr | Hr].
    + apply Hr_in; [assumption | rewrite Hlen1; assumption].
    + rewrite Hr_out by assumption. apply in_app_iff in Hin.
      destruct Hin as [Hin | Hin]; [| contradiction].
      apply Hl_in; assumption.
Qed.

(** ** The active symbols *)

Lemma combine_seq_In (l : list Z) :
  forall (a n : nat) (x y : Z),
    In (x, y) (combine (map Z.of_nat (seq a n)) l) <->
    exists i, (i < n)%nat /\ x = Z.of_nat (a + i) /\ nth_error l i = Some y.
Proof.
  induction l as [|z l IH]; intros a n x y.
  - rewrite combine_nil. split; [intros [] |].
    intros (i & _ & _ & H). destruct i; discriminate.
  - destruct n as [|n]; [simpl; split; [intros [] | intros (i & Hi & _); lia] |].
    simpl. rewrite IH. split.
    + intros [H | (i & Hi & Hx & Hy)].
      * injection H as <- <-. exists 0%nat.
        repeat split; [lia | f_equal; lia].
      * exists (S i). repeat split; [lia | rewrite Hx; f_equal; lia | exact Hy].
    + intros (i & Hi & Hx & Hy). destruct i as [|i].
      * left. simpl in Hy. injection Hy as <-. rewrite Hx. do 2 f_equal. lia.
      * right. exists i. repeat split; [lia | rewrite Hx; f_equal; lia | exact Hy].
Qed.

Lemma active_symbols_In (frequencies : list Z) (s f : Z) :
  In (s, f) (SymbolTree.active_symbols frequencies) <->
  exists i, (i < 256)%nat /\ s = Z.of_nat i /\
            nth_error frequencies i = Some f /\ 0 < f.
Proof.
  unfold SymbolTree.active_symbols. rewrite filter_In, combine_seq_In. simpl snd.
  split.
  - intros ((i & Hi & Hs & Hf) & Hpos). apply Z.ltb_lt in Hpos.
    exists i. repeat split; assumption.
  - intros (i & Hi & Hs & Hf & Hpos). split; [| apply Z.ltb_lt; assumption].
    exists i. repeat split; assumption.
Qed.

Lemma active_symbols_nth (frequencies : list Z) (i : nat) :
  length frequencies = 256%nat -> (i < 256)%nat ->
  (0 < nth i frequencies 0 <->
   In (Z.of_nat i, nth i frequencies 0) (SymbolTree.active_symbols frequencies)) /\
  (forall s f, In (s, f) (SymbolTree.active_symbols frequencies) ->
               Z.to_nat s = i -> 0 < nth i frequencies 0).
Proof.
  intros Hlen Hi. split; [split |].
  - intros Hpos. apply active_symbols_In. exists i. repeat split; try assumption.
    apply nth_error_nth'. lia.
  - intros Hin. apply active_symbols_In in Hin.
    destruct Hin as (j & _ & Hj & _ & Hpos). exact Hpos.
  - intros s f Hin Hs. apply active_symbols_In in Hin.
    destruct Hin as (j & _ & -> & Hf & Hpos). rewrite Nat2Z.id in Hs. subst j.
    rewrite (nth_error_nth _ _ 0 Hf). exact Hpos.
Qed.

Lemma queue_leaves_init (active : list (Z * Z)) (s : Z) :
  In s (queue_leaves
          (map (fun a => {| SymbolTree.freq := snd a;
                            SymbolTree.tree := SymbolTree.Leaf (fst a) |}) active))
  <-> exists f, In (s, f) active.
Proof.
  rewrite queue_leaves_In. split.
  - intros (n & Hn & Hs). apply in_map_iff in Hn. destruct Hn as ((s', f) & <- & Hin).
    simpl in Hs. destruct Hs as [<- | []]. exists f. exact Hin.
  - intros (f & Hin). eexists. split; [apply in_map_iff; exists (s, f); split;
                                       [reflexivity | exact Hin] |].
    simpl. left. reflexivity.
Qed.

Lemma from_frequencies_active_lengths (frequencies : list Z) :
  length frequencies = 256%nat ->
  exists tr,
    SymbolTree.from_frequencies frequencies = OK tr /\
    forall i, (i < 256)%nat ->
      (nth i frequencies 0 <= 0 -> nth i (SymbolTree.lengths tr) 0 = 0) /\
      (0 < nth i frequencies 0 -> 1 <= nth i (SymbolTree.lengths tr) 0 <= 15).
Proof.
  intros Hlen.
  destruct (from_frequencies_max_length frequencies Hlen) as (tr & Htr & Hl & Hok).
  exists tr. split; [exact Htr |]. intros i Hi.
  destruct (active_symbols_nth frequencies i Hlen Hi) as (Hact & Hback).
  unfold SymbolTree.from_frequencies in Htr. rewrite Hlen in Htr.
  simpl negb in Htr. cbv iota in Htr.
  assert (Hmake : forall ls, SymbolTree.make ls = OK tr -> length ls = 256%nat ->
                             SymbolTree.lengths tr = ls).
  { intros ls Hm Hls. unfold SymbolTree.make in Hm. rewrite Hls in Hm.
    simpl in Hm. injection Hm as <-. reflexivity. }
  destruct (SymbolTree.active_symbols frequencies) as [|(s0, f0) [|a' active]] eqn:Ha.
  - (* no symbol *)
    rewrite (Hmake _ Htr (zeros_length 256)).
    assert (Hz : nth i (zeros 256) 0 = 0) by (apply nth_repeat_lt; exact Hi).
    split; [intros _; exact Hz |].
    intros Hpos. apply Hact in Hpos. destruct Hpos.
  - (* a single symbol *)
    rewrite (Hmake _ Htr) by (rewrite store_length; apply zeros_length).
    assert (Hs0 : 0 < nth (Z.to_nat s0) frequencies 0 /\ (Z.to_nat s0 < 256)%nat).
    { assert (Hin : In (s0, f0) (SymbolTree.active_symbols frequencies))
        by (rewrite Ha; left; reflexivity).
      apply active_symbols_In in Hin. destruct Hin as (j & Hj & -> & Hf & Hpos).
      rewrite Nat2Z.id. rewrite (nth_error_nth _ _ 0 Hf). split; assumption. }
    simpl fst. rewrite nth_store by (rewrite zeros_length; apply Hs0).
    destruct (Nat.eqb_spec i (Z.to_nat s0)) as [-> | Hne].
    + change (to_uint8 1) with 1. split; lia.
    + split; [intros _; apply nth_repeat_lt; exact Hi |].
      intros Hpos. apply Hact in Hpos. destruct Hpos as [Heq | []].
      injection Heq as Hs _. subst s0. rewrite Nat2Z.id in Hne. contradiction.
  - (* at least two symbols: the Huffman tree *)
    set (act := (s0, f0) :: a' :: active) in *.
    assert (Hwalk : Forall code_length_ok (SymbolTree.build_tree act (zeros 256)) /\
                    length (SymbolTree.build_tree act (zeros 256)) = 256%nat).
    { unfold SymbolTree.build_tree.
      destruct (SymbolTree.merge_loop _ _) as [|root q].
      - split; [apply zeros_code_lengths | apply zeros_length].
      - destruct (walk_lengths (SymbolTree.tree root) 0 (zeros 256)) as (Hw & Hwl);
          [lia | apply zeros_code_lengths |].
        split; [assumption | rewrite Hwl; apply zeros_length]. }
    destruct Hwalk as (Hwok & Hbt).
    rewrite clamp_lengths_idle in Htr
      by (eapply Forall_impl; [| exact Hwok]; unfold code_length_ok; intros; lia).
    rewrite (Hmake _ Htr Hbt).
    unfold SymbolTree.build_tree.
    set (q0 := map (fun a => {| SymbolTree.freq := snd a;
                                SymbolTree.tree := SymbolTree.Leaf (fst a) |}) act).
    set (q1 := sort (fun a b => SymbolTree.freq a - SymbolTree.freq b) q0).
    assert (Hq1 : length q1 = length act).
    { unfold q1. rewrite sort_length. unfold q0. apply length_map. }
    destruct (merge_loop_root (length q1) q1) as (f & l & r & Hroot);
      [rewrite Hq1; simpl; lia |].
    rewrite Hroot. cbn [SymbolTree.tree].
    assert (Hleaves : forall s, In s (tree_leaves (SymbolTree.Branch l r))
                                <-> exists f', In (s, f') act).
    { intros s. rewrite <- queue_leaves_init. fold q0.
      assert (Hsort : In s (queue_leaves q1) <-> In s (queue_leaves q0)).
      { assert (Hmem : forall n, In n q1 <-> In n q0) by (intros n; apply sort_In).
        rewrite !queue_leaves_In. split; intros (n & Hn & Hs); exists n;
          (split; [apply Hmem; exact Hn | exact Hs]). }
      rewrite <- Hsort, <- (merge_loop_leaves s (length q1) q1), Hroot.
      unfold queue_leaves. simpl. rewrite app_nil_r. reflexivity. }
    destruct (walk_root_nth l r (zeros 256) i (zeros_code_lengths 256))
      as (Hout & Hin).
    split.
    + intros Hzero. rewrite Hout; [apply nth_repeat_lt; exact Hi |].
      intros Hi_in. apply in_map_iff in Hi_in. destruct Hi_in as (s & Hs & Hsl).
      apply Hleaves in Hsl. destruct Hsl as (f' & Hsf).
      pose proof (Hback s f' Hsf Hs). lia.
    + intros Hpos. apply Hin; [| rewrite zeros_length; exact Hi].
      apply in_map_iff. exists (Z.of_nat i). split; [apply Nat2Z.id |].
      apply Hleaves. exists (nth i frequencies 0). apply Hact. exact Hpos.
Qed.

(** X10.  [from_frequencies] gives a code to the symbols that occur and to no
    other: on every table of 256 frequencies it returns a tree in which a
    symbol of frequency zero has code length 0 and a symbol of non-zero
    frequency has a code length between 1 and 15; this covers the tables
    with no symbol or a single one. *)
Theorem from_frequencies_codes_what_occurs (frequencies : list Z) :
  length frequencies = 256%nat ->
  exists tr,
    SymbolTree.from_frequencies frequencies = OK tr /\
    forall i, (i < 256)%nat ->
      (nth i frequencies 0 <= 0 -> nth i (SymbolTree.lengths tr) 0 = 0) /\
      (0 < nth i frequencies 0 -> 1 <= nth i (SymbolTree.lengths tr) 0 <= 15).
Proof. apply from_frequencies_active_lengths. Qed.

Lemma from_frequencies_codes_what_occurs_witness :
  exists tr,
    SymbolTree.from_frequencies (zeros 97 ++ [5; 0; 3; 1] ++ zeros 155) = OK tr /\
    forall i, (i < 256)%nat ->
      (nth i (zeros 97 ++ [5; 0; 3; 1] ++ zeros 155) 0 <= 0 ->
       nth i (SymbolTree.lengths tr) 0 = 0) /\
      (0 < nth i (zeros 97 ++ [5; 0; 3; 1] ++ zeros 155) 0 ->
       1 <= nth i (SymbolTree.lengths tr) 0 <= 15).
Proof.
  apply (from_frequencies_codes_what_occurs (zeros 97 ++ [5; 0; 3; 1] ++ zeros 155)).
  reflexivity.
Defined.

(* ===================================================================== *)
(** * More properties: compress/symbol-tree.ts, the canonical code *)
(* ===================================================================== *)

(** ** Sorting *)

Lemma insert_sorted_Permutation {A : Type} (cmp : A -> A -> Z) (x : A) (l : list A) :
  Permutation (insert_sorted cmp x l) (x :: l).
Proof.
  induction l as [|y l IH]; simpl; [reflexivity |].
  destruct (cmp y x <=? 0); [| reflexivity].
  rewrite IH. apply perm_swap.
Qed.

Lemma sort_Permutation {A : Type} (cmp : A -> A -> Z) (l : list A) :
  Permutation (sort cmp l) l.
Proof.
  unfold sort.
  assert (Hgen : forall acc,
            Permutation (fold_left (fun acc x => insert_sorted cmp x acc) l acc)
                        (l ++ acc)).
  { induction l as [|x l IH]; intros acc; simpl; [reflexivity |].
    rewrite IH, insert_sorted_Permutation. symmetry. apply Permutation_middle. }
  rewrite Hgen. rewrite app_nil_r. reflexivity.
Qed.

(** What [insert_sorted] needs of the comparison to keep a list ordered
    by [R]. *)
Lemma insert_sorted_sorted {A : Type} (cmp : A -> A -> Z) (R : A -> A -> Prop)
      (x : A) (l : list A) :
  (forall a b, cmp a b <= 0 -> R a b) ->
  (forall a b, 0 < cmp a b -> R b a) ->
  (forall a b c, R a b -> R b c -> R a c) ->
  ForallOrdPairs R l -> ForallOrdPairs R (insert_sorted cmp x l).
Proof.
  intros Hle Hgt Htrans Hs. induction Hs as [|y l Hy Hs IH]; simpl.
  - constructor; constructor.
  - destruct (Z.leb_spec (cmp y x) 0) as [Hc | Hc].
    + constructor; [| exact IH].
      apply Forall_forall. intros z Hz.
      apply (Permutation_in _ (insert_sorted_Permutation cmp x l)) in Hz.
      destruct Hz as [<- | Hz]; [apply Hle; exact Hc |].
      rewrite Forall_forall in Hy. apply Hy. exact Hz.
    + constructor; [| constructor; assumption].
      constructor; [apply Hgt; exact Hc |].
      eapply Forall_impl; [| exact Hy]. intros z Hz.
      eapply Htrans; [apply Hgt; exact Hc | exact Hz].
Qed.

Lemma sort_sorted {A : Type} (cmp : A -> A -> Z) (R : A -> A -> Prop) (l : list A) :
  (forall a b, cmp a b <= 0 -> R a b) ->
  (forall a b, 0 < cmp a b -> R b a) ->
  (forall a b c, R a b -> R b c -> R a c) ->
  ForallOrdPairs R (sort cmp l).
Proof.
  intros Hle Hgt Htrans. unfold sort.
  assert (Hgen : forall acc, ForallOrdPairs R acc ->
            ForallOrdPairs R (fold_left (fun acc x => insert_sorted cmp x acc) l acc)).
  { induction l as [|x l IH]; intros acc Hacc; simpl; [exact Hacc |].
    apply IH. apply insert_sorted_sorted; assumption. }
  apply Hgen. constructor.
Qed.

(** ** The symbols that have a code *)

Lemma indexed_In (l : list Z) (s len : Z) :
  In (s, len) (combine (map Z.of_nat (seq 0 256)) l) <->
  exists i, (i < 256)%nat /\ s = Z.of_nat i /\ nth_error l i = Some len.
Proof. rewrite combine_seq_In. simpl. reflexivity. Qed.

Lemma indexed_NoDup (l : list Z) :
  forall a n, NoDup (map fst (combine (map Z.of_nat (seq a n)) l)).
Proof.
  induction l as [|x l IH]; intros a n.
  - rewrite combine_nil. constructor.
  - destruct n as [|n]; [constructor |]. simpl. constructor; [| apply IH].
    intros Hin. apply in_map_iff in Hin. destruct Hin as ((s, len) & Hs & Hin).
    simpl in Hs. subst s. apply combine_seq_In in Hin.
    destruct Hin as (i & _ & Heq & _). lia.
Qed.

Lemma filter_keeps_distinct_keys {A B : Type} (key : A -> B) (keep : A -> bool)
  (entries : list A) (Hnd : NoDup (map key entries)) :
  NoDup (map key (filter keep entries)).
Proof.
  induction entries as [|x l IH]; simpl in *; [constructor |].
  apply NoDup_cons_iff in Hnd. destruct Hnd as [Hx Hl].
  destruct (keep x); simpl; [| exact (IH Hl)].
  constructor; [| exact (IH Hl)].
  intros Hin. apply Hx. apply in_map_iff in Hin.
  destruct Hin as (y & Hy & Hin). apply filter_In in Hin.
  apply in_map_iff. exists y. split; [exact Hy | apply Hin].
Qed.

Lemma coded_symbols_In (lengths : list Z) (s len : Z) :
  In (s, len) (coded_symbols lengths) <->
  exists i, (i < 256)%nat /\ s = Z.of_nat i /\
            nth_error lengths i = Some len /\ 0 < len.
Proof.
  unfold coded_symbols. rewrite sort_In, filter_In, indexed_In. simpl snd.
  rewrite Z.ltb_lt. split.
  - intros ((i & Hi & Hs & Hl) & Hpos). exists i. repeat split; assumption.
  - intros (i & Hi & Hs & Hl & Hpos). split; [| exact Hpos].
    exists i. repeat split; assumption.
Qed.

Lemma coded_symbols_NoDup (lengths : list Z) :
  NoDup (map fst (coded_symbols lengths)).
Proof.
  unfold coded_symbols.
  eapply Permutation_NoDup;
    [apply Permutation_map; symmetry; apply sort_Permutation |].
  apply filter_keeps_distinct_keys. apply indexed_NoDup.
Qed.

Lemma coded_symbols_sorted (lengths : list Z) :
  ForallOrdPairs (fun a b => snd a <= snd b) (coded_symbols lengths).
Proof.
  unfold coded_symbols. apply sort_sorted.
  - intros a b. unfold length_order.
    destruct (Z.eqb_spec (snd a - snd b) 0); lia.
  - intros a b. unfold length_order.
    destruct (Z.eqb_spec (snd a - snd b) 0); lia.
  - intros a b c. lia.
Qed.

Lemma code_weight_Permutation (l l' : list (Z * Z)) :
  Permutation l l' -> code_weight l = code_weight l'.
Proof.
  induction 1; simpl; try lia.
Qed.

Lemma code_weight_indexed (l : list Z) :
  forall a n, (length l <= n)%nat ->
    code_weight (filter (fun s => 0 <? snd s) (combine (map Z.of_nat (seq a n)) l))
    = kraft_weight l.
Proof.
  induction l as [|x l IH]; intros a n Hn.
  - rewrite combine_nil. reflexivity.
  - destruct n as [|n]; [simpl in Hn; lia |]. simpl.
    destruct (0 <? x); simpl; rewrite IH by (simpl in Hn; lia); reflexivity.
Qed.

Lemma coded_symbols_weight (lengths : list Z) :
  (length lengths <= 256)%nat ->
  code_weight (coded_symbols lengths) = kraft_weight lengths.
Proof.
  intros Hlen. unfold coded_symbols.
  rewrite (code_weight_Permutation _ _ (sort_Permutation _ _)).
  apply code_weight_indexed. exact Hlen.
Qed.

(** ** The codes *)

Lemma pow2_ge_1 (n : Z) : 0 <= n -> 1 <= 2 ^ n.
Proof. intros Hn. pose proof (Z.pow_pos_nonneg 2 n). lia. Qed.

Lemma js_shl_small (x n : Z) :
  0 <= x -> 0 <= n < 32 -> x * 2 ^ n < 2 ^ 31 -> js_shl x n = x * 2 ^ n.
Proof.
  intros Hx Hn Hlt.
  assert (Hp : 1 <= 2 ^ n) by (apply pow2_ge_1; lia).
  assert (Hx31 : x < 2 ^ 31) by nia.
  unfold js_shl, to_int32, to_uint32.
  rewrite (Z.mod_small x) by lia.
  destruct (Z.ltb_spec x (2 ^ 31)); [| lia].
  rewrite (Z.mod_small n (2 ^ 32)) by lia. rewrite (Z.mod_small n 32) by lia.
  rewrite Z.shiftl_mul_pow2 by lia.
  rewrite (Z.mod_small (x * 2 ^ n)) by lia.
  destruct (Z.ltb_spec (x * 2 ^ n) (2 ^ 31)); [reflexivity | lia].
Qed.

Lemma code_weight_nonneg (symbols : list (Z * Z)) : 0 <= code_weight symbols.
Proof.
  induction symbols as [|s rest IH]; simpl; [lia |].
  pose proof (Z.pow_nonneg 2 (15 - snd s)). lia.
Qed.

Lemma code_weight_cons (s : Z * Z) (rest : list (Z * Z)) :
  code_weight (s :: rest) = 2 ^ (15 - snd s) + code_weight rest.
Proof. reflexivity. Qed.

(** Under Kraft's inequality the code of a symbol, taken as a block of
    15-bit words, starts where the block of the symbol before it ends:
    the blocks follow each other and fit in [2^15] words. *)
Lemma canonical_codes_chain (symbols : list (Z * Z)) :
  forall code prev K,
    ((prev = 0 /\ code = 0 /\ K = 0) \/
     (1 <= prev <= 15 /\ 0 <= code /\ (code + 1) * 2 ^ (15 - prev) = K)) ->
    Forall (fun s => prev <= snd s /\ 1 <= snd s <= 15) symbols ->
    ForallOrdPairs (fun a b => snd a <= snd b) symbols ->
    K + code_weight symbols <= 2 ^ 15 ->
    Forall2 (fun s e => fst e = fst s /\ snd (snd e) = snd s)
            symbols (canonical_codes symbols code prev) /\
    Forall (fun e => 0 <= fst (snd e) /\ K <= code_lo e /\
                     code_hi e <= K + code_weight symbols)
           (canonical_codes symbols code prev) /\
    ForallOrdPairs (fun e e' => code_hi e <= code_lo e')
                   (canonical_codes symbols code prev).
Proof.
  induction symbols as [|s rest IH]; intros code prev K Hstate Hall Hsorted Hkraft.
  - simpl. repeat split; constructor.
  - inversion Hall as [|? ? (Hprev & Hlen) Hrest]; subst.
    inversion Hsorted as [|? ? Hhead Htail]; subst.
    cbn [canonical_codes]. rewrite code_weight_cons in *.
    set (len := snd s) in *.
    set (code' := if 0 <? prev then js_shl (code + 1) (len - prev) else code).
    pose proof (code_weight_nonneg rest) as Hw.
    assert (Hb : 1 <= 2 ^ (15 - len)) by (apply pow2_ge_1; lia).
    assert (Hcode' : 0 <= code' /\ code' * 2 ^ (15 - len) = K).
    { unfold code'. destruct Hstate as [(-> & -> & ->) | (Hp & Hc & HK)].
      - simpl. lia.
      - destruct (Z.ltb_spec 0 prev); [| lia].
        assert (Hpow : 2 ^ (15 - prev) = 2 ^ (len - prev) * 2 ^ (15 - len)).
        { rewrite <- Z.pow_add_r by lia. f_equal. lia. }
        assert (Ha : 1 <= 2 ^ (len - prev)) by (apply pow2_ge_1; lia).
        assert (Ha14 : 2 ^ (len - prev) <= 2 ^ 14)
          by (apply Z.pow_le_mono_r; lia).
        rewrite js_shl_small; [| lia | lia |].
        + split; [nia |]. rewrite <- HK, Hpow. ring.
        + assert (code + 1 <= 2 ^ 15) by nia.
          change (2 ^ 31) with (2 ^ 16 * 2 ^ 15). change (2 ^ 14) with 16384 in Ha14.
          change (2 ^ 15) with 32768 in *. change (2 ^ 16) with 65536. nia. }
    destruct Hcode' as (Hc0 & Hlo).
    destruct (IH code' len (K + 2 ^ (15 - len))) as (Hf2 & Hf & Hord).
    { right. repeat split; lia. }
    { rewrite Forall_forall in *. intros x Hx. split; [apply Hhead | apply Hrest];
        exact Hx. }
    { exact Htail. }
    { lia. }
    split; [| split].
    + constructor; [split; reflexivity | exact Hf2].
    + constructor.
      * unfold code_lo, code_hi. cbn [fst snd]. fold len.
        repeat split; [lia | lia |]. rewrite Z.mul_add_distr_r, Hlo. lia.
      * eapply Forall_impl; [| exact Hf]. intros e (He0 & Hel & Heh).
        repeat split; lia.
    + constructor; [| exact Hord].
      eapply Forall_impl; [| exact Hf]. intros e (He0 & Hel & Heh).
      unfold code_hi at 1. cbn [fst snd]. fold len.
      rewrite Z.mul_add_distr_r, Hlo. lia.
Qed.

(** ** The encode table *)

Lemma nth_update {A : Type} (t : list A) (i j : nat) (x d : A) :
  (i < length t)%nat ->
  nth j (firstn i t ++ x :: skipn (S i) t) d = if (j =? i)%nat then x else nth j t d.
Proof.
  intros Hi.
  assert (Hl : length (firstn i t) = i) by (rewrite length_firstn; lia).
  destruct (Nat.eqb_spec j i) as [-> | Hne].
  - rewrite app_nth2 by lia. rewrite Hl, Nat.sub_diag. reflexivity.
  - rewrite <- (firstn_skipn i t) at 3.
    destruct (Nat.lt_ge_cases j i).
    + rewrite !app_nth1 by lia. reflexivity.
    + rewrite !app_nth2 by lia. rewrite Hl.
      destruct (j - i)%nat as [|k] eqn:E; [lia |]. cbn [nth].
      rewrite !nth_skipn. f_equal. lia.
Qed.

Lemma length_update {A : Type} (t : list A) (i : nat) (x : A) :
  (i < length t)%nat -> length (firstn i t ++ x :: skipn (S i) t) = length t.
Proof.
  intros Hi. rewrite length_app, length_firstn. cbn [length].
  rewrite length_skipn. lia.
Qed.

Lemma assign_codes_nth (symbols : list (Z * Z)) :
  forall code prev table,
    length table = 256%nat ->
    Forall (fun s => 0 <= fst s < 256) symbols ->
    NoDup (map fst symbols) ->
    (forall s c l, In (s, (c, l)) (canonical_codes symbols code prev) ->
                   nth (Z.to_nat s) (SymbolTree.assign_codes symbols code prev table)
                       (0, 0) = (c, l)) /\
    (forall i, ~ In i (map (fun s => Z.to_nat (fst s)) symbols) ->
               nth i (SymbolTree.assign_codes symbols code prev table) (0, 0)
               = nth i table (0, 0)).
Proof.
  induction symbols as [|s rest IH]; intros code prev table Hlen Hall Hnd.
  - simpl. split; [intros s c l [] | reflexivity].
  - inversion Hall as [|? ? Hs Hrest]; subst.
    inversion Hnd as [|? ? Hnotin Hnd']; subst.
    cbn [SymbolTree.assign_codes canonical_codes].
    set (code' := if 0 <? prev then js_shl (code + 1) (snd s - prev) else code).
    set (i0 := Z.to_nat (fst s)).
    set (table' := firstn i0 table ++ (code', snd s) :: skipn (S i0) table).
    assert (Hi0 : (i0 < length table)%nat) by (unfold i0; lia).
    assert (Hlen' : length table' = 256%nat)
      by (unfold table'; rewrite length_update; assumption).
    destruct (IH code' (snd s) table' Hlen' Hrest Hnd') as (Hin & Hout).
    assert (Hfresh : ~ In i0 (map (fun s => Z.to_nat (fst s)) rest)).
    { intros H. apply in_map_iff in H. destruct H as (s' & Heq & Hs').
      apply Hnotin. apply in_map_iff. exists s'. split; [| exact Hs'].
      rewrite Forall_forall in Hrest. specialize (Hrest s' Hs').
      unfold i0 in Heq. lia. }
    split.
    + intros s1 c l [Heq | Hin1].
      * injection Heq as <- <- <-. fold i0. rewrite Hout by exact Hfresh.
        unfold table'. rewrite nth_update by exact Hi0.
        rewrite Nat.eqb_refl. reflexivity.
      * apply Hin. exact Hin1.
    + intros i Hi. rewrite Hout.
      * unfold table'. rewrite nth_update by exact Hi0.
        destruct (Nat.eqb_spec i i0) as [-> | _]; [| reflexivity].
        exfalso. apply Hi. left. reflexivity.
      * intros H. apply Hi. right. exact H.
Qed.

(** ** The code book of a tree *)

Lemma build_encode_table_eq (tr : SymbolTree.t) :
  SymbolTree.build_encode_table tr
  = SymbolTree.assign_codes (coded_symbols (SymbolTree.lengths tr)) 0 0
                            (repeat (0, 0) 256).
Proof. reflexivity. Qed.

Lemma ForallOrdPairs_pair {A : Type} (R : A -> A -> Prop) (l : list A) (a b : A) :
  ForallOrdPairs R l -> In a l -> In b l -> a = b \/ R a b \/ R b a.
Proof.
  induction 1 as [|x l Hx Hl IH]; intros Ha Hb; [destruct Ha |].
  rewrite Forall_forall in Hx.
  destruct Ha as [<- | Ha], Hb as [<- | Hb].
  - left. reflexivity.
  - right. left. apply Hx. exact Hb.
  - right. right. apply Hx. exact Ha.
  - apply IH; assumption.
Qed.

Section CodeBook.

Variable lengths : list Z.
Hypothesis Hlen : length lengths = 256%nat.
Hypothesis Hok : Forall code_length_ok lengths.
Hypothesis Hkraft : kraft_weight lengths <= 2 ^ 15.

Lemma coded_symbols_range :
  Forall (fun s => 0 <= snd s /\ 1 <= snd s <= 15) (coded_symbols lengths) /\
  Forall (fun s => 0 <= fst s < 256) (coded_symbols lengths).
Proof.
  split; apply Forall_forall; intros (s, len) Hin; apply coded_symbols_In in Hin;
    destruct Hin as (i & Hi & -> & Hnth & Hpos); simpl; [| lia].
  apply nth_error_In in Hnth. rewrite Forall_forall in Hok.
  specialize (Hok len Hnth). unfold code_length_ok in Hok. lia.
Qed.

Lemma code_book_chain :
  Forall2 (fun s e => fst e = fst s /\ snd (snd e) = snd s)
          (coded_symbols lengths) (code_book lengths) /\
  Forall (fun e => 0 <= fst (snd e) /\ 0 <= code_lo e /\ code_hi e <= 2 ^ 15)
         (code_book lengths) /\
  ForallOrdPairs (fun e e' => code_hi e <= code_lo e') (code_book lengths).
Proof.
  destruct coded_symbols_range as (Hrange & _).
  destruct (canonical_codes_chain (coded_symbols lengths) 0 0 0) as (Hf2 & Hf & Hord).
  - left. repeat split; reflexivity.
  - exact Hrange.
  - apply coded_symbols_sorted.
  - rewrite coded_symbols_weight by lia. lia.
  - split; [exact Hf2 |]. split; [| exact Hord].
    eapply Forall_impl; [| exact Hf]. intros e (H0 & Hlo & Hhi).
    rewrite coded_symbols_weight in Hhi by lia. repeat split; lia.
Qed.

Lemma code_book_symbols :
  map fst (code_book lengths) = map fst (coded_symbols lengths).
Proof.
  destruct code_book_chain as (Hf2 & _). unfold code_book in *.
  induction Hf2 as [|s e ss es (He & _) _ IH]; [reflexivity |].
  simpl. rewrite He, IH. reflexivity.
Qed.

Lemma code_book_length (s c l : Z) :
  In (s, (c, l)) (code_book lengths) -> In (s, l) (coded_symbols lengths).
Proof.
  destruct code_book_chain as (Hf2 & _). unfold code_book in *.
  induction Hf2 as [|s' e ss es (He & Hl) _ IH]; [intros [] |].
  intros [Heq | Hin]; [left | right; apply IH; exact Hin].
  subst e. simpl in *. destruct s'; simpl in *. congruence.
Qed.

(** An entry of the code book: its symbol is a byte, its length is the
    one of the table and lies between 1 and 15, its code has that many
    bits, and the encode table holds it under the symbol. *)
Lemma code_book_entry (s c l : Z) :
  In (s, (c, l)) (code_book lengths) ->
  0 <= s < 256 /\ nth (Z.to_nat s) lengths 0 = l /\ 1 <= l <= 15 /\
  0 <= c < 2 ^ l /\
  nth (Z.to_nat s)
      (SymbolTree.assign_codes (coded_symbols lengths) 0 0 (repeat (0, 0) 256))
      (0, 0) = (c, l).
Proof.
  intros Hin.
  pose proof (code_book_length s c l Hin) as Hsl.
  destruct coded_symbols_range as (Hrange & Hsyms).
  pose proof Hsl as Hsl'. apply coded_symbols_In in Hsl'.
  destruct Hsl' as (i & Hi & -> & Hnth & Hpos).
  rewrite Forall_forall in Hrange. specialize (Hrange _ Hsl). simpl in Hrange.
  destruct code_book_chain as (_ & Hf & _).
  rewrite Forall_forall in Hf. specialize (Hf _ Hin).
  unfold code_lo, code_hi in Hf. cbn [fst snd] in Hf. destruct Hf as (Hc0 & _ & Hhi).
  rewrite Nat2Z.id. split; [lia |]. split; [apply nth_error_nth; exact Hnth |].
  split; [lia |]. split.
  - split; [exact Hc0 |].
    assert (Hpow : 2 ^ 15 = 2 ^ l * 2 ^ (15 - l)).
    { rewrite <- Z.pow_add_r by lia. f_equal. lia. }
    assert (Hb : 1 <= 2 ^ (15 - l)) by (apply pow2_ge_1; lia).
    rewrite Hpow in Hhi. nia.
  - destruct (assign_codes_nth (coded_symbols lengths) 0 0 (repeat (0, 0) 256))
      as (Htab & _);
      [apply repeat_length | exact Hsyms | apply coded_symbols_NoDup |].
    rewrite <- (Nat2Z.id i) at 1. apply Htab. exact Hin.
Qed.

(** The codes are prefix-free: two entries of which the blocks of 15-bit
    words meet are the same entry. *)
Lemma code_book_disjoint (e e' : Z * (Z * Z)) :
  In e (code_book lengths) -> In e' (code_book lengths) ->
  code_lo e < code_hi e' -> code_lo e' < code_hi e -> e = e'.
Proof.
  intros He He' H1 H2.
  destruct code_book_chain as (_ & _ & Hord).
  destruct (ForallOrdPairs_pair _ _ e e' Hord He He') as [Heq | [H | H]];
    [exact Heq | lia | lia].
Qed.

(** What the encode table holds under a symbol is, when its length is
    not zero, an entry of the code book. *)
Lemma encode_table_entry (i : nat) (c l : Z) :
  nth i (SymbolTree.assign_codes (coded_symbols lengths) 0 0 (repeat (0, 0) 256))
      (0, 0) = (c, l) ->
  l <> 0 ->
  In (Z.of_nat i, (c, l)) (code_book lengths).
Proof.
  intros Hnth Hl.
  destruct coded_symbols_range as (_ & Hsyms).
  destruct (assign_codes_nth (coded_symbols lengths) 0 0 (repeat (0, 0) 256))
    as (Htab & Hout);
    [apply repeat_length | exact Hsyms | apply coded_symbols_NoDup |].
  destruct (in_dec Nat.eq_dec i
              (map (fun s => Z.to_nat (fst s)) (coded_symbols lengths))) as [Hin | Hni].
  - apply in_map_iff in Hin. destruct Hin as ((s, len) & Hs & Hin). simpl in Hs.
    assert (Hs' : s = Z.of_nat i).
    { rewrite Forall_forall in Hsyms. specialize (Hsyms _ Hin). simpl in Hsyms. lia. }
    subst s.
    assert (Hbook : exists c', In (Z.of_nat i, (c', len)) (code_book lengths)).
    { destruct code_book_chain as (Hf2 & _). unfold code_book in *.
      clear - Hf2 Hin. induction Hf2 as [|s' e ss es (He & Hle) _ IH];
        [destruct Hin |].
      destruct Hin as [-> | Hin].
      - destruct e as (es', (ec, el)). simpl in *. subst. exists ec. left. reflexivity.
      - destruct (IH Hin) as (c' & Hc'). exists c'. right. exact Hc'. }
    destruct Hbook as (c' & Hc').
    pose proof (Htab _ _ _ Hc') as Hval. rewrite Nat2Z.id in Hval.
    rewrite Hnth in Hval. injection Hval as -> ->. exact Hc'.
  - rewrite Hout in Hnth by exact Hni.
    destruct (Nat.lt_ge_cases i 256).
    + rewrite nth_repeat_lt in Hnth by assumption. injection Hnth as _ <-. congruence.
    + rewrite nth_overflow in Hnth by (rewrite repeat_length; assumption).
      injection Hnth as _ <-. congruence.
Qed.

End CodeBook.

(* ===================================================================== *)
(** * More properties: compress/symbol-tree.ts, the bit stream *)
(* ===================================================================== *)

(** ** Packing *)

Lemma add_pow2_bits (acc : Z) (k j : Z) :
  0 <= k -> 0 <= j -> Z.testbit acc k = false ->
  Z.testbit (acc + 2 ^ k) j = Z.testbit acc j || (j =? k).
Proof.
  intros Hk Hj Hbit.
  assert (Hland : Z.land acc (2 ^ k) = 0).
  { apply Z.bits_inj'. intros n Hn. rewrite Z.land_spec, Z.bits_0.
    rewrite Z.pow2_bits_eqb by lia.
    destruct (Z.eqb_spec k n) as [<- | _]; [rewrite Hbit; reflexivity |].
    apply andb_false_r. }
  rewrite Z.add_nocarry_lxor by exact Hland.
  rewrite Z.lxor_lor by exact Hland.
  rewrite Z.lor_spec, Z.pow2_bits_eqb by lia.
  f_equal. rewrite Z.eqb_sym. reflexivity.
Qed.

Lemma pack_byte_bits (bs : list bool) :
  forall (k : nat) (acc q : Z),
    (length bs <= S k)%nat -> (k <= 7)%nat -> 0 <= acc < 256 ->
    acc = q * 2 ^ Z.of_nat (S k) ->
    0 <= SymbolTree.pack_byte bs (2 ^ Z.of_nat k) acc < 256 /\
    forall j, (j <= 7)%nat ->
      Z.testbit (SymbolTree.pack_byte bs (2 ^ Z.of_nat k) acc) (Z.of_nat j)
      = if (j <=? k)%nat then nth (k - j) bs false else Z.testbit acc (Z.of_nat j).
Proof.
  induction bs as [|b bs IH]; intros k acc q Hlen Hk Hacc Hq.
  - assert (Hlow : forall j, 0 <= j <= Z.of_nat k -> Z.testbit acc j = false).
    { intros j Hj. rewrite Hq. apply Z.mul_pow2_bits_low. lia. }
    simpl. split; [exact Hacc |]. intros j Hj.
    destruct (Nat.leb_spec j k); [| reflexivity].
    rewrite Hlow by lia. destruct (k - j)%nat; reflexivity.
  - assert (Hlow : forall j, 0 <= j <= Z.of_nat k -> Z.testbit acc j = false).
    { intros j Hj. rewrite Hq. apply Z.mul_pow2_bits_low. lia. }
    cbn [SymbolTree.pack_byte].
    set (acc' := if b then acc + 2 ^ Z.of_nat k else acc).
    assert (Hbits : forall j, 0 <= j ->
              Z.testbit acc' j = Z.testbit acc j || (b && (j =? Z.of_nat k))).
    { intros j Hj. unfold acc'. destruct b.
      - apply add_pow2_bits; [lia | lia | apply Hlow; lia].
      - rewrite orb_false_r. reflexivity. }
    assert (Hpk : 1 <= 2 ^ Z.of_nat k) by (apply pow2_ge_1; lia).
    assert (Hsk : 2 ^ Z.of_nat (S k) = 2 * 2 ^ Z.of_nat k).
    { rewrite Nat2Z.inj_succ, Z.pow_succ_r by lia. reflexivity. }
    assert (Hacc' : 0 <= acc' < 256).
    { unfold acc'. destruct b; [| exact Hacc].
      assert (H256 : 256 = 2 ^ Z.of_nat (7 - k) * 2 ^ Z.of_nat (S k)).
      { rewrite <- Z.pow_add_r by lia.
        replace (Z.of_nat (7 - k) + Z.of_nat (S k)) with 8 by lia. reflexivity. }
      assert (Hp7 : 1 <= 2 ^ Z.of_nat (7 - k)) by (apply pow2_ge_1; lia).
      rewrite Hsk in *.
      set (P := 2 ^ Z.of_nat k) in *. set (T := 2 ^ Z.of_nat (7 - k)) in *.
      assert (Hqt : q < T).
      { apply (Z.mul_lt_mono_pos_r (2 * P)); lia. }
      assert (Hq1 : (q + 1) * (2 * P) <= T * (2 * P)).
      { apply Z.mul_le_mono_nonneg_r; lia. }
      lia. }
    destruct k as [|k].
    + (* the last bit of the byte *)
      destruct bs; [| simpl in Hlen; lia].
      simpl SymbolTree.pack_byte. split; [exact Hacc' |].
      intros j Hj. rewrite Hbits by lia.
      destruct j as [|j].
      * rewrite Hlow by lia. rewrite Z.eqb_refl. destruct b; reflexivity.
      * destruct (Z.eqb_spec (Z.of_nat (S j)) (Z.of_nat 0)); [lia |].
        rewrite andb_false_r, orb_false_r. reflexivity.
    + replace (2 ^ Z.of_nat (S k) / 2) with (2 ^ Z.of_nat k).
      2: { rewrite Nat2Z.inj_succ, Z.pow_succ_r by lia.
           rewrite Z.mul_comm, Z.div_mul by lia. reflexivity. }
      destruct (IH k acc' (if b then 2 * q + 1 else 2 * q)) as (Hrange & Hres).
      * simpl in Hlen. lia.
      * lia.
      * exact Hacc'.
      * unfold acc'. rewrite Hq, Hsk. destruct b; ring.
      * split; [exact Hrange |]. intros j Hj. rewrite Hres by exact Hj.
        destruct (Nat.leb_spec j k) as [Hle | Hgt].
        -- destruct (Nat.leb_spec j (S k)); [| lia].
           replace (S k - j)%nat with (S (k - j)) by lia. reflexivity.
        -- rewrite Hbits by lia.
           destruct (Nat.leb_spec j (S k)) as [Hle | Hgt'].
           ++ assert (j = S k) by lia. subst j. rewrite Nat.sub_diag.
              rewrite Z.eqb_refl, andb_true_r. rewrite Hlow by lia. reflexivity.
           ++ destruct (Z.eqb_spec (Z.of_nat j) (Z.of_nat (S k))); [lia |].
              rewrite andb_false_r, orb_false_r. reflexivity.
Qed.

(** The bit at place [p] of the packed stream is bit [p] of the stream. *)
Lemma pack_bits_bit_at (fuel : nat) :
  forall (bs : list bool) (p : nat),
    (length bs <= fuel)%nat -> (p < length bs)%nat ->
    bit_at (SymbolTree.pack_bits fuel bs) p = nth p bs false.
Proof.
  induction fuel as [|fuel IH]; intros bs p Hfuel Hp; [lia |].
  destruct bs as [|b0 bs0]; [simpl in Hp; lia |].
  set (bs := b0 :: bs0) in *.
  change (SymbolTree.pack_bits (S fuel) bs)
    with (SymbolTree.pack_byte (firstn 8 bs) 0x80 0
            :: SymbolTree.pack_bits fuel (skipn 8 bs)).
  destruct (pack_byte_bits (firstn 8 bs) 7 0 0) as (_ & Hbyte).
  { rewrite length_firstn. lia. }
  { lia. }
  { lia. }
  { reflexivity. }
  change (2 ^ Z.of_nat 7) with 128 in Hbyte.
  unfold bit_at.
  pose proof (Nat.div_mod_eq p 8) as Hdm.
  pose proof (Nat.mod_upper_bound p 8) as Hmod.
  destruct (Nat.lt_ge_cases p 8) as [Hlt | Hge].
  - rewrite Nat.div_small by exact Hlt. rewrite Nat.mod_small by exact Hlt.
    cbn [nth]. rewrite Hbyte by lia.
    destruct (Nat.leb_spec (7 - p) 7); [| lia].
    replace (7 - (7 - p))%nat with p by lia.
    rewrite <- (firstn_skipn 8 bs) at 2.
    rewrite app_nth1; [reflexivity |]. rewrite length_firstn. lia.
  - assert (Hdiv : (p / 8 = S ((p - 8) / 8))%nat).
    { replace p with (1 * 8 + (p - 8))%nat at 1 by lia.
      rewrite Nat.div_add_l by lia. reflexivity. }
    assert (Hmod8 : (p mod 8 = (p - 8) mod 8)%nat).
    { replace p with ((p - 8) + 1 * 8)%nat at 1 by lia.
      apply Nat.Div0.mod_add. }
    rewrite Hdiv, Hmod8. cbn [nth].
    specialize (IH (skipn 8 bs) (p - 8)%nat).
    unfold bit_at in IH. rewrite IH.
    + rewrite nth_skipn. f_equal. lia.
    + rewrite length_skipn. simpl in Hfuel. unfold bs. simpl length. lia.
    + rewrite length_skipn. lia.
Qed.

Lemma pack_byte_range (bs : list bool) :
  (length bs <= 8)%nat -> is_byte (SymbolTree.pack_byte bs 0x80 0).
Proof.
  intros Hlen. destruct (pack_byte_bits bs 7 0 0) as (Hr & _); try lia.
  exact Hr.
Qed.

Lemma pack_bits_bytes (fuel : nat) :
  forall bs, Forall is_byte (SymbolTree.pack_bits fuel bs).
Proof.
  induction fuel as [|fuel IH]; intros bs; [constructor |].
  destruct bs as [|b0 bs0]; [constructor |].
  set (bs := b0 :: bs0).
  change (SymbolTree.pack_bits (S fuel) bs)
    with (SymbolTree.pack_byte (firstn 8 bs) 0x80 0
            :: SymbolTree.pack_bits fuel (skipn 8 bs)).
  constructor; [| apply IH].
  apply pack_byte_range. rewrite length_firstn. lia.
Qed.

(** ** The bit operations of [encode] and [decode] *)

Lemma to_int32_small (x : Z) : 0 <= x < 2 ^ 31 -> to_int32 x = x.
Proof.
  intros Hx. unfold to_int32. rewrite Z.mod_small by lia.
  destruct (Z.ltb_spec x (2 ^ 31)); [reflexivity | lia].
Qed.

Lemma js_bit (v k : Z) :
  0 <= v < 2 ^ 31 -> 0 <= k < 32 ->
  js_and (js_shr v k) 1 = Z.b2z (Z.testbit v k).
Proof.
  intros Hv Hk. unfold js_and, js_shr, to_uint32.
  rewrite (to_int32_small v) by exact Hv.
  rewrite (Z.mod_small k (2 ^ 32)) by lia. rewrite (Z.mod_small k 32) by lia.
  assert (Hs : 0 <= Z.shiftr v k < 2 ^ 31).
  { rewrite Z.shiftr_div_pow2 by lia. split.
    - apply Z.div_pos; [lia | apply Z.pow_pos_nonneg; lia].
    - apply Z.le_lt_trans with v; [| lia].
      apply Z.div_le_upper_bound; [apply Z.pow_pos_nonneg; lia |].
      pose proof (pow2_ge_1 k). nia. }
  rewrite (to_int32_small (Z.shiftr v k)) by exact Hs.
  change (to_int32 1) with (Z.ones 1). rewrite Z.land_ones by lia.
  change (2 ^ 1) with 2. rewrite <- Z.bit0_mod.
  rewrite Z.shiftr_spec by lia. reflexivity.
Qed.

Lemma lor_disjoint (a b q k : Z) :
  0 <= k -> a = q * 2 ^ k -> 0 <= b < 2 ^ k -> Z.lor a b = a + b.
Proof.
  intros Hk Ha Hb.
  assert (Hland : Z.land a b = 0).
  { apply Z.bits_inj'. intros n Hn. rewrite Z.land_spec, Z.bits_0.
    destruct (Z.lt_ge_cases n k).
    - rewrite Ha, Z.mul_pow2_bits_low by lia. reflexivity.
    - rewrite <- (Z.mod_small b (2 ^ k)) by exact Hb.
      rewrite Z.mod_pow2_bits_high by lia. apply andb_false_r. }
  rewrite Z.add_nocarry_lxor by exact Hland.
  rewrite Z.lxor_lor by exact Hland. reflexivity.
Qed.

(** [code = (code << 1) | bit] on a code of at most 15 bits. *)
Lemma shift_in_bit (code : Z) (bit : bool) :
  0 <= code < 2 ^ 15 ->
  js_or (js_shl code 1) (Z.b2z bit) = 2 * code + Z.b2z bit.
Proof.
  intros Hc. rewrite js_shl_small by (change (2 ^ 31) with (2 ^ 15 * 65536); lia).
  unfold js_or.
  rewrite (to_int32_small (code * 2 ^ 1))
    by (change (2 ^ 31) with (2 ^ 15 * 65536); lia).
  rewrite (to_int32_small (Z.b2z bit)) by (destruct bit; simpl; lia).
  rewrite (lor_disjoint _ _ code 1); [lia | lia | reflexivity |].
  destruct bit; simpl; lia.
Qed.

(** [(length << 16) | code]. *)
Lemma decode_key_value (len code : Z) :
  1 <= len <= 15 -> 0 <= code < 2 ^ 15 ->
  decode_key len code = len * 65536 + code.
Proof.
  intros Hl Hc. unfold decode_key.
  rewrite js_shl_small by (change (2 ^ 16) with 65536; change (2 ^ 31) with 2147483648; lia).
  unfold js_or. change (2 ^ 16) with 65536.
  rewrite (to_int32_small (len * 65536)) by (change (2 ^ 31) with 2147483648; lia).
  rewrite (to_int32_small code)
    by (change (2 ^ 31) with 2147483648; change (2 ^ 15) with 32768 in Hc; lia).
  apply (lor_disjoint _ _ len 16); [lia | reflexivity |].
  change (2 ^ 15) with 32768 in Hc. change (2 ^ 16) with 65536. lia.
Qed.

Lemma decode_key_inj (len len' code code' : Z) :
  1 <= len <= 15 -> 0 <= code < 2 ^ 15 ->
  1 <= len' <= 15 -> 0 <= code' < 2 ^ 15 ->
  decode_key len code = decode_key len' code' -> len = len' /\ code = code'.
Proof.
  intros Hl Hc Hl' Hc' H. rewrite !decode_key_value in H by assumption.
  change (2 ^ 15) with 32768 in *. lia.
Qed.

(** The bits of a code, most significant first. *)
Lemma code_bits_length (c l : Z) :
  length (SymbolTree.code_bits c l) = Z.to_nat l.
Proof.
  unfold SymbolTree.code_bits. rewrite length_map, length_rev, length_seq.
  reflexivity.
Qed.

Lemma code_bits_nth (c l : Z) (j : nat) :
  0 <= c < 2 ^ 15 -> 0 <= l <= 15 -> (j < Z.to_nat l)%nat ->
  nth j (SymbolTree.code_bits c l) false = Z.testbit c (l - 1 - Z.of_nat j).
Proof.
  intros Hc Hl Hj. unfold SymbolTree.code_bits.
  set (f := fun b : nat => negb (js_and (js_shr c (Z.of_nat b)) 1 =? 0)).
  rewrite (nth_indep _ false (f 0%nat))
    by (rewrite length_map, length_rev, length_seq; exact Hj).
  rewrite map_nth. rewrite rev_nth by (rewrite length_seq; exact Hj).
  rewrite length_seq, seq_nth by lia. unfold f.
  rewrite js_bit; [| change (2 ^ 31) with (2 ^ 15 * 65536); lia | lia].
  replace (Z.of_nat (0 + (Z.to_nat l - S j))) with (l - 1 - Z.of_nat j) by lia.
  destruct (Z.testbit c (l - 1 - Z.of_nat j)); reflexivity.
Qed.

(** ** The decode table *)

Lemma indexed_entries_In {A : Type} (l : list A) :
  forall (a n : nat) (x : Z) (y : A),
    In (x, y) (combine (map Z.of_nat (seq a n)) l) <->
    exists i, (i < n)%nat /\ x = Z.of_nat (a + i) /\ nth_error l i = Some y.
Proof.
  induction l as [|z l IH]; intros a n x y.
  - rewrite combine_nil. split; [intros [] |].
    intros (i & _ & _ & H). destruct i; discriminate.
  - destruct n as [|n]; [simpl; split; [intros [] | intros (i & Hi & _); lia] |].
    simpl. rewrite IH. split.
    + intros [H | (i & Hi & Hx & Hy)].
      * injection H as <- <-. exists 0%nat.
        repeat split; [lia | f_equal; lia].
      * exists (S i). repeat split; [lia | rewrite Hx; f_equal; lia | exact Hy].
    + intros (i & Hi & Hx & Hy). destruct i as [|i].
      * left. simpl in Hy. injection Hy as <-. rewrite Hx. do 2 f_equal. lia.
      * right. exists i. repeat split; [lia | rewrite Hx; f_equal; lia | exact Hy].
Qed.

Lemma decode_table_fold (l : list (Z * (Z * Z))) :
  forall (acc : list (Z * (Z * Z))) (k : Z) (v : Z * Z),
    In (k, v)
       (fold_left
          (fun decode ie =>
             let '(i, (code, len)) := ie in
             if 0 <? len then (js_or (js_shl len 16) code, (i, len)) :: decode
             else decode) l acc)
    <-> In (k, v) acc \/
        exists i code len,
          In (i, (code, len)) l /\ 0 < len /\ k = decode_key len code /\ v = (i, len).
Proof.
  induction l as [|(i, (code, len)) l IH]; intros acc k v.
  - simpl. split; [tauto |]. intros [H | (i & code & len & [] & _)]. exact H.
  - cbn [fold_left]. rewrite IH. split.
    + intros [H | (i' & code' & len' & Hin & Hrest)].
      * destruct (Z.ltb_spec 0 len) as [Hpos |]; [| left; exact H].
        destruct H as [H | H]; [| left; exact H].
        injection H as <- <-. right. exists i, code, len.
        repeat split; [left; reflexivity | exact Hpos].
      * right. exists i', code', len'. split; [right; exact Hin | exact Hrest].
    + intros [H | (i' & code' & len' & [Heq | Hin] & Hpos & -> & ->)].
      * left. destruct (0 <? len); [right |]; exact H.
      * injection Heq as -> -> ->. left.
        destruct (Z.ltb_spec 0 len'); [| lia]. left. reflexivity.
      * right. exists i', code', len'. repeat split; assumption.
Qed.

Lemma map_get_Some (key : Z) (m : list (Z * (Z * Z))) (v : Z * Z) :
  SymbolTree.map_get key m = Some v -> In (key, v) m.
Proof.
  unfold SymbolTree.map_get.
  destruct (find (fun kv => fst kv =? key) m) as [(k, v')|] eqn:Hf; [| discriminate].
  intros H. injection H as <-. apply find_some in Hf. destruct Hf as (Hin & Hk).
  simpl in Hk. apply Z.eqb_eq in Hk. subst k. exact Hin.
Qed.

Lemma map_get_None (key : Z) (m : list (Z * (Z * Z))) (v : Z * Z) :
  SymbolTree.map_get key m = None -> ~ In (key, v) m.
Proof.
  unfold SymbolTree.map_get.
  destruct (find (fun kv => fst kv =? key) m) eqn:Hf; [discriminate |].
  intros _ Hin. apply (find_none _ _ Hf) in Hin. simpl in Hin.
  rewrite Z.eqb_refl in Hin. discriminate.
Qed.

Section Decode.

Variable tr : SymbolTree.t.
Hypothesis Hlen : length (SymbolTree.lengths tr) = 256%nat.
Hypothesis Hok : Forall code_length_ok (SymbolTree.lengths tr).
Hypothesis Hkraft : kraft_weight (SymbolTree.lengths tr) <= 2 ^ 15.

Lemma decode_table_In (k : Z) (v : Z * Z) :
  In (k, v) (SymbolTree.build_decode_table tr) <->
  exists i code len,
    In (i, (code, len))
       (combine (map Z.of_nat (seq 0 256)) (SymbolTree.build_encode_table tr)) /\
    0 < len /\ k = decode_key len code /\ v = (i, len).
Proof.
  unfold SymbolTree.build_decode_table. rewrite decode_table_fold.
  split; [intros [[] | H]; exact H | intros H; right; exact H].
Qed.

(** An entry found in the decode table is an entry of the code book. *)
Lemma decode_map_sound (key symbol len : Z) :
  SymbolTree.map_get key (SymbolTree.build_decode_table tr) = Some (symbol, len) ->
  exists code,
    In (symbol, (code, len)) (code_book (SymbolTree.lengths tr)) /\
    key = decode_key len code.
Proof.
  intros H. apply map_get_Some in H. apply decode_table_In in H.
  destruct H as (i & code & len' & Hin & Hpos & -> & Heq).
  injection Heq as -> ->. exists code. split; [| reflexivity].
  apply indexed_entries_In in Hin. destruct Hin as (j & Hj & -> & Hnth).
  rewrite build_encode_table_eq in Hnth.
  apply (encode_table_entry _ Hlen Hok Hkraft); [| lia].
  apply nth_error_nth. exact Hnth.
Qed.

(** Every entry of the code book is found in the decode table. *)
Lemma decode_map_complete (s c l : Z) :
  In (s, (c, l)) (code_book (SymbolTree.lengths tr)) ->
  SymbolTree.map_get (decode_key l c) (SymbolTree.build_decode_table tr) <> None.
Proof.
  intros Hin Hnone.
  destruct (code_book_entry _ Hlen Hok Hkraft s c l Hin)
    as (Hs & _ & Hl & _ & Hnth).
  apply (map_get_None _ _ (s, l)) in Hnone. apply Hnone.
  apply decode_table_In. exists s, c, l.
  repeat split; [| lia]. apply indexed_entries_In.
  exists (Z.to_nat s). repeat split; [lia | lia |].
  rewrite build_encode_table_eq.
  set (table := SymbolTree.assign_codes _ _ _ _) in *.
  destruct (Nat.lt_ge_cases (Z.to_nat s) (length table)) as [Hlt | Hge].
  - rewrite <- Hnth. apply nth_error_nth'. exact Hlt.
  - rewrite nth_overflow in Hnth by exact Hge. injection Hnth as _ <-. lia.
Qed.

(** ** The inner loop of [decode] finds the code that lies at [bit_pos] *)

Lemma scan_finds (bits : bytes) (bit_count max_len pos : Z) (s c l : Z) :
  In (s, (c, l)) (code_book (SymbolTree.lengths tr)) ->
  Forall is_byte bits -> 0 <= pos -> l <= max_len -> pos + l <= bit_count ->
  (forall j, (j < Z.to_nat l)%nat ->
             bit_at bits (Z.to_nat pos + j) = Z.testbit c (l - 1 - Z.of_nat j)) ->
  forall (fuel : nat) (len code length_ : Z),
    1 <= len <= l -> code = c / 2 ^ (l - len + 1) ->
    (Z.to_nat (l - len + 1) <= fuel)%nat ->
    SymbolTree.scan fuel (SymbolTree.build_decode_table tr) bits bit_count max_len
                    pos len code length_
    = SymbolTree.Found s l.
Proof.
  intros Hin Hbytes Hpos Hmax Hcount Hbits.
  destruct (code_book_entry _ Hlen Hok Hkraft s c l Hin)
    as (Hs & _ & Hl & Hc & _).
  induction fuel as [|fuel IH]; intros len code length_ Hlen' Hcode Hfuel; [lia |].
  cbn [SymbolTree.scan].
  destruct (Z.leb_spec len max_len); [| lia].
  destruct (Z.leb_spec (pos + len) bit_count); [| lia].
  cbn [andb].
  (* the bit read *)
  set (p := (Z.to_nat pos + Z.to_nat (len - 1))%nat).
  assert (Hidx : Z.to_nat ((pos + len - 1) / 8) = (p / 8)%nat).
  { unfold p. rewrite <- Z2Nat.inj_add by lia.
    replace (pos + (len - 1)) with (pos + len - 1) by lia.
    rewrite <- (Nat2Z.id (Z.to_nat (pos + len - 1) / 8)).
    rewrite Nat2Z.inj_div, Z2Nat.id by lia. reflexivity. }
  assert (Hbit_idx : 7 - (pos + len - 1) mod 8 = Z.of_nat (7 - p mod 8)).
  { unfold p. rewrite <- Z2Nat.inj_add by lia.
    replace (pos + (len - 1)) with (pos + len - 1) by lia.
    pose proof (Nat.mod_upper_bound (Z.to_nat (pos + len - 1)) 8).
    rewrite Nat2Z.inj_sub by lia. rewrite Nat2Z.inj_mod, Z2Nat.id by lia.
    reflexivity. }
  rewrite Hidx, Hbit_idx.
  assert (Hbyte : is_byte (nth (p / 8) bits 0)) by (apply Forall_nth_byte; exact Hbytes).
  pose proof (Nat.mod_upper_bound p 8) as Hp8.
  rewrite js_bit by (unfold is_byte in Hbyte; lia).
  fold (bit_at bits p). unfold p. rewrite Hbits by lia.
  replace (l - 1 - Z.of_nat (Z.to_nat (len - 1))) with (l - len) by lia.
  (* the code read so far *)
  assert (Hd : 0 < 2 ^ (l - len)) by (apply Z.pow_pos_nonneg; lia).
  assert (Hcode_range : 0 <= code < 2 ^ 15).
  { subst code. split; [apply Z.div_pos; [lia | apply Z.pow_pos_nonneg; lia] |].
    apply Z.le_lt_trans with c.
    - apply Z.div_le_upper_bound; [apply Z.pow_pos_nonneg; lia |].
      pose proof (pow2_ge_1 (l - len + 1)). nia.
    - apply Z.lt_le_trans with (2 ^ l); [lia | apply Z.pow_le_mono_r; lia]. }
  rewrite shift_in_bit by exact Hcode_range.
  set (code' := 2 * code + Z.b2z (Z.testbit c (l - len))).
  assert (Hcode' : code' = c / 2 ^ (l - len)).
  { unfold code'. subst code.
    rewrite Z.testbit_spec' by lia.
    replace (2 ^ (l - len + 1)) with (2 ^ (l - len) * 2)
      by (rewrite Z.pow_add_r by lia; reflexivity).
    rewrite <- Z.div_div by lia.
    pose proof (Z.div_mod (c / 2 ^ (l - len)) 2). lia. }
  assert (Hcode'_range : 0 <= code' < 2 ^ len).
  { rewrite Hcode'. split; [apply Z.div_pos; lia |].
    apply Z.div_lt_upper_bound; [lia |].
    rewrite <- Z.pow_add_r by lia. replace (l - len + len) with l by lia. lia. }
  assert (Hlen15 : 2 ^ len <= 2 ^ 15) by (apply Z.pow_le_mono_r; lia).
  fold (decode_key len code').
  destruct (SymbolTree.map_get (decode_key len code') (SymbolTree.build_decode_table tr))
    as [(symbol, len2)|] eqn:Hget.
  - (* an entry is found: it is the entry of [s] *)
    apply decode_map_sound in Hget. destruct Hget as (code2 & Hin2 & Hkey).
    destruct (code_book_entry _ Hlen Hok Hkraft symbol code2 len2 Hin2)
      as (_ & _ & Hl2 & Hc2 & _).
    assert (Hlen2_15 : 2 ^ len2 <= 2 ^ 15) by (apply Z.pow_le_mono_r; lia).
    apply decode_key_inj in Hkey; try lia. destruct Hkey as (<- & <-).
    assert (Heq : (s, (c, l)) = (symbol, (code', len))).
    { apply (code_book_disjoint _ Hlen Hok Hkraft); try assumption;
        unfold code_lo, code_hi; cbn [fst snd].
      - (* c * 2^(15-l) < (code' + 1) * 2^(15-len) *)
        assert (Hpow : 2 ^ (15 - len) = 2 ^ (l - len) * 2 ^ (15 - l)).
        { rewrite <- Z.pow_add_r by lia. f_equal. lia. }
        assert (Hb : 0 < 2 ^ (15 - l)) by (apply Z.pow_pos_nonneg; lia).
        rewrite Hpow, Hcode'.
        pose proof (Z.div_mod c (2 ^ (l - len))).
        pose proof (Z.mod_pos_bound c (2 ^ (l - len)) Hd). nia.
      - assert (Hpow : 2 ^ (15 - len) = 2 ^ (l - len) * 2 ^ (15 - l)).
        { rewrite <- Z.pow_add_r by lia. f_equal. lia. }
        assert (Hb : 0 < 2 ^ (15 - l)) by (apply Z.pow_pos_nonneg; lia).
        rewrite Hpow, Hcode'.
        pose proof (Z.div_mod c (2 ^ (l - len))).
        pose proof (Z.mod_pos_bound c (2 ^ (l - len)) Hd). nia. }
    injection Heq as <- _ <-. reflexivity.
  - (* no entry: the code is longer *)
    assert (Hlt : len < l).
    { destruct (Z.eq_dec len l) as [-> | Hne]; [| lia]. exfalso.
      apply (decode_map_complete s c l Hin).
      rewrite Z.sub_diag in Hcode'. change (2 ^ 0) with 1 in Hcode'.
      rewrite Z.div_1_r in Hcode'. rewrite <- Hcode'. exact Hget. }
    apply IH; [lia | | lia].
    rewrite Hcode'. f_equal. f_equal. lia.
Qed.

End Decode.

(** ** [decode] after [encode] *)

Lemma lookup_all_entries (table : list SymbolTree.entry) (data : bytes)
      (es : list SymbolTree.entry) :
  SymbolTree.lookup_all table data = OK es ->
  es = map (fun b => nth (Z.to_nat b) table (0, 0)) data /\
  Forall (fun e => snd e <> 0) es.
Proof.
  revert es. induction data as [|b data IH]; intros es H.
  - injection H as <-. split; [reflexivity | constructor].
  - cbn [SymbolTree.lookup_all] in H.
    destruct (Z.eqb_spec (snd (nth (Z.to_nat b) table (0, 0))) 0) as [| Hne];
      [discriminate |].
    apply bind_inv in H. destruct H as (es' & Hes' & H). injection H as <-.
    destruct (IH es' Hes') as (-> & Hall).
    split; [reflexivity | constructor; assumption].
Qed.

Lemma total_bits_length (es : list SymbolTree.entry) :
  Forall (fun e => 0 <= snd e) es ->
  forall n,
    fold_left (fun n e => n + snd e) es n
    = n + Z.of_nat (length (concat (map (fun e => SymbolTree.code_bits (fst e) (snd e))
                                        es))).
Proof.
  induction 1 as [|e es He Hes IH]; intros n; simpl; [lia |].
  rewrite IH, length_app, code_bits_length. lia.
Qed.

Lemma fold_max_ge (l : list Z) (x : Z) :
  In x l -> forall a, x <= fold_left Z.max l a.
Proof.
  assert (Hmono : forall l a, a <= fold_left Z.max l a).
  { clear. induction l as [|y l IH]; intros a; simpl; [lia |].
    specialize (IH (Z.max a y)). lia. }
  induction l as [|y l IH]; intros Hin a; [destruct Hin |].
  simpl. destruct Hin as [-> | Hin]; [| apply IH; exact Hin].
  specialize (Hmono l (Z.max a x)). lia.
Qed.

Lemma decode_loop_stream (tr : SymbolTree.t) (bits : bytes) (stream : list bool) :
  length (SymbolTree.lengths tr) = 256%nat ->
  Forall code_length_ok (SymbolTree.lengths tr) ->
  kraft_weight (SymbolTree.lengths tr) <= 2 ^ 15 ->
  Forall is_byte bits ->
  (forall p, (p < length stream)%nat -> bit_at bits p = nth p stream false) ->
  forall (rest : bytes) (pre : list bool) (out : bytes),
    Forall is_byte rest ->
    Forall (fun e => snd e <> 0)
           (map (fun b => nth (Z.to_nat b) (SymbolTree.build_encode_table tr) (0, 0))
                rest) ->
    stream
    = pre ++ concat (map (fun e => SymbolTree.code_bits (fst e) (snd e))
                         (map (fun b => nth (Z.to_nat b)
                                            (SymbolTree.build_encode_table tr) (0, 0))
                              rest)) ->
    SymbolTree.decode_loop (length rest) (SymbolTree.build_decode_table tr) bits
                           (Z.of_nat (length stream))
                           (fold_left Z.max (SymbolTree.lengths tr) 0)
                           (Z.of_nat (length pre)) out
    = OK (rev out ++ rest).
Proof.
  intros Hlen Hok Hkraft Hbytes Hbits.
  induction rest as [|b rest IH]; intros pre out Hdata Hcoded Hstream.
  - simpl. rewrite app_nil_r. reflexivity.
  - apply Forall_cons_iff in Hdata. destruct Hdata as (Hb & Hdata').
    cbn [map] in Hcoded, Hstream.
    apply Forall_cons_iff in Hcoded. destruct Hcoded as (He & Hcoded').
    destruct (nth (Z.to_nat b) (SymbolTree.build_encode_table tr) (0, 0))
      as (c, l) eqn:Hentry.
    cbn [fst snd concat] in *.
    rewrite build_encode_table_eq in Hentry.
    pose proof (encode_table_entry _ Hlen Hok Hkraft _ _ _ Hentry He) as Hin.
    rewrite Z2Nat.id in Hin by (unfold is_byte in Hb; lia).
    destruct (code_book_entry _ Hlen Hok Hkraft b c l Hin)
      as (_ & Hnth & Hl & Hc & _).
    assert (Hc15 : 0 <= c < 2 ^ 15).
    { split; [lia |]. apply Z.lt_le_trans with (2 ^ l); [lia |].
      apply Z.pow_le_mono_r; lia. }
    assert (Hslen : length stream
                    = (length pre + Z.to_nat l
                       + length (concat
                           (map (fun e => SymbolTree.code_bits (fst e) (snd e))
                                (map (fun b => nth (Z.to_nat b)
                                       (SymbolTree.build_encode_table tr) (0, 0)%Z)
                                     rest))))%nat).
    { rewrite Hstream at 1. rewrite !length_app, code_bits_length. lia. }
    cbn [length SymbolTree.decode_loop].
    destruct (Z.ltb_spec (Z.of_nat (length pre)) (Z.of_nat (length stream))); [| lia].
    assert (Hmax : l <= fold_left Z.max (SymbolTree.lengths tr) 0).
    { apply fold_max_ge. rewrite <- Hnth. apply nth_In.
      unfold is_byte in Hb. lia. }
    rewrite (scan_finds tr Hlen Hok Hkraft bits _ _ _ b c l Hin Hbytes);
      try lia.
    + rewrite (Z.mod_small b 256 Hb : to_uint8 b = b).
      replace (Z.of_nat (length pre) + l)
        with (Z.of_nat (length (pre ++ SymbolTree.code_bits c l)))
        by (rewrite length_app, code_bits_length; lia).
      rewrite IH.
      * simpl. rewrite <- app_assoc. reflexivity.
      * exact Hdata'.
      * exact Hcoded'.
      * rewrite Hstream at 1. rewrite <- app_assoc. reflexivity.
    + intros j Hj. rewrite Nat2Z.id. rewrite Hbits by lia.
      rewrite Hstream at 1. rewrite app_nth2 by lia.
      replace (length pre + j - length pre)%nat with j by lia.
      rewrite app_nth1 by (rewrite code_bits_length; exact Hj).
      apply code_bits_nth; [exact Hc15 | lia | exact Hj].
    + replace (l - 1 + 1) with l by lia. rewrite Z.div_small by lia. reflexivity.
Qed.

Lemma decode_encode (tr : SymbolTree.t) (data bits : bytes) (bit_count : Z) :
  length (SymbolTree.lengths tr) = 256%nat ->
  Forall code_length_ok (SymbolTree.lengths tr) ->
  kraft_weight (SymbolTree.lengths tr) <= 2 ^ 15 ->
  Forall is_byte data ->
  SymbolTree.encode tr data = OK (bits, bit_count) ->
  SymbolTree.decode tr bits bit_count (Z.of_nat (length data)) = OK data.
Proof.
  intros Hlen Hok Hkraft Hdata Henc.
  unfold SymbolTree.encode in Henc.
  apply bind_inv in Henc. destruct Henc as (es & Hes & Henc).
  injection Henc as <- <-.
  apply lookup_all_entries in Hes. destruct Hes as (Hes & Hcoded).
  set (stream := concat (map (fun e => SymbolTree.code_bits (fst e) (snd e)) es)).
  assert (Hpos : Forall (fun e => 0 <= snd e) es).
  { subst es. apply Forall_forall. intros e He. apply in_map_iff in He.
    destruct He as (b & <- & Hb).
    destruct (nth (Z.to_nat b) (SymbolTree.build_encode_table tr) (0, 0))
      as (c, l) eqn:Hentry.
    destruct (Z.eq_dec l 0) as [-> | Hne]; [simpl; lia |].
    rewrite build_encode_table_eq in Hentry.
    pose proof (encode_table_entry _ Hlen Hok Hkraft _ _ _ Hentry Hne) as Hin.
    apply (code_book_entry _ Hlen Hok Hkraft) in Hin. simpl. lia. }
  rewrite (total_bits_length es Hpos 0). fold stream. rewrite Z.add_0_l.
  unfold SymbolTree.decode. rewrite Nat2Z.id.
  apply (decode_loop_stream tr _ stream Hlen Hok Hkraft) with (pre := []) (out := []).
  - apply pack_bits_bytes.
  - intros p Hp. apply pack_bits_bit_at; [lia | exact Hp].
  - exact Hdata.
  - rewrite <- Hes. exact Hcoded.
  - rewrite <- Hes. reflexivity.
Qed.

(** ** Kraft's sum as [clamp_lengths] computes it *)

Lemma kraft_term_weight (len : Z) :
  1 <= len <= 15 ->
  (SymbolTree.kraft_term len == inject_Z (2 ^ (15 - len)) * (1 # 32768))%Q.
Proof.
  intros Hl.
  pose proof (forall_range
    (fun len => (len =? 0)
                || Qeq_bool (SymbolTree.kraft_term len)
                            (inject_Z (2 ^ (15 - len)) * (1 # 32768))) 16) as H.
  specialize (H eq_refl len). cbv beta in H.
  destruct (Z.eqb_spec len 0); [lia |].
  apply Qeq_bool_iff. apply H. lia.
Qed.

Lemma kraft_sum_weight (lengths : list Z) :
  Forall code_length_ok lengths ->
  (SymbolTree.kraft_sum lengths == inject_Z (kraft_weight lengths) * (1 # 32768))%Q.
Proof.
  intros Hok. unfold SymbolTree.kraft_sum.
  assert (Hgen : forall k0,
            (fold_left (fun kraft len =>
                          if 0 <? len then (kraft + SymbolTree.kraft_term len)%Q
                          else kraft) lengths k0
             == k0 + inject_Z (kraft_weight lengths) * (1 # 32768))%Q).
  { induction Hok as [|len ls Hlen Hls IH]; intros k0.
    - simpl. ring.
    - cbn [fold_left kraft_weight fold_right]. rewrite IH.
      fold (kraft_weight ls).
      destruct (Z.ltb_spec 0 len) as [Hpos |]; [| reflexivity].
      rewrite kraft_term_weight by (unfold code_length_ok in Hlen; lia).
      rewrite inject_Z_plus. ring. }
  rewrite Hgen. ring.
Qed.

Lemma kraft_sum_le_1 (lengths : list Z) :
  Forall code_length_ok lengths ->
  (SymbolTree.kraft_sum lengths <= 1)%Q -> kraft_weight lengths <= 2 ^ 15.
Proof.
  intros Hok Hle. rewrite (kraft_sum_weight lengths Hok) in Hle.
  unfold Qle in Hle. simpl in Hle. change (2 ^ 15) with 32768. lia.
Qed.
(** X11.  [decode] inverts [encode] under Kraft's inequality: for a tree of 256
    code lengths, none above 15, of which the sum of [2^-length] over the
    non-zero lengths is at most 1, decoding the bits [encode] returns for
    a byte string, with the bit count it returns and the length of the
    string, gives the string back. *)
Theorem symbol_tree_roundtrip (tr : SymbolTree.t) (data bits : bytes) (bit_count : Z) :
  length (SymbolTree.lengths tr) = 256%nat ->
  Forall code_length_ok (SymbolTree.lengths tr) ->
  (SymbolTree.kraft_sum (SymbolTree.lengths tr) <= 1)%Q ->
  Forall is_byte data ->
  SymbolTree.encode tr data = OK (bits, bit_count) ->
  SymbolTree.decode tr bits bit_count (Z.of_nat (length data)) = OK data.
Proof.
  intros Hlen Hok Hkraft. apply decode_encode; try assumption.
  apply kraft_sum_le_1; assumption.
Qed.

Lemma symbol_tree_roundtrip_witness :
  SymbolTree.decode {| SymbolTree.lengths := zeros 97 ++ [1; 2; 2] ++ zeros 156 |}
                    [90] 8 5
  = OK [97; 98; 99; 97; 98].
Proof.
  apply (symbol_tree_roundtrip
           {| SymbolTree.lengths := zeros 97 ++ [1; 2; 2] ++ zeros 156 |}
           [97; 98; 99; 97; 98] [90] 8).
  - reflexivity.
  - cbn [SymbolTree.lengths]. apply Forall_app. split; [apply zeros_code_lengths |].
    apply Forall_app. split; [| apply zeros_code_lengths].
    unfold code_length_ok. repeat constructor; lia.
  - vm_compute. discriminate.
  - unfold is_byte. repeat constructor; lia.
  - vm_compute. reflexivity.
Defined.

(* ===================================================================== *)
(** * More properties: compress/dictionary.ts, compression *)
(* ===================================================================== *)

Lemma Forall_skipn_keep {A : Type} (P : A -> Prop) (k : nat) (l : list A) :
  Forall P l -> Forall P (skipn k l).
Proof.
  intros H. rewrite <- (firstn_skipn k l) in H. apply Forall_app in H. apply H.
Qed.

Lemma substitution_output (strings : list bytes) (fuel : nat) :
  Forall (fun str => str <> []) strings ->
  forall rest sub,
    Forall is_byte rest ->
    Dictionary.apply_substitution_loop fuel rest strings = OK sub ->
    Forall is_byte sub /\ (length sub <= 2 * length rest)%nat.
Proof.
  intros Hall. induction fuel as [|fuel IH]; intros rest sub Hbytes H.
  - destruct rest; [| discriminate]. injection H as <-. split; [constructor | simpl; lia].
  - destruct rest as [|b rest']; [injection H as <-; split; [constructor | simpl; lia] |].
    cbn [Dictionary.apply_substitution_loop] in H.
    destruct (Dictionary.first_match (b :: rest') strings 0) as [(s, str)|] eqn:Hm.
    + destruct (first_match_nonempty _ _ _ _ _ Hall Hm) as (Hne & Hfit).
      apply bind_inv in H. destruct H as (out & Hout & H). injection H as <-.
      apply IH in Hout; [| apply Forall_skipn_keep; exact Hbytes].
      destruct Hout as (Hob & Hol). split.
      * constructor; [unfold is_byte, Dictionary.ESCAPE_BYTE; lia |].
        constructor; [apply Z.mod_pos_bound; lia | exact Hob].
      * rewrite length_skipn in Hol. destruct str; [congruence |].
        simpl in *. lia.
    + apply bind_inv in H. destruct H as (out & Hout & H).
      apply Forall_cons_iff in Hbytes. destruct Hbytes as (Hb & Hbytes).
      apply IH in Hout; [| exact Hbytes]. destruct Hout as (Hob & Hol).
      destruct (b =? Dictionary.ESCAPE_BYTE); injection H as <-; split;
        try (simpl; lia).
      * constructor; [unfold is_byte, Dictionary.ESCAPE_BYTE; lia |].
        constructor; [unfold is_byte; lia | exact Hob].
      * constructor; assumption.
Qed.

Lemma encode_table_length_range (tr : SymbolTree.t) (i : nat) :
  length (SymbolTree.lengths tr) = 256%nat ->
  Forall code_length_ok (SymbolTree.lengths tr) ->
  kraft_weight (SymbolTree.lengths tr) <= 2 ^ 15 ->
  0 <= snd (nth i (SymbolTree.build_encode_table tr) (0, 0)) <= 15.
Proof.
  intros Hlen Hok Hkraft.
  destruct (nth i (SymbolTree.build_encode_table tr) (0, 0)) as (c, l) eqn:Hentry.
  destruct (Z.eq_dec l 0) as [-> | Hne]; [simpl; lia |].
  rewrite build_encode_table_eq in Hentry.
  pose proof (encode_table_entry _ Hlen Hok Hkraft _ _ _ Hentry Hne) as Hin.
  apply (code_book_entry _ Hlen Hok Hkraft) in Hin. simpl. lia.
Qed.

Lemma encode_bit_count (tr : SymbolTree.t) (data bits : bytes) (bit_count : Z) :
  length (SymbolTree.lengths tr) = 256%nat ->
  Forall code_length_ok (SymbolTree.lengths tr) ->
  kraft_weight (SymbolTree.lengths tr) <= 2 ^ 15 ->
  SymbolTree.encode tr data = OK (bits, bit_count) ->
  0 <= bit_count <= 15 * Z.of_nat (length data).
Proof.
  intros Hlen Hok Hkraft Henc. unfold SymbolTree.encode in Henc.
  apply bind_inv in Henc. destruct Henc as (es & Hes & Henc).
  injection Henc as _ <-.
  apply lookup_all_entries in Hes. destruct Hes as (-> & _).
  assert (Hgen : forall n,
            n <= fold_left (fun n e => n + snd e)
                   (map (fun b => nth (Z.to_nat b) (SymbolTree.build_encode_table tr)
                                      (0, 0)) data) n
              <= n + 15 * Z.of_nat (length data)).
  { induction data as [|b data IH]; intros n; [simpl; lia |].
    cbn [map fold_left]. specialize (IH (n + snd (nth (Z.to_nat b)
                                             (SymbolTree.build_encode_table tr) (0, 0)))).
    pose proof (encode_table_length_range tr (Z.to_nat b) Hlen Hok Hkraft).
    simpl length. lia. }
  specialize (Hgen 0). lia.
Qed.

Lemma dictionary_decompress_compress (d : Dictionary.t) (data out : bytes) (n : Z) :
  length (SymbolTree.lengths (Dictionary.tree d)) = 256%nat ->
  Forall code_length_ok (SymbolTree.lengths (Dictionary.tree d)) ->
  (SymbolTree.kraft_sum (SymbolTree.lengths (Dictionary.tree d)) <= 1)%Q ->
  (length (Dictionary.strings d) <= 255)%nat ->
  Forall (fun str => str <> []) (Dictionary.strings d) ->
  Forall is_byte data -> Z.of_nat (length data) < 2 ^ 32 ->
  Dictionary.compress d data = OK out ->
  Dictionary.decompress d out n = OK data.
Proof.
  intros Hlen Hok Hkraft Hmax Hne Hdata Hsize H.
  apply kraft_sum_le_1 in Hkraft; [| exact Hok].
  unfold Dictionary.compress in H.
  apply bind_inv in H. destruct H as (sub & Hsub & H).
  apply bind_inv in H. destruct H as ((bits, bit_count) & Henc & H).
  apply bind_inv in H. destruct H as (slb & Hslb & H).
  apply bind_inv in H. destruct H as (bcb & Hbcb & H). injection H as <-.
  destruct (substitution_output _ _ Hne _ _ Hdata Hsub) as (Hsub_bytes & Hsub_len).
  pose proof (encode_bit_count _ _ _ _ Hlen Hok Hkraft Henc) as Hbc.
  destruct (substitution_loop_roundtrip _ (length data) Hmax Hne data (le_n _))
    as (sub' & Hsub' & Hrev).
  unfold Dictionary.apply_substitution in Hsub. rewrite Hsub in Hsub'.
  injection Hsub' as <-.
  unfold Dictionary.decompress.
  rewrite (decode_varint_eq _ [] slb (bcb ++ bits) (Z.of_nat (length sub)))
    by first [assumption | reflexivity | change (2 ^ 56) with (2 ^ 32 * 2 ^ 24); lia].
  cbn [bind].
  rewrite (decode_varint_eq _ slb bcb bits bit_count)
    by first [assumption | reflexivity
             | simpl; lia
             | change (2 ^ 56) with (2 ^ 32 * 2 ^ 24); change (2 ^ 24) with 16777216; lia].
  cbn [bind].
  replace (skipn (0 + length slb + length bcb) (slb ++ bcb ++ bits)) with bits.
  2: { rewrite app_assoc, skipn_app, skipn_all2 by (rewrite length_app; lia).
       rewrite length_app.
       replace (0 + length slb + length bcb - (length slb + length bcb))%nat
         with 0%nat by lia.
       reflexivity. }
  rewrite (decode_encode _ _ _ _ Hlen Hok Hkraft Hsub_bytes Henc). cbn [bind].
  exact Hrev.
Qed.

(** X12.  The dictionary inverts itself under Kraft's inequality: when the 256
    code lengths of its tree are at most 15 and satisfy the inequality,
    and its strings are at most 255 and none is empty, [decompress]
    returns the data from what [compress] returns for them, whatever the
    size it is given. *)
Theorem dictionary_roundtrip (d : Dictionary.t) (data out : bytes) (n : Z) :
  length (SymbolTree.lengths (Dictionary.tree d)) = 256%nat ->
  Forall code_length_ok (SymbolTree.lengths (Dictionary.tree d)) ->
  (SymbolTree.kraft_sum (SymbolTree.lengths (Dictionary.tree d)) <= 1)%Q ->
  (length (Dictionary.strings d) <= 255)%nat ->
  Forall (fun str => str <> []) (Dictionary.strings d) ->
  Forall is_byte data -> Z.of_nat (length data) < 2 ^ 32 ->
  Dictionary.compress d data = OK out ->
  Dictionary.decompress d out n = OK data.
Proof. apply dictionary_decompress_compress. Qed.

Lemma dictionary_roundtrip_witness :
  Dictionary.decompress
    {| Dictionary.strings := [[98; 99]];
       Dictionary.tree :=
         {| SymbolTree.lengths := [2; 2] ++ zeros 95 ++ [1] ++ zeros 158 |} |}
    [7; 11; 90; 128] 0
  = OK [97; 98; 99; 97; 0; 97].
Proof.
  apply (dictionary_roundtrip
           {| Dictionary.strings := [[98; 99]];
              Dictionary.tree :=
                {| SymbolTree.lengths := [2; 2] ++ zeros 95 ++ [1] ++ zeros 158 |} |}
           [97; 98; 99; 97; 0; 97] [7; 11; 90; 128] 0).
  - reflexivity.
  - cbn [Dictionary.tree SymbolTree.lengths].
    apply Forall_app. split; [unfold code_length_ok; repeat constructor; lia |].
    apply Forall_app. split; [apply zeros_code_lengths |].
    apply Forall_app. split; [| apply zeros_code_lengths].
    unfold code_length_ok. repeat constructor; lia.
  - vm_compute. discriminate.
  - simpl. lia.
  - repeat constructor. discriminate.
  - unfold is_byte. repeat constructor; lia.
  - reflexivity.
  - vm_compute. reflexivity.
Defined.

(* ===================================================================== *)
(** * More properties: the decoders of one node type *)
(* ===================================================================== *)

(** X13.  [decode_file_node] inverts [encode_file_node]: a well-formed file
    node is encoded, and the decoder that accepts file nodes only gives it
    back, chunk refs in order, each timestamp reduced modulo [2^48]. *)
Theorem file_node_roundtrip (node : FileNode) :
  wf_file_node node ->
  exists buf,
    encode_file_node node = OK buf /\
    decode_file_node buf = OK (wrap_file_node node).
Proof.
  intros Hwf.
  destruct (encode_file_node_payload_layout node Hwf)
    as (sb & cb & bufs & Hsb & Hcb & Hbufs & Hlayout).
  unfold encode_file_node. rewrite Hlayout. cbn [bind].
  eexists. split; [reflexivity |].
  unfold decode_file_node. rewrite read_write_envelope. cbn [bind].
  change (to_uint8 TAG_FILE_NODE =? TAG_FILE_NODE) with true. cbn [negb].
  apply (decode_file_node_payload_layout node sb cb bufs); assumption.
Qed.

Lemma file_node_roundtrip_witness :
  exists buf,
    encode_file_node sample_file_node = OK buf /\
    decode_file_node buf = OK (wrap_file_node sample_file_node).
Proof.
  apply file_node_roundtrip.
  split; [reflexivity |]. split; [simpl; lia |]. split; [simpl; lia |].
  constructor; [| constructor].
  split; [simpl; lia |]. repeat split; reflexivity.
Defined.

(** X14.  [decode_dir_node] inverts [encode_dir_node]: a directory node with a
    32-byte root and, if it has one, a 32-byte group id is encoded, and the
    decoder that accepts directory nodes only gives it back, each
    timestamp reduced modulo [2^48]. *)
Theorem dir_node_roundtrip (node : DirNode) :
  wf_dir_node node ->
  exists buf,
    encode_dir_node node = OK buf /\
    decode_dir_node buf = OK (wrap_dir_node node).
Proof.
  intros Hwf. unfold encode_dir_node.
  rewrite (encode_dir_node_payload_layout node Hwf). cbn [bind].
  eexists. split; [reflexivity |].
  unfold decode_dir_node. rewrite read_write_envelope. cbn [bind].
  change (to_uint8 TAG_DIR_NODE =? TAG_DIR_NODE) with true. cbn [negb].
  rewrite (decode_dir_node_payload_layout node Hwf). reflexivity.
Qed.

Lemma dir_node_roundtrip_witness :
  exists buf,
    encode_dir_node {| smt_root := zeros 32; group_id := Some (zeros 32);
                       dir_created := Num 1700000000000;
                       dir_modified := Num (2 ^ 48 + 1) |} = OK buf /\
    decode_dir_node buf
    = OK {| smt_root := zeros 32; group_id := Some (zeros 32);
            dir_created := Num 1700000000000; dir_modified := Num 1 |}.
Proof.
  apply (dir_node_roundtrip
           {| smt_root := zeros 32; group_id := Some (zeros 32);
              dir_created := Num 1700000000000;
              dir_modified := Num (2 ^ 48 + 1) |}).
  split; reflexivity.
Defined.

(* ===================================================================== *)
(** * More properties: codec/varint.ts in a buffer *)
(* ===================================================================== *)




(* ===================================================================== *)
(** * More properties: codec/crc32.ts *)
(* ===================================================================== *)

(** X16.  [crc32] tells apart any two byte strings that differ in one byte:
    changing a single byte of the input, the others kept, changes the
    checksum. *)
Theorem crc32_detects_one_byte (pre post : bytes) (b b' : Z) :
  is_byte b -> is_byte b' -> b <> b' ->
  crc32 (pre ++ b :: post) <> crc32 (pre ++ b' :: post).
Proof.
  intros Hb Hb' Hne. apply crc32_one_byte.
  unfold is_byte in *. rewrite !Z.mod_small by lia. exact Hne.
Qed.

Lemma crc32_detects_one_byte_witness :
  crc32 ([1; 2] ++ 3 :: [4; 5]) <> crc32 ([1; 2] ++ 7 :: [4; 5]).
Proof.
  apply crc32_detects_one_byte; unfold is_byte; lia.
Defined.

(* ===================================================================== *)
(** * More properties: the content detector *)
(* ===================================================================== *)

Lemma count_printable_null (sample : bytes) :
  forall printable, In 0 sample -> snd (count_printable sample printable) = true.
Proof.
  induction sample as [|b rest IH]; intros printable Hin; [destruct Hin |].
  simpl. destruct (Z.eqb_spec b 0) as [| Hne]; [reflexivity |].
  destruct Hin as [-> | Hin]; [contradiction |].
  destruct (_ || _); apply IH; exact Hin.
Qed.

Lemma firstn_min_length {A : Type} (n : nat) (l : list A) :
  firstn (Nat.min (length l) n) l = firstn n l.
Proof.
  destruct (Nat.le_ge_cases n (length l)).
  - rewrite Nat.min_r by assumption. reflexivity.
  - rewrite Nat.min_l by assumption. rewrite !firstn_all2 by lia. reflexivity.
Qed.

(** X17.  The detector answers JSON, text or binary, never "unknown"; it reads
    the first 512 bytes and no other; and data with a zero byte among
    their first 64 bytes are binary, whatever they start with. *)
Theorem detect_content_type_sample (data : bytes) :
  (detect_content_type data = ContentType.JSON \/
   detect_content_type data = ContentType.TEXT_UTF8 \/
   detect_content_type data = ContentType.BINARY) /\
  detect_content_type data = detect_content_type (firstn 512 data) /\
  (In 0 (firstn 64 data) -> detect_content_type data = ContentType.BINARY).
Proof.
  split; [| split].
  - unfold detect_content_type. destruct data as [|first rest]; [tauto |].
    destruct (_ && _); [tauto |].
    destruct (count_printable _ _) as (printable, has_null).
    destruct (_ && _); tauto.
  - destruct data as [|first rest]; [reflexivity |].
    set (data := first :: rest).
    assert (Hhead : firstn 512 data = first :: firstn 511 rest) by reflexivity.
    unfold detect_content_type at 2. rewrite Hhead, <- Hhead.
    unfold detect_content_type, data at 1.
    rewrite !firstn_min_length.
    assert (H64 : firstn 64 (firstn 512 data) = firstn 64 data).
    { rewrite firstn_firstn. reflexivity. }
    assert (H512 : firstn 512 (firstn 512 data) = firstn 512 data).
    { rewrite firstn_firstn. reflexivity. }
    assert (Hlen : Nat.min (length (firstn 512 data)) 512
                   = Nat.min (length data) 512).
    { rewrite length_firstn. lia. }
    rewrite H64, H512, Hlen. reflexivity.
  - intros Hin. unfold detect_content_type.
    destruct data as [|first rest]; [reflexivity |].
    set (data := first :: rest) in *.
    rewrite !firstn_min_length.
    assert (Hjson : forallb (fun b => negb (b =? 0)) (firstn 64 data) = false).
    { apply not_true_is_false. intros Hall. rewrite forallb_forall in Hall.
      specialize (Hall 0 Hin). discriminate. }
    rewrite Hjson, andb_false_r.
    assert (Hnull : snd (count_printable (firstn 512 data) 0) = true).
    { apply count_printable_null.
      rewrite <- (firstn_skipn 64 (firstn 512 data)). apply in_app_iff. left.
      rewrite firstn_firstn. exact Hin. }
    destruct (count_printable (firstn 512 data) 0) as (printable, has_null).
    simpl in Hnull. subst has_null. reflexivity.
Qed.

Lemma detect_content_type_sample_witness :
  detect_content_type [123; 34; 97; 34; 58; 0; 125] = ContentType.BINARY.
Proof.
  apply (detect_content_type_sample [123; 34; 97; 34; 58; 0; 125]).
  simpl. tauto.
Defined.

(* ===================================================================== *)
(** * More properties: compress/dictionary.ts, training *)
(* ===================================================================== *)

Lemma count_ngram_keeps (P : bytes -> Prop) (slice : bytes)
      (counts : list Dictionary.ngram) :
  P slice ->
  Forall (fun c => P (fst c)) counts ->
  Forall (fun c => P (fst c)) (Dictionary.count_ngram slice counts).
Proof.
  intros Hs Hc. induction Hc as [|(bs, count) counts Hbs Hc IH]; simpl.
  - constructor; [assumption | constructor].
  - destruct (list_eq_dec Z.eq_dec bs slice); constructor; assumption.
Qed.

Lemma count_windows_keeps (P : bytes -> Prop) (sample : bytes) (gram_size : nat)
      (counts : list Dictionary.ngram) :
  (forall s, length s = gram_size -> P s) ->
  Forall (fun c => P (fst c)) counts ->
  Forall (fun c => P (fst c)) (Dictionary.count_windows sample gram_size counts).
Proof.
  intros Hg Hc. unfold Dictionary.count_windows.
  destruct (Nat.ltb_spec (length sample) gram_size) as [| Hfit]; [assumption |].
  assert (Hgen : forall idxs counts,
            Forall (fun i => i + gram_size <= length sample)%nat idxs ->
            Forall (fun c => P (fst c)) counts ->
            Forall (fun c => P (fst c))
              (fold_left (fun counts i =>
                            Dictionary.count_ngram (slice sample i (i + gram_size)) counts)
                         idxs counts)).
  { induction idxs as [|i idxs IH]; intros cs His Hcs; simpl; [assumption |].
    inversion His as [|? ? Hi His']; subst.
    apply IH; [assumption |].
    apply count_ngram_keeps; [| assumption].
    apply Hg. unfold slice. rewrite length_firstn, length_skipn. lia. }
  apply Hgen; [| assumption].
  apply Forall_forall. intros i Hi. apply in_seq in Hi. lia.
Qed.

Lemma count_byte_length (frequencies : list Z) (b : Z) :
  length (Dictionary.count_byte frequencies b) = length frequencies.
Proof.
  unfold Dictionary.count_byte.
  destruct (nth_error frequencies (Z.to_nat b)) as [f|] eqn:Hnth; [| reflexivity].
  apply length_update. apply nth_error_Some. congruence.
Qed.

Lemma apply_all_returns (strings : list bytes) (samples : list bytes) :
  Forall (fun str => str <> []) strings ->
  exists parts, Dictionary.apply_all samples strings = OK parts.
Proof.
  intros Hne. induction samples as [|s samples (parts & IH)].
  - exists []. reflexivity.
  - destruct (apply_substitution_returns s strings Hne) as (part & Hpart).
    exists (part :: parts). simpl. rewrite Hpart, IH. reflexivity.
Qed.

(** The steps of [train] on a list of samples that is not empty. *)
Lemma train_steps (s0 : bytes) (samples' : list bytes) :
  exists strings parts tr,
    Forall (fun str => In (length str) [4; 8; 16; 32]%nat) strings /\
    (length strings <= 255)%nat /\
    Dictionary.apply_all (s0 :: samples') strings = OK parts /\
    SymbolTree.from_frequencies
      (fold_left (fun fr part => fold_left Dictionary.count_byte part fr)
                 parts (repeat 0 256)) = OK tr /\
    Dictionary.train (s0 :: samples')
    = OK {| Dictionary.strings := strings; Dictionary.tree := tr |}.
Proof.
  unfold Dictionary.train.
  set (samples := s0 :: samples').
  set (P := fun str : bytes => In (length str) [4; 8; 16; 32]%nat).
  set (counts := fold_left Dictionary.count_sample samples []).
  assert (Hcounts : Forall (fun c => P (fst c)) counts).
  { unfold counts.
    assert (Hgen : forall ss acc, Forall (fun c => P (fst c)) acc ->
              Forall (fun c => P (fst c))
                     (fold_left Dictionary.count_sample ss acc)).
    { induction ss as [|s ss IH]; intros acc Hacc; simpl; [assumption |].
      apply IH. unfold Dictionary.count_sample. simpl.
      repeat (apply count_windows_keeps;
              [intros x Hx; unfold P; rewrite Hx; simpl; tauto |]).
      assumption. }
    apply Hgen. constructor. }
  set (strings := map fst _).
  assert (Hstrings : Forall P strings).
  { unfold strings. apply Forall_map. apply Forall_firstn. apply sort_Forall.
    apply Forall_forall. intros c Hc. apply filter_In in Hc.
    rewrite Forall_forall in Hcounts. apply Hcounts. apply Hc. }
  assert (Hne : Forall (fun str => str <> []) strings).
  { eapply Forall_impl; [| exact Hstrings]. intros str Hstr ->.
    unfold P in Hstr. simpl in Hstr. intuition discriminate. }
  assert (Hmax : (length strings <= 255)%nat).
  { unfold strings. rewrite length_map, length_firstn.
    unfold Dictionary.MAX_STRINGS. lia. }
  destruct (apply_all_returns strings samples Hne) as (parts & Hparts).
  rewrite Hparts. cbn [bind].
  set (frequencies :=
         fold_left (fun fr part => fold_left Dictionary.count_byte part fr)
                   parts (repeat 0 256)).
  assert (Hfreq : length frequencies = 256%nat).
  { unfold frequencies.
    assert (Hgen : forall ps fr, length fr = 256%nat ->
              length (fold_left (fun fr part =>
                                   fold_left Dictionary.count_byte part fr) ps fr)
              = 256%nat).
    { induction ps as [|p ps IH]; intros fr Hfr; simpl; [exact Hfr |].
      apply IH. clear IH. revert fr Hfr.
      induction p as [|b p IHp]; intros fr Hfr; simpl; [exact Hfr |].
      apply IHp. rewrite count_byte_length. exact Hfr. }
    apply Hgen. apply repeat_length. }
  destruct (from_frequencies_max_length frequencies Hfreq) as (tr & Htr & Hl & Hok).
  rewrite Htr. cbn [bind]. unfold Dictionary.make.
  exists strings, parts, tr.
  split; [exact Hstrings |]. split; [exact Hmax |]. split; [exact Hparts |].
  split; [exact Htr |].
  destruct (_ <? _)%nat eqn:E; [| reflexivity].
  apply Nat.ltb_lt in E. unfold strings in E.
  rewrite length_map, length_firstn in E.
  unfold Dictionary.MAX_STRINGS in E. lia.
Qed.

Lemma from_frequencies_lengths (frequencies : list Z) (tr : SymbolTree.t) :
  SymbolTree.from_frequencies frequencies = OK tr ->
  length (SymbolTree.lengths tr) = 256%nat /\
  Forall code_length_ok (SymbolTree.lengths tr).
Proof.
  intros Htr.
  assert (Hlen : length frequencies = 256%nat).
  { unfold SymbolTree.from_frequencies in Htr.
    destruct (Nat.eqb_spec (length frequencies) 256); [assumption | discriminate]. }
  destruct (from_frequencies_max_length frequencies Hlen) as (tr' & Htr' & Hl & Hok).
  rewrite Htr in Htr'. injection Htr' as <-. split; assumption.
Qed.

Lemma train_well_formed (samples : list bytes) :
  exists d,
    Dictionary.train samples = OK d /\
    (length (Dictionary.strings d) <= 255)%nat /\
    Forall (fun str => In (length str) [4; 8; 16; 32]%nat) (Dictionary.strings d) /\
    length (SymbolTree.lengths (Dictionary.tree d)) = 256%nat /\
    Forall code_length_ok (SymbolTree.lengths (Dictionary.tree d)).
Proof.
  destruct samples as [|s0 samples'].
  - unfold Dictionary.train.
    destruct (from_frequencies_max_length (repeat 0 256)) as (tr & Htr & Hl & Hok);
      [apply repeat_length |].
    rewrite Htr. cbn [bind]. eexists. split; [reflexivity |].
    simpl. repeat split; try assumption; [lia | constructor].
  - destruct (train_steps s0 samples')
      as (strings & parts & tr & Hstrings & Hmax & _ & Htr & Htrain).
    destruct (from_frequencies_lengths _ _ Htr) as (Hl & Hok).
    eexists. split; [exact Htrain |]. simpl. repeat split; assumption.
Qed.

(** X18.  Training returns on every list of samples, and what it returns is a
    dictionary the other operations accept: at most 255 strings, each of
    4, 8, 16 or 32 bytes, and a tree of 256 code lengths, none above 15. *)
Theorem train_returns (samples : list bytes) :
  exists d,
    Dictionary.train samples = OK d /\
    (length (Dictionary.strings d) <= 255)%nat /\
    Forall (fun str => In (length str) [4; 8; 16; 32]%nat) (Dictionary.strings d) /\
    length (SymbolTree.lengths (Dictionary.tree d)) = 256%nat /\
    Forall code_length_ok (SymbolTree.lengths (Dictionary.tree d)).
Proof. apply train_well_formed. Qed.

(* ===================================================================== *)
(** * More properties: compress/symbol-tree.ts, what [encode] accepts *)
(* ===================================================================== *)

Lemma canonical_codes_symbols (symbols : list (Z * Z)) :
  forall code prev (s len : Z),
    In (s, len) symbols ->
    exists c, In (s, (c, len)) (canonical_codes symbols code prev).
Proof.
  induction symbols as [|s0 rest IH]; intros code prev s len Hin; [destruct Hin |].
  cbn [canonical_codes]. destruct Hin as [-> | Hin].
  - eexists. left. reflexivity.
  - destruct (IH (if 0 <? prev then js_shl (code + 1) (snd s0 - prev) else code)
                 (snd s0) s len Hin) as (c & Hc).
    exists c. right. exact Hc.
Qed.

(** The encode table holds, under every symbol, the length the tree
    gives it. *)
Lemma encode_table_length (tr : SymbolTree.t) (i : nat) :
  length (SymbolTree.lengths tr) = 256%nat ->
  Forall code_length_ok (SymbolTree.lengths tr) ->
  (i < 256)%nat ->
  snd (nth i (SymbolTree.build_encode_table tr) (0, 0))
  = nth i (SymbolTree.lengths tr) 0.
Proof.
  intros Hlen Hok Hi. rewrite build_encode_table_eq.
  set (L := SymbolTree.lengths tr) in *.
  assert (Hsyms : Forall (fun s => 0 <= fst s < 256) (coded_symbols L)).
  { apply Forall_forall. intros (s, len) Hin. apply coded_symbols_In in Hin.
    destruct Hin as (j & Hj & -> & _). simpl. lia. }
  destruct (assign_codes_nth (coded_symbols L) 0 0 (repeat (0, 0) 256))
    as (Htab & Hout);
    [apply repeat_length | exact Hsyms | apply coded_symbols_NoDup |].
  assert (Hnth : nth_error L i = Some (nth i L 0)) by (apply nth_error_nth'; lia).
  destruct (Z.ltb_spec 0 (nth i L 0)) as [Hpos | Hzero].
  - assert (Hin : In (Z.of_nat i, nth i L 0) (coded_symbols L)).
    { apply coded_symbols_In. exists i. repeat split; assumption. }
    destruct (canonical_codes_symbols _ 0 0 _ _ Hin) as (c & Hc).
    pose proof (Htab _ _ _ Hc) as Hval. rewrite Nat2Z.id in Hval.
    rewrite Hval. reflexivity.
  - assert (H0 : nth i L 0 = 0).
    { rewrite Forall_forall in Hok. apply nth_error_In in Hnth.
      specialize (Hok _ Hnth). unfold code_length_ok in Hok. lia. }
    rewrite Hout.
    + rewrite nth_repeat_lt by exact Hi. rewrite H0. reflexivity.
    + intros Hin. apply in_map_iff in Hin. destruct Hin as ((s, len) & Hs & Hin).
      apply coded_symbols_In in Hin. destruct Hin as (j & Hj & -> & Hl & Hpos).
      simpl in Hs. rewrite Nat2Z.id in Hs. subst j.
      rewrite Hnth in Hl. injection Hl as Hl. lia.
Qed.

Lemma lookup_all_coded (table : list SymbolTree.entry) (data : bytes) :
  Forall (fun b => snd (nth (Z.to_nat b) table (0, 0)) <> 0) data ->
  exists es, SymbolTree.lookup_all table data = OK es.
Proof.
  induction 1 as [|b data Hb Hdata (es & IH)]; [exists []; reflexivity |].
  cbn [SymbolTree.lookup_all].
  destruct (Z.eqb_spec (snd (nth (Z.to_nat b) table (0, 0))) 0); [contradiction |].
  rewrite IH. eexists. reflexivity.
Qed.

Lemma lookup_all_uncoded (table : list SymbolTree.entry) (data : bytes) (b : Z) :
  In b data -> snd (nth (Z.to_nat b) table (0, 0)) = 0 ->
  SymbolTree.lookup_all table data = Err UncodedSymbol.
Proof.
  intros Hin Hb. induction data as [|b0 data IH]; [destruct Hin |].
  cbn [SymbolTree.lookup_all].
  destruct (Z.eqb_spec (snd (nth (Z.to_nat b0) table (0, 0))) 0); [reflexivity |].
  destruct Hin as [-> | Hin]; [contradiction |].
  rewrite (IH Hin). reflexivity.
Qed.

(** X19.  [encode] accepts the byte strings of which every byte has a code, and
    no other: with 256 code lengths from 0 to 15, it returns when every
    byte of the data has a non-zero length, and fails with
    [UncodedSymbol] when some byte has length 0. *)
Theorem encode_needs_codes (tr : SymbolTree.t) (data : bytes) :
  length (SymbolTree.lengths tr) = 256%nat ->
  Forall code_length_ok (SymbolTree.lengths tr) ->
  Forall is_byte data ->
  (Forall (fun b => nth (Z.to_nat b) (SymbolTree.lengths tr) 0 <> 0) data ->
   exists bits bit_count, SymbolTree.encode tr data = OK (bits, bit_count)) /\
  (forall b, In b data -> nth (Z.to_nat b) (SymbolTree.lengths tr) 0 = 0 ->
             SymbolTree.encode tr data = Err UncodedSymbol).
Proof.
  intros Hlen Hok Hdata. unfold SymbolTree.encode. split.
  - intros Hcoded.
    destruct (lookup_all_coded (SymbolTree.build_encode_table tr) data) as (es & Hes).
    { rewrite Forall_forall in Hcoded, Hdata. apply Forall_forall. intros b Hb.
      rewrite encode_table_length; try assumption.
      - apply Hcoded. exact Hb.
      - specialize (Hdata b Hb). unfold is_byte in Hdata. lia. }
    rewrite Hes. cbn [bind]. eexists. eexists. reflexivity.
  - intros b Hb Hzero.
    rewrite (lookup_all_uncoded _ data b Hb); [reflexivity |].
    rewrite encode_table_length; try assumption.
    rewrite Forall_forall in Hdata. specialize (Hdata b Hb).
    unfold is_byte in Hdata. lia.
Qed.

Lemma encode_needs_codes_witness :
  (exists bits bit_count,
      SymbolTree.encode {| SymbolTree.lengths := zeros 97 ++ [1; 2; 2] ++ zeros 156 |}
                        [97; 99] = OK (bits, bit_count)) /\
  SymbolTree.encode {| SymbolTree.lengths := zeros 97 ++ [1; 2; 2] ++ zeros 156 |}
                    [97; 100; 99] = Err UncodedSymbol.
Proof.
  assert (Hok : Forall code_length_ok (zeros 97 ++ [1; 2; 2] ++ zeros 156)).
  { apply Forall_app. split; [apply zeros_code_lengths |].
    apply Forall_app. split; [| apply zeros_code_lengths].
    unfold code_length_ok. repeat constructor; lia. }
  split.
  - apply (encode_needs_codes
             {| SymbolTree.lengths := zeros 97 ++ [1; 2; 2] ++ zeros 156 |} [97; 99]).
    + reflexivity.
    + exact Hok.
    + unfold is_byte. repeat constructor; lia.
    + repeat constructor; discriminate.
  - apply (encode_needs_codes
             {| SymbolTree.lengths := zeros 97 ++ [1; 2; 2] ++ zeros 156 |}
             [97; 100; 99]) with (b := 100).
    + reflexivity.
    + exact Hok.
    + unfold is_byte. repeat constructor; lia.
    + simpl. tauto.
    + reflexivity.
Defined.

(* ===================================================================== *)
(** * More properties: a trained dictionary compresses its samples *)
(* ===================================================================== *)

Lemma count_byte_nth (fr : list Z) (b : Z) (i : nat) :
  (Z.to_nat b < length fr)%nat ->
  nth i (Dictionary.count_byte fr b) 0
  = if (i =? Z.to_nat b)%nat then to_uint32 (nth i fr 0 + 1) else nth i fr 0.
Proof.
  intros Hb. unfold Dictionary.count_byte.
  rewrite (nth_error_nth' fr 0 Hb). rewrite nth_update by exact Hb.
  destruct (Nat.eqb_spec i (Z.to_nat b)) as [-> |]; reflexivity.
Qed.

Lemma count_bytes_fold (bs : bytes) :
  forall (fr : list Z) (n : Z),
    length fr = 256%nat -> (forall i, 0 <= nth i fr 0 <= n) ->
    n + Z.of_nat (length bs) < 2 ^ 32 -> Forall is_byte bs ->
    (forall i, nth i fr 0 <= nth i (fold_left Dictionary.count_byte bs fr) 0
               <= n + Z.of_nat (length bs)) /\
    (forall b, In b bs ->
               1 <= nth (Z.to_nat b) (fold_left Dictionary.count_byte bs fr) 0).
Proof.
  induction bs as [|b bs IH]; intros fr n Hlen Hfr Hn Hbytes.
  - simpl. split; [intros i; specialize (Hfr i); lia | intros b []].
  - apply Forall_cons_iff in Hbytes. destruct Hbytes as (Hb & Hbytes).
    cbn [length] in Hn |- *. cbn [fold_left].
    assert (Hidx : (Z.to_nat b < length fr)%nat) by (unfold is_byte in Hb; lia).
    assert (Hstep : forall i,
              nth i fr 0 <= nth i (Dictionary.count_byte fr b) 0 <= n + 1 /\
              (i = Z.to_nat b -> 1 <= nth i (Dictionary.count_byte fr b) 0)).
    { intros i. rewrite count_byte_nth by exact Hidx. specialize (Hfr i).
      destruct (Nat.eqb_spec i (Z.to_nat b)).
      - unfold to_uint32. rewrite Z.mod_small by lia. lia.
      - lia. }
    destruct (IH (Dictionary.count_byte fr b) (n + 1)) as (Hmono & Hpos).
    + rewrite count_byte_length. exact Hlen.
    + intros i. specialize (Hstep i). specialize (Hfr i). lia.
    + lia.
    + exact Hbytes.
    + split.
      * intros i. specialize (Hmono i). specialize (Hstep i). lia.
      * intros b' [<- | Hin]; [| apply Hpos; exact Hin].
        specialize (Hmono (Z.to_nat b)). specialize (Hstep (Z.to_nat b)).
        destruct Hstep as (_ & Hs). specialize (Hs eq_refl). lia.
Qed.

Lemma count_parts_concat (parts : list bytes) :
  forall fr,
    fold_left (fun fr part => fold_left Dictionary.count_byte part fr) parts fr
    = fold_left Dictionary.count_byte (concat parts) fr.
Proof.
  induction parts as [|p parts IH]; intros fr; [reflexivity |].
  simpl. rewrite fold_left_app. apply IH.
Qed.

Lemma apply_all_parts (strings : list bytes) (samples parts : list bytes) :
  Dictionary.apply_all samples strings = OK parts ->
  Forall2 (fun s p => Dictionary.apply_substitution s strings = OK p) samples parts.
Proof.
  revert parts. induction samples as [|s samples IH]; intros parts H.
  - injection H as <-. constructor.
  - cbn [Dictionary.apply_all] in H.
    apply bind_inv in H. destruct H as (p & Hp & H).
    apply bind_inv in H. destruct H as (ps & Hps & H). injection H as <-.
    constructor; [exact Hp | apply IH; exact Hps].
Qed.

Lemma substituted_parts (strings : list bytes) (samples parts : list bytes) :
  Forall (fun str => str <> []) strings ->
  Forall (Forall is_byte) samples ->
  Forall2 (fun s p => Dictionary.apply_substitution s strings = OK p) samples parts ->
  Forall is_byte (concat parts) /\
  (length (concat parts) <= 2 * length (concat samples))%nat.
Proof.
  intros Hne Hbytes H. induction H as [|s p samples parts Hp _ IH].
  - split; [constructor | simpl; lia].
  - apply Forall_cons_iff in Hbytes. destruct Hbytes as (Hs & Hbytes).
    destruct (IH Hbytes) as (Hb & Hl).
    destruct (substitution_output _ _ Hne _ _ Hs Hp) as (Hpb & Hpl).
    simpl. split; [apply Forall_app; split; assumption |].
    rewrite !length_app. lia.
Qed.

Lemma trained_compress_returns (samples : list bytes) :
  Forall (Forall is_byte) samples ->
  Z.of_nat (length (concat samples)) < 2 ^ 31 ->
  exists d,
    Dictionary.train samples = OK d /\
    forall s, In s samples -> exists out, Dictionary.compress d s = OK out.
Proof.
  intros Hbytes Hsize. destruct samples as [|s0 samples'].
  - unfold Dictionary.train.
    destruct (from_frequencies_max_length (repeat 0 256)) as (tr & Htr & _);
      [apply repeat_length |].
    rewrite Htr. cbn [bind]. eexists. split; [reflexivity | intros s []].
  - set (samples := s0 :: samples') in *.
    destruct (train_steps s0 samples')
      as (strings & parts & tr & Hstrings & Hmax & Hparts & Htr & Htrain).
    fold samples in Hparts, Htrain.
    assert (Hne : Forall (fun str => str <> []) strings).
    { eapply Forall_impl; [| exact Hstrings]. intros str Hstr ->.
      simpl in Hstr. intuition discriminate. }
    eexists. split; [exact Htrain |].
    destruct (from_frequencies_lengths _ _ Htr) as (Hl & Hok).
    pose proof (apply_all_parts _ _ _ Hparts) as Hall.
    destruct (substituted_parts _ _ _ Hne Hbytes Hall) as (Hpb & Hpl).
    rewrite count_parts_concat in Htr.
    set (frequencies := fold_left Dictionary.count_byte (concat parts) (repeat 0 256))
      in *.
    destruct (count_bytes_fold (concat parts) (repeat 0 256) 0) as (_ & Hpos).
    { apply repeat_length. }
    { intros i. destruct (Nat.lt_ge_cases i 256).
      - rewrite nth_repeat_lt by assumption. lia.
      - rewrite nth_overflow by (rewrite repeat_length; assumption). lia. }
    { change (2 ^ 32) with (2 * 2 ^ 31). lia. }
    { exact Hpb. }
    fold frequencies in Hpos.
    assert (Hfreq : length frequencies = 256%nat).
    { unfold SymbolTree.from_frequencies in Htr.
      destruct (Nat.eqb_spec (length frequencies) 256); [assumption | discriminate]. }
    destruct (from_frequencies_active_lengths frequencies Hfreq) as (tr' & Htr' & Hcodes).
    rewrite Htr in Htr'. injection Htr' as <-.
    (* one sample *)
    intros s Hs.
    assert (Hpart : exists p, Dictionary.apply_substitution s strings = OK p /\
                              forall b, In b p -> In b (concat parts)).
    { clear - Hall Hs. induction Hall as [|s1 p1 ss ps Hp1 _ IH]; [destruct Hs |].
      destruct Hs as [-> | Hs].
      - exists p1. split; [exact Hp1 |]. intros b Hb. simpl. apply in_app_iff.
        left. exact Hb.
      - destruct (IH Hs) as (p & Hp & Hin). exists p. split; [exact Hp |].
        intros b Hb. simpl. apply in_app_iff. right. apply Hin. exact Hb. }
    destruct Hpart as (p & Hp & Hin).
    assert (Hp_bytes : Forall is_byte p).
    { rewrite Forall_forall in Hpb. apply Forall_forall. intros b Hb.
      apply Hpb. apply Hin. exact Hb. }
    unfold Dictionary.compress. cbn [Dictionary.strings Dictionary.tree].
    rewrite Hp. cbn [bind].
    destruct (lookup_all_coded (SymbolTree.build_encode_table tr) p) as (es & Hes).
    { rewrite Forall_forall in Hp_bytes. apply Forall_forall. intros b Hb.
      pose proof (Hp_bytes b Hb) as Hbyte. unfold is_byte in Hbyte.
      rewrite encode_table_length by (try assumption; lia).
      destruct (Hcodes (Z.to_nat b)) as (_ & Hcode); [lia |].
      specialize (Hcode ltac:(specialize (Hpos b (Hin b Hb)); lia)). lia. }
    unfold SymbolTree.encode. rewrite Hes. cbn [bind].
    destruct (encode_varint_total (Z.of_nat (length p))) as (slb & Hslb & _); [lia |].
    rewrite Hslb. cbn [bind].
    assert (Hbits : 0 <= fold_left (fun n e => n + snd e) es 0).
    { apply lookup_all_entries in Hes. destruct Hes as (-> & _).
      assert (Hgen : forall l n, Forall is_byte l -> 0 <= n ->
                0 <= fold_left (fun n e => n + snd e)
                       (map (fun b => nth (Z.to_nat b)
                                          (SymbolTree.build_encode_table tr) (0, 0)) l) n).
      { induction l as [|b l IHl]; intros n Hl' Hn; [exact Hn |].
        apply Forall_cons_iff in Hl'. destruct Hl' as (Hb & Hl').
        cbn [map fold_left]. apply IHl; [exact Hl' |].
        unfold is_byte in Hb.
        rewrite encode_table_length by (try assumption; lia).
        rewrite Forall_forall in Hok.
        assert (Hx : In (nth (Z.to_nat b) (SymbolTree.lengths tr) 0)
                        (SymbolTree.lengths tr)) by (apply nth_In; lia).
        specialize (Hok _ Hx). unfold code_length_ok in Hok. lia. }
      apply Hgen; [exact Hp_bytes | lia]. }
    destruct (encode_varint_total _ Hbits) as (bcb & Hbcb & _).
    rewrite Hbcb. cbn [bind]. eexists. reflexivity.
Qed.

(** X20.  A trained dictionary compresses the samples it was trained on: when
    the samples hold fewer than [2^31] bytes in all, training returns a
    dictionary, and [compress] returns on each of the samples; every byte
    the substitution leaves in a sample has a code in the trained tree. *)
Theorem trained_dictionary_compresses_samples (samples : list bytes) :
  Forall (Forall is_byte) samples ->
  Z.of_nat (length (concat samples)) < 2 ^ 31 ->
  exists d,
    Dictionary.train samples = OK d /\
    forall s, In s samples -> exists out, Dictionary.compress d s = OK out.
Proof. apply trained_compress_returns. Qed.

Lemma trained_dictionary_compresses_samples_witness :
  exists d,
    Dictionary.train [[97; 98; 97; 98; 97; 98; 97; 98]; [97; 0; 99]] = OK d /\
    forall s, In s [[97; 98; 97; 98; 97; 98; 97; 98]; [97; 0; 99]] ->
              exists out, Dictionary.compress d s = OK out.
Proof.
  apply trained_dictionary_compresses_samples.
  - unfold is_byte. repeat constructor; lia.
  - reflexivity.
Defined.

(* ===================================================================== *)
(** * More properties: Kraft's inequality when few symbols occur *)
(* ===================================================================== *)

(** ** The weight of a table of lengths *)

Lemma kraft_weight_cons (len : Z) (lengths : list Z) :
  kraft_weight (len :: lengths) = length_weight len + kraft_weight lengths.
Proof. unfold kraft_weight, length_weight. simpl. destruct (0 <? len); lia. Qed.

Lemma kraft_weight_app (l1 l2 : list Z) :
  kraft_weight (l1 ++ l2) = kraft_weight l1 + kraft_weight l2.
Proof.
  induction l1 as [|x l1 IH]; [reflexivity |].
  rewrite <- app_comm_cons, !kraft_weight_cons, IH. lia.
Qed.

Lemma kraft_weight_zeros (n : nat) : kraft_weight (zeros n) = 0.
Proof.
  induction n as [|n IH]; [reflexivity |].
  change (zeros (S n)) with (0 :: zeros n). rewrite kraft_weight_cons, IH. reflexivity.
Qed.

Lemma nth_zeros (i n : nat) : nth i (zeros n) 0 = 0.
Proof.
  unfold zeros. destruct (Nat.lt_ge_cases i n).
  - apply nth_repeat_lt. assumption.
  - apply nth_overflow. rewrite repeat_length. assumption.
Qed.

Lemma kraft_weight_store (lengths : list Z) (i : nat) (v : Z) :
  (i < length lengths)%nat ->
  kraft_weight (store lengths i v)
  = kraft_weight lengths - length_weight (nth i lengths 0) + length_weight (to_uint8 v).
Proof.
  intros Hi. destruct (store_split lengths i v Hi) as (Hl & Hs).
  pose proof (f_equal kraft_weight Hl) as Hk.
  rewrite kraft_weight_app, kraft_weight_cons in Hk.
  rewrite Hs, kraft_weight_app, kraft_weight_cons. lia.
Qed.

Lemma NoDup_app_disjoint {A : Type} (l1 l2 : list A) (x : A) :
  NoDup (l1 ++ l2) -> In x l1 -> In x l2 -> False.
Proof.
  induction l1 as [|y l1 IH]; intros Hnd H1 H2; [destruct H1 |].
  inversion Hnd as [|? ? Hy Hnd']; subst.
  destruct H1 as [-> | H1].
  - apply Hy. apply in_app_iff. right. exact H2.
  - apply IH; assumption.
Qed.

(** ** The weight [walk] adds *)

Lemma walk_weight (node : SymbolTree.TreeNode) :
  forall (depth : Z) (lengths : list Z),
    1 <= depth -> depth + Z.of_nat (tree_height node) <= 15 ->
    Forall code_length_ok lengths ->
    NoDup (map Z.to_nat (tree_leaves node)) ->
    (forall i, In i (map Z.to_nat (tree_leaves node)) ->
               (i < length lengths)%nat /\ nth i lengths 0 = 0) ->
    kraft_weight (SymbolTree.walk node depth lengths)
    = kraft_weight lengths + 2 ^ (15 - depth).
Proof.
  induction node as [symbol | l IHl r IHr]; intros depth lengths Hd Hh Hok Hnd Hfresh.
  - simpl in *. destruct (Hfresh (Z.to_nat symbol)) as (Hi & Hz); [left; reflexivity |].
    rewrite kraft_weight_store by exact Hi. rewrite Hz.
    rewrite Z.min_l by lia. unfold to_uint8. rewrite Z.mod_small by lia.
    unfold length_weight. destruct (Z.ltb_spec 0 depth); [| lia]. simpl. lia.
  - cbn [SymbolTree.walk tree_leaves tree_height] in *.
    rewrite map_app in Hnd, Hfresh.
    destruct (walk_lengths l (depth + 1) lengths) as (Hok1 & Hlen1);
      [lia | assumption |].
    rewrite IHr.
    + rewrite IHl.
      * replace (15 - depth) with (Z.succ (15 - (depth + 1))) by lia.
        rewrite Z.pow_succ_r by lia. lia.
      * lia.
      * lia.
      * exact Hok.
      * apply NoDup_app_remove_r in Hnd. exact Hnd.
      * intros i Hi. apply Hfresh. apply in_app_iff. left. exact Hi.
    + lia.
    + lia.
    + exact Hok1.
    + apply NoDup_app_remove_l in Hnd. exact Hnd.
    + intros i Hi. rewrite Hlen1.
      destruct (Hfresh i) as (Hlt & Hz); [apply in_app_iff; right; exact Hi |].
      split; [exact Hlt |].
      destruct (walk_nth l (depth + 1) lengths i) as (Hout & _); [lia | exact Hok |].
      rewrite Hout; [exact Hz |].
      intros Hin. apply (NoDup_app_disjoint _ _ i Hnd); assumption.
Qed.

(** ** The tree of [build_tree]: its leaves are the active symbols *)

Lemma tree_height_leaves (node : SymbolTree.TreeNode) :
  (S (tree_height node) <= length (tree_leaves node))%nat.
Proof.
  induction node as [symbol | l IHl r IHr]; simpl; [lia |].
  rewrite length_app. lia.
Qed.

Lemma merge_step_Permutation (q : list SymbolTree.QNode) :
  Permutation (queue_leaves (SymbolTree.merge_step q)) (queue_leaves q).
Proof.
  destruct q as [|l [|r rest]]; [reflexivity | reflexivity |].
  unfold SymbolTree.merge_step, queue_leaves.
  rewrite (Permutation_flat_map _ (insert_sorted_Permutation _ _ _)).
  simpl. rewrite app_assoc. reflexivity.
Qed.

Lemma merge_loop_Permutation (fuel : nat) :
  forall q, Permutation (queue_leaves (SymbolTree.merge_loop fuel q)) (queue_leaves q).
Proof.
  induction fuel as [|fuel IH]; intros q; [reflexivity |].
  destruct q as [|l [|r rest]]; [reflexivity | reflexivity |].
  cbn [SymbolTree.merge_loop]. rewrite IH. apply merge_step_Permutation.
Qed.

Lemma queue_leaves_leaf_queue (active : list (Z * Z)) :
  queue_leaves (map (fun a => {| SymbolTree.freq := snd a;
                                 SymbolTree.tree := SymbolTree.Leaf (fst a) |}) active)
  = map fst active.
Proof.
  induction active as [|a active IH]; [reflexivity |].
  unfold queue_leaves in *. simpl. rewrite IH. reflexivity.
Qed.

Lemma active_symbols_NoDup (frequencies : list Z) :
  NoDup (map Z.to_nat (map fst (SymbolTree.active_symbols frequencies))).
Proof.
  apply NoDup_map_NoDup_ForallPairs.
  - intros x y Hx Hy Heq.
    apply in_map_iff in Hx. destruct Hx as ((sx, fx) & <- & Hx).
    apply in_map_iff in Hy. destruct Hy as ((sy, fy) & <- & Hy).
    apply active_symbols_In in Hx. destruct Hx as (i & _ & -> & _).
    apply active_symbols_In in Hy. destruct Hy as (j & _ & -> & _).
    simpl in *. lia.
  - unfold SymbolTree.active_symbols. apply filter_keeps_distinct_keys. apply indexed_NoDup.
Qed.

(** With at most 16 symbols the tree is at most 15 deep, [walk] cuts no
    depth, and the lengths of a full binary tree sum to one. *)
Lemma build_tree_weight (active : list (Z * Z)) :
  (2 <= length active <= 16)%nat ->
  NoDup (map Z.to_nat (map fst active)) ->
  (forall s, In s (map fst active) -> (Z.to_nat s < 256)%nat) ->
  kraft_weight (SymbolTree.build_tree active (zeros 256)) = 2 ^ 15.
Proof.
  intros Hcount Hnd Hrange. unfold SymbolTree.build_tree.
  set (q0 := map (fun a => {| SymbolTree.freq := snd a;
                              SymbolTree.tree := SymbolTree.Leaf (fst a) |}) active).
  set (q1 := sort (fun a b => SymbolTree.freq a - SymbolTree.freq b) q0).
  assert (Hq1 : length q1 = length active).
  { unfold q1. rewrite sort_length. unfold q0. apply length_map. }
  destruct (merge_loop_root (length q1) q1) as (f & l & r & Hroot); [lia |].
  rewrite Hroot. cbn [SymbolTree.tree].
  assert (Hperm : Permutation (tree_leaves (SymbolTree.Branch l r)) (map fst active)).
  { rewrite <- queue_leaves_leaf_queue. fold q0.
    assert (Hsort : Permutation (queue_leaves q1) (queue_leaves q0)).
    { unfold queue_leaves, q1. apply Permutation_flat_map. apply sort_Permutation. }
    rewrite <- Hsort, <- (merge_loop_Permutation (length q1) q1), Hroot.
    unfold queue_leaves. simpl. rewrite app_nil_r. reflexivity. }
  assert (Hheight : (tree_height (SymbolTree.Branch l r) <= 15)%nat).
  { pose proof (tree_height_leaves (SymbolTree.Branch l r)) as Hh.
    rewrite (Permutation_length Hperm), length_map in Hh. lia. }
  assert (Hnd' : NoDup (map Z.to_nat (tree_leaves (SymbolTree.Branch l r)))).
  { eapply Permutation_NoDup; [| exact Hnd].
    apply Permutation_map. symmetry. exact Hperm. }
  assert (Hfresh : forall i, In i (map Z.to_nat (tree_leaves (SymbolTree.Branch l r))) ->
                             (i < length (zeros 256))%nat /\ nth i (zeros 256) 0 = 0).
  { intros i Hi. apply in_map_iff in Hi. destruct Hi as (s & <- & Hs).
    apply (Permutation_in _ Hperm) in Hs. specialize (Hrange s Hs).
    rewrite zeros_length. split; [exact Hrange |].
    apply nth_repeat_lt. exact Hrange. }
  cbn [tree_leaves tree_height SymbolTree.walk] in *. change (0 + 1) with 1.
  rewrite map_app in Hnd', Hfresh.
  destruct (walk_lengths l 1 (zeros 256)) as (Hok1 & Hlen1);
    [lia | apply zeros_code_lengths |].
  rewrite (walk_weight r 1).
  - rewrite (walk_weight l 1).
    + rewrite kraft_weight_zeros. reflexivity.
    + lia.
    + lia.
    + apply zeros_code_lengths.
    + apply NoDup_app_remove_r in Hnd'. exact Hnd'.
    + intros i Hi. apply Hfresh. apply in_app_iff. left. exact Hi.
  - lia.
  - lia.
  - exact Hok1.
  - apply NoDup_app_remove_l in Hnd'. exact Hnd'.
  - intros i Hi. rewrite Hlen1.
    destruct (Hfresh i) as (Hlt & Hz); [apply in_app_iff; right; exact Hi |].
    split; [exact Hlt |].
    destruct (walk_nth l 1 (zeros 256) i) as (Hout & _);
      [lia | apply zeros_code_lengths |].
    rewrite Hout; [exact Hz |].
    intros Hin. apply (NoDup_app_disjoint _ _ i Hnd'); assumption.
Qed.

(** X21.  [from_frequencies] keeps Kraft's inequality when few symbols
    occur: on a table of 256 frequencies of which at most 16 are not
    zero, the code lengths of the tree it returns have a sum of
    [2^-length], as [clamp_lengths] computes it, of at most 1, and of
    exactly 1 when two symbols or more occur. *)
Theorem from_frequencies_kraft_few_symbols (frequencies : list Z) :
  length frequencies = 256%nat ->
  (length (SymbolTree.active_symbols frequencies) <= 16)%nat ->
  exists tr,
    SymbolTree.from_frequencies frequencies = OK tr /\
    (SymbolTree.kraft_sum (SymbolTree.lengths tr) <= 1)%Q /\
    ((2 <= length (SymbolTree.active_symbols frequencies))%nat ->
     (SymbolTree.kraft_sum (SymbolTree.lengths tr) == 1)%Q).
Proof.
  intros Hlen Hfew.
  destruct (from_frequencies_max_length frequencies Hlen) as (tr & Htr & Hl & Hok).
  exists tr. split; [exact Htr |].
  rewrite (kraft_sum_weight _ Hok).
  assert (Hweight : kraft_weight (SymbolTree.lengths tr) <= 2 ^ 15 /\
                    ((2 <= length (SymbolTree.active_symbols frequencies))%nat ->
                     kraft_weight (SymbolTree.lengths tr) = 2 ^ 15)).
  { pose proof (active_symbols_NoDup frequencies) as Hnd.
    assert (Hrange : forall s, In s (map fst (SymbolTree.active_symbols frequencies)) ->
                               (Z.to_nat s < 256)%nat).
    { intros s Hs. apply in_map_iff in Hs. destruct Hs as ((s', f) & <- & Hs).
      apply active_symbols_In in Hs. destruct Hs as (i & Hi & -> & _). simpl. lia. }
    unfold SymbolTree.from_frequencies in Htr. rewrite Hlen in Htr.
    simpl negb in Htr. cbv iota in Htr.
    assert (Hmake : forall ls, SymbolTree.make ls = OK tr -> length ls = 256%nat ->
                               SymbolTree.lengths tr = ls).
    { intros ls Hm Hls. unfold SymbolTree.make in Hm. rewrite Hls in Hm.
      simpl in Hm. injection Hm as <-. reflexivity. }
    destruct (SymbolTree.active_symbols frequencies) as [|(s0, f0) [|a' active]] eqn:Ha.
    - rewrite (Hmake _ Htr (zeros_length 256)), kraft_weight_zeros.
      split; [lia | simpl; lia].
    - rewrite (Hmake _ Htr) by (rewrite store_length; apply zeros_length).
      simpl fst. rewrite kraft_weight_store
        by (rewrite zeros_length; apply Hrange; left; reflexivity).
      rewrite kraft_weight_zeros, nth_zeros.
      split; [vm_compute; discriminate | simpl; lia].
    - set (act := (s0, f0) :: a' :: active) in *.
      assert (Hwalk : Forall code_length_ok (SymbolTree.build_tree act (zeros 256)) /\
                      length (SymbolTree.build_tree act (zeros 256)) = 256%nat).
      { unfold SymbolTree.build_tree.
        destruct (SymbolTree.merge_loop _ _) as [|root q].
        - split; [apply zeros_code_lengths | apply zeros_length].
        - destruct (walk_lengths (SymbolTree.tree root) 0 (zeros 256)) as (Hw & Hwl);
            [lia | apply zeros_code_lengths |].
          split; [assumption | rewrite Hwl; apply zeros_length]. }
      destruct Hwalk as (Hwok & Hbt).
      rewrite clamp_lengths_idle in Htr
        by (eapply Forall_impl; [| exact Hwok]; unfold code_length_ok; intros; lia).
      rewrite (Hmake _ Htr Hbt).
      rewrite build_tree_weight; [split; [lia | reflexivity] | | exact Hnd | exact Hrange].
      unfold act in *. simpl length in *. lia. }
  destruct Hweight as (Hle & Heq). split.
  - unfold Qle. simpl. change (2 ^ 15) with 32768 in Hle. lia.
  - intros H2. rewrite (Heq H2). reflexivity.
Qed.

Lemma from_frequencies_kraft_few_symbols_witness :
  exists tr,
    SymbolTree.from_frequencies (zeros 97 ++ [5; 0; 3; 1] ++ zeros 155) = OK tr /\
    (SymbolTree.kraft_sum (SymbolTree.lengths tr) <= 1)%Q /\
    (SymbolTree.kraft_sum (SymbolTree.lengths tr) == 1)%Q.
Proof.
  destruct (from_frequencies_kraft_few_symbols (zeros 97 ++ [5; 0; 3; 1] ++ zeros 155))
    as (tr & Htr & Hle & Heq).
  - reflexivity.
  - vm_compute. lia.
  - exists tr. split; [exact Htr |]. split; [exact Hle |].
    apply Heq. vm_compute. lia.
Defined.

(* ===================================================================== *)
(** * More properties: a trained dictionary under Kraft's inequality *)
(* ===================================================================== *)

Lemma length_concat_In (s : bytes) (samples : list bytes) :
  In s samples -> (length s <= length (concat samples))%nat.
Proof.
  induction samples as [|s0 samples IH]; intros Hin; [destruct Hin |].
  simpl. rewrite length_app. destruct Hin as [-> | Hin]; [lia |].
  specialize (IH Hin). lia.
Qed.

(** X22.  A trained dictionary inverts itself on its samples when its
    tree satisfies Kraft's inequality: for samples of fewer than [2^31]
    bytes in all and the dictionary training returns for them, if the
    sum of [2^-length] over the code lengths of its tree is at most 1,
    then [compress] returns on every sample and [decompress] gives the
    sample back. *)
Theorem trained_dictionary_roundtrip (samples : list bytes) (d : Dictionary.t)
        (s : bytes) (n : Z) :
  Forall (Forall is_byte) samples ->
  Z.of_nat (length (concat samples)) < 2 ^ 31 ->
  Dictionary.train samples = OK d ->
  (SymbolTree.kraft_sum (SymbolTree.lengths (Dictionary.tree d)) <= 1)%Q ->
  In s samples ->
  exists out,
    Dictionary.compress d s = OK out /\ Dictionary.decompress d out n = OK s.
Proof.
  intros Hbytes Hsize Htrain Hkraft Hs.
  destruct (trained_compress_returns samples Hbytes Hsize) as (d' & Hd' & Hcompress).
  rewrite Htrain in Hd'. injection Hd' as <-.
  destruct (train_well_formed samples) as (d' & Hd' & Hmax & Hstrings & Hl & Hok).
  rewrite Htrain in Hd'. injection Hd' as <-.
  destruct (Hcompress s Hs) as (out & Hout).
  exists out. split; [exact Hout |].
  apply (dictionary_decompress_compress d s out n); try assumption.
  - eapply Forall_impl; [| exact Hstrings]. intros str Hstr ->.
    simpl in Hstr. intuition discriminate.
  - rewrite Forall_forall in Hbytes. apply Hbytes. exact Hs.
  - pose proof (length_concat_In s samples Hs).
    change (2 ^ 32) with (2 * 2 ^ 31). lia.
Qed.

Lemma trained_dictionary_roundtrip_witness :
  exists out,
    Dictionary.compress
      {| Dictionary.strings := [[97; 98; 97; 98]; [98; 97; 98; 97]];
         Dictionary.tree :=
           {| SymbolTree.lengths := [1; 2] ++ zeros 95 ++ [3; 0; 3] ++ zeros 156 |} |}
      [97; 0; 99] = OK out /\
    Dictionary.decompress
      {| Dictionary.strings := [[97; 98; 97; 98]; [98; 97; 98; 97]];
         Dictionary.tree :=
           {| SymbolTree.lengths := [1; 2] ++ zeros 95 ++ [3; 0; 3] ++ zeros 156 |} |}
      out 3 = OK [97; 0; 99].
Proof.
  apply (trained_dictionary_roundtrip
           [[97; 98; 97; 98; 97; 98; 97; 98]; [97; 0; 99]]).
  - unfold is_byte. repeat constructor; lia.
  - reflexivity.
  - vm_compute. reflexivity.
  - vm_compute. discriminate.
  - simpl. tauto.
Defined.
